(** * simple-markdown: the parser dispatcher, the default rules and the
      HTML output of [src/index.jsx], embedded in Rocq.

    The file follows the source top-down.  JavaScript strings are lists of
    UTF-16 code units, regular expressions are parsed from their pattern
    text and run by a backtracking matcher that follows the ECMAScript
    matching rules, JavaScript objects are association lists from property
    names to values, and the [state] object that the source mutates in
    place is threaded explicitly through every call. *)

From Stdlib Require Import List NArith ZArith QArith String Ascii Bool Lia.
Import ListNotations.
Close Scope Q_scope.
Open Scope nat_scope.

Set Implicit Arguments.
Set Warnings "-register-all".

(** ** JavaScript strings *)

Module JS.

(** A string is a sequence of UTF-16 code units. *)
Definition jsstring := list N.

(** [str] reads a Rocq string literal as a JavaScript string, one code unit
    per character. *)
Definition str (s : string) : jsstring :=
  List.map N_of_ascii (list_ascii_of_string s).

Definition LF : N := 10%N.
Definition CR : N := 13%N.
Definition TAB : N := 9%N.
Definition FF : N := 12%N.
Definition DQUOTE : N := 34%N.

Fixpoint str_eqb (a b : jsstring) : bool :=
  match a, b with
  | [], [] => true
  | x :: a', y :: b' => N.eqb x y && str_eqb a' b'
  | _, _ => false
  end.

(** [s.substring(n)] *)
Definition substring_from (n : nat) (s : jsstring) : jsstring := skipn n s.

(** [a < b] on strings: lexicographic on code units. *)
Fixpoint str_ltb (a b : jsstring) : bool :=
  match a, b with
  | _, [] => false
  | [], _ :: _ => true
  | x :: a', y :: b' => N.ltb x y || (N.eqb x y && str_ltb a' b')
  end.

Fixpoint is_prefix (p s : jsstring) : bool :=
  match p, s with
  | [], _ => true
  | x :: p', y :: s' => N.eqb x y && is_prefix p' s'
  | _ :: _, [] => false
  end.

(** [s.indexOf(p) !== -1] *)
Fixpoint contains (p s : jsstring) : bool :=
  is_prefix p s ||
  match s with
  | [] => false
  | _ :: s' => contains p s'
  end.

(** [s.indexOf(p) === 0] *)
Definition starts_with (p s : jsstring) : bool := is_prefix p s.

Definition in_range (lo hi c : N) : bool := N.leb lo c && N.leb c hi.

(** ASCII case mapping; on the strings the source lowercases this is what
    [toLowerCase] does to every code unit below 128.  Code units from 128
    on are left alone. *)
Definition lower_char (c : N) : N :=
  if in_range 65 90 c then (c + 32)%N else c.
Definition upper_char (c : N) : N :=
  if in_range 97 122 c then (c - 32)%N else c.
Definition toLowerCase (s : jsstring) : jsstring := List.map lower_char s.

(** WhiteSpace and LineTerminator code units: the class [\s], and what
    [trim] strips. *)
Definition space_ranges : list (N * N) :=
  [ (9, 13); (32, 32); (160, 160); (5760, 5760); (8192, 8202);
    (8232, 8233); (8239, 8239); (8287, 8287); (12288, 12288);
    (65279, 65279) ]%N.
Definition digit_ranges : list (N * N) := [ (48, 57) ]%N.
Definition word_ranges : list (N * N) :=
  [ (48, 57); (65, 90); (95, 95); (97, 122) ]%N.
(** LineTerminator: what [.] refuses, and where [^] and [$] hold under
    the [m] flag. *)
Definition line_terminator_ranges : list (N * N) :=
  [ (10, 10); (13, 13); (8232, 8233) ]%N.

Definition in_ranges (rs : list (N * N)) (c : N) : bool :=
  existsb (fun r => in_range (fst r) (snd r) c) rs.

Definition is_space (c : N) : bool := in_ranges space_ranges c.
Definition is_word (c : N) : bool := in_ranges word_ranges c.
Definition is_line_terminator (c : N) : bool :=
  in_ranges line_terminator_ranges c.

Fixpoint trim_start (s : jsstring) : jsstring :=
  match s with
  | c :: s' => if is_space c then trim_start s' else s
  | [] => []
  end.
Definition trim_end (s : jsstring) : jsstring := rev (trim_start (rev s)).
(** [s.trim()] *)
Definition trim (s : jsstring) : jsstring := trim_end (trim_start s).

(** [s.split(sep)] for a separator of one code unit. *)
Fixpoint split_on (sep : N) (s : jsstring) : list jsstring :=
  match s with
  | [] => [ [] ]
  | c :: s' =>
      match split_on sep s' with
      | piece :: more =>
          if N.eqb c sep then [] :: piece :: more else (c :: piece) :: more
      | [] => [ [c] ]
      end
  end.

(** [parts.join('')] *)
Definition join (parts : list jsstring) : jsstring := List.concat parts.

(** Decimal digits of a natural number: [String(n)]. *)
Fixpoint digits_fuel (fuel : nat) (n : N) (acc : jsstring) : jsstring :=
  match fuel with
  | O => acc
  | S fuel' =>
      let acc' := (48 + N.modulo n 10)%N :: acc in
      if N.ltb n 10 then acc' else digits_fuel fuel' (N.div n 10) acc'
  end.
Definition string_of_N (n : N) : jsstring :=
  digits_fuel (S (N.to_nat (N.log2 n))) n [].
Definition string_of_Z (z : Z) : jsstring :=
  match z with
  | Z0 => str "0"
  | Zpos p => string_of_N (Npos p)
  | Zneg p => str "-" ++ string_of_N (Npos p)
  end.

End JS.
Import JS.

(** ** Regular expressions

    The pattern language of the regular expressions in the source, and a
    backtracking matcher for it.  The matcher is written in
    continuation-passing style after the ECMAScript specification of
    pattern matching: alternatives are tried left to right, a quantifier
    is greedy or lazy, every round of a quantifier first forgets the
    captures of the groups inside it, and a round that matched the empty
    string once the minimum is reached is refused. *)

Module Regex.

(** One entry of a character class: a range of code units, or the
    complement of a named set ([\S], [\D], [\W]). *)
Inductive class_item :=
| CRange (lo hi : N)
| CNotIn (rs : list (N * N)).

Record charset := { negated : bool; items : list class_item }.

Inductive re :=
| REmpty
| RChar (cs : charset)
| RSeq (a b : re)
| RAlt (a b : re)
| RRep (greedy : bool) (min : nat) (max : option nat) (a : re)
| RGroup (i : nat) (a : re)
| RBackref (i : nat)
| RLook (positive : bool) (a : re)
| RBol
| REol
| RWordB (positive : bool).

Record RegExp := {
  pattern : re;
  ngroups : nat;
  global : bool;
  ignoreCase : bool;
  multiline : bool
}.

Definition item_mem (it : class_item) (c : N) : bool :=
  match it with
  | CRange lo hi => in_range lo hi c
  | CNotIn rs => negb (in_ranges rs c)
  end.

Definition items_mem (its : list class_item) (c : N) : bool :=
  existsb (fun it => item_mem it c) its.

(** Membership of a code unit in a class.  Under the [i] flag a code unit
    also matches through its ASCII case variants (the only pattern with
    that flag is [/mailto:/i]). *)
Definition cs_mem (ic : bool) (cs : charset) (c : N) : bool :=
  let hit := items_mem (items cs) c
             || (ic && (items_mem (items cs) (lower_char c)
                        || items_mem (items cs) (upper_char c))) in
  if negated cs then negb hit else hit.

(** A position in the subject string: the index, the code unit before it
    and what is left. *)
Record pos := { idx : nat; prev : option N; rest : jsstring }.

Definition caps := list (option jsstring).

Fixpoint set_cap (i : nat) (v : option jsstring) (c : caps) : caps :=
  match i, c with
  | O, _ :: c' => v :: c'
  | S i', x :: c' => x :: set_cap i' v c'
  | _, [] => []
  end.

Definition get_cap (i : nat) (c : caps) : option jsstring :=
  nth i c None.

(** The capture groups that stand inside a pattern. *)
Fixpoint groups_in (r : re) : list nat :=
  match r with
  | RSeq a b | RAlt a b => groups_in a ++ groups_in b
  | RRep _ _ _ a | RLook _ a => groups_in a
  | RGroup i a => i :: groups_in a
  | _ => []
  end.

Definition clear_caps (gs : list nat) (c : caps) : caps :=
  fold_left (fun acc i => set_cap i None acc) gs c.

(** Step over [n] code units. *)
Fixpoint advance (n : nat) (p : pos) : pos :=
  match n, rest p with
  | S n', a :: tl => advance n' {| idx := S (idx p); prev := Some a; rest := tl |}
  | _, _ => p
  end.

Definition char_eqb (ic : bool) (a b : N) : bool :=
  if ic then N.eqb (upper_char a) (upper_char b) else N.eqb a b.

Fixpoint prefix_eqb (ic : bool) (p s : jsstring) : bool :=
  match p, s with
  | [], _ => true
  | x :: p', y :: s' => char_eqb ic x y && prefix_eqb ic p' s'
  | _ :: _, [] => false
  end.

Definition at_bol (ml : bool) (p : pos) : bool :=
  match prev p with
  | None => true
  | Some c => ml && is_line_terminator c
  end.

Definition at_eol (ml : bool) (p : pos) : bool :=
  match rest p with
  | [] => true
  | c :: _ => ml && is_line_terminator c
  end.

Definition at_word_boundary (p : pos) : bool :=
  let a := match prev p with Some c => is_word c | None => false end in
  let b := match rest p with c :: _ => is_word c | [] => false end in
  xorb a b.

Definition K := pos -> caps -> option (pos * caps).

Definition orelse {A} (x : option A) (y : unit -> option A) : option A :=
  match x with
  | Some v => Some v
  | None => y tt
  end.

(** Rounds of a quantifier.  [fuel] bounds the number of rounds: every
    round either uses up one of the [mn] required rounds or consumes a
    code unit, so [mn + length (rest p) + 1] rounds are never exceeded. *)
Fixpoint repeat_matcher (body : pos -> caps -> K -> option (pos * caps))
    (greedy : bool) (k : K) (fuel : nat)
    (mn : nat) (mx : option nat) (p : pos) (c : caps)
    {struct fuel} : option (pos * caps) :=
  match fuel with
  | O => None
  | S fuel' =>
      match mx with
      | Some O => k p c
      | _ =>
          let round (_ : unit) :=
            body p c (fun p' c' =>
              if Nat.eqb mn 0 && Nat.eqb (idx p') (idx p) then None
              else repeat_matcher body greedy k fuel'
                     (Nat.pred mn) (option_map Nat.pred mx) p' c') in
          if negb (Nat.eqb mn 0) then round tt
          else if greedy then orelse (round tt) (fun _ => k p c)
          else orelse (k p c) round
      end
  end.

Section Matcher.
Variables (ic ml : bool).

Fixpoint m (r : re) (p : pos) (c : caps) (k : K) {struct r}
    : option (pos * caps) :=
  match r with
  | REmpty => k p c
  | RChar cs =>
      match rest p with
      | a :: _ => if cs_mem ic cs a then k (advance 1 p) c else None
      | [] => None
      end
  | RSeq a b => m a p c (fun p' c' => m b p' c' k)
  | RAlt a b => orelse (m a p c k) (fun _ => m b p c k)
  | RRep greedy mn mx a =>
      repeat_matcher
        (fun p0 c0 k0 => m a p0 (clear_caps (groups_in a) c0) k0)
        greedy k (mn + List.length (rest p) + 1) mn mx p c
  | RGroup i a =>
      m a p c (fun p' c' =>
        k p' (set_cap i (Some (firstn (idx p' - idx p) (rest p))) c'))
  | RBackref i =>
      match get_cap i c with
      | None => k p c
      | Some s =>
          if prefix_eqb ic s (rest p) then k (advance (List.length s) p) c
          else None
      end
  | RLook positive a =>
      match m a p c (fun p' c' => Some (p', c')) with
      | Some (_, c') => if positive then k p c' else None
      | None => if positive then None else k p c
      end
  | RBol => if at_bol ml p then k p c else None
  | REol => if at_eol ml p then k p c else None
  | RWordB positive =>
      if Bool.eqb (at_word_boundary p) positive then k p c else None
  end.

End Matcher.

(** The result of [exec]: where the match starts and the captures, the
    one at 0 being the whole match. *)
Record Match := { index : nat; captures : list (option jsstring) }.

Definition capture (i : nat) (mt : Match) : option jsstring :=
  nth i (captures mt) None.

(** [capture[i]] where the code uses it as a string. *)
Definition group (i : nat) (mt : Match) : jsstring :=
  match capture i mt with
  | Some s => s
  | None => []
  end.

Definition match_at (r : RegExp) (p : pos) : option (Match * pos) :=
  match m (ignoreCase r) (multiline r) (pattern r) p
          (repeat None (S (ngroups r))) (fun p' c' => Some (p', c')) with
  | Some (p', c') =>
      Some ({| index := idx p;
               captures := Some (firstn (idx p' - idx p) (rest p)) :: List.tl c' |},
            p')
  | None => None
  end.

(** Try every start position from [p] on, leftmost first. *)
Fixpoint search_from (r : RegExp) (i : nat) (pv : option N) (s : jsstring)
    : option (Match * pos) :=
  match match_at r {| idx := i; prev := pv; rest := s |} with
  | Some x => Some x
  | None =>
      match s with
      | [] => None
      | a :: s' => search_from r (S i) (Some a) s'
      end
  end.

(** [regex.exec(s)], for a regex whose [lastIndex] is 0. *)
Definition exec (r : RegExp) (s : jsstring) : option Match :=
  option_map fst (search_from r 0 None s).

(** [regex.test(s)] *)
Definition test (r : RegExp) (s : jsstring) : bool :=
  match exec r s with
  | Some _ => true
  | None => false
  end.

(** All matches of a global regex, left to right; after an empty match
    the search moves on by one code unit. *)
Fixpoint matches_from (fuel : nat) (r : RegExp) (p : pos) : list (Match * pos) :=
  match fuel with
  | O => []
  | S fuel' =>
      match search_from r (idx p) (prev p) (rest p) with
      | None => []
      | Some (mt, p') =>
          let next := if Nat.eqb (idx p') (index mt) then
                        match rest p' with
                        | [] => None
                        | _ :: _ => Some (advance 1 p')
                        end
                      else Some p' in
          (mt, p') :: match next with
                      | Some q => matches_from fuel' r q
                      | None => []
                      end
      end
  end.

Definition start_pos (s : jsstring) : pos :=
  {| idx := 0; prev := None; rest := s |}.

Definition all_matches (r : RegExp) (s : jsstring) : list (Match * pos) :=
  if global r then matches_from (S (List.length s)) r (start_pos s)
  else match search_from r 0 None s with
       | Some x => [x]
       | None => []
       end.

(** [s.match(r)] for a global [r]: the matched strings, or null. *)
Definition match_all (r : RegExp) (s : jsstring) : option (list jsstring) :=
  match all_matches r s with
  | [] => None
  | ms => Some (List.map (fun x => group 0 (fst x)) ms)
  end.

(** Put the replacements in place of the matches. *)
Fixpoint splice (s : jsstring) (at_ : nat) (ms : list (Match * pos))
    (f : Match -> jsstring) : jsstring :=
  match ms with
  | [] => skipn at_ s
  | (mt, p') :: ms' =>
      firstn (index mt - at_) (skipn at_ s) ++ f mt ++ splice s (idx p') ms' f
  end.

(** [s.replace(r, f)]: every match when [r] is global, else the first. *)
Definition replace (r : RegExp) (f : Match -> jsstring) (s : jsstring) : jsstring :=
  splice s 0 (all_matches r s) f.

End Regex.
Import Regex.

(** ** Reading a pattern

    A regular expression is written here as its pattern text, the text
    between the slashes of the source's literal (or the value of the
    string given to [new RegExp]), and parsed by [parse_pattern].  Two
    spellings differ from the source: a double quote is written [\x22],
    and a line feed that a JavaScript string literal puts into a pattern
    is written [\n]. *)

Module Pattern.

#[local] Open Scope char_scope.

Definition single (c : N) : charset :=
  {| negated := false; items := [CRange c c] |}.
Definition of_ranges (neg : bool) (rs : list (N * N)) : charset :=
  {| negated := neg; items := List.map (fun r => CRange (fst r) (snd r)) rs |}.
Definition lit (a : ascii) : re := RChar (single (N_of_ascii a)).

Definition hex_digit (a : ascii) : option N :=
  let c := N_of_ascii a in
  if in_range 48 57 c then Some (c - 48)%N
  else if in_range 97 102 c then Some (c - 87)%N
  else if in_range 65 70 c then Some (c - 55)%N
  else None.

Fixpoint hex_number (n : nat) (s : string) (acc : N) : option (N * string) :=
  match n with
  | O => Some (acc, s)
  | S n' =>
      match s with
      | String a s' =>
          match hex_digit a with
          | Some d => hex_number n' s' (acc * 16 + d)%N
          | None => None
          end
      | EmptyString => None
      end
  end.

Definition is_digit (a : ascii) : bool := in_range 48 57 (N_of_ascii a).

Fixpoint decimal (s : string) (acc : nat) : nat * string :=
  match s with
  | String a s' =>
      if is_digit a then decimal s' (acc * 10 + (nat_of_ascii a - 48))
      else (acc, s)
  | EmptyString => (acc, s)
  end.

(** What stands after a backslash: a set, or one code unit. *)
Inductive escape :=
| EItems (its : list class_item)
| EChar (c : N)
| EBackref (i : nat).

Definition parse_escape (s : string) : option (escape * string) :=
  match s with
  | String "d" s' => Some (EItems (items (of_ranges false digit_ranges)), s')
  | String "s" s' => Some (EItems (items (of_ranges false space_ranges)), s')
  | String "w" s' => Some (EItems (items (of_ranges false word_ranges)), s')
  | String "D" s' => Some (EItems [CNotIn digit_ranges], s')
  | String "S" s' => Some (EItems [CNotIn space_ranges], s')
  | String "W" s' => Some (EItems [CNotIn word_ranges], s')
  | String "n" s' => Some (EChar 10, s')
  | String "r" s' => Some (EChar 13, s')
  | String "t" s' => Some (EChar 9, s')
  | String "f" s' => Some (EChar 12, s')
  | String "v" s' => Some (EChar 11, s')
  | String "u" s' =>
      match hex_number 4 s' 0 with
      | Some (c, s'') => Some (EChar c, s'')
      | None => None
      end
  | String "x" s' =>
      match hex_number 2 s' 0 with
      | Some (c, s'') => Some (EChar c, s'')
      | None => None
      end
  | String a s' =>
      if is_digit a then
        if Ascii.eqb a "0" then Some (EChar 0, s')
        else Some (EBackref (nat_of_ascii a - 48), s')
      else if is_word (N_of_ascii a) then None
      else Some (EChar (N_of_ascii a), s')
  | EmptyString => None
  end.

(** The inside of [[...]], up to the closing bracket. *)
Fixpoint parse_class (fuel : nat) (s : string) (acc : list class_item)
    : option (list class_item * string) :=
  match fuel with
  | O => None
  | S fuel' =>
      match s with
      | EmptyString => None
      | String "]" s' => Some (rev acc, s')
      | _ =>
          let atom :=
            match s with
            | String "\" s' =>
                match parse_escape s' with
                | Some (EBackref _, _) => None
                | x => x
                end
            | String a s' => Some (EChar (N_of_ascii a), s')
            | EmptyString => None
            end in
          match atom with
          | Some (EChar lo, String "-" (String "]" s')) =>
              Some (rev (CRange 45 45 :: CRange lo lo :: acc), s')
          | Some (EChar lo, String "-" s') =>
              let hi_atom :=
                match s' with
                | String "\" s'' => parse_escape s''
                | String a s'' => Some (EChar (N_of_ascii a), s'')
                | EmptyString => None
                end in
              match hi_atom with
              | Some (EChar hi, s'') =>
                  if N.leb lo hi then parse_class fuel' s'' (CRange lo hi :: acc)
                  else None
              | _ => None
              end
          | Some (EChar c, s') => parse_class fuel' s' (CRange c c :: acc)
          | Some (EItems its, s') => parse_class fuel' s' (rev its ++ acc)
          | _ => None
          end
      end
  end.

(** A quantifier after an atom, if there is one. *)
Definition parse_quantifier (atom : re) (s : string) : option (re * string) :=
  let bounds :=
    match s with
    | String "*" s' => Some (0, None, s')
    | String "+" s' => Some (1, None, s')
    | String "?" s' => Some (0, Some 1, s')
    | String "{" s' =>
        match s' with
        | String a _ =>
            if is_digit a then
              let '(lo, s1) := decimal s' 0 in
              match s1 with
              | String "}" s2 => Some (lo, Some lo, s2)
              | String "," (String "}" s2) => Some (lo, None, s2)
              | String "," s2 =>
                  let '(hi, s3) := decimal s2 0 in
                  match s3 with
                  | String "}" s4 =>
                      if Nat.leb lo hi then Some (lo, Some hi, s4) else None
                  | _ => None
                  end
              | _ => None
              end
            else None
        | EmptyString => None
        end
    | _ => None
    end in
  match s with
  | String "*" _ | String "+" _ | String "?" _ | String "{" _ =>
      match bounds with
      | Some (lo, hi, String "?" s') => Some (RRep false lo hi atom, s')
      | Some (lo, hi, s') => Some (RRep true lo hi atom, s')
      | None => None
      end
  | _ => Some (atom, s)
  end.

Definition seq (a b : re) : re :=
  match b with
  | REmpty => a
  | _ => RSeq a b
  end.

Definition dot : charset := of_ranges true line_terminator_ranges.

(** Disjunction, alternative and term of the pattern grammar; [g] counts
    the capture groups opened so far. *)
Fixpoint parse_disjunction (fuel : nat) (s : string) (g : nat)
    {struct fuel} : option (re * string * nat) :=
  match fuel with
  | O => None
  | S fuel' =>
      match parse_alternative fuel' s g with
      | Some (a, String "|" s1, g1) =>
          match parse_disjunction fuel' s1 g1 with
          | Some (b, s2, g2) => Some (RAlt a b, s2, g2)
          | None => None
          end
      | x => x
      end
  end
with parse_alternative (fuel : nat) (s : string) (g : nat)
    {struct fuel} : option (re * string * nat) :=
  match fuel with
  | O => None
  | S fuel' =>
      match s with
      | EmptyString | String "|" _ | String ")" _ => Some (REmpty, s, g)
      | _ =>
          match parse_term fuel' s g with
          | Some (t, s1, g1) =>
              match parse_alternative fuel' s1 g1 with
              | Some (more, s2, g2) => Some (seq t more, s2, g2)
              | None => None
              end
          | None => None
          end
      end
  end
with parse_term (fuel : nat) (s : string) (g : nat)
    {struct fuel} : option (re * string * nat) :=
  match fuel with
  | O => None
  | S fuel' =>
      let group (inner : string) (g0 : nat) (wrap : re -> re) (quantified : bool) :=
        match parse_disjunction fuel' inner g0 with
        | Some (r, String ")" s1, g1) =>
            if quantified then
              match parse_quantifier (wrap r) s1 with
              | Some (q, s2) => Some (q, s2, g1)
              | None => None
              end
            else Some (wrap r, s1, g1)
        | _ => None
        end in
      let quantify (atom : re) (s1 : string) :=
        match parse_quantifier atom s1 with
        | Some (q, s2) => Some (q, s2, g)
        | None => None
        end in
      match s with
      | String "^" s' => Some (RBol, s', g)
      | String "$" s' => Some (REol, s', g)
      | String "\" (String "b" s') => Some (RWordB true, s', g)
      | String "\" (String "B" s') => Some (RWordB false, s', g)
      | String "(" (String "?" (String "=" s')) => group s' g (RLook true) false
      | String "(" (String "?" (String "!" s')) => group s' g (RLook false) false
      | String "(" (String "?" (String ":" s')) => group s' g (fun r => r) true
      | String "(" (String "?" _) => None
      | String "(" s' => group s' (S g) (RGroup (S g)) true
      | String "." s' => quantify (RChar dot) s'
      | String "[" (String "^" s') =>
          match parse_class fuel' s' [] with
          | Some (its, s1) => quantify (RChar {| negated := true; items := its |}) s1
          | None => None
          end
      | String "[" s' =>
          match parse_class fuel' s' [] with
          | Some (its, s1) => quantify (RChar {| negated := false; items := its |}) s1
          | None => None
          end
      | String "\" s' =>
          match parse_escape s' with
          | Some (EItems its, s1) =>
              quantify (RChar {| negated := false; items := its |}) s1
          | Some (EChar c, s1) => quantify (RChar (single c)) s1
          | Some (EBackref i, s1) => quantify (RBackref i) s1
          | None => None
          end
      | String "*" _ | String "+" _ | String "?" _ | String "{" _
      | String "}" _ | String "]" _ | String ")" _ | String "|" _ => None
      | String a s' => quantify (lit a) s'
      | EmptyString => None
      end
  end.

Definition parse_pattern (s : string) : option (re * nat) :=
  match parse_disjunction (4 * String.length s + 8) s 0 with
  | Some (r, EmptyString, g) => Some (r, g)
  | _ => None
  end.

(** The regular expression of a pattern text; a text that does not parse
    has no regular expression, and a definition built on it does not
    type-check. *)
Definition regexp_type (o : option (re * nat)) : Type :=
  match o with
  | Some _ => RegExp
  | None => unit
  end.

Definition regexp_of (g i ml : bool) (o : option (re * nat)) : regexp_type o :=
  match o with
  | Some (r, n) =>
      {| pattern := r; ngroups := n; global := g; ignoreCase := i; multiline := ml |}
  | None => tt
  end.

End Pattern.

Import Pattern.

(** [re_ p] is the literal [/p/]; [re_g], [re_gm] and [re_i] carry the
    flags of their names. *)
Definition re_ (p : string) := regexp_of false false false (parse_pattern p).
Definition re_g (p : string) := regexp_of true false false (parse_pattern p).
Definition re_gm (p : string) := regexp_of true false true (parse_pattern p).
Definition re_i (p : string) := regexp_of false true false (parse_pattern p).

(** ** Values, objects and the state *)

(** JavaScript values as the source builds them.  An object keeps its
    properties in insertion order.  [VCapture] is the array a match
    function returns.  [VRef] is the address of a reference link or image
    node: those nodes are shared between the syntax tree and
    [state._refs] and are written to after they were returned, so they
    live in a store.  [VNative] is a member of [Object.prototype], which
    a lookup by a key such as [constructor] finds on a plain object. *)
Inductive value :=
| VUndef
| VNull
| VBool (b : bool)
| VNum (n : Z)
| VStr (s : jsstring)
| VArr (l : list value)
| VObj (fields : list (jsstring * value))
| VCapture (mt : Match)
| VRef (a : nat)
| VNative.

Definition obj := list (jsstring * value).

Fixpoint get (k : jsstring) (o : obj) : value :=
  match o with
  | [] => VUndef
  | (k', v) :: o' => if str_eqb k k' then v else get k o'
  end.

Fixpoint has (k : jsstring) (o : obj) : bool :=
  match o with
  | [] => false
  | (k', _) :: o' => str_eqb k k' || has k o'
  end.

(** [o[k] = v] *)
Fixpoint set (k : jsstring) (v : value) (o : obj) : obj :=
  match o with
  | [] => [(k, v)]
  | (k', v') :: o' => if str_eqb k k' then (k, v) :: o' else (k', v') :: set k v o'
  end.

Definition truthy (v : value) : bool :=
  match v with
  | VUndef | VNull => false
  | VBool b => b
  | VNum n => negb (Z.eqb n 0)
  | VStr s => match s with [] => false | _ => true end
  | _ => true
  end.

(** [v == null] *)
Definition is_nullish (v : value) : bool :=
  match v with
  | VUndef | VNull => true
  | _ => false
  end.

(** [v.p] for a value that is an object; undefined otherwise. *)
Definition prop (p : string) (v : value) : value :=
  match v with
  | VObj o => get (str p) o
  | _ => VUndef
  end.

Definition of_option (o : option jsstring) : value :=
  match o with
  | Some s => VStr s
  | None => VUndef
  end.

(** The state object together with the store of reference nodes. *)
Record State := { fields : obj; heap : list value }.

Definition empty_state : State := {| fields := []; heap := [] |}.

Definition sget (p : string) (st : State) : value := get (str p) (fields st).
Definition sset (p : string) (v : value) (st : State) : State :=
  {| fields := set (str p) v (fields st); heap := heap st |}.

Inductive error :=
| NoMatchingRule (lastRule : option jsstring) (source : jsstring)
| UnanchoredMatch
| MissingArrayJoiner
| TypeError
| SyntaxError
| OutOfFuel.

Inductive result (A : Type) :=
| Ok (a : A)
| Throw (e : error).
Arguments Ok {A} a.
Arguments Throw {A} e.

(** Code that reads and writes the state and may throw. *)
Definition M (A : Type) := State -> result (A * State).

Definition ret {A} (a : A) : M A := fun st => Ok (a, st).
Definition throw {A} (e : error) : M A := fun _ => Throw e.
Definition bind {A B} (x : M A) (f : A -> M B) : M B :=
  fun st => match x st with
            | Ok (a, st') => f a st'
            | Throw e => Throw e
            end.
Definition read_state : M State := fun st => Ok (st, st).
Definition write (p : string) (v : value) : M unit :=
  fun st => Ok (tt, sset p v st).
Definition read (p : string) : M value := fun st => Ok (sget p st, st).

Declare Scope m_scope.
Delimit Scope m_scope with M.
Notation "x <- a ;; b" := (bind a (fun x => b))
  (at level 61, a at next level, right associativity) : m_scope.
Notation "a ;;; b" := (bind a (fun _ => b))
  (at level 61, right associativity) : m_scope.
Open Scope m_scope.

(** [xs.map(f)] for an [f] that works on the state. *)
Fixpoint mapM {A B} (f : A -> M B) (xs : list A) : M (list B) :=
  match xs with
  | [] => ret []
  | x :: xs' => y <- f x ;; ys <- mapM f xs' ;; ret (y :: ys)
  end.

(** ** The source, top to bottom *)

Definition CR_NEWLINE_R : RegExp := Eval vm_compute in re_g "\r\n?".
Definition TAB_R : RegExp := Eval vm_compute in re_g "\t".
Definition FORMFEED_R : RegExp := Eval vm_compute in re_g "\f".

Definition const_str (s : jsstring) : Match -> jsstring := fun _ => s.

(** Turn various whitespace into easy-to-process whitespace. *)
Definition preprocess (source : jsstring) : jsstring :=
  replace TAB_R (const_str (str "    "))
    (replace FORMFEED_R (const_str [])
       (replace CR_NEWLINE_R (const_str [LF]) source)).

Definition populateInitialState (givenState : option State)
    (defaultState : option obj) : State :=
  let state := match givenState with Some st => st | None => empty_state end in
  match defaultState with
  | Some d =>
      {| fields := fold_left (fun o kv => set (fst kv) (snd kv) o) d (fields state);
         heap := heap state |}
  | None => state
  end.

(** *** Rules *)

(** [match(source, state, prevCaptureText)] *)
Definition MatchFunction := jsstring -> State -> jsstring -> option Match.
(** [quality(capture, state, prevCaptureText)] *)
Definition QualityFunction := Match -> State -> jsstring -> Q.
(** [parse(source, state)], the recursive parser handed to a rule. *)
Definition Parser := jsstring -> M (list value).
(** [parse(capture, nestedParse, state)] *)
Definition ParseFunction := Match -> Parser -> M value.
(** [output(node, state)], the recursive renderer handed to a rule. *)
Definition Output := value -> State -> result jsstring.
(** [html(node, output, state)] *)
Definition NodeOutput := value -> Output -> State -> result jsstring.
(** [Array.html(arr, output, state)] *)
Definition ArrayOutput := list value -> Output -> State -> result jsstring.

(** One named entry of a rule table.  [rmatch] is absent for an entry
    that only renders; [html] is [None] where the source has [html: null]
    or no [html] at all. *)
Record Rule := {
  order : Q;
  rmatch : option MatchFunction;
  quality : option QualityFunction;
  parse : ParseFunction;
  html : option NodeOutput
}.

(** A rule table: the [Array] joiner, which has no [match] and so never
    takes part in parsing, and the named rules in the order of their
    keys. *)
Record Rules := {
  Array : option ArrayOutput;
  named : list (jsstring * Rule)
}.

(** [rules[type]] *)
Fixpoint lookup (type : jsstring) (rs : list (jsstring * Rule)) : option Rule :=
  match rs with
  | [] => None
  | (k, r) :: rs' => if str_eqb type k then Some r else lookup type rs'
  end.

Definition has_quality (r : Rule) : bool :=
  match quality r with
  | Some _ => true
  | None => false
  end.

(** *** parserFor *)

Section ParserFor.

Variable rules : Rules.
Variable defaultState : option obj.

(** The comparison function given to [sort]: negative, zero or positive. *)
Definition compareRules (typeA typeB : jsstring) : Q :=
  match lookup typeA (named rules), lookup typeB (named rules) with
  | Some ruleA, Some ruleB =>
      let orderA := order ruleA in
      let orderB := order ruleB in
      if negb (Qeq_bool orderA orderB) then (orderA - orderB)%Q
      else
        let secondaryOrderA := if has_quality ruleA then 0%Z else 1%Z in
        let secondaryOrderB := if has_quality ruleB then 0%Z else 1%Z in
        if negb (Z.eqb secondaryOrderA secondaryOrderB)
        then inject_Z (secondaryOrderA - secondaryOrderB)
        else if str_ltb typeA typeB then inject_Z (-1)
        else if str_ltb typeB typeA then inject_Z 1
        else inject_Z 0
  | _, _ => inject_Z 0
  end.

(** [sort] with a comparison function, as a stable insertion sort. *)
Fixpoint insert_sorted (cmp : jsstring -> jsstring -> Q) (x : jsstring)
    (l : list jsstring) : list jsstring :=
  match l with
  | [] => [x]
  | y :: l' =>
      if Qle_bool (cmp y x) 0 then y :: insert_sorted cmp x l'
      else x :: y :: l'
  end.

Definition sort_by (cmp : jsstring -> jsstring -> Q) (l : list jsstring)
    : list jsstring :=
  fold_left (fun acc x => insert_sorted cmp x acc) l [].

(** The names of the rules that have a [match], sorted by increasing
    [order], then rules with a [quality] first, then by name. *)
Definition ruleList : list jsstring :=
  sort_by compareRules
    (List.map fst
       (List.filter (fun kr => match rmatch (snd kr) with
                               | Some _ => true
                               | None => false
                               end) (named rules))).

Definition prevCaptureStr (state : State) : jsstring :=
  match sget "prevCapture" state with
  | VCapture mt => group 0 mt
  | _ => []
  end.

(** The best match so far: its rule type, rule and capture, and its
    quality, where [None] is the initial [NaN]. *)
Record Best := {
  bestMatch : option (jsstring * Rule * Match);
  bestQuality : option Q
}.

(** [!(currQuality <= quality)] *)
Definition beats (currQuality : Q) (quality : option Q) : bool :=
  match quality with
  | Some q => negb (Qle_bool currQuality q)
  | None => true
  end.

(** The body of the do-while loop for the current rule. *)
Definition tryRule (source : jsstring) (state : State)
    (currRuleType : jsstring) (currRule : Rule) (best : Best) : Best :=
  let currCapture :=
    match rmatch currRule with
    | Some f => f source state (prevCaptureStr state)
    | None => None
    end in
  match currCapture with
  | Some cap =>
      let currQuality :=
        match quality currRule with
        | Some f => f cap state (prevCaptureStr state)
        | None => 0%Q
        end in
      if beats currQuality (bestQuality best)
      then {| bestMatch := Some (currRuleType, currRule, cap);
              bestQuality := Some currQuality |}
      else best
  | None => best
  end.

(** The do-while loop: [currRule] is the rule at index [i], [later] the
    rule names from index [i + 1] on.  Past the end of the list the
    source reads [rules[undefined]], which is no rule in a table without
    a rule of the name [undefined]: the loop ends there. *)
Fixpoint ruleLoop (source : jsstring) (state : State)
    (currRuleType : jsstring) (currRule : Rule) (later : list jsstring)
    (best : Best) : Best :=
  let currOrder := order currRule in
  let best' := tryRule source state currRuleType currRule best in
  match later with
  | [] => best'
  | nextType :: later' =>
      match lookup nextType (named rules) with
      | None => best'
      | Some nextRule =>
          if match bestMatch best' with None => true | Some _ => false end
             || (Qeq_bool (order nextRule) currOrder && has_quality nextRule)
          then ruleLoop source state nextType nextRule later' best'
          else best'
      end
  end.

Definition last_of (l : list jsstring) : option jsstring :=
  match rev l with
  | x :: _ => Some x
  | [] => None
  end.

(** The choice of one round of the parse loop: the rule and its capture,
    or the error the round throws. *)
Definition pickRule (source : jsstring) (state : State)
    : result (jsstring * Rule * Match) :=
  match ruleList with
  | [] => Throw TypeError
  | first :: later =>
      match lookup first (named rules) with
      | None => Throw TypeError
      | Some currRule =>
          match bestMatch (ruleLoop source state first currRule later
                             {| bestMatch := None; bestQuality := None |}) with
          | None => Throw (NoMatchingRule (last_of ruleList) source)
          | Some (ruleType, rule, cap) =>
              if negb (Nat.eqb (index cap) 0) then Throw UnanchoredMatch
              else Ok (ruleType, rule, cap)
          end
      end
  end.

(** [if (parsed.type == null) parsed.type = ruleType], and the nodes the
    round appends to [result]. *)
Definition appended (ruleType : jsstring) (parsed : value) : M (list value) :=
  match parsed with
  | VArr l => ret l
  | VCapture mt => ret (List.map of_option (captures mt))
  | VObj o =>
      if is_nullish (get (str "type") o)
      then ret [VObj (set (str "type") (VStr ruleType) o)]
      else ret [parsed]
  | VRef a =>
      fun st =>
        match nth_error (heap st) a with
        | Some (VObj o) =>
            if is_nullish (get (str "type") o)
            then Ok ([parsed],
                     {| fields := fields st;
                        heap := firstn a (heap st)
                                ++ VObj (set (str "type") (VStr ruleType) o)
                                :: skipn (S a) (heap st) |})
            else Ok ([parsed], st)
        | _ => Throw TypeError
        end
  | _ => throw TypeError
  end.

(** One round of the while loop: choose, parse, append, remember the
    capture, and give the source that is left. *)
Definition parseStep (nested : Parser) (source : jsstring)
    : M (Match * list value * jsstring) :=
  fun state =>
    match pickRule source state with
    | Throw e => Throw e
    | Ok (ruleType, rule, cap) =>
        (parsed <- parse rule cap nested ;;
         nodes <- appended ruleType parsed ;;
         write "prevCapture" (VCapture cap) ;;;
         ret (cap, nodes, substring_from (List.length (group 0 cap)) source))
          state
    end.

(** [nestedParse]: the while loop.  [fuel] bounds the rounds of the loop
    and the depth of the recursion through the rules. *)
Fixpoint parseLoop (fuel : nat) (source : jsstring) (result : list value)
    {struct fuel} : M (list value) :=
  match source with
  | [] => ret result
  | _ :: _ =>
      match fuel with
      | O => throw OutOfFuel
      | S fuel' =>
          step <- parseStep (fun src => parseLoop fuel' src []) source ;;
          let '(_, nodes, source') := step in
          parseLoop fuel' source' (result ++ nodes)
      end
  end.

Definition nestedParse (fuel : nat) (source : jsstring) : M (list value) :=
  parseLoop fuel source [].

Definition suffixed (source : jsstring) (latestState : State) : jsstring :=
  if negb (truthy (sget "inline" latestState))
     && negb (truthy (sget "disableAutoBlockNewlines" latestState))
  then source ++ [LF; LF]
  else source.

Definition outerParse (fuel : nat) (source : jsstring) (state : option State)
    : result (list value * State) :=
  let latestState := populateInitialState state defaultState in
  let source := suffixed source latestState in
  let latestState := sset "prevCapture" VNull latestState in
  nestedParse fuel (preprocess source) latestState.

End ParserFor.

Definition parserFor (rules : Rules) (defaultState : option obj) :=
  outerParse rules defaultState.

(** *** Match functions from regexes *)

(** Creates a match function for an inline scoped element from a regex. *)
Definition inlineRegex (regex : RegExp) : MatchFunction :=
  fun source state _ =>
    if truthy (sget "inline" state) then exec regex source else None.

(** Creates a match function for a block scoped element from a regex. *)
Definition blockRegex (regex : RegExp) : MatchFunction :=
  fun source state _ =>
    if truthy (sget "inline" state) then None else exec regex source.

(** Creates a match function from a regex, ignoring block/inline scope. *)
Definition anyScopeRegex (regex : RegExp) : MatchFunction :=
  fun source state _ => exec regex source.

(** *** Sanitizing and HTML tags *)

(** [String(v)] *)
Definition to_String (v : value) : jsstring :=
  match v with
  | VUndef => str "undefined"
  | VNull => str "null"
  | VBool true => str "true"
  | VBool false => str "false"
  | VNum n => string_of_Z n
  | VStr s => s
  | _ => str "[object Object]"
  end.

(** [a + b] where one side is a string. *)
Definition js_add (a b : value) : value := VStr (to_String a ++ to_String b).

(** The built-in [decodeURIComponent], after the ECMAScript [Decode]
    operation with an empty reserved set: a [%XX] below 128 is that code
    unit, a longer escape sequence must be the well-formed UTF-8 encoding
    of a code point, which is written in UTF-16; anything else is a
    URIError, [None] here. *)
Module URI.

Definition percent : N := 37%N.

Definition hex_value (c : N) : option N :=
  if in_range 48 57 c then Some (c - 48)%N
  else if in_range 97 102 c then Some (c - 87)%N
  else if in_range 65 70 c then Some (c - 55)%N
  else None.

(** The octet of the two hex digits at the head of [s]. *)
Definition octet (s : jsstring) : option (N * jsstring) :=
  match s with
  | a :: b :: s' =>
      match hex_value a, hex_value b with
      | Some x, Some y => Some ((x * 16 + y)%N, s')
      | _, _ => None
      end
  | _ => None
  end.

(** [n] continuation octets [%XX], each of the form 10xxxxxx, folded into
    the code point [acc]. *)
Fixpoint continuation (n : nat) (s : jsstring) (acc : N) : option (N * jsstring) :=
  match n with
  | O => Some (acc, s)
  | S n' =>
      match s with
      | c :: s' =>
          if N.eqb c percent then
            match octet s' with
            | Some (b, s'') =>
                if in_range 128 191 b
                then continuation n' s'' (acc * 64 + (b - 128))%N
                else None
            | None => None
            end
          else None
      | [] => None
      end
  end.

(** The code point of an escape sequence whose first octet is [b], with
    the least code point its length may encode. *)
Definition lead (b : N) : option (nat * N * N) :=
  if in_range 192 223 b then Some (1, (b - 192)%N, 128%N)
  else if in_range 224 239 b then Some (2, (b - 224)%N, 2048%N)
  else if in_range 240 247 b then Some (3, (b - 240)%N, 65536%N)
  else None.

Definition utf16 (v : N) : jsstring :=
  if N.ltb v 65536 then [v]
  else [ (55296 + N.div (v - 65536) 1024)%N; (56320 + N.modulo (v - 65536) 1024)%N ].

Fixpoint decode (fuel : nat) (s : jsstring) : option jsstring :=
  match fuel with
  | O => match s with [] => Some [] | _ => None end
  | S fuel' =>
      match s with
      | [] => Some []
      | c :: s' =>
          if negb (N.eqb c percent) then option_map (cons c) (decode fuel' s')
          else
            match octet s' with
            | None => None
            | Some (b, s1) =>
                if N.ltb b 128 then option_map (cons b) (decode fuel' s1)
                else
                  match lead b with
                  | None => None
                  | Some (n, bits, least) =>
                      match continuation n s1 bits with
                      | None => None
                      | Some (v, s2) =>
                          if N.leb least v && N.leb v 1114111
                             && negb (in_range 55296 57343 v)
                          then option_map (app (utf16 v)) (decode fuel' s2)
                          else None
                      end
                  end
            end
      end
  end.

Definition decodeURIComponent (s : jsstring) : option jsstring :=
  decode (List.length s) s.

End URI.

Definition PROTOCOL_STRIP_R : RegExp := Eval vm_compute in re_g "[^A-Za-z0-9/:]".

(** The value of [prot] in [sanitizeUrl], when decoding does not throw. *)
Definition protocolOf (url : jsstring) : option jsstring :=
  option_map (fun decoded => toLowerCase (replace PROTOCOL_STRIP_R (const_str []) decoded))
    (URI.decodeURIComponent url).

(** [url] if safe, or null if a safe url could not be made. *)
Definition sanitizeUrl (url : option jsstring) : option jsstring :=
  match url with
  | None => None
  | Some u =>
      match protocolOf u with
      | Some prot =>
          if starts_with (str "javascript:") prot
             || starts_with (str "vbscript:") prot
             || starts_with (str "data:") prot
          then None
          else Some u
      | None => None
      end
  end.

Definition SANITIZE_TEXT_R : RegExp := Eval vm_compute in re_g "[<>&\x22']".

Definition SANITIZE_TEXT_CODES : obj :=
  [ (str "<", VStr (str "&lt;"));
    (str ">", VStr (str "&gt;"));
    (str "&", VStr (str "&amp;"));
    ([DQUOTE], VStr (str "&quot;"));
    (str "'", VStr (str "&#x27;"));
    (str "/", VStr (str "&#x2F;"));
    (str "`", VStr (str "&#96;")) ].

Definition sanitizeText (text : value) : jsstring :=
  replace SANITIZE_TEXT_R
    (fun mt => to_String (get (group 0 mt) SANITIZE_TEXT_CODES))
    (to_String text).

Definition UNESCAPE_URL_R : RegExp := Eval vm_compute in re_g "\\([^0-9A-Za-z\s])".

Definition unescapeUrl (rawUrlString : jsstring) : jsstring :=
  replace UNESCAPE_URL_R (group 1) rawUrlString.

(** Returns a closed HTML tag; attributes with a falsy value are left
    out. *)
Definition htmlTag (tagName : jsstring) (content : jsstring)
    (attributes : obj) (isClosed : bool) : jsstring :=
  let attributeString :=
    fold_left (fun acc kv =>
                 if truthy (snd kv)
                 then acc ++ str " " ++ sanitizeText (VStr (fst kv)) ++ str "="
                          ++ [DQUOTE] ++ sanitizeText (snd kv) ++ [DQUOTE]
                 else acc)
              attributes [] in
  let unclosedTag := str "<" ++ tagName ++ attributeString ++ str ">" in
  if isClosed then unclosedTag ++ content ++ str "</" ++ tagName ++ str ">"
  else unclosedTag.

(** *** Helpers for rules *)

(** [state.inline || false] *)
Definition inlineOrFalse (state : State) : value :=
  if truthy (sget "inline" state) then sget "inline" state else VBool false.

(** Parse some content with the parser [parse], with [state.inline] set
    to true. *)
Definition parseInline (parse : Parser) (content : jsstring) : M (list value) :=
  state <- read_state ;;
  let isCurrentlyInline := inlineOrFalse state in
  write "inline" (VBool true) ;;;
  result <- parse content ;;
  write "inline" isCurrentlyInline ;;;
  ret result.

Definition parseBlock (parse : Parser) (content : jsstring) : M (list value) :=
  state <- read_state ;;
  let isCurrentlyInline := inlineOrFalse state in
  write "inline" (VBool false) ;;;
  result <- parse (content ++ [LF; LF]) ;;
  write "inline" isCurrentlyInline ;;;
  ret result.

(** One property of an object literal. *)
Definition field (k : string) (v : value) : jsstring * value := (str k, v).

Definition parseCaptureInline : ParseFunction :=
  fun capture parse =>
    content <- parseInline parse (group 1 capture) ;;
    ret (VObj [field "content" (VArr content)]).

Definition ignoreCapture : ParseFunction :=
  fun _ _ => ret (VObj []).

(** *** Lists *)

(** recognize a [*] [-], [+], [1.], [2.]... list bullet *)
Definition LIST_BULLET : string := "(?:[*+-]|\d+\.)".
(** recognize the start of a list item: leading space plus a bullet plus
    a space *)
Definition LIST_ITEM_PREFIX : string := "( *)(" ++ LIST_BULLET ++ ") +".
Definition LIST_ITEM_PREFIX_R : RegExp :=
  Eval vm_compute in re_ ("^" ++ LIST_ITEM_PREFIX).
(** recognize an individual list item *)
Definition LIST_ITEM_R : RegExp :=
  Eval vm_compute in
    re_gm (LIST_ITEM_PREFIX ++ "[^\n]*(?:\n" ++ "(?!\1" ++ LIST_BULLET
           ++ " )[^\n]*)*(\n|$)").
Definition BLOCK_END_R : RegExp := Eval vm_compute in re_ "\n{2,}$".
Definition INLINE_CODE_ESCAPE_BACKTICKS_R : RegExp :=
  Eval vm_compute in re_g "^ (?= *`)|(` *) $".
(** recognize the end of a paragraph block inside a list item: two or
    more newlines at end end of the item *)
Definition LIST_BLOCK_END_R : RegExp := BLOCK_END_R.
Definition LIST_ITEM_END_R : RegExp := Eval vm_compute in re_ " *\n+$".
(** check whether a list item has paragraphs: if it does, we leave the
    newlines at the end *)
Definition LIST_R : RegExp :=
  Eval vm_compute in
    re_ ("^( *)(" ++ LIST_BULLET ++ ") " ++ "[\s\S]+?(?:\n{2,}(?! )"
         ++ "(?!\1" ++ LIST_BULLET ++ " )\n*" ++ "|\s*\n*$)").
Definition LIST_LOOKBEHIND_R : RegExp := Eval vm_compute in re_ "(?:^|\n)( *)$".

(** [new RegExp('^ {1,' + space + '}', 'gm')]; the pattern is a syntax
    error when [space] is 0. *)
Definition spaceRegex (space : nat) : option RegExp :=
  match space with
  | O => None
  | S _ =>
      Some {| pattern := RSeq RBol (RRep true 1 (Some space) (RChar (single 32)));
              ngroups := 0; global := true; ignoreCase := false; multiline := true |}
  end.

(** [+bullet] for a bullet of digits and a dot. *)
Definition numberOfBullet (bullet : jsstring) : Z :=
  fold_left (fun acc c => if in_range 48 57 c then (acc * 10 + Z.of_N (c - 48))%Z else acc)
    bullet 0%Z.

(** *** Tables *)

Module TABLES.

Definition TABLE_ROW_SEPARATOR_TRIM : RegExp := Eval vm_compute in re_g "^ *\| *| *\| *$".
Definition TABLE_CELL_END_TRIM : RegExp := Eval vm_compute in re_ " *$".
Definition TABLE_RIGHT_ALIGN : RegExp := Eval vm_compute in re_ "^ *-+: *$".
Definition TABLE_CENTER_ALIGN : RegExp := Eval vm_compute in re_ "^ *:-+: *$".
Definition TABLE_LEFT_ALIGN : RegExp := Eval vm_compute in re_ "^ *:-+ *$".

Definition parseTableAlignCapture (alignCapture : jsstring) : value :=
  if test TABLE_RIGHT_ALIGN alignCapture then VStr (str "right")
  else if test TABLE_CENTER_ALIGN alignCapture then VStr (str "center")
  else if test TABLE_LEFT_ALIGN alignCapture then VStr (str "left")
  else VNull.

Definition parseTableAlign (source : jsstring) (trimEndSeparators : bool) : list value :=
  let source := if trimEndSeparators
                then replace TABLE_ROW_SEPARATOR_TRIM (const_str []) source
                else source in
  let alignText := split_on 124 (trim source) in
  List.map parseTableAlignCapture alignText.

(** [node.type], through the store for a reference node. *)
Definition type_of (h : list value) (node : value) : value :=
  match node with
  | VRef a => match nth_error h a with
              | Some v => prop "type" v
              | None => VUndef
              end
  | _ => prop "type" node
  end.

Definition type_is (h : list value) (name : string) (node : value) : bool :=
  match type_of h node with
  | VStr s => str_eqb s (str name)
  | _ => false
  end.

(** [node.content = node.content.replace(TABLE_CELL_END_TRIM, '')] *)
Definition trimCellEnd (node : value) : value :=
  match node with
  | VObj o =>
      VObj (set (str "content")
              (VStr (replace TABLE_CELL_END_TRIM (const_str []) (to_String (get (str "content") o))))
              o)
  | _ => node
  end.

(** [cells[cells.length - 1].push(node)] *)
Definition push_last (node : value) (cells : list (list value)) : list (list value) :=
  match rev cells with
  | last :: before => rev ((last ++ [node]) :: before)
  | [] => []
  end.

(** The [forEach] of [parseTableRow] from index [i] on. *)
Fixpoint splitRow (h : list value) (trimEndSeparators : bool) (len : nat)
    (i : nat) (row : list value) (cells : list (list value)) : list (list value) :=
  match row with
  | [] => cells
  | node :: row' =>
      let cells' :=
        if type_is h "tableSeparator" node then
          if negb trimEndSeparators
             || (negb (Nat.eqb i 0) && negb (Nat.eqb i (len - 1)))
          then cells ++ [ [] ]
          else cells
        else
          let node' :=
            if type_is h "text" node
               && match row' with
                  | [] => true
                  | next :: _ => type_is h "tableSeparator" next
                  end
            then trimCellEnd node
            else node in
          push_last node' cells in
      splitRow h trimEndSeparators len (S i) row' cells'
  end.

Definition cells_value (cells : list (list value)) : value :=
  VArr (List.map VArr cells).

Definition parseTableRow (source : jsstring) (parse : Parser)
    (trimEndSeparators : bool) : M value :=
  prevInTable <- read "inTable" ;;
  write "inTable" (VBool true) ;;;
  tableRow <- parse (trim source) ;;
  write "inTable" prevInTable ;;;
  state <- read_state ;;
  ret (cells_value
         (splitRow (heap state) trimEndSeparators (List.length tableRow) 0 tableRow [ [] ])).

Definition parseTableCells (source : jsstring) (parse : Parser)
    (trimEndSeparators : bool) : M (list value) :=
  let rowsText := split_on LF (trim source) in
  mapM (fun rowText => parseTableRow rowText parse trimEndSeparators) rowsText.

Definition parseTableWith (trimEndSeparators : bool) : ParseFunction :=
  fun capture parse =>
    write "inline" (VBool true) ;;;
    header <- parseTableRow (group 1 capture) parse trimEndSeparators ;;
    let align := parseTableAlign (group 2 capture) trimEndSeparators in
    cells <- parseTableCells (group 3 capture) parse trimEndSeparators ;;
    write "inline" (VBool false) ;;;
    ret (VObj [ field "type" (VStr (str "table"));
                field "header" header;
                field "align" (VArr align);
                field "cells" (VArr cells) ]).

Definition parseTable : ParseFunction := parseTableWith true.
Definition parseNpTable : ParseFunction := parseTableWith false.
Definition TABLE_REGEX : RegExp :=
  Eval vm_compute in re_ "^ *(\|.+)\n *\|( *[-:]+[-| :]*)\n((?: *\|.*(?:\n|$))*)\n*".
Definition NPTABLE_REGEX : RegExp :=
  Eval vm_compute in re_ "^ *(\S.*\|.*)\n *([-:]+ *\|[-| :]*)\n((?:.*\|.*(?:\n|$))*)\n*".

End TABLES.

Definition LINK_INSIDE : string := "(?:\[[^\]]*\]|[^\[\]]|\](?=[^\[]*\]))*".
Definition LINK_HREF_AND_TITLE : string :=
  "\s*<?((?:\([^)]*\)|[^\s\\]|\\.)*?)>?(?:\s+['\x22]([\s\S]*?)['\x22])?\s*".
Definition AUTOLINK_MAILTO_CHECK_R : RegExp := Eval vm_compute in re_i "mailto:".

(** *** Reference links and definitions *)

(** [state._defs] and [state._refs] are plain objects indexed by a key
    taken from the document, so a lookup also sees what a plain object
    inherits: the members of [Object.prototype], and the properties of
    whatever an assignment to [__proto__] made the prototype. *)
Module Dict.

Definition object_prototype_names : list jsstring :=
  List.map str
    [ "constructor"; "__defineGetter__"; "__defineSetter__"; "hasOwnProperty";
      "__lookupGetter__"; "__lookupSetter__"; "isPrototypeOf";
      "propertyIsEnumerable"; "toString"; "valueOf"; "__proto__";
      "toLocaleString" ]%string.

Definition inherited (k : jsstring) : bool :=
  existsb (str_eqb k) object_prototype_names.

(** Where the prototype is kept once [__proto__] was assigned; 65536 is
    not a code unit, so no key of the document is this one. *)
Definition proto_slot : jsstring := [65536%N].

Definition prototype (o : obj) : value :=
  if has proto_slot o then get proto_slot o else VNative.

(** [o[k]] *)
Definition lookup (k : jsstring) (o : obj) : value :=
  if str_eqb k (str "__proto__") then prototype o
  else if has k o then get k o
  else
    match prototype o with
    | VObj p => if has k p then get k p
                else if inherited k then VNative else VUndef
    | _ => if inherited k then VNative else VUndef
    end.

(** [o[k] = v] *)
Definition assign (k : jsstring) (v : value) (o : obj) : obj :=
  if str_eqb k (str "__proto__") then
    match v with
    | VObj _ | VArr _ => set proto_slot v o
    | _ => o
    end
  else set k v o.

(** [v[k]] for the value of [state._defs] or [state._refs]. *)
Definition index (k : jsstring) (v : value) : value :=
  match v with
  | VObj o => lookup k o
  | _ => VUndef
  end.

End Dict.

Definition WHITESPACE_RUN_R : RegExp := Eval vm_compute in re_g "\s+".

(** [s.replace(/\s+/g, ' ').toLowerCase()] *)
Definition canonicalRef (s : jsstring) : jsstring :=
  toLowerCase (replace WHITESPACE_RUN_R (const_str (str " ")) s).

(** [o || {}] *)
Definition orEmptyObject (v : value) : value :=
  if truthy v then v else VObj [].

(** [refNode.target = target; refNode.title = title] on the node at
    address [a]. *)
Definition patchRef (target title : value) (a : nat) (h : list value) : list value :=
  match nth_error h a with
  | Some (VObj o) =>
      firstn a h
      ++ VObj (set (str "title") title (set (str "target") target o))
      :: skipn (S a) h
  | _ => h
  end.

(** [parseRef(capture, state, refNode)]; [refNode] is the object literal
    of the caller, put into the store here. *)
Definition parseRef (capture : Match) (refNode : obj) : M value :=
  fun state =>
    let ref := canonicalRef (if truthy (of_option (Regex.capture 2 capture))
                             then group 2 capture else group 1 capture) in
    (* We store information about previously seen defs on state._defs.
       If the def for this reflink/refimage has already been seen, we can
       use its target/source and title here: *)
    let defs := sget "_defs" state in
    let refNode :=
      if truthy defs && truthy (Dict.index ref defs) then
        let def := Dict.index ref defs in
        set (str "title") (prop "title" def)
          (set (str "target") (prop "target" def) refNode)
      else refNode in
    (* In case we haven't seen our def yet (or if someone overwrites that
       def later on), we add this node to the list of ref nodes for that
       def. *)
    let a := List.length (heap state) in
    let refs := orEmptyObject (sget "_refs" state) in
    match refs with
    | VObj refsObj =>
        let pending := if truthy (Dict.lookup ref refsObj)
                       then Dict.lookup ref refsObj else VArr [] in
        match pending with
        | VArr nodes =>
            Ok (VRef a,
                {| fields := set (str "_refs")
                               (VObj (Dict.assign ref (VArr (nodes ++ [VRef a])) refsObj))
                               (fields state);
                   heap := heap state ++ [VObj refNode] |})
        | _ => Throw TypeError
        end
    | _ => Throw TypeError
    end.

(** The parse of the [def] rule. *)
Definition parseDef : ParseFunction :=
  fun capture _ state =>
    let def := canonicalRef (group 1 capture) in
    let target := of_option (Regex.capture 2 capture) in
    let title := of_option (Regex.capture 3 capture) in
    (* Look for previous links/images using this def *)
    let refs := sget "_refs" state in
    let patched :=
      if truthy refs && truthy (Dict.index def refs) then
        match Dict.index def refs with
        | VArr nodes =>
            Ok (fold_left (fun h node =>
                             match node with
                             | VRef a => patchRef target title a h
                             | _ => h
                             end) nodes (heap state))
        | _ => Throw TypeError
        end
      else Ok (heap state) in
    match patched with
    | Throw e => Throw e
    | Ok h =>
        (* Add this def to our map of defs for any future links/images *)
        match orEmptyObject (sget "_defs" state) with
        | VObj defsObj =>
            Ok (VObj [ field "def" (VStr def); field "target" target; field "title" title ],
                {| fields := set (str "_defs")
                               (VObj (Dict.assign def
                                        (VObj [ field "target" target; field "title" title ])
                                        defsObj))
                               (fields state);
                   heap := h |})
        | _ => Throw TypeError
        end
    end.

(** *** Output helpers *)

Definition rbind {A B} (x : result A) (f : A -> result B) : result B :=
  match x with
  | Ok a => f a
  | Throw e => Throw e
  end.

Definition elements (v : value) : result (list value) :=
  match v with
  | VArr l => Ok l
  | _ => Throw TypeError
  end.

(** [xs.map(f).join('')] for an [f] that may throw; [f] also gets the
    index. *)
Fixpoint mapJoin (f : nat -> value -> result jsstring) (i : nat) (xs : list value)
    : result jsstring :=
  match xs with
  | [] => Ok []
  | x :: xs' =>
      rbind (f i x) (fun s => rbind (mapJoin f (S i) xs') (fun t => Ok (s ++ t)))
  end.

(** [htmlTag(tag, output(node.content, state))] *)
Definition tagAroundContent (tag : string) : NodeOutput :=
  fun node output state =>
    rbind (output (prop "content" node) state)
      (fun inner => Ok (htmlTag (str tag) inner [] true)).

(** The argument of [sanitizeUrl]: a string, or null or undefined. *)
Definition url_of (v : value) : option jsstring :=
  match v with
  | VStr s => Some s
  | _ => None
  end.

Definition or_null (o : option jsstring) : value :=
  match o with
  | Some s => VStr s
  | None => VNull
  end.

(** The default [Array] joiner for [html]: map output over the ast,
    except group any text nodes together into a single string output.
    [pending] is the text node being gathered. *)
Definition is_text (node : value) : bool :=
  match prop "type" node with
  | VStr s => str_eqb s (str "text")
  | _ => false
  end.

Definition flushText (pending : option value) (output : Output) (state : State)
    : result jsstring :=
  match pending with
  | Some content =>
      output (VObj [ field "type" (VStr (str "text")); field "content" content ]) state
  | None => Ok []
  end.

Fixpoint arrayHtmlLoop (arr : list value) (pending : option value)
    (output : Output) (state : State) : result jsstring :=
  match arr with
  | [] => flushText pending output state
  | node :: arr' =>
      if is_text node then
        arrayHtmlLoop arr'
          (Some (match pending with
                 | Some content => js_add content (prop "content" node)
                 | None => prop "content" node
                 end)) output state
      else
        rbind (flushText pending output state) (fun before =>
        rbind (output node state) (fun here =>
        rbind (arrayHtmlLoop arr' None output state) (fun after =>
        Ok (before ++ here ++ after))))
  end.

Definition arrayHtml : ArrayOutput :=
  fun arr output state => arrayHtmlLoop arr None output state.

(** *** The default rules *)

Module defaultRules.

Definition rule (order : Z) (rmatch : MatchFunction)
    (quality : option QualityFunction) (parse : ParseFunction)
    (html : option NodeOutput) : Rule :=
  {| order := inject_Z order; rmatch := Some rmatch; quality := quality;
     parse := parse; html := html |}.

Definition HEADING_R : RegExp :=
  Eval vm_compute in re_ "^ *(#{1,6})([^\n]+?)#* *(?:\n *)+\n".
Definition heading : Rule :=
  rule 0 (blockRegex HEADING_R) None
    (fun capture parse =>
       content <- parseInline parse (trim (group 2 capture)) ;;
       ret (VObj [ field "level" (VNum (Z.of_nat (List.length (group 1 capture))));
                   field "content" (VArr content) ]))
    (Some (fun node output state =>
       rbind (output (prop "content" node) state) (fun inner =>
       Ok (htmlTag (str "h" ++ to_String (prop "level" node)) inner [] true)))).

Definition nptable : Rule :=
  rule 1 (blockRegex TABLES.NPTABLE_REGEX) None TABLES.parseNpTable None.

Definition LHEADING_R : RegExp :=
  Eval vm_compute in re_ "^([^\n]+)\n *(=|-){3,} *(?:\n *)+\n".
Definition lheading : Rule :=
  rule 2 (blockRegex LHEADING_R) None
    (fun capture parse =>
       content <- parseInline parse (group 1 capture) ;;
       ret (VObj [ field "type" (VStr (str "heading"));
                   field "level" (VNum (if str_eqb (group 2 capture) (str "=")
                                        then 1 else 2));
                   field "content" (VArr content) ]))
    None.

Definition HR_R : RegExp := Eval vm_compute in re_ "^( *[-*_]){3,} *(?:\n *)+\n".
Definition hr : Rule :=
  rule 3 (blockRegex HR_R) None ignoreCapture
    (Some (fun node output state => Ok (str "<hr>"))).

Definition CODEBLOCK_R : RegExp :=
  Eval vm_compute in re_ "^(?:    [^\n]+\n*)+(?:\n *)+\n".
Definition CODEBLOCK_INDENT_R : RegExp := Eval vm_compute in re_gm "^    ".
Definition TRAILING_NEWLINES_R : RegExp := Eval vm_compute in re_ "\n+$".
Definition codeBlock : Rule :=
  rule 4 (blockRegex CODEBLOCK_R) None
    (fun capture parse =>
       let content :=
         replace TRAILING_NEWLINES_R (const_str [])
           (replace CODEBLOCK_INDENT_R (const_str []) (group 0 capture)) in
       ret (VObj [ field "lang" VUndef; field "content" (VStr content) ]))
    (Some (fun node output state =>
       let className :=
         if truthy (prop "lang" node)
         then js_add (VStr (str "markdown-code-")) (prop "lang" node)
         else VUndef in
       let codeBlock :=
         htmlTag (str "code") (sanitizeText (prop "content" node))
           [ field "class" className ] true in
       Ok (htmlTag (str "pre") codeBlock [] true))).

Definition FENCE_R : RegExp :=
  Eval vm_compute in
    re_ "^ *(`{3,}|~{3,}) *(?:(\S+) *)?\n([\s\S]+?)\n?\1 *(?:\n *)+\n".
Definition fence : Rule :=
  rule 5 (blockRegex FENCE_R) None
    (fun capture parse =>
       ret (VObj [ field "type" (VStr (str "codeBlock"));
                   field "lang" (if truthy (of_option (Regex.capture 2 capture))
                                 then VStr (group 2 capture) else VUndef);
                   field "content" (of_option (Regex.capture 3 capture)) ]))
    None.

Definition BLOCKQUOTE_R : RegExp :=
  Eval vm_compute in re_ "^( *>[^\n]+(\n[^\n]+)*\n*)+\n{2,}".
Definition BLOCKQUOTE_MARK_R : RegExp := Eval vm_compute in re_gm "^ *> ?".
Definition blockQuote : Rule :=
  rule 6 (blockRegex BLOCKQUOTE_R) None
    (fun capture parse =>
       let content := replace BLOCKQUOTE_MARK_R (const_str []) (group 0 capture) in
       nodes <- parse content ;;
       ret (VObj [ field "content" (VArr nodes) ]))
    (Some (tagAroundContent "blockquote")).

(** The [map] over the items of a list, from item [i] of [n] on. *)
Fixpoint parseItems (parse : Parser) (n i : nat) (lastItemWasAParagraph : bool)
    (items : list jsstring) : M (list value) :=
  match items with
  | [] => ret []
  | item :: items' =>
      (* We need to see how far indented this item is: *)
      let prefixCapture := exec LIST_ITEM_PREFIX_R item in
      let space := match prefixCapture with
                   | Some mt => List.length (group 0 mt)
                   | None => 0
                   end in
      (* And then we construct a regex to "unindent" the subsequent lines
         of the items by that amount: *)
      match spaceRegex space with
      | None => throw SyntaxError
      | Some spaceRegex =>
          let content :=
            replace LIST_ITEM_PREFIX_R (const_str [])
              (replace spaceRegex (const_str []) item) in
          let isLastItem := Nat.eqb i (n - 1) in
          let containsBlocks := contains [LF; LF] content in
          let thisItemIsAParagraph :=
            containsBlocks || (isLastItem && lastItemWasAParagraph) in
          (* backup our state for restoration afterwards. *)
          oldStateInline <- read "inline" ;;
          oldStateList <- read "_list" ;;
          write "_list" (VBool true) ;;;
          (* Parse inline if we're in a tight list, or block if we're in a
             loose list. *)
          write "inline" (VBool (negb thisItemIsAParagraph)) ;;;
          let adjustedContent :=
            if thisItemIsAParagraph
            then replace LIST_ITEM_END_R (const_str [LF; LF]) content
            else replace LIST_ITEM_END_R (const_str []) content in
          result <- parse adjustedContent ;;
          (* Restore our state before returning *)
          write "inline" oldStateInline ;;;
          write "_list" oldStateList ;;;
          more <- parseItems parse n (S i) thisItemIsAParagraph items' ;;
          ret (VArr result :: more)
      end
  end.

Definition list : Rule :=
  rule 7
    (fun source state _ =>
       (* We only want to break into a list if we are at the start of a
          line. *)
       let prevCaptureStr := prevCaptureStr state in
       let isStartOfLineCapture := exec LIST_LOOKBEHIND_R prevCaptureStr in
       let isListBlock :=
         truthy (sget "_list" state) || negb (truthy (sget "inline" state)) in
       match isStartOfLineCapture with
       | Some lookbehind =>
           if isListBlock then exec LIST_R (group 1 lookbehind ++ source)
           else None
       | None => None
       end)
    None
    (fun capture parse =>
       let bullet := group 2 capture in
       let ordered := Nat.ltb 1 (List.length bullet) in
       let start := if ordered then VNum (numberOfBullet bullet) else VUndef in
       match match_all LIST_ITEM_R
               (replace LIST_BLOCK_END_R (const_str [LF]) (group 0 capture)) with
       | None => throw TypeError
       | Some items =>
           itemContent <- parseItems parse (List.length items) 0 false items ;;
           ret (VObj [ field "ordered" (VBool ordered);
                       field "start" start;
                       field "items" (VArr itemContent) ])
       end)
    (Some (fun node output state =>
       rbind (elements (prop "items" node)) (fun items =>
       rbind (mapJoin (fun _ item =>
                         rbind (output item state) (fun inner =>
                         Ok (htmlTag (str "li") inner [] true))) 0 items)
             (fun listItems =>
       let listTag := if truthy (prop "ordered" node) then str "ol" else str "ul" in
       let attributes := [ field "start" (prop "start" node) ] in
       Ok (htmlTag listTag listItems attributes true))))).

Definition DEF_R : RegExp :=
  Eval vm_compute in
    re_ "^ *\[([^\]]+)\]: *<?([^\s>]*)>?(?: +[\x22(]([^\n]+)[\x22)])? *\n(?: *\n)*".
Definition def : Rule :=
  rule 8 (blockRegex DEF_R) None parseDef
    (Some (fun _ _ _ => Ok [])).

(** [getStyle(colIndex)] of the table output. *)
Definition getStyle (node : value) (colIndex : nat) : value :=
  match prop "align" node with
  | VArr align =>
      match nth_error align colIndex with
      | Some a => if is_nullish a then VStr []
                  else VStr (str "text-align:" ++ to_String a ++ str ";")
      | None => VStr []
      end
  | _ => VStr []
  end.

Definition table : Rule :=
  rule 9 (blockRegex TABLES.TABLE_REGEX) None TABLES.parseTable
    (Some (fun node output state =>
       rbind (elements (prop "header" node)) (fun header =>
       rbind (mapJoin (fun i content =>
                         rbind (output content state) (fun inner =>
                         Ok (htmlTag (str "th") inner
                               [ field "style" (getStyle node i);
                                 field "scope" (VStr (str "col")) ] true)))
                      0 header) (fun headers =>
       rbind (elements (prop "cells" node)) (fun cells =>
       rbind (mapJoin (fun _ row =>
                         rbind (elements row) (fun row =>
                         rbind (mapJoin (fun c content =>
                                           rbind (output content state) (fun inner =>
                                           Ok (htmlTag (str "td") inner
                                                 [ field "style" (getStyle node c) ] true)))
                                        0 row) (fun cols =>
                         Ok (htmlTag (str "tr") cols [] true))))
                      0 cells) (fun rows =>
       let thead := htmlTag (str "thead") (htmlTag (str "tr") headers [] true) [] true in
       let tbody := htmlTag (str "tbody") rows [] true in
       Ok (htmlTag (str "table") (thead ++ tbody) [] true))))))).

Definition NEWLINE_R : RegExp := Eval vm_compute in re_ "^(?:\n *)*\n".
Definition newline : Rule :=
  rule 10 (blockRegex NEWLINE_R) None ignoreCapture
    (Some (fun node output state => Ok [LF])).

Definition PARAGRAPH_R : RegExp :=
  Eval vm_compute in re_ "^((?:[^\n]|\n(?! *\n))+)(?:\n *)+\n".
Definition paragraph : Rule :=
  rule 11 (blockRegex PARAGRAPH_R) None parseCaptureInline
    (Some (fun node output state =>
       let attributes := [ field "class" (VStr (str "paragraph")) ] in
       rbind (output (prop "content" node) state) (fun inner =>
       Ok (htmlTag (str "div") inner attributes true)))).

Definition ESCAPE_R : RegExp := Eval vm_compute in re_ "^\\([^0-9A-Za-z\s])".
Definition escape : Rule :=
  rule 12 (inlineRegex ESCAPE_R) None
    (fun capture parse =>
       ret (VObj [ field "type" (VStr (str "text"));
                   field "content" (of_option (Regex.capture 1 capture)) ]))
    None.

Definition TABLE_SEPARATOR_R : RegExp := Eval vm_compute in re_ "^ *\| *".
Definition tableSeparator : Rule :=
  rule 13
    (fun source state _ =>
       if negb (truthy (sget "inTable" state)) then None
       else exec TABLE_SEPARATOR_R source)
    None
    (fun _ _ => ret (VObj [ field "type" (VStr (str "tableSeparator")) ]))
    (* These shouldn't be reached, but in case they are, be reasonable: *)
    (Some (fun _ _ _ => Ok (str " &vert; "))).

Definition textNode (content : value) : value :=
  VObj [ field "type" (VStr (str "text")); field "content" content ].

Definition AUTOLINK_R : RegExp := Eval vm_compute in re_ "^<([^: >]+:\/[^ >]+)>".
Definition autolink : Rule :=
  rule 14 (inlineRegex AUTOLINK_R) None
    (fun capture parse =>
       ret (VObj [ field "type" (VStr (str "link"));
                   field "content" (VArr [ textNode (of_option (Regex.capture 1 capture)) ]);
                   field "target" (of_option (Regex.capture 1 capture)) ]))
    None.

Definition MAILTO_R : RegExp := Eval vm_compute in re_ "^<([^ >]+@[^ >]+)>".
Definition mailto : Rule :=
  rule 15 (inlineRegex MAILTO_R) None
    (fun capture parse =>
       let address := group 1 capture in
       let target := group 1 capture in
       (* Check for a `mailto:` already existing in the link: *)
       let target := if negb (test AUTOLINK_MAILTO_CHECK_R target)
                     then str "mailto:" ++ target else target in
       ret (VObj [ field "type" (VStr (str "link"));
                   field "content" (VArr [ textNode (VStr address) ]);
                   field "target" (VStr target) ]))
    None.

Definition URL_R : RegExp :=
  Eval vm_compute in re_ "^(https?:\/\/[^\s<]+[^<.,:;\x22')\]\s])".
Definition url : Rule :=
  rule 16 (inlineRegex URL_R) None
    (fun capture parse =>
       ret (VObj [ field "type" (VStr (str "link"));
                   field "content" (VArr [ textNode (of_option (Regex.capture 1 capture)) ]);
                   field "target" (of_option (Regex.capture 1 capture));
                   field "title" VUndef ]))
    None.

Definition LINK_R : RegExp :=
  Eval vm_compute in
    re_ ("^\[(" ++ LINK_INSIDE ++ ")\]\(" ++ LINK_HREF_AND_TITLE ++ "\)").
Definition link : Rule :=
  rule 17 (inlineRegex LINK_R) None
    (fun capture parse =>
       content <- parse (group 1 capture) ;;
       ret (VObj [ field "content" (VArr content);
                   field "target" (VStr (unescapeUrl (group 2 capture)));
                   field "title" (of_option (Regex.capture 3 capture)) ]))
    (Some (fun node output state =>
       let attributes :=
         [ field "href" (or_null (sanitizeUrl (url_of (prop "target" node))));
           field "title" (prop "title" node) ] in
       rbind (output (prop "content" node) state) (fun inner =>
       Ok (htmlTag (str "a") inner attributes true)))).

Definition IMAGE_R : RegExp :=
  Eval vm_compute in
    re_ ("^!\[(" ++ LINK_INSIDE ++ ")\]\(" ++ LINK_HREF_AND_TITLE ++ "\)").
Definition image : Rule :=
  rule 18 (inlineRegex IMAGE_R) None
    (fun capture parse =>
       ret (VObj [ field "alt" (of_option (Regex.capture 1 capture));
                   field "target" (VStr (unescapeUrl (group 2 capture)));
                   field "title" (of_option (Regex.capture 3 capture)) ]))
    (Some (fun node output state =>
       let attributes :=
         [ field "src" (or_null (sanitizeUrl (url_of (prop "target" node))));
           field "alt" (prop "alt" node);
           field "title" (prop "title" node) ] in
       Ok (htmlTag (str "img") [] attributes false))).

Definition REFLINK_R : RegExp :=
  Eval vm_compute in
    re_ ((* The first [part] of the link *)
         "^\[(" ++ LINK_INSIDE ++ ")\]"
         (* The [ref] target of the link *)
         ++ "\s*\[([^\]]*)\]").
Definition reflink : Rule :=
  rule 19 (inlineRegex REFLINK_R) None
    (fun capture parse =>
       content <- parse (group 1 capture) ;;
       parseRef capture [ field "type" (VStr (str "link"));
                          field "content" (VArr content) ])
    None.

Definition REFIMAGE_R : RegExp :=
  Eval vm_compute in
    re_ ("^!\[(" ++ LINK_INSIDE ++ ")\]" ++ "\s*\[([^\]]*)\]").
Definition refimage : Rule :=
  rule 20 (inlineRegex REFIMAGE_R) None
    (fun capture parse =>
       parseRef capture [ field "type" (VStr (str "image"));
                          field "alt" (of_option (Regex.capture 1 capture)) ])
    None.

(** [capture[0].length + bias], the bias in tenths. *)
Definition lengthPlus (tenths : Z) : QualityFunction :=
  fun capture _ _ =>
    (inject_Z (Z.of_nat (List.length (group 0 capture))) + (tenths # 10))%Q.

Definition EM_R : RegExp :=
  Eval vm_compute in
    re_ ((* only match _s surrounding words. *)
         "^\b_" ++ "((?:__|\\[\s\S]|[^\\_])+?)_" ++ "\b"
         (* Or match *s: *)
         ++ "|"
         (* Only match *s that are followed by a non-space: *)
         ++ "^\*(?=\S)("
         (* Match at least one of: *)
         ++ "(?:"
         (*  - `**`: so that bolds inside italics don't close the italics *)
         ++ "\*\*|"
         (*  - escape sequence: so escaped *s don't close us *)
         ++ "\\[\s\S]|"
         (*  - whitespace: followed by a non-* *)
         ++ "\s+(?:\\[\s\S]|[^\s\*\\]|\*\*)|"
         (*  - non-whitespace, non-*, non-backslash characters *)
         ++ "[^\s\*\\]"
         ++ ")+?"
         (* followed by a non-space, non-* then * *)
         ++ ")\*(?!\*)").
Definition em : Rule :=
  rule 21 (inlineRegex EM_R)
    (* precedence by length, `em` wins ties: *)
    (Some (lengthPlus 2))
    (fun capture parse =>
       content <- parse (if truthy (of_option (Regex.capture 2 capture))
                         then group 2 capture else group 1 capture) ;;
       ret (VObj [ field "content" (VArr content) ]))
    (Some (tagAroundContent "em")).

Definition STRONG_R : RegExp :=
  Eval vm_compute in re_ "^\*\*((?:\\[\s\S]|[^\\])+?)\*\*(?!\*)".
Definition strong : Rule :=
  rule 21 (inlineRegex STRONG_R)
    (* precedence by length, wins ties vs `u`: *)
    (Some (lengthPlus 1))
    parseCaptureInline
    (Some (tagAroundContent "strong")).

Definition U_R : RegExp :=
  Eval vm_compute in re_ "^__((?:\\[\s\S]|[^\\])+?)__(?!_)".
Definition u : Rule :=
  rule 21 (inlineRegex U_R)
    (* precedence by length, loses all ties *)
    (Some (lengthPlus 0))
    parseCaptureInline
    (Some (tagAroundContent "u")).

Definition DEL_R : RegExp :=
  Eval vm_compute in re_ "^~~(?=\S)((?:\\[\s\S]|~(?!~)|[^\s~\\]|\s(?!~~))+?)~~".
Definition del : Rule :=
  rule 22 (inlineRegex DEL_R) None parseCaptureInline
    (Some (tagAroundContent "del")).

Definition INLINECODE_R : RegExp :=
  Eval vm_compute in re_ "^(`+)([\s\S]*?[^`])\1(?!`)".
Definition inlineCode : Rule :=
  rule 23 (inlineRegex INLINECODE_R) None
    (fun capture parse =>
       ret (VObj [ field "content"
                     (VStr (replace INLINE_CODE_ESCAPE_BACKTICKS_R (group 1)
                              (group 2 capture))) ]))
    (Some (fun node output state =>
       Ok (htmlTag (str "code") (sanitizeText (prop "content" node)) [] true))).

Definition BR_R : RegExp := Eval vm_compute in re_ "^ {2,}\n".
Definition br : Rule :=
  rule 24 (anyScopeRegex BR_R) None ignoreCapture
    (Some (fun node output state => Ok (str "<br>"))).

(** Here we look for anything followed by non-symbols, double newlines,
    or double-space-newlines. *)
Definition TEXT_R : RegExp :=
  Eval vm_compute in
    re_ "^[\s\S]+?(?=[^0-9A-Za-z\s\u00c0-\uffff]|\n\n| {2,}\n|\w+:\S|$)".
Definition text : Rule :=
  rule 25 (anyScopeRegex TEXT_R) None
    (fun capture parse =>
       ret (VObj [ field "content" (of_option (Regex.capture 0 capture)) ]))
    (Some (fun node output state => Ok (sanitizeText (prop "content" node)))).

(** The table itself, in the order of its keys. *)
Definition entry (name : string) (r : Rule) : jsstring * Rule := (str name, r).

Definition all : Rules :=
  {| Array := Some arrayHtml;
     named :=
       [ entry "heading" heading;
         entry "nptable" nptable;
         entry "lheading" lheading;
         entry "hr" hr;
         entry "codeBlock" codeBlock;
         entry "fence" fence;
         entry "blockQuote" blockQuote;
         entry "list" list;
         entry "def" def;
         entry "table" table;
         entry "newline" newline;
         entry "paragraph" paragraph;
         entry "escape" escape;
         entry "tableSeparator" tableSeparator;
         entry "autolink" autolink;
         entry "mailto" mailto;
         entry "url" url;
         entry "link" link;
         entry "image" image;
         entry "reflink" reflink;
         entry "refimage" refimage;
         entry "em" em;
         entry "strong" strong;
         entry "u" u;
         entry "del" del;
         entry "inlineCode" inlineCode;
         entry "br" br;
         entry "text" text ] |}.

End defaultRules.

(** *** outputFor *)

(** The syntax tree as the renderer sees it: every address replaced by
    the node that the store holds for it.  A reference node is put into
    the store after its own content was parsed, so the store is resolved
    in the order of its addresses. *)
Fixpoint substitute (resolved : list value) (v : value) : value :=
  match v with
  | VRef a => nth a resolved VUndef
  | VArr l => VArr (List.map (substitute resolved) l)
  | VObj o => VObj (List.map (fun kv => (fst kv, substitute resolved (snd kv))) o)
  | _ => v
  end.

Definition resolveHeap (h : list value) : list value :=
  fold_left (fun resolved node => resolved ++ [substitute resolved node]) h [].

Definition resolve (state : State) (ast : list value) : list value :=
  List.map (substitute (resolveHeap (heap state))) ast.

Section OutputFor.

Variable rules : Rules.
Variable defaultState : option obj.

(** [rules.Array || defaultRules.Array], and its [html]. *)
Definition arrayRuleOutput : option ArrayOutput :=
  match Array rules with
  | Some joiner => Some joiner
  | None => Array defaultRules.all
  end.

Fixpoint nestedOutput (arrayOutput : ArrayOutput) (fuel : nat) (ast : value)
    (state : State) {struct fuel} : result jsstring :=
  match fuel with
  | O => Throw OutOfFuel
  | S fuel' =>
      match ast with
      | VArr arr => arrayOutput arr (nestedOutput arrayOutput fuel') state
      | _ =>
          match prop "type" ast with
          | VStr type =>
              match lookup type (named rules) with
              | Some r =>
                  match html r with
                  | Some f => f ast (nestedOutput arrayOutput fuel') state
                  | None => Throw TypeError
                  end
              | None => Throw TypeError
              end
          | _ => Throw TypeError
          end
      end
  end.

Definition outerOutput (fuel : nat) (ast : value) (state : option State)
    : result jsstring :=
  match arrayRuleOutput with
  | None => Throw MissingArrayJoiner
  | Some arrayOutput =>
      nestedOutput arrayOutput fuel ast (populateInitialState state defaultState)
  end.

End OutputFor.

(** [outputFor(rules, 'html', defaultState)] *)
Definition outputFor (rules : Rules) (defaultState : option obj) :=
  outerOutput rules defaultState.

(** *** The default entry points *)

Definition defaultRawParse := parserFor defaultRules.all None.

Definition orEmptyState (state : option State) : State :=
  match state with
  | Some st => st
  | None => empty_state
  end.

Definition defaultBlockParse (fuel : nat) (source : jsstring) (state : option State)
    : result (list value * State) :=
  let state := orEmptyState state in
  let state := sset "inline" (VBool false) state in
  defaultRawParse fuel source (Some state).

Definition defaultInlineParse (fuel : nat) (source : jsstring) (state : option State)
    : result (list value * State) :=
  let state := orEmptyState state in
  let state := sset "inline" (VBool true) state in
  defaultRawParse fuel source (Some state).

(** The state that [defaultImplicitParse] hands to the parser. *)
Definition implicitState (source : jsstring) (state : option State) : State :=
  let isBlock := test BLOCK_END_R source in
  let state := orEmptyState state in
  sset "inline" (VBool (negb isBlock)) state.

Definition defaultImplicitParse (fuel : nat) (source : jsstring) (state : option State)
    : result (list value * State) :=
  defaultRawParse fuel source (Some (implicitState source state)).

Definition defaultHtmlOutput := outputFor defaultRules.all None.

(** [markdownToHtml(source, state)]: the state object that the parse
    worked on is the one the output gets, when the caller gave one. *)
Definition markdownToHtml (fuel : nat) (source : jsstring) (state : option State)
    : result jsstring :=
  match defaultBlockParse fuel source state with
  | Throw e => Throw e
  | Ok (ast, state') =>
      defaultHtmlOutput fuel (VArr (resolve state' ast))
        (match state with Some _ => Some state' | None => None end)
  end.


(** * Properties *)

(** ** End-to-end renderings

    The fuel of [markdownToHtml] bounds the rounds and the depth of the
    parse and of the output; each statement below holds from the least
    fuel that lets the run finish. *)

Definition hello_source : jsstring := str "# Hello" ++ [LF; LF].

Definition javascript_link_source : jsstring := str "[a](javascript:alert(1))".

Definition paragraph_open : jsstring :=
  str "<div class=" ++ [DQUOTE] ++ str "paragraph" ++ [DQUOTE] ++ str ">".

Definition newline_node : value := VObj [ field "type" (VStr (str "newline")) ].

(** C10.  Parsing the empty string in block scope gives exactly one
    node, of type [newline], whatever the fuel from 1 on, and
    [markdownToHtml] of the empty string is the string of one line
    feed. *)
Theorem empty_source_is_one_newline :
  forall k,
    (exists state',
       defaultBlockParse (1 + k) [] None = Ok ([newline_node], state'))
    /\ markdownToHtml (2 + k) [] None = Ok [LF].
Proof.
  intro k. split.
  - destruct k as [|k]; eexists; vm_compute; reflexivity.
  - vm_compute. reflexivity.
Qed.

Lemma heading_rendering_aux :
  forall k, markdownToHtml (4 + k) hello_source None = Ok (str "<h1>Hello</h1>").
Proof. intro k. vm_compute. reflexivity. Qed.

(** C6, as the code has it.  The heading rule's match takes every blank
    line after the heading with it, so the heading is the only node and
    the rendering is the [h1] element alone. *)
Theorem heading_rendering :
  forall k, markdownToHtml (4 + k) hello_source None = Ok (str "<h1>Hello</h1>").
Proof. exact heading_rendering_aux. Qed.

(** C6, as claimed, fails: no run of [markdownToHtml] on the heading
    source returns the [h1] element followed by two line feeds. *)
Lemma heading_rendering_has_no_newlines :
  ~ (exists fuel,
       markdownToHtml fuel hello_source None = Ok (str "<h1>Hello</h1>" ++ [LF; LF])).
Proof.
  intros [fuel H]. revert H.
  do 4 (destruct fuel as [|fuel]; [vm_compute; discriminate|]).
  change (S (S (S (S fuel)))) with (4 + fuel).
  rewrite heading_rendering_aux. discriminate.
Qed.

Lemma javascript_link_aux :
  forall k,
    markdownToHtml (6 + k) javascript_link_source None
    = Ok (paragraph_open ++ str "<a>a</a></div>").
Proof. intro k. vm_compute. reflexivity. Qed.

(** C7, as the code has it.  [sanitizeUrl] gives null for the
    [javascript:] target, and [htmlTag] leaves out an attribute whose
    value is falsy, so the anchor has no [href] attribute at all. *)
Theorem javascript_link_rendering :
  forall k,
    markdownToHtml (6 + k) javascript_link_source None
    = Ok (paragraph_open ++ str "<a>a</a></div>")
    /\ sanitizeUrl (Some (str "javascript:alert(1)")) = None
    /\ htmlTag (str "a") (str "a") [ field "href" VNull; field "title" VUndef ] true
       = str "<a>a</a>".
Proof.
  intro k. split; [apply javascript_link_aux|].
  split; [vm_compute; reflexivity|vm_compute; reflexivity].
Qed.

(** C7, as claimed, fails: no run of [markdownToHtml] on the link source
    returns a string in which [href] occurs. *)
Lemma javascript_link_has_no_href :
  ~ (exists fuel out,
       markdownToHtml fuel javascript_link_source None = Ok out
       /\ contains (str "href") out = true).
Proof.
  intros [fuel [out [H C]]]. revert H.
  do 6 (destruct fuel as [|fuel]; [vm_compute; discriminate|]).
  change (S (S (S (S (S (S fuel)))))) with (6 + fuel).
  rewrite javascript_link_aux. intro H. inversion H; subst out.
  vm_compute in C. discriminate.
Qed.

(** ** sanitizeText *)

(** C5, where the code falls short of it.  The table
    [SANITIZE_TEXT_CODES] has an entity for the slash and for the
    backtick, but [SANITIZE_TEXT_R] does not match them, so both come
    out as they went in. *)
Theorem sanitizeText_keeps_slash_and_backtick :
  sanitizeText (VStr (str "/")) = str "/"
  /\ sanitizeText (VStr (str "`")) = str "`"
  /\ get (str "/") SANITIZE_TEXT_CODES = VStr (str "&#x2F;")
  /\ get (str "`") SANITIZE_TEXT_CODES = VStr (str "&#96;")
  /\ sanitizeText (VStr (str "<a href='x'>&</a>" ++ [DQUOTE]))
     = str "&lt;a href=&#x27;x&#x27;&gt;&amp;&lt;/a&gt;&quot;".
Proof.
  split; [vm_compute; reflexivity|].
  split; [vm_compute; reflexivity|].
  split; [vm_compute; reflexivity|].
  split; [vm_compute; reflexivity|].
  vm_compute; reflexivity.
Qed.
(** ** Strings and objects *)

Lemma str_eqb_refl (a : jsstring) : str_eqb a a = true.
Proof. induction a as [|x a IH]; simpl; [reflexivity|]. now rewrite N.eqb_refl. Qed.

Lemma str_eqb_eq (a b : jsstring) : str_eqb a b = true <-> a = b.
Proof.
  split.
  - revert b. induction a as [|x a IH]; destruct b as [|y b]; simpl; try discriminate; auto.
    intro H. apply andb_prop in H. destruct H as [H1 H2].
    apply N.eqb_eq in H1. subst. f_equal. auto.
  - intros ->. apply str_eqb_refl.
Qed.

Lemma str_eqb_neq (a b : jsstring) : a <> b -> str_eqb a b = false.
Proof.
  intro H. destruct (str_eqb a b) eqn:E; [|reflexivity].
  apply str_eqb_eq in E. contradiction.
Qed.

Lemma get_set_same k v o : get k (set k v o) = v.
Proof.
  induction o as [|[k' v'] o IH]; simpl.
  - now rewrite str_eqb_refl.
  - destruct (str_eqb k k') eqn:E; simpl; rewrite ?str_eqb_refl, ?E; auto.
Qed.

Lemma get_set_other k k' v o : k <> k' -> get k (set k' v o) = get k o.
Proof.
  intro H. induction o as [|[k2 v2] o IH]; simpl.
  - now rewrite (str_eqb_neq H).
  - destruct (str_eqb k' k2) eqn:E; simpl.
    + apply str_eqb_eq in E. subst k2. now rewrite (str_eqb_neq H).
    + destruct (str_eqb k k2); auto.
Qed.

(** ** The matcher on a class of code units *)

(** A regular expression that is one character class. *)
Definition class_regexp (cs : charset) (g ml : bool) : RegExp :=
  {| pattern := RChar cs; ngroups := 0; global := g;
     ignoreCase := false; multiline := ml |}.

Lemma match_at_class cs g ml p :
  match_at (class_regexp cs g ml) p
  = match rest p with
    | a :: tl =>
        if cs_mem false cs a
        then Some ({| index := idx p; captures := [Some [a]] |},
                   {| idx := S (idx p); prev := Some a; rest := tl |})
        else None
    | [] => None
    end.
Proof.
  unfold match_at, class_regexp. cbn -[Nat.sub firstn].
  destruct p as [i pv [|a tl]]; cbn -[Nat.sub firstn]; [reflexivity|].
  destruct (cs_mem false cs a); [|reflexivity].
  cbn -[Nat.sub firstn]. replace (S i - i) with 1 by lia. reflexivity.
Qed.

(** The replacement of a global class regex, code unit by code unit. *)
Definition replace_each (hit : N -> bool) (g : jsstring -> jsstring) (s : jsstring)
    : jsstring :=
  flat_map (fun a => if hit a then g [a] else [a]) s.

Lemma replace_each_cons hit g a s :
  replace_each hit g (a :: s) = (if hit a then g [a] else [a]) ++ replace_each hit g s.
Proof. reflexivity. Qed.

Lemma search_from_class_index cs g ml s i pv mt p' :
  search_from (class_regexp cs g ml) i pv s = Some (mt, p') -> i <= index mt.
Proof.
  revert i pv. induction s as [|a s IH]; intros i pv; cbn [search_from].
  - rewrite match_at_class. cbn [rest]. discriminate.
  - rewrite match_at_class. cbn [rest idx].
    destruct (cs_mem false cs a).
    + intro H. inversion H. cbn [index]. lia.
    + intro H. apply IH in H. lia.
Qed.

Lemma splice_skip whole i a ms f :
  nth_error whole i = Some a ->
  (forall mt p', hd_error ms = Some (mt, p') -> S i <= index mt) ->
  splice whole i ms f = a :: splice whole (S i) ms f.
Proof.
  intros Hn Hms.
  assert (Hs : skipn i whole = a :: skipn (S i) whole).
  { clear Hms. revert i Hn. induction whole as [|x w IH]; intros [|i]; simpl; try discriminate.
    - intro H. inversion H. reflexivity.
    - intro H. apply IH in H. exact H. }
  destruct ms as [|[mt p'] ms]; simpl.
  - exact Hs.
  - specialize (Hms mt p' eq_refl).
    rewrite Hs. replace (index mt - i) with (S (index mt - S i)) by lia.
    reflexivity.
Qed.

Lemma nth_error_middle {A} (pre : list A) a s : nth_error (pre ++ a :: s) (List.length pre) = Some a.
Proof. induction pre; simpl; auto. Qed.

Lemma skipn_middle {A} (pre s : list A) : skipn (List.length pre) (pre ++ s) = s.
Proof. induction pre; simpl; auto. Qed.

Lemma replace_class_from cs ml f g :
  (forall mt, f mt = g (group 0 mt)) ->
  forall s pre pv fuel,
    List.length s < fuel ->
    splice (pre ++ s) (List.length pre)
      (matches_from fuel (class_regexp cs true ml)
         {| idx := List.length pre; prev := pv; rest := s |}) f
    = replace_each (cs_mem false cs) g s.
Proof.
  intros Hf. induction s as [|a s IH]; intros pre pv fuel Hfuel.
  - destruct fuel as [|fuel]; [simpl in Hfuel; lia|].
    cbn [matches_from search_from idx prev rest]. rewrite match_at_class. cbn [rest splice].
    apply skipn_middle.
  - destruct fuel as [|fuel]; [simpl in Hfuel; lia|].
    simpl in Hfuel.
    assert (Hpre : pre ++ a :: s = (pre ++ [a]) ++ s) by (rewrite <- app_assoc; reflexivity).
    assert (Hlen : List.length (pre ++ [a]) = S (List.length pre))
      by (rewrite length_app; simpl; lia).
    cbn [matches_from search_from idx prev rest]. rewrite match_at_class. cbn [rest idx prev].
    destruct (cs_mem false cs a) eqn:E.
    + cbn [idx index]. replace (Nat.eqb (S (List.length pre)) (List.length pre)) with false
        by (symmetry; apply Nat.eqb_neq; lia).
      cbn [splice index idx]. rewrite Nat.sub_diag. cbn [firstn app].
      rewrite Hf. unfold group, capture. cbn [captures nth].
      rewrite replace_each_cons, E. f_equal.
      rewrite Hpre, <- Hlen. apply IH. lia.
    + rewrite replace_each_cons, E. cbn [app].
      specialize (IH (pre ++ [a]) (Some a) (S fuel) ltac:(lia)).
      rewrite Hlen in IH. cbn [matches_from idx prev rest] in IH. rewrite <- Hpre in IH.
      rewrite <- IH.
      destruct (search_from (class_regexp cs true ml) (S (List.length pre)) (Some a) s)
        as [[mt p']|] eqn:S1.
      * apply splice_skip; [apply nth_error_middle|].
        intros mt0 p0 H0. cbn [hd_error] in H0. inversion H0; subst.
        eapply search_from_class_index; eauto.
      * apply splice_skip; [apply nth_error_middle|]. intros ? ? H0. discriminate.
Qed.

Lemma replace_class cs ml f g s :
  (forall mt, f mt = g (group 0 mt)) ->
  replace (class_regexp cs true ml) f s = replace_each (cs_mem false cs) g s.
Proof.
  intro Hf. unfold replace, all_matches. cbn [global class_regexp].
  apply (@replace_class_from cs ml f g Hf s [] None). lia.
Qed.

(** ** sanitizeUrl *)

(** The characters [A-Za-z0-9/:]. *)
Definition is_url_char (c : N) : bool :=
  in_range 65 90 c || in_range 97 122 c || in_range 48 57 c
  || N.eqb c 47 || N.eqb c 58.

(** Begins with [javascript:], [vbscript:] or [data:]. *)
Definition has_script_scheme (prot : jsstring) : bool :=
  starts_with (str "javascript:") prot
  || starts_with (str "vbscript:") prot
  || starts_with (str "data:") prot.

Lemma in_range_single a c : in_range a a c = N.eqb c a.
Proof.
  unfold in_range. destruct (N.eqb_spec c a) as [->|H].
  - now rewrite N.leb_refl.
  - destruct (N.leb_spec a c), (N.leb_spec c a); try reflexivity. lia.
Qed.

Definition url_char_class : charset :=
  {| negated := true;
     items := [CRange 65 90; CRange 97 122; CRange 48 57;
               CRange 47 47; CRange 58 58] |}.

Lemma url_char_class_mem a : cs_mem false url_char_class a = negb (is_url_char a).
Proof.
  unfold cs_mem, items_mem, url_char_class, is_url_char.
  cbn [negated items existsb item_mem andb].
  rewrite !in_range_single, !orb_false_r, <- !orb_assoc. reflexivity.
Qed.

Lemma protocol_strip_is_filter (decoded : jsstring) :
  replace PROTOCOL_STRIP_R (const_str []) decoded = List.filter is_url_char decoded.
Proof.
  change PROTOCOL_STRIP_R with (class_regexp url_char_class true false).
  rewrite (@replace_class _ _ _ (fun _ => [])) by reflexivity.
  unfold replace_each.
  induction decoded as [|a s IH]; [reflexivity|].
  cbn [flat_map List.filter]. rewrite IH, url_char_class_mem.
  destruct (is_url_char a); reflexivity.
Qed.

(** C4.  [sanitizeUrl] is null for null, null when percent-decoding
    fails, null when the decoded argument, stripped of every character
    outside [A-Za-z0-9/:] and lowercased, begins with [javascript:],
    [vbscript:] or [data:], and the argument itself in every other
    case. *)
Theorem sanitizeUrl_cases (url : option jsstring) :
  sanitizeUrl url
  = match url with
    | None => None
    | Some u =>
        match URI.decodeURIComponent u with
        | None => None
        | Some decoded =>
            if has_script_scheme (toLowerCase (List.filter is_url_char decoded))
            then None
            else Some u
        end
    end.
Proof.
  destruct url as [u|]; [|reflexivity].
  unfold sanitizeUrl, protocolOf.
  destruct (URI.decodeURIComponent u) as [decoded|]; [|reflexivity].
  cbn [option_map]. rewrite protocol_strip_is_filter. reflexivity.
Qed.

(** The built-in on the example of the source's comment, and on escapes
    that hide a scheme. *)
Example decodeURIComponent_malformed :
  URI.decodeURIComponent (str "a%AFc") = None.
Proof. reflexivity. Qed.

Example sanitizeUrl_escaped_scheme :
  sanitizeUrl (Some (str "java%73cript:alert(1)")) = None
  /\ sanitizeUrl (Some (str " J a v a S c r i p t :x")) = None
  /\ sanitizeUrl (Some (str "http://e.com/?q=data:")) = Some (str "http://e.com/?q=data:").
Proof.
  split; [vm_compute; reflexivity|].
  split; [vm_compute; reflexivity|vm_compute; reflexivity].
Qed.

(** ** sanitizeText, on every string *)

(** The five characters that [SANITIZE_TEXT_R] matches. *)
Definition is_escaped_char (c : N) : bool :=
  N.eqb c 60 || N.eqb c 62 || N.eqb c 38 || N.eqb c 34 || N.eqb c 39.

Definition entity (c : jsstring) : jsstring := to_String (get c SANITIZE_TEXT_CODES).

Definition escaped_char_class : charset :=
  {| negated := false;
     items := [CRange 60 60; CRange 62 62; CRange 38 38;
               CRange 34 34; CRange 39 39] |}.

Lemma escaped_char_class_mem a : cs_mem false escaped_char_class a = is_escaped_char a.
Proof.
  unfold cs_mem, items_mem, escaped_char_class, is_escaped_char.
  cbn [negated items existsb item_mem andb].
  rewrite !in_range_single, !orb_false_r, <- !orb_assoc. reflexivity.
Qed.

(** What [sanitizeText] does to a string: each of the five characters
    that [SANITIZE_TEXT_R] matches (the angle brackets, the ampersand and
    the two quotes) becomes its entity, and every other code unit, the
    slash and the backtick among them, stays. *)
Lemma sanitizeText_each (s : jsstring) :
  sanitizeText (VStr s) = replace_each is_escaped_char entity s.
Proof.
  unfold sanitizeText. cbn [to_String].
  change SANITIZE_TEXT_R with (class_regexp escaped_char_class true false).
  rewrite (@replace_class _ _ _ entity) by reflexivity.
  unfold replace_each. apply flat_map_ext. intro a.
  now rewrite escaped_char_class_mem.
Qed.

(** ** The matcher, equation by equation *)

Definition present {A} (o : option A) : bool :=
  match o with
  | Some _ => true
  | None => false
  end.

(** The rounds of a quantifier over one character class. *)
Definition class_round (ic ml : bool) (cs : charset) : pos -> caps -> K -> option (pos * caps) :=
  fun p0 c0 k0 => m ic ml (RChar cs) p0 (clear_caps (groups_in (RChar cs)) c0) k0.

Lemma m_rep_class ic ml g mn mx cs p c k :
  m ic ml (RRep g mn mx (RChar cs)) p c k
  = repeat_matcher (class_round ic ml cs) g k (mn + List.length (rest p) + 1) mn mx p c.
Proof. reflexivity. Qed.

Definition line_feed_class : charset := {| negated := false; items := [CRange 10 10] |}.

Definition is_line_feed (c : N) : bool := N.eqb c LF.

Lemma line_feed_class_mem ic a : cs_mem ic line_feed_class a = is_line_feed a.
Proof.
  unfold cs_mem, items_mem, line_feed_class, is_line_feed.
  cbn [negated items existsb item_mem].
  rewrite !in_range_single, !orb_false_r.
  destruct ic; cbn [andb]; [|now rewrite orb_false_r].
  unfold lower_char, upper_char, in_range, LF.
  destruct (N.eqb_spec a 10) as [->|H]; [reflexivity|].
  cbn [orb].
  repeat match goal with
         | |- context [N.leb ?x ?y] => destruct (N.leb_spec x y)
         end; cbn [andb orb];
  repeat match goal with
         | |- context [N.eqb ?x ?y] => destruct (N.eqb_spec x y)
         end; try reflexivity; lia.
Qed.

Lemma repeat_matcher_unbounded body g k fuel mn p c :
  repeat_matcher body g k (S fuel) mn None p c
  = let round (_ : unit) :=
      body p c (fun p' c' =>
        if Nat.eqb mn 0 && Nat.eqb (idx p') (idx p) then None
        else repeat_matcher body g k fuel (Nat.pred mn) None p' c') in
    if negb (Nat.eqb mn 0) then round tt
    else if g then orelse (round tt) (fun _ => k p c)
    else orelse (k p c) round.
Proof. reflexivity. Qed.

Lemma class_round_cons ic ml cs i pv a s c k :
  class_round ic ml cs {| idx := i; prev := pv; rest := a :: s |} c k
  = if cs_mem ic cs a then k {| idx := S i; prev := Some a; rest := s |} c else None.
Proof. reflexivity. Qed.

Lemma class_round_nil ic ml cs i pv c k :
  class_round ic ml cs {| idx := i; prev := pv; rest := [] |} c k = None.
Proof. reflexivity. Qed.

Lemma succ_eqb_false i : Nat.eqb (S i) i = false.
Proof. apply Nat.eqb_neq. lia. Qed.

(** [\n{mn,}$] from a position on: it matches exactly when what is left
    is line feeds only, at least [mn] of them. *)
Lemma line_feeds_to_end s :
  forall i pv c fuel mn,
    mn + List.length s < fuel ->
    present (repeat_matcher (class_round false false line_feed_class) true
               (fun p' c' => m false false REol p' c' (fun p'' c'' => Some (p'', c'')))
               fuel mn None {| idx := i; prev := pv; rest := s |} c)
    = forallb is_line_feed s && Nat.leb mn (List.length s).
Proof.
  induction s as [|a s IH]; intros i pv c fuel mn Hfuel;
    (destruct fuel as [|fuel]; [lia|]); cbn [List.length] in Hfuel;
    rewrite repeat_matcher_unbounded; cbv zeta.
  - rewrite class_round_nil. destruct mn as [|mn]; reflexivity.
  - rewrite class_round_cons, line_feed_class_mem. cbn [idx forallb List.length].
    rewrite succ_eqb_false, andb_false_r.
    destruct (is_line_feed a) eqn:E; cbn [andb].
    + destruct mn as [|mn]; cbn [Nat.eqb negb Nat.pred Nat.leb].
      * specialize (IH (S i) (Some a) c fuel 0 ltac:(lia)).
        cbn [Nat.leb] in IH. rewrite andb_true_r in IH. rewrite <- IH.
        unfold orelse.
        destruct (repeat_matcher _ _ _ fuel 0 None _ c) as [x|]; reflexivity.
      * apply IH. lia.
    + destruct mn as [|mn]; reflexivity.
Qed.

Lemma block_end_match_at i pv s :
  present (match_at BLOCK_END_R {| idx := i; prev := pv; rest := s |})
  = forallb is_line_feed s && Nat.leb 2 (List.length s).
Proof.
  unfold match_at.
  change (pattern BLOCK_END_R) with (RSeq (RRep true 2 None (RChar line_feed_class)) REol).
  change (ignoreCase BLOCK_END_R) with false.
  change (multiline BLOCK_END_R) with false.
  cbn [m]. 
  rewrite <- (@line_feeds_to_end s i pv (repeat None (S (ngroups BLOCK_END_R)))
                (2 + List.length s + 1) 2) by lia.
  fold (class_round false false line_feed_class).
  cbn [rest].
  destruct (repeat_matcher _ _ _ _ _ _ _ _) as [[p' c']|]; reflexivity.
Qed.

Lemma line_feeds_end s :
  forallb is_line_feed s = true -> 2 <= List.length s ->
  exists pre, s = pre ++ [LF; LF].
Proof.
  induction s as [|a s IH]; cbn [forallb List.length]; [lia|].
  intros H L. apply andb_prop in H. destruct H as [Ha Hs].
  apply N.eqb_eq in Ha. subst a.
  destruct s as [|b s]; [cbn in L; lia|].
  destruct s as [|d s].
  - cbn [forallb] in Hs. apply andb_prop in Hs. destruct Hs as [Hb _].
    apply N.eqb_eq in Hb. subst b. exists []. reflexivity.
  - destruct (IH Hs) as [pre E]; [cbn [List.length]; lia|].
    exists (LF :: pre). rewrite E. reflexivity.
Qed.

(** [BLOCK_END_R] finds a match exactly in the strings that end in two
    line feeds. *)
Lemma block_end_search s :
  forall i pv,
    present (search_from BLOCK_END_R i pv s) = true
    <-> exists pre, s = pre ++ [LF; LF].
Proof.
  induction s as [|a s IH]; intros i pv; cbn [search_from].
  - pose proof (block_end_match_at i pv []) as M.
    destruct (match_at BLOCK_END_R _); cbn in M; [discriminate|].
    cbn [present]. split; [discriminate|].
    intros [pre E]. destruct pre; discriminate.
  - pose proof (block_end_match_at i pv (a :: s)) as M.
    destruct (match_at BLOCK_END_R _) as [x|]; cbn [present] in *.
    + split; [intros _|reflexivity].
      symmetry in M. apply andb_prop in M. destruct M as [M1 M2].
      apply line_feeds_end; [exact M1|]. now apply Nat.leb_le.
    + rewrite IH. split.
      * intros [pre E]. exists (a :: pre). now rewrite E.
      * intros [pre E]. destruct pre as [|x pre].
        -- cbn [app] in E. inversion E; subst. cbn in M. discriminate.
        -- cbn [app] in E. inversion E; subst. now exists pre.
Qed.

Lemma block_end_test (source : jsstring) :
  test BLOCK_END_R source = true <-> exists pre, source = pre ++ [LF; LF].
Proof.
  rewrite <- (block_end_search source 0 None).
  unfold test, exec. destruct (search_from BLOCK_END_R 0 None source); reflexivity.
Qed.

(** ** defaultImplicitParse *)

(** The regular expression that the claim names, [^.*\n{2,}$]. *)
Definition CLAIMED_BLOCK_END_R : RegExp := Eval vm_compute in re_ "^.*\n{2,}$".

Definition two_lines_source : jsstring := str "a" ++ [LF] ++ str "b" ++ [LF; LF].

(** C8, as the code has it.  [defaultImplicitParse] parses with the
    default rules from a state whose [inline] is the negation of
    [BLOCK_END_R.test(source)], and [BLOCK_END_R], which is [\n{2,}$]
    with no anchor at the start, matches exactly the sources that end in
    two line feeds, whatever stands before them. *)
Theorem implicit_parse_scope (fuel : nat) (source : jsstring) (state : option State) :
  defaultImplicitParse fuel source state
  = defaultRawParse fuel source
      (Some (sset "inline" (VBool (negb (test BLOCK_END_R source))) (orEmptyState state)))
  /\ sget "inline" (implicitState source state) = VBool (negb (test BLOCK_END_R source))
  /\ (test BLOCK_END_R source = true <-> exists pre, source = pre ++ [LF; LF]).
Proof.
  split; [reflexivity|]. split; [|apply block_end_test].
  unfold implicitState, sget, sset. cbn [fields]. apply get_set_same.
Qed.

(** C8, as claimed, fails on a source of two lines: it ends in a blank
    line, so the code parses it in block scope, while [^.*\n{2,}$] does
    not match it, the dot not matching a line feed. *)
Lemma implicit_parse_scope_is_not_anchored :
  sget "inline" (implicitState two_lines_source None)
  <> VBool (negb (test CLAIMED_BLOCK_END_R two_lines_source)).
Proof. vm_compute. discriminate. Qed.

(** ** Node types *)

(** [h] with the cell at [a] replaced. *)
Definition replaced (a : nat) (v : value) (h : list value) : list value :=
  firstn a h ++ v :: skipn (S a) h.

Lemma replaced_same a v h : a < List.length h -> nth_error (replaced a v h) a = Some v.
Proof.
  intro L. unfold replaced.
  rewrite nth_error_app2 by (rewrite length_firstn; lia).
  rewrite length_firstn. replace (a - Nat.min a (List.length h)) with 0 by lia.
  reflexivity.
Qed.

Lemma replaced_other a v h b :
  a < List.length h -> b <> a -> nth_error (replaced a v h) b = nth_error h b.
Proof.
  intros L N. unfold replaced.
  destruct (Nat.lt_ge_cases b a) as [Lt|Ge].
  - rewrite nth_error_app1 by (rewrite length_firstn; lia).
    rewrite nth_error_firstn. destruct (Nat.ltb_spec b a); [reflexivity|lia].
  - rewrite nth_error_app2 by (rewrite length_firstn; lia).
    rewrite length_firstn. replace (b - Nat.min a (List.length h)) with (S (b - S a)) by lia.
    cbn [nth_error]. rewrite nth_error_skipn. f_equal. lia.
Qed.

(** An object whose [type] is neither null nor undefined. *)
Definition typed (o : obj) : Prop := is_nullish (get (str "type") o) = false.

(** A node of a result with a type: a node object, or a reference to a
    node object that the state holds too, in the store [h]. *)
Definition typed_node (h : list value) (node : value) : Prop :=
  match node with
  | VObj o => typed o
  | VRef a => exists o, nth_error h a = Some (VObj o) /\ typed o
  | _ => False
  end.








Section NodeTypes.

Variable rules : Rules.
Variable defaultState : option obj.

(** Every rule's parse gives one node: a node object, or a reference to
    a node object that the state holds too (as [parseRef] gives). *)
Definition single_nodes : Prop :=
  forall name r, In (name, r) (named rules) ->
  forall cap nested st v st',
    parse r cap nested st = Ok (v, st') ->
    (exists o, v = VObj o) \/ (exists a, v = VRef a).



Lemma lookup_In type rs r : lookup type rs = Some r -> exists name, In (name, r) rs.
Proof.
  induction rs as [|[k r'] rs IH]; cbn [lookup]; [discriminate|].
  destruct (str_eqb type k).
  - intro H. inversion H; subst. exists k. now left.
  - intro H. destruct (IH H) as [name Hin]. exists name. now right.
Qed.

Definition from_table (best : Best) : Prop :=
  forall t r cap, bestMatch best = Some (t, r, cap) ->
  exists name, In (name, r) (named rules).

Lemma tryRule_from_table source state t r best :
  (exists name, In (name, r) (named rules)) ->
  from_table best -> from_table (tryRule source state t r best).
Proof.
  intros Hr Hb. unfold tryRule.
  destruct (match rmatch r with Some f => _ | None => None end) as [cap|]; [|exact Hb].
  destruct (beats _ _); [|exact Hb].
  intros t' r' cap' H. cbn [bestMatch] in H. inversion H; subst. exact Hr.
Qed.

Lemma ruleLoop_from_table source state later :
  forall t r best,
    (exists name, In (name, r) (named rules)) ->
    from_table best ->
    from_table (ruleLoop rules source state t r later best).
Proof.
  induction later as [|next later IH]; intros t r best Hr Hb; cbn [ruleLoop].
  - now apply tryRule_from_table.
  - destruct (lookup next (named rules)) as [nextRule|] eqn:L;
      [|now apply tryRule_from_table].
    destruct (_ || _); [|now apply tryRule_from_table].
    apply IH; [eapply lookup_In; eauto|now apply tryRule_from_table].
Qed.

Lemma pickRule_from_table source state t r cap :
  pickRule rules source state = Ok (t, r, cap) ->
  exists name, In (name, r) (named rules).
Proof.
  unfold pickRule. destruct (ruleList rules) as [|first later]; [discriminate|].
  destruct (lookup first (named rules)) as [currRule|] eqn:L; [|discriminate].
  destruct (bestMatch _) as [[[t' r'] cap']|] eqn:B; [|discriminate].
  destruct (negb _); [discriminate|]. intro H. inversion H; subst.
  eapply ruleLoop_from_table; [eapply lookup_In; eauto| |exact B].
  intros ? ? ? H0. discriminate.
Qed.




End NodeTypes.

(** *** The default rules give one node each and keep the types *)




















(** A parse that, if it returns, gives a node object or a reference to
    one. *)
Definition gives_one (x : M value) : Prop :=
  forall st v st', x st = Ok (v, st') -> (exists o, v = VObj o) \/ (exists a, v = VRef a).




Lemma parseRef_gives_one cap refNode : gives_one (parseRef cap refNode).
Proof.
  intros st v st'. unfold parseRef.
  destruct (orEmptyObject (sget "_refs" st)); try discriminate.
  destruct (if truthy (Dict.lookup _ _) then _ else _); try discriminate.
  intro H. inversion H; subst. right. eauto.
Qed.




(** A rule table of one rule, [item], that takes one code unit and
    whose parse gives an object without a type; and the same with a
    parse that gives an array of one such object. *)
Definition ANY_CHAR_R : RegExp := Eval vm_compute in re_ "^[\s\S]".

Definition item_rules (parsed : value) : Rules :=
  {| Array := None;
     named := [ (str "item",
                 {| order := 0; rmatch := Some (anyScopeRegex ANY_CHAR_R);
                    quality := None; parse := fun _ _ => ret parsed;
                    html := None |}) ] |}.

Definition inline_state : State := sset "inline" (VBool true) empty_state.

(** A reference link, a word in emphasis and plain text, parsed by the
    default rules in inline scope. *)
Definition reference_and_emphasis_source : jsstring := str "[a][b] *c* d".

Definition reference_and_emphasis_parsed : list value * State :=
  match parserFor defaultRules.all None 6 reference_and_emphasis_source
          (Some inline_state) with
  | Ok x => x
  | Throw _ => ([], empty_state)
  end.


(** The first of those nodes is the reference to the link node in the
    store, which has the type [link]. *)
Example reference_node_is_typed :
  nth_error (fst reference_and_emphasis_parsed) 0 = Some (VRef 0)
  /\ List.length (fst reference_and_emphasis_parsed) = 4
  /\ option_map (prop "type") (nth_error (heap (snd reference_and_emphasis_parsed)) 0)
     = Some (VStr (str "link")).
Proof. vm_compute. repeat split. Qed.


(** A parse result with a type of its own keeps it, whatever it is: the
    dispatcher only tests [parsed.type == null].  Here the type is the
    empty string. *)
Example own_type_is_kept :
  exists state',
    parserFor (item_rules (VObj [ field "type" (VStr []) ])) None 2 (str "a")
      (Some inline_state)
    = Ok ([ VObj [ field "type" (VStr []) ] ], state').
Proof. eexists. vm_compute. reflexivity. Qed.

(** Without the second condition a node can lose its type after it was
    appended: here the parse of the rule [wipe] empties the node that the
    rule [ref] had put into the store and returned. *)
Definition LETTER_A_R : RegExp := Eval vm_compute in re_ "^a".

Definition wiping_rules : Rules :=
  {| Array := None;
     named := [ (str "ref",
                 {| order := 0; rmatch := Some (anyScopeRegex LETTER_A_R);
                    quality := None;
                    parse := fun capture _ =>
                               parseRef capture [ field "type" (VStr (str "link")) ];
                    html := None |});
                (str "wipe",
                 {| order := 1; rmatch := Some (anyScopeRegex ANY_CHAR_R);
                    quality := None;
                    parse := fun _ _ state =>
                               Ok (VObj [],
                                   {| fields := fields state;
                                      heap := List.map (fun _ => VObj []) (heap state) |});
                    html := None |}) ] |}.

Example later_parse_can_take_a_type :
  exists nodes state',
    parserFor wiping_rules None 3 (str "ab") (Some inline_state) = Ok (nodes, state')
    /\ single_nodes wiping_rules
    /\ ~ Forall (typed_node (heap state')) nodes.
Proof.
  eexists. eexists. split; [vm_compute; reflexivity|]. split.
  - intros name r [Hin|[Hin|[]]] cap nested st v st' H; inversion Hin; subst name r;
      cbn [parse] in H.
    + exact (@parseRef_gives_one _ _ _ _ _ H).
    + left. inversion H; subst. eauto.
  - intro F. inversion F as [|? ? T _]. cbn [typed_node heap] in T.
    destruct T as [o [E T]]. vm_compute in E. inversion E; subst. discriminate T.
Qed.

(** ** Client fields of the state *)

(** The fields of the state that the parser and the rules know. *)
Definition recognized_fields : list jsstring :=
  List.map str
    [ "inline"; "disableAutoBlockNewlines"; "inTable"; "_list";
      "prevCapture"; "_defs"; "_refs"; "key" ]%string.

Definition is_recognized (k : jsstring) : bool :=
  existsb (str_eqb k) recognized_fields.

(** Every other field is there or not, and has the value, as before. *)
Definition same_client_fields (st st' : State) : Prop :=
  forall k, is_recognized k = false ->
    get k (fields st') = get k (fields st)
    /\ has k (fields st') = has k (fields st).

Lemma has_set_other k k' v o : k <> k' -> has k (set k' v o) = has k o.
Proof.
  intro H. induction o as [|[k2 v2] o IH]; cbn [set has].
  - now rewrite (str_eqb_neq H).
  - destruct (str_eqb k' k2) eqn:E; cbn [has].
    + apply str_eqb_eq in E. subst k2. reflexivity.
    + now rewrite IH.
Qed.

Lemma same_client_fields_refl st : same_client_fields st st.
Proof. intros k _. split; reflexivity. Qed.

Lemma same_client_fields_trans st1 st2 st3 :
  same_client_fields st1 st2 -> same_client_fields st2 st3 ->
  same_client_fields st1 st3.
Proof.
  intros H1 H2 k Hk. destruct (H1 k Hk) as [A B], (H2 k Hk) as [C D].
  split; congruence.
Qed.

(** Writing a recognized field, and anything done to the store, leaves
    the client fields alone. *)
Lemma same_client_fields_set st k v h :
  is_recognized k = true ->
  same_client_fields st {| fields := set k v (fields st); heap := h |}.
Proof.
  intros Hk k' Hk'. cbn [fields].
  assert (k' <> k) by (intros ->; congruence).
  split; [now apply get_set_other|now apply has_set_other].
Qed.


(** A computation keeps the client fields when, if it returns, it
    returns in a state with the client fields it found. *)
Definition keeps {A} (x : M A) : Prop :=
  forall st a st', x st = Ok (a, st') -> same_client_fields st st'.

Definition parser_keeps (p : Parser) : Prop := forall source, keeps (p source).

Lemma keeps_ret {A} (a : A) : keeps (ret a).
Proof. intros st a' st' H. inversion H; subst. apply same_client_fields_refl. Qed.

Lemma keeps_throw {A} e : keeps (@throw A e).
Proof. intros st a st' H. discriminate. Qed.

Lemma keeps_bind {A B} (x : M A) (f : A -> M B) :
  keeps x -> (forall a, keeps (f a)) -> keeps (bind x f).
Proof.
  intros Hx Hf st b st'. unfold bind.
  destruct (x st) as [[a st1]|] eqn:E; [|discriminate].
  intro H. eapply same_client_fields_trans; [eapply Hx; eauto|eapply Hf; eauto].
Qed.

Lemma keeps_read p : keeps (read p).
Proof. intros st a st' H. inversion H; subst. apply same_client_fields_refl. Qed.

Lemma keeps_read_state : keeps read_state.
Proof. intros st a st' H. inversion H; subst. apply same_client_fields_refl. Qed.

Lemma keeps_write p v : is_recognized (str p) = true -> keeps (write p v).
Proof.
  intros Hp st a st' H. inversion H; subst. unfold sset.
  now apply same_client_fields_set.
Qed.

Lemma keeps_mapM {A B} (f : A -> M B) xs : (forall x, keeps (f x)) -> keeps (mapM f xs).
Proof.
  intro Hf. induction xs as [|x xs IH]; cbn [mapM]; [apply keeps_ret|].
  apply keeps_bind; [apply Hf|]. intro y.
  apply keeps_bind; [apply IH|]. intro ys. apply keeps_ret.
Qed.

(** Breaks a computation down along its binds and case distinctions. *)
Ltac keeps_step :=
  match goal with
  | |- keeps (ret _) => apply keeps_ret
  | |- keeps (throw _) => apply keeps_throw
  | |- keeps (read _) => apply keeps_read
  | |- keeps read_state => apply keeps_read_state
  | |- keeps (write _ _) => apply keeps_write; reflexivity
  | |- keeps (bind _ _) => apply keeps_bind; [|intro]
  | |- keeps (mapM _ _) => apply keeps_mapM; intro
  | H : parser_keeps ?p |- keeps (?p _) => apply H
  | |- keeps (match ?x with _ => _ end) => destruct x
  | |- keeps (if ?x then _ else _) => destruct x
  end.

Ltac keeps_auto := repeat keeps_step.



Lemma parseBlock_keeps nested content :
  parser_keeps nested -> keeps (parseBlock nested content).
Proof. intro H. unfold parseBlock. keeps_auto. Qed.

















(** A state with a client field, and a source with a list, a reference
    link and its definition. *)
Definition client_state : State :=
  {| fields := [ field "passage" (VNum 7) ]; heap := [] |}.

Definition list_and_reference_source : jsstring :=
  str "- [x][y]" ++ [LF; LF] ++ str "[y]: http://e.com" ++ [LF].

(** A state with two client fields, a template that names one of them,
    and the parse of that source by the parser of the template. *)
Definition paged_state : State :=
  {| fields := [ field "passage" (VNum 7); field "page" (VNum 3) ]; heap := [] |}.

Definition page_template : obj :=
  [ field "page" (VNum 1); field "disableAutoBlockNewlines" (VBool true) ].

Definition template_parsed : list value * State :=
  match parserFor defaultRules.all (Some page_template) 8 list_and_reference_source
          (Some paged_state) with
  | Ok x => x
  | Throw _ => ([], empty_state)
  end.


(** In the state that parse leaves, [passage] is as the caller gave it
    and [page] is as the template has it. *)
Example passage_kept_and_page_from_template :
  List.length (fst template_parsed) = 2
  /\ get (str "passage") (fields (snd template_parsed)) = VNum 7
  /\ get (str "page") (fields (snd template_parsed)) = VNum 1.
Proof. vm_compute. repeat split. Qed.


Definition parsed_with (fuel : nat) (source : jsstring) (state : State) : State :=
  match defaultBlockParse fuel source (Some state) with
  | Ok (_, state') => state'
  | Throw _ => state
  end.

Definition parsed_nodes (fuel : nat) (source : jsstring) (state : State) : list value :=
  match defaultBlockParse fuel source (Some state) with
  | Ok (nodes, _) => nodes
  | Throw _ => []
  end.

(** ** The choice among em, strong and u *)

Definition full_length (cap : Match) : nat := List.length (group 0 cap).

Lemma lengthPlus_le a b c1 c2 st1 p1 st2 p2 :
  (0 <= a < 10)%Z -> (0 <= b < 10)%Z ->
  Qle_bool (defaultRules.lengthPlus a c1 st1 p1) (defaultRules.lengthPlus b c2 st2 p2) = true
  <-> full_length c1 < full_length c2
      \/ (full_length c1 = full_length c2 /\ (a <= b)%Z).
Proof.
  intros Ha Hb. rewrite Qle_bool_iff. unfold defaultRules.lengthPlus, full_length.
  generalize (List.length (group 0 c1)), (List.length (group 0 c2)). intros n k.
  unfold Qle, Qplus, inject_Z. cbn [Qnum Qden]. 
  change (Z.pos (1 * 10)) with 10%Z. lia.
Qed.
Lemma default_rule_list :
  ruleList defaultRules.all
  = List.map str
      [ "heading"; "nptable"; "lheading"; "hr"; "codeBlock"; "fence";
        "blockQuote"; "list"; "def"; "table"; "newline"; "paragraph";
        "escape"; "tableSeparator"; "autolink"; "mailto"; "url"; "link";
        "image"; "reflink"; "refimage"; "em"; "strong"; "u"; "del";
        "inlineCode"; "br"; "text" ]%string.
Proof. vm_compute. reflexivity. Qed.

(** [rule.match(source, state, prevCaptureStr)] *)
Definition match_of (r : Rule) (source : jsstring) (state : State) : option Match :=
  match rmatch r with
  | Some f => f source state (prevCaptureStr state)
  | None => None
  end.

(** [rule.quality(capture, state, prevCaptureStr)], 0 without one. *)
Definition quality_of (r : Rule) (cap : Match) (state : State) : Q :=
  match quality r with
  | Some f => f cap state (prevCaptureStr state)
  | None => 0%Q
  end.

Lemma tryRule_eq source state t r best :
  tryRule source state t r best
  = match match_of r source state with
    | Some cap =>
        if beats (quality_of r cap state) (bestQuality best)
        then {| bestMatch := Some (t, r, cap);
                bestQuality := Some (quality_of r cap state) |}
        else best
    | None => best
    end.
Proof. reflexivity. Qed.

Lemma ruleLoop_step rules source state t r next later best nextRule :
  lookup next (named rules) = Some nextRule ->
  ruleLoop rules source state t r (next :: later) best
  = if match bestMatch (tryRule source state t r best) with
       | None => true
       | Some _ => false
       end
       || (Qeq_bool (order nextRule) (order r) && has_quality nextRule)
    then ruleLoop rules source state next nextRule later (tryRule source state t r best)
    else tryRule source state t r best.
Proof. intro L. cbn [ruleLoop]. rewrite L. reflexivity. Qed.

Lemma ruleLoop_last rules source state t r best :
  ruleLoop rules source state t r [] best = tryRule source state t r best.
Proof. reflexivity. Qed.


Definition no_best : Best := {| bestMatch := None; bestQuality := None |}.

Lemma loop_skip rules source state t r next later nextRule best :
  lookup next (named rules) = Some nextRule ->
  match_of r source state = None ->
  bestMatch best = None ->
  ruleLoop rules source state t r (next :: later) best
  = ruleLoop rules source state next nextRule later best.
Proof.
  intros L M B. rewrite (@ruleLoop_step rules source state t r next later best nextRule L), tryRule_eq, M, B.
  reflexivity.
Qed.

Lemma loop_stop rules source state t r next later nextRule best c :
  lookup next (named rules) = Some nextRule ->
  match_of r source state = Some c ->
  bestQuality best = None ->
  Qeq_bool (order nextRule) (order r) && has_quality nextRule = false ->
  ruleLoop rules source state t r (next :: later) best
  = {| bestMatch := Some (t, r, c);
       bestQuality := Some (quality_of r c state) |}.
Proof.
  intros L M B N. rewrite (@ruleLoop_step rules source state t r next later best nextRule L), tryRule_eq, M, B.
  cbn [beats bestMatch orb]. rewrite N. reflexivity.
Qed.

Lemma last_skip rules source state t r best :
  match_of r source state = None ->
  ruleLoop rules source state t r [] best = best.
Proof. intro M. now rewrite ruleLoop_last, tryRule_eq, M. Qed.

Lemma last_stop rules source state t r best c :
  match_of r source state = Some c ->
  bestQuality best = None ->
  ruleLoop rules source state t r [] best
  = {| bestMatch := Some (t, r, c);
       bestQuality := Some (quality_of r c state) |}.
Proof. intros M B. now rewrite ruleLoop_last, tryRule_eq, M, B. Qed.

Lemma pickRule_default source state :
  pickRule defaultRules.all source state
  = match bestMatch
            (ruleLoop defaultRules.all source state (str "heading")
               defaultRules.heading (List.tl (ruleList defaultRules.all)) no_best) with
    | None => Throw (NoMatchingRule (last_of (ruleList defaultRules.all)) source)
    | Some (ruleType, rule, cap) =>
        if negb (Nat.eqb (index cap) 0) then Throw UnanchoredMatch
        else Ok (ruleType, rule, cap)
    end.
Proof. unfold pickRule. rewrite default_rule_list. reflexivity. Qed.

Definition emphasis_names : list jsstring := [str "em"; str "strong"; str "u"].

Definition rank_of (name : jsstring) : nat :=
  if str_eqb name (str "em") then 0
  else if str_eqb name (str "strong") then 1
  else 2.

Lemma ok_triple_inv {A B C} (a a' : A) (b b' : B) (c c' : C) :
  Ok (a, b, c) = Ok (a', b', c') -> a = a' /\ b = b' /\ c = c'.
Proof. intro H. inversion H. auto. Qed.

Lemma pair_inv {A B} (a a' : A) (b b' : B) : (a, b) = (a', b') -> a = a' /\ b = b'.
Proof. intro H. inversion H. auto. Qed.

(** The result of the round is the rule [t] with capture [c]; it is not
    one of the three. *)
Ltac chosen_elsewhere H Hn :=
  cbn [bestMatch] in H;
  match type of H with
  | (if ?b then _ else _) = _ => destruct b; [discriminate|]
  end;
  apply ok_triple_inv in H; destruct H as [? [? ?]]; subst;
  exfalso; revert Hn; clear; unfold emphasis_names;
  cbv; intros [Hn|[Hn|[Hn|[]]]]; discriminate.

Ltac next_rule rules next L :=
  let nr := fresh "nextRule" in
  evar (nr : Rule);
  assert (L : lookup next (named rules) = Some nr) by (subst nr; reflexivity);
  subst nr.

Ltac before_emphasis H Hn :=
  match type of H with
  | context [ruleLoop ?rules ?source ?state ?t ?r (?next :: ?later) no_best] =>
      let M := fresh "M" in
      let L := fresh "L" in
      next_rule rules next L;
      destruct (match_of r source state) eqn:M;
      [ rewrite (@loop_stop rules source state t r next later _ no_best _ L M eq_refl eq_refl) in H;
        chosen_elsewhere H Hn
      | rewrite (@loop_skip rules source state t r next later _ no_best L M eq_refl) in H; clear L ]
  end.


(** One more rule of the loop, inside a group of rules of one order. *)
Ltac in_group H :=
  match type of H with
  | context [ruleLoop ?rules ?source ?state ?t ?r (?next :: ?later) ?best] =>
      let M := fresh "M" in
      let L := fresh "L" in
      next_rule rules next L;
      rewrite (@ruleLoop_step rules source state t r next later best _ L) in H;
      rewrite tryRule_eq in H; clear L;
      destruct (match_of r source state) eqn:M;
      cbn [bestQuality bestMatch beats no_best] in H;
      try match type of H with
          | context [negb (Qle_bool ?a ?b)] =>
              let Bt := fresh "Bt" in
              destruct (Qle_bool a b) eqn:Bt; cbn [negb bestMatch bestQuality no_best] in H
          end;
      cbn [bestMatch orb no_best] in H;
      try match type of H with
          | context [Qeq_bool ?a ?b && ?c] =>
              let v := eval vm_compute in (Qeq_bool a b && c) in
              change (Qeq_bool a b && c) with v in H; cbv iota in H
          end
  end.

Ltac after_emphasis H Hn :=
  match type of H with
  | context [ruleLoop ?rules ?source ?state ?t ?r (?next :: ?later) no_best] =>
      before_emphasis H Hn
  | context [ruleLoop ?rules ?source ?state ?t ?r [] no_best] =>
      let M := fresh "M" in
      destruct (match_of r source state) eqn:M;
      [ rewrite (@last_stop rules source state t r no_best _ M eq_refl) in H;
        chosen_elsewhere H Hn
      | rewrite (@last_skip rules source state t r no_best M) in H;
        cbn [bestMatch no_best] in H; discriminate ]
  end.

Lemma quality_of_em c state :
  quality_of defaultRules.em c state = defaultRules.lengthPlus 2 c state (prevCaptureStr state).
Proof. reflexivity. Qed.
Lemma quality_of_strong c state :
  quality_of defaultRules.strong c state = defaultRules.lengthPlus 1 c state (prevCaptureStr state).
Proof. reflexivity. Qed.
Lemma quality_of_u c state :
  quality_of defaultRules.u c state = defaultRules.lengthPlus 0 c state (prevCaptureStr state).
Proof. reflexivity. Qed.

Lemma lengthPlus_not_le a b c1 c2 st1 p1 st2 p2 :
  (0 <= a < 10)%Z -> (0 <= b < 10)%Z ->
  Qle_bool (defaultRules.lengthPlus a c1 st1 p1) (defaultRules.lengthPlus b c2 st2 p2) = false ->
  full_length c2 < full_length c1
  \/ (full_length c2 = full_length c1 /\ (b < a)%Z).
Proof.
  intros Ha Hb H.
  destruct (Nat.lt_trichotomy (full_length c1) (full_length c2)) as [L|[E|G]].
  - assert (X : Qle_bool (defaultRules.lengthPlus a c1 st1 p1)
                  (defaultRules.lengthPlus b c2 st2 p2) = true)
      by (apply lengthPlus_le; auto).
    congruence.
  - destruct (Z_lt_le_dec b a) as [L|L]; [right; split; auto|].
    assert (X : Qle_bool (defaultRules.lengthPlus a c1 st1 p1)
                  (defaultRules.lengthPlus b c2 st2 p2) = true)
      by (apply lengthPlus_le; auto).
    congruence.
  - now left.
Qed.

Definition emphasis_rules : list (jsstring * Rule) :=
  [ (str "em", defaultRules.em);
    (str "strong", defaultRules.strong);
    (str "u", defaultRules.u) ].


(** Turns what the loop found out about the qualities into facts about
    the lengths of the full matches. *)
Ltac quality_facts :=
  repeat match goal with
         | H : Qle_bool (quality_of _ _ _) (quality_of _ _ _) = _ |- _ =>
             rewrite ?quality_of_em, ?quality_of_strong, ?quality_of_u in H;
             first [ apply lengthPlus_le in H; [|lia|lia]
                   | apply lengthPlus_not_le in H; [|lia|lia] ]
         end.

Lemma some_inv {A} (a b : A) : Some a = Some b -> a = b.
Proof. intro H. inversion H. reflexivity. Qed.

(** [Hm] says that a rule matched; the loop knows how. *)
Ltac same_capture Hm :=
  match type of Hm with
  | match_of ?r ?s ?st = Some ?c =>
      match goal with
      | A : match_of r s st = Some ?x |- _ =>
          lazymatch A with
          | Hm => fail
          | _ => rewrite A in Hm; apply some_inv in Hm; subst c
          end
      | A : match_of r s st = None |- _ =>
          rewrite A in Hm; discriminate Hm
      end
  end.

Ltac chosen_in_group H :=
  cbn [bestMatch] in H;
  match type of H with
  | (if ?b then _ else _) = _ => destruct b; [discriminate|]
  end;
  apply ok_triple_inv in H; destruct H as [? [? ?]]; subst;
  split;
  [ unfold emphasis_rules;
    match goal with
    | |- In (str "em", _) _ => left; reflexivity
    | |- In (str "strong", _) _ => right; left; reflexivity
    | |- In (str "u", _) _ => right; right; left; reflexivity
    end |];
  split; [assumption|];
  let other := fresh "other" in
  let r := fresh "r" in
  let c := fresh "c" in
  let Hin := fresh "Hin" in
  let Hm := fresh "Hm" in
  intros other r c Hin Hm;
  destruct Hin as [Hin|[Hin|[Hin|[]]]];
  apply pair_inv in Hin; destruct Hin as [? ?]; subst;
  same_capture Hm; quality_facts;
  change (rank_of (str "em")) with 0;
  change (rank_of (str "strong")) with 1;
  change (rank_of (str "u")) with 2;
  lia.

(** C1.  When the dispatcher's choice for a source is [em], [strong] or
    [u], the chosen rule matched, and of those three rules that match the
    source none has a longer full capture than the chosen one, and none
    with a full capture of the same length comes before it in the order
    [em], [strong], [u]: the longer capture wins, and on equal length
    [em] wins over [strong] and [strong] over [u]. *)
Theorem emphasis_choice (source : jsstring) (state : State) (name : jsstring)
    (rule : Rule) (cap : Match) :
  pickRule defaultRules.all source state = Ok (name, rule, cap) ->
  In name emphasis_names ->
  In (name, rule) emphasis_rules
  /\ match_of rule source state = Some cap
  /\ forall other r c,
       In (other, r) emphasis_rules ->
       match_of r source state = Some c ->
       full_length c < full_length cap
       \/ (full_length c = full_length cap /\ rank_of name <= rank_of other).
Proof.
  intros H Hn.
  rewrite pickRule_default, default_rule_list in H. cbn [List.map List.tl] in H.
  do 21 before_emphasis H Hn.
  in_group H; in_group H; in_group H.
  all: try (repeat after_emphasis H Hn; fail).
  1: chosen_in_group H.
  all: chosen_in_group H.
Qed.

(** A source on which [em] and [strong] both match, [strong] with the
    longer capture. *)
Definition strong_around_em_source : jsstring := str "***a* b**".

Definition strong_around_em_capture : Match :=
  {| index := 0;
     captures := [ Some (str "***a* b**"); Some (str "*a* b") ] |}.

Lemma emphasis_choice_witness :
  In (str "strong", defaultRules.strong) emphasis_rules
  /\ match_of defaultRules.strong strong_around_em_source inline_state
     = Some strong_around_em_capture
  /\ forall other r c,
       In (other, r) emphasis_rules ->
       match_of r strong_around_em_source inline_state = Some c ->
       full_length c < full_length strong_around_em_capture
       \/ (full_length c = full_length strong_around_em_capture
           /\ rank_of (str "strong") <= rank_of other).
Proof.
  apply (@emphasis_choice strong_around_em_source inline_state (str "strong")
           defaultRules.strong strong_around_em_capture).
  - vm_compute; reflexivity.
  - right. left. reflexivity.
Defined.

Example em_matches_too :
  match_of defaultRules.em strong_around_em_source inline_state
  = Some {| index := 0; captures := [ Some (str "***a*"); None; Some (str "**a") ] |}.
Proof. vm_compute. reflexivity. Qed.

(** On [***a***] the captures of [em] and [strong] have the same length,
    and the dispatcher takes [em]. *)
Example em_wins_the_tie :
  option_map (fun x => fst (fst x)) 
    (match pickRule defaultRules.all (str "***a***") inline_state with
     | Ok x => Some x
     | Throw _ => None
     end) = Some (str "em")
  /\ option_map full_length (match_of defaultRules.em (str "***a***") inline_state) = Some 7
  /\ option_map full_length (match_of defaultRules.strong (str "***a***") inline_state) = Some 7.
Proof.
  split; [vm_compute; reflexivity|].
  split; [vm_compute; reflexivity|vm_compute; reflexivity].
Qed.

(** ** What the parse loop consumes *)

Section Rounds.

Variable rules : Rules.

(** The rounds of the while loop of [nestedParse] on a source: for each
    round the source it started from and the capture it chose. *)
Fixpoint rounds (fuel : nat) (source : jsstring) (state : State)
    {struct fuel} : list (jsstring * Match) :=
  match source with
  | [] => []
  | _ :: _ =>
      match fuel with
      | O => []
      | S fuel' =>
          match parseStep rules (fun src => parseLoop rules fuel' src []) source state with
          | Ok (cap, _, source', state') =>
              (source, cap) :: rounds fuel' source' state'
          | Throw _ => []
          end
      end
  end.

(** The rounds start from [source], each from what the round before left
    after [source.substring(capture[0].length)], and the last leaves
    nothing. *)
Fixpoint chained (source : jsstring) (rs : list (jsstring * Match)) : Prop :=
  match rs with
  | [] => source = []
  | (src, cap) :: rs' =>
      src = source /\ chained (substring_from (full_length cap) source) rs'
  end.

Lemma parseStep_source nested source state cap nodes source' state' :
  parseStep rules nested source state = Ok (cap, nodes, source', state') ->
  source' = substring_from (full_length cap) source.
Proof.
  unfold parseStep.
  destruct (pickRule rules source state) as [[[t r] c]|]; [|discriminate].
  unfold bind.
  destruct (parse r c nested state) as [[parsed st1]|]; [|discriminate].
  destruct (appended t parsed st1) as [[ns st2]|]; [|discriminate].
  cbn. intro H. inversion H; subst. reflexivity.
Qed.

Lemma rounds_chained fuel :
  forall source result state nodes state',
    parseLoop rules fuel source result state = Ok (nodes, state') ->
    chained source (rounds fuel source state).
Proof.
  induction fuel as [|fuel IH]; intros source result state nodes state';
    cbn [parseLoop rounds]; destruct source as [|a source]; try discriminate;
    try (intros _; reflexivity).
  unfold bind at 1.
  destruct (parseStep _ _ _ _) as [[[[cap ns] source'] st1]|] eqn:E; [|discriminate].
  intro H. cbn [chained]. split; [reflexivity|].
  rewrite <- (parseStep_source _ _ _ E). eapply IH; eauto.
Qed.

End Rounds.

(** The rounds of the top-level loop of [defaultBlockParse]. *)
Definition blockRounds (fuel : nat) (source : jsstring) (state : option State)
    : list (jsstring * Match) :=
  let state := sset "inline" (VBool false) (orEmptyState state) in
  rounds defaultRules.all fuel (preprocess (suffixed source state))
    (sset "prevCapture" VNull state).

(** The number of characters the rounds advance by. *)
Definition consumed (rs : list (jsstring * Match)) : nat :=
  list_sum (List.map (fun r => full_length (snd r)) rs).

(** C2, as claimed, fails on a source that is one carriage return: the
    line feeds are appended before the preprocessor runs, which then
    reads the carriage return and the first of them as one line end, so
    the loop has two characters to consume, not three. *)
Lemma carriage_return_joins_the_suffix :
  ~ (exists fuel nodes state',
       defaultBlockParse fuel [CR] None = Ok (nodes, state')
       /\ consumed (blockRounds fuel [CR] None)
          = List.length (preprocess [CR] ++ [LF; LF])).
Proof.
  intros [fuel [nodes [state' [H C]]]]. revert H C.
  destruct fuel as [|fuel]; [vm_compute; discriminate|].
  destruct fuel as [|fuel]; intros _; vm_compute; discriminate.
Qed.

(** ** Where a match ends

    A match function's capture becomes [state.prevCapture], and the list
    rule looks at how that capture ends.  This part shows, for any
    pattern, that the matcher hands its continuation a position further
    along the subject, and gives a criterion on a pattern for every match
    to end after a line feed or at the end of the subject. *)

(** [p'] is [p] after some more code units of the subject. *)
Inductive reach : pos -> pos -> Prop :=
| reach_here p : reach p p
| reach_on i pv a tl p' :
    reach {| idx := S i; prev := Some a; rest := tl |} p' ->
    reach {| idx := i; prev := pv; rest := a :: tl |} p'.

Lemma reach_trans p q r : reach p q -> reach q r -> reach p r.
Proof. induction 1 as [|i pv a tl p' _ IH]; intro Hq; [exact Hq|]. constructor. auto. Qed.

Lemma reach_advance n : forall p, reach p (advance n p).
Proof.
  induction n as [|n IH]; intros [i pv s]; cbn [advance rest].
  - destruct s; constructor.
  - destruct s as [|a tl]; [constructor|]. constructor. apply IH.
Qed.

(** What lies between two positions. *)
Definition last_or (pv : option N) (t : jsstring) : option N :=
  match rev t with
  | x :: _ => Some x
  | [] => pv
  end.

Lemma last_or_cons pv a t : last_or pv (a :: t) = last_or (Some a) t.
Proof.
  unfold last_or. cbn [rev]. destruct (rev t) as [|x l] eqn:E; reflexivity.
Qed.

Lemma reach_between p p' :
  reach p p' ->
  exists t, rest p = t ++ rest p'
            /\ idx p' = idx p + List.length t
            /\ prev p' = last_or (prev p) t.
Proof.
  induction 1 as [p|i pv a tl p' H [t [E [I P]]]].
  - exists []. cbn. split; [reflexivity|]. split; [lia|reflexivity].
  - exists (a :: t). cbn [rest idx prev] in *. rewrite E, I, P.
    split; [reflexivity|]. split; [cbn; lia|]. symmetry. apply last_or_cons.
Qed.

(** After a line feed, or at the end of the subject. *)
Definition good (p : pos) : Prop := prev p = Some LF \/ rest p = [].

(** A matcher that succeeds has called its continuation with success, at
    a position in relation [R] to where it began. *)
Definition through (R : pos -> pos -> Prop)
    (f : pos -> caps -> K -> option (pos * caps)) : Prop :=
  forall p c k res,
    f p c k = Some res -> exists p' c', k p' c' = Some res /\ R p p'.

Definition ends_well (p p' : pos) : Prop := reach p p' /\ good p'.
Definition stays_well (p p' : pos) : Prop := reach p p' /\ (good p -> good p').

Lemma through_weaken (R R' : pos -> pos -> Prop) f :
  (forall p p', R p p' -> R' p p') -> through R f -> through R' f.
Proof.
  intros HR H p c k res E. destruct (H p c k res E) as [p' [c' [E' Hp]]].
  exists p', c'. auto.
Qed.

Lemma orelse_some {A} (x : option A) y res :
  orelse x y = Some res -> x = Some res \/ y tt = Some res.
Proof. destruct x; cbn; auto. Qed.

Section Repeat.

Variable body : pos -> caps -> K -> option (pos * caps).

(** Rounds of a body that goes through a reflexive and transitive
    relation go through it. *)
Lemma repeat_through (R : pos -> pos -> Prop) :
  (forall p, R p p) ->
  (forall p q r, R p q -> R q r -> R p r) ->
  through R body ->
  forall fuel g k mn mx p c res,
    repeat_matcher body g k fuel mn mx p c = Some res ->
    exists p' c', k p' c' = Some res /\ R p p'.
Proof.
  intros Hrefl Htrans Hb.
  induction fuel as [|fuel IH]; intros g k mn mx p c res; cbn [repeat_matcher];
    [discriminate|].
  assert (Hround : forall res0,
            body p c (fun p' c' =>
              if Nat.eqb mn 0 && Nat.eqb (idx p') (idx p) then None
              else repeat_matcher body g k fuel (Nat.pred mn) (option_map Nat.pred mx) p' c')
            = Some res0 ->
            exists p' c', k p' c' = Some res0 /\ R p p').
  { intros res0 E. destruct (Hb _ _ _ _ E) as [p1 [c1 [E1 R1]]].
    destruct (Nat.eqb mn 0 && Nat.eqb (idx p1) (idx p)); [discriminate|].
    destruct (IH _ _ _ _ _ _ _ E1) as [p' [c' [E' R']]].
    exists p', c'. split; [exact E'|]. eapply Htrans; eauto. }
  assert (Hk : forall res0, k p c = Some res0 ->
                exists p' c', k p' c' = Some res0 /\ R p p').
  { intros res0 E. exists p, c. split; [exact E|apply Hrefl]. }
  destruct mx as [[|mx]|]; auto;
    (destruct (negb (Nat.eqb mn 0)); [apply Hround|]);
    (destruct g; intro E; apply orelse_some in E; destruct E; auto).
Qed.

(** Rounds of a body that ends well end well, when there is at least
    one round or the rounds begin at a good place. *)
Lemma repeat_ends_well :
  through ends_well body ->
  forall fuel g k mn mx p c res,
    (mn = 0 \/ mx = Some 0 -> good p) ->
    repeat_matcher body g k fuel mn mx p c = Some res ->
    exists p' c', k p' c' = Some res /\ ends_well p p'.
Proof.
  intros Hb. induction fuel as [|fuel IH]; intros g k mn mx p c res Hg;
    cbn [repeat_matcher]; [discriminate|].
  assert (Hround : forall res0,
            body p c (fun p' c' =>
              if Nat.eqb mn 0 && Nat.eqb (idx p') (idx p) then None
              else repeat_matcher body g k fuel (Nat.pred mn) (option_map Nat.pred mx) p' c')
            = Some res0 ->
            exists p' c', k p' c' = Some res0 /\ ends_well p p').
  { intros res0 E. destruct (Hb _ _ _ _ E) as [p1 [c1 [E1 [R1 G1]]]].
    destruct (Nat.eqb mn 0 && Nat.eqb (idx p1) (idx p)); [discriminate|].
    destruct (IH _ _ _ _ _ _ _ (fun _ => G1) E1) as [p' [c' [E' [R' G']]]].
    exists p', c'. split; [exact E'|]. split; [eapply reach_trans; eauto|exact G']. }
  assert (Hk : forall res0, good p -> k p c = Some res0 ->
                exists p' c', k p' c' = Some res0 /\ ends_well p p').
  { intros res0 G E. exists p, c. split; [exact E|]. split; [constructor|exact G]. }
  destruct mx as [[|mx]|]; [apply Hk; auto| |];
    (destruct mn as [|mn]; cbn [Nat.eqb negb]; [|apply Hround]);
    (destruct g; intro E; apply orelse_some in E; destruct E; auto).
Qed.

End Repeat.

Lemma stays_well_refl p : stays_well p p.
Proof. split; [constructor|auto]. Qed.

Lemma stays_well_trans p q r : stays_well p q -> stays_well q r -> stays_well p r.
Proof. intros [R1 G1] [R2 G2]. split; [eapply reach_trans; eauto|auto]. Qed.

(** The class [\n] alone. *)
Definition is_line_feed_class (cs : charset) : bool :=
  match cs with
  | {| negated := false; items := [CRange lo hi] |} => N.eqb lo 10 && N.eqb hi 10
  | _ => false
  end.

Lemma is_line_feed_class_eq cs : is_line_feed_class cs = true -> cs = line_feed_class.
Proof.
  destruct cs as [[] its]; cbn; try discriminate.
  destruct its as [|[lo hi|] [|]]; try discriminate.
  intro H. apply andb_prop in H. destruct H as [A B].
  apply N.eqb_eq in A, B. subst. reflexivity.
Qed.

Section Analysis.

Variables (ic ml : bool).

(** For a pattern, whether every match of it ends after a line feed or
    at the end of the subject, and whether every match of it that begins
    at such a place ends at such a place. *)
Fixpoint well (r : re) : bool * bool :=
  match r with
  | REmpty | RBol | RWordB _ | RLook _ _ => (false, true)
  | REol => (negb ml, true)
  | RChar cs => (is_line_feed_class cs, is_line_feed_class cs)
  | RSeq a b =>
      let e := fst (well b) || (fst (well a) && snd (well b)) in
      (e, e || (snd (well a) && snd (well b)))
  | RAlt a b => (fst (well a) && fst (well b), snd (well a) && snd (well b))
  | RRep _ mn mx a =>
      (fst (well a) && Nat.leb 1 mn
       && match mx with Some O => false | _ => true end,
       snd (well a))
  | RGroup _ a => well a
  | RBackref _ => (false, false)
  end.

Lemma ends_well_stays p p' : ends_well p p' -> stays_well p p'.
Proof. intros [R G]. split; auto. Qed.

Lemma ends_well_reach p p' : ends_well p p' -> reach p p'.
Proof. intros [R G]. exact R. Qed.

Lemma stays_well_reach p p' : stays_well p p' -> reach p p'.
Proof. intros [R G]. exact R. Qed.

Lemma through_seq (R1 R2 R : pos -> pos -> Prop) a b :
  (forall p q r, R1 p q -> R2 q r -> R p r) ->
  through R1 (m ic ml a) -> through R2 (m ic ml b) ->
  through R (m ic ml (RSeq a b)).
Proof.
  intros HR Ha Hb p c k res E. cbn [m] in E.
  destruct (Ha _ _ _ _ E) as [p1 [c1 [E1 R1']]].
  destruct (Hb _ _ _ _ E1) as [p2 [c2 [E2 R2']]].
  exists p2, c2. split; [exact E2|]. eapply HR; eauto.
Qed.

Lemma through_alt (R : pos -> pos -> Prop) a b :
  through R (m ic ml a) -> through R (m ic ml b) ->
  through R (m ic ml (RAlt a b)).
Proof.
  intros Ha Hb p c k res E. cbn [m] in E.
  apply orelse_some in E. destruct E as [E|E]; [eapply Ha|eapply Hb]; eauto.
Qed.

Lemma through_group (R : pos -> pos -> Prop) i a :
  through R (m ic ml a) -> through R (m ic ml (RGroup i a)).
Proof.
  intros Ha p c k res E. cbn [m] in E.
  destruct (Ha _ _ _ _ E) as [p1 [c1 [E1 R1]]].
  exists p1. eexists. split; [exact E1|exact R1].
Qed.

Lemma through_body (R : pos -> pos -> Prop) a :
  through R (m ic ml a) ->
  through R (fun p0 c0 k0 => m ic ml a p0 (clear_caps (groups_in a) c0) k0).
Proof. intros Ha p c k res E. eapply Ha; eauto. Qed.

(** A matcher that stands still. *)
Lemma through_still R (f : pos -> caps -> K -> option (pos * caps)) :
  (forall p, R p p) ->
  (forall p c k res, f p c k = Some res -> exists c', k p c' = Some res) ->
  through R f.
Proof.
  intros HR Hf p c k res E. destruct (Hf _ _ _ _ E) as [c' E'].
  exists p, c'. auto.
Qed.

Lemma look_still positive a p c k res :
  m ic ml (RLook positive a) p c k = Some res -> exists c', k p c' = Some res.
Proof.
  cbn [m]. destruct (m ic ml a p c _) as [[q c']|]; destruct positive;
    try discriminate; eauto.
Qed.

Lemma still_sound (f : pos -> caps -> K -> option (pos * caps)) :
  (forall p c k res, f p c k = Some res -> exists c', k p c' = Some res) ->
  through reach f /\ through stays_well f.
Proof.
  intro Hf. split; apply through_still; auto.
  - intro; constructor.
  - apply stays_well_refl.
Qed.

Lemma bol_still p c k res :
  m ic ml RBol p c k = Some res -> exists c', k p c' = Some res.
Proof. cbn [m]. destruct (at_bol ml p); [|discriminate]. eauto. Qed.

Lemma eol_still p c k res :
  m ic ml REol p c k = Some res -> exists c', k p c' = Some res.
Proof. cbn [m]. destruct (at_eol ml p); [|discriminate]. eauto. Qed.

Lemma wordb_still positive p c k res :
  m ic ml (RWordB positive) p c k = Some res -> exists c', k p c' = Some res.
Proof.
  cbn [m]. destruct (Bool.eqb (at_word_boundary p) positive); [|discriminate]. eauto.
Qed.

Lemma empty_still p c k res :
  m ic ml REmpty p c k = Some res -> exists c', k p c' = Some res.
Proof. cbn [m]. eauto. Qed.

Theorem matcher_sound (r : re) :
  through reach (m ic ml r)
  /\ (fst (well r) = true -> through ends_well (m ic ml r))
  /\ (snd (well r) = true -> through stays_well (m ic ml r)).
Proof.
  induction r as [|cs|a [Ra [Ea Sa]] b [Rb [Eb Sb]]|a [Ra [Ea Sa]] b [Rb [Eb Sb]]
                  |g mn mx a [Ra [Ea Sa]]|i a [Ra [Ea Sa]]|i|positive a _| | |positive];
    cbn [well fst snd].
  - (* REmpty *)
    destruct (@still_sound _ empty_still) as [A B].
    split; [exact A|split; [discriminate|intros _; exact B]].
  - (* RChar *)
    assert (Hc : forall p c k res,
               m ic ml (RChar cs) p c k = Some res ->
               exists a tl, rest p = a :: tl /\ cs_mem ic cs a = true
                            /\ k {| idx := S (idx p); prev := Some a; rest := tl |} c = Some res).
    { intros [i pv s] c k res. cbn [m rest]. destruct s as [|a tl]; [discriminate|].
      destruct (cs_mem ic cs a) eqn:E; [|discriminate]. cbn [advance rest idx].
      intro H. exists a, tl. auto. }
    assert (Hr : forall (p : pos) a tl, rest p = a :: tl ->
               reach p {| idx := S (idx p); prev := Some a; rest := tl |}).
    { intros [i pv s] a tl E. cbn in E. subst s. constructor. constructor. }
    split; [|split].
    + intros p c k res E. destruct (Hc _ _ _ _ E) as [a [tl [E1 [_ E2]]]].
      eexists. eexists. split; [exact E2|]. now apply Hr.
    + intros L p c k res E. destruct (Hc _ _ _ _ E) as [a [tl [E1 [M E2]]]].
      eexists. eexists. split; [exact E2|]. split; [now apply Hr|].
      left. cbn [prev]. apply is_line_feed_class_eq in L. subst cs.
      rewrite line_feed_class_mem in M. apply N.eqb_eq in M. now subst a.
    + intros L p c k res E. destruct (Hc _ _ _ _ E) as [a [tl [E1 [M E2]]]].
      eexists. eexists. split; [exact E2|]. split; [now apply Hr|]. intros _.
      left. cbn [prev]. apply is_line_feed_class_eq in L. subst cs.
      rewrite line_feed_class_mem in M. apply N.eqb_eq in M. now subst a.
  - (* RSeq *)
    split; [|split].
    + eapply through_seq; [|exact Ra|exact Rb]. intros; eapply reach_trans; eauto.
    + intro H. apply orb_prop in H. destruct H as [H|H].
      * eapply through_seq; [|exact Ra|exact (Eb H)].
        intros p q r0 R1 [R2 G2]. split; [eapply reach_trans; eauto|exact G2].
      * apply andb_prop in H. destruct H as [H1 H2].
        eapply through_seq; [|exact (Ea H1)|exact (Sb H2)].
        intros p q r0 [R1 G1] [R2 G2]. split; [eapply reach_trans; eauto|auto].
    + intro H. apply orb_prop in H. destruct H as [H|H];
        [apply orb_prop in H; destruct H as [H|H]|].
      * eapply through_seq; [|exact Ra|exact (Eb H)].
        intros p q r0 R1 [R2 G2]. split; [eapply reach_trans; eauto|auto].
      * apply andb_prop in H. destruct H as [H1 H2].
        eapply through_seq; [|exact (Ea H1)|exact (Sb H2)].
        intros p q r0 [R1 G1] [R2 G2]. split; [eapply reach_trans; eauto|auto].
      * apply andb_prop in H. destruct H as [H1 H2].
        eapply through_seq; [|exact (Sa H1)|exact (Sb H2)].
        intros p q r0 [R1 G1] [R2 G2]. split; [eapply reach_trans; eauto|auto].
  - (* RAlt *)
    split; [|split].
    + now apply through_alt.
    + intro H. apply andb_prop in H. destruct H. apply through_alt; auto.
    + intro H. apply andb_prop in H. destruct H. apply through_alt; auto.
  - (* RRep *)
    split; [|split].
    + intros p c k res E. cbn [m] in E.
      eapply repeat_through; [apply reach_here|apply reach_trans| |exact E].
      now apply through_body.
    + intro H. apply andb_prop in H. destruct H as [H Hmx].
      apply andb_prop in H. destruct H as [He Hmn]. apply Nat.leb_le in Hmn.
      intros p c k res E. cbn [m] in E.
      eapply repeat_ends_well; [apply through_body; exact (Ea He)| |exact E].
      intros [Z|Z]; [lia|subst mx; discriminate].
    + intro H. intros p c k res E. cbn [m] in E.
      eapply repeat_through; [apply stays_well_refl|apply stays_well_trans| |exact E].
      apply through_body. exact (Sa H).
  - (* RGroup *)
    split; [|split]; intros; apply through_group; auto.
  - (* RBackref *)
    split; [|split; discriminate].
    intros p c k res E. cbn [m] in E.
    destruct (get_cap i c) as [s|].
    + destruct (prefix_eqb ic s (rest p)); [|discriminate].
      eexists. eexists. split; [exact E|apply reach_advance].
    + exists p, c. split; [exact E|constructor].
  - (* RLook *)
    destruct (@still_sound _ (@look_still positive a)) as [A B].
    split; [exact A|split; [discriminate|intros _; exact B]].
  - (* RBol *)
    destruct (@still_sound _ bol_still) as [A B].
    split; [exact A|split; [discriminate|intros _; exact B]].
  - (* REol *)
    destruct (@still_sound _ eol_still) as [A B].
    split; [exact A|split; [|intros _; exact B]].
    intro H. apply negb_true_iff in H.
    intros p c k res E. cbn [m] in E. unfold at_eol in E.
    destruct (rest p) eqn:Er.
    + exists p, c. split; [exact E|]. split; [constructor|now right].
    + rewrite H in E. discriminate.
  - (* RWordB *)
    destruct (@still_sound _ (@wordb_still positive)) as [A B].
    split; [exact A|split; [discriminate|intros _; exact B]].
Qed.

End Analysis.

(** ** What a match function's capture is *)

Lemma search_from_index R s :
  forall i pv mt p',
    search_from R i pv s = Some (mt, p') ->
    i <= index mt
    /\ (index mt = i -> match_at R {| idx := i; prev := pv; rest := s |} = Some (mt, p')).
Proof.
  induction s as [|a s IH]; intros i pv mt p'; cbn [search_from].
  - destruct (match_at R _) as [[mt0 p0]|] eqn:E; [|discriminate].
    intro H. inversion H; subst. split; [|auto].
    unfold match_at in E. destruct (m _ _ _ _ _ _) as [[q c]|]; [|discriminate].
    inversion E; subst. cbn. lia.
  - destruct (match_at R _) as [[mt0 p0]|] eqn:E.
    + intro H. inversion H; subst. split; [|auto].
      unfold match_at in E. destruct (m _ _ _ _ _ _) as [[q c]|]; [|discriminate].
      inversion E; subst. cbn. lia.
    + intro H. apply IH in H. destruct H as [H1 H2]. split; [lia|]. intro; lia.
Qed.

Lemma firstn_between (t s : jsstring) i : firstn (i + List.length t - i) (t ++ s) = t.
Proof.
  replace (i + List.length t - i) with (List.length t) by lia.
  rewrite firstn_app, Nat.sub_diag, firstn_all. cbn. apply app_nil_r.
Qed.

(** A match at a position: the full capture is the text up to where the
    match ends, and the match ends at a good place when the pattern says
    so. *)
Lemma match_at_text R p mt p' :
  match_at R p = Some (mt, p') ->
  index mt = idx p
  /\ rest p = group 0 mt ++ rest p'
  /\ prev p' = last_or (prev p) (group 0 mt)
  /\ (fst (well (multiline R) (pattern R)) = true -> good p').
Proof.
  unfold match_at.
  destruct (m _ _ _ _ _ _) as [[q c]|] eqn:E; [|discriminate].
  intro H. inversion H; subst. clear H.
  pose proof (matcher_sound (ignoreCase R) (multiline R) (pattern R)) as [Hr [He _]].
  destruct (Hr _ _ _ _ E) as [p1 [c1 [E1 R1]]]. inversion E1; subst.
  destruct (reach_between R1) as [t [Et [It Pt]]].
  unfold group, capture. cbn [captures nth index].
  rewrite Et, It, firstn_between.
  split; [reflexivity|]. split; [reflexivity|]. split; [exact Pt|].
  intro W. destruct (He W _ _ _ _ E) as [p2 [c2 [E2 [_ G2]]]].
  inversion E2; subst. exact G2.
Qed.

(** The full capture of a match: a line feed at its end. *)
Definition ends_in_line_feed (t : jsstring) : Prop := exists t0, t = t0 ++ [LF].

Lemma last_or_line_feed t : last_or None t = Some LF -> ends_in_line_feed t.
Proof.
  unfold last_or. destruct (rev t) as [|x l] eqn:E; [discriminate|].
  intro H. inversion H; subst. exists (rev l).
  rewrite <- (rev_involutive t), E. reflexivity.
Qed.

(** [regex.exec(s)] with a capture that begins at index 0: the full
    capture is a prefix of [s], and, for a pattern that ends well, it
    ends in a line feed or is all of [s]. *)
Lemma exec_text R s cap :
  exec R s = Some cap -> index cap = 0 ->
  exists s', s = group 0 cap ++ s'
             /\ (fst (well (multiline R) (pattern R)) = true ->
                 ends_in_line_feed (group 0 cap) \/ s' = []).
Proof.
  unfold exec. destruct (search_from R 0 None s) as [[mt p']|] eqn:E; [|discriminate].
  cbn [option_map fst]. intro H. inversion H; subst. intro I.
  apply search_from_index in E. destruct E as [_ E]. specialize (E I).
  apply match_at_text in E. cbn [idx rest prev] in E.
  destruct E as [_ [Et [Pt G]]].
  exists (rest p'). split; [exact Et|]. intro W.
  destruct (G W) as [G1|G1]; [left|right; exact G1].
  apply last_or_line_feed. congruence.
Qed.

(** ** The lookbehind of the list rule *)

Lemma search_from_at R s :
  forall i pv mt p',
    search_from R i pv s = Some (mt, p') ->
    exists pre pv' s',
      s = pre ++ s'
      /\ match_at R {| idx := i + List.length pre; prev := pv'; rest := s' |} = Some (mt, p').
Proof.
  induction s as [|a s IH]; intros i pv mt p'; cbn [search_from].
  - destruct (match_at R _) as [x|] eqn:E; [|discriminate].
    intro H. inversion H; subst. exists [], pv, []. cbn. rewrite Nat.add_0_r. auto.
  - destruct (match_at R _) as [x|] eqn:E.
    + intro H. inversion H; subst. exists [], pv, (a :: s). cbn.
      rewrite Nat.add_0_r. auto.
    + intro H. apply IH in H. destruct H as [pre [pv' [s' [Es M]]]].
      exists (a :: pre), pv', s'. subst s. split; [reflexivity|].
      cbn [List.length]. now rewrite <- plus_n_Sm.
Qed.

Definition space_class : charset := {| negated := false; items := [CRange 32 32] |}.

(** Only spaces lie between two positions. *)
Definition spaces_between (p p' : pos) : Prop :=
  exists t, rest p = t ++ rest p'
            /\ idx p' = idx p + List.length t
            /\ Forall (fun a => a = 32%N) t.

Lemma spaces_between_refl p : spaces_between p p.
Proof. exists []. cbn. split; [reflexivity|]. split; [lia|constructor]. Qed.

Lemma spaces_between_trans p q r :
  spaces_between p q -> spaces_between q r -> spaces_between p r.
Proof.
  intros [t [E1 [I1 F1]]] [u [E2 [I2 F2]]]. exists (t ++ u).
  rewrite E1, E2, I2, I1, length_app, app_assoc.
  split; [reflexivity|]. split; [lia|]. apply Forall_app. auto.
Qed.

Lemma space_class_mem a : cs_mem false space_class a = N.eqb a 32.
Proof.
  unfold cs_mem, items_mem, space_class. cbn [negated items existsb item_mem andb].
  now rewrite in_range_single, !orb_false_r.
Qed.

Lemma space_round_through ml :
  through spaces_between
    (fun p0 c0 k0 =>
       m false ml (RChar space_class) p0 (clear_caps (groups_in (RChar space_class)) c0) k0).
Proof.
  intros [i pv s] c k res. cbn [m rest groups_in clear_caps fold_left].
  destruct s as [|a tl]; [discriminate|].
  rewrite space_class_mem. destruct (N.eqb_spec a 32) as [->|]; [|discriminate].
  cbn [advance rest idx]. intro E. eexists. eexists. split; [exact E|].
  exists [32%N]. cbn. split; [reflexivity|]. split; [lia|]. repeat constructor.
Qed.

Lemma spaces_through ml g mn mx :
  through spaces_between (m false ml (RRep g mn mx (RChar space_class))).
Proof.
  intros p c k res E. cbn [m] in E.
  exact (@repeat_through _ spaces_between spaces_between_refl spaces_between_trans
           (space_round_through ml) _ _ _ _ _ _ _ _ E).
Qed.

Lemma nth_set_cap_1 v c : nth 1 (set_cap 1 v c) None = v \/ nth 1 (set_cap 1 v c) None = None.
Proof.
  destruct c as [|x [|y c]]; cbn; auto.
Qed.

Lemma suffix_last_line_feed (t0 pre t : jsstring) :
  t0 ++ [LF] = pre ++ t -> t = [] \/ exists t', t = t' ++ [LF].
Proof.
  revert t0. induction pre as [|x pre IH]; intros t0 E; cbn [app] in E.
  - right. exists t0. auto.
  - destruct t0 as [|y t0]; cbn [app] in E.
    + inversion E as [[E1 E2]]. destruct pre; [|discriminate].
      cbn in E2. subst t. now left.
    + inversion E. eauto.
Qed.

Lemma spaces_no_line_feed t t' : Forall (fun a => a = 32%N) t -> t = t' ++ [LF] -> False.
Proof.
  intros F ->. apply Forall_app in F. destruct F as [_ F].
  inversion F as [|? ? H]. discriminate H.
Qed.

Lemma m_seq ic ml a b p c k :
  m ic ml (RSeq a b) p c k = m ic ml a p c (fun p' c' => m ic ml b p' c' k).
Proof. reflexivity. Qed.

Lemma m_group ic ml i a p c k :
  m ic ml (RGroup i a) p c k
  = m ic ml a p c (fun p' c' =>
      k p' (set_cap i (Some (firstn (idx p' - idx p) (rest p))) c')).
Proof. reflexivity. Qed.

Lemma m_eol ic p c k :
  m ic false REol p c k = match rest p with [] => k p c | _ :: _ => None end.
Proof. cbn [m]. unfold at_eol. destruct (rest p); reflexivity. Qed.

(** After a capture that is empty or ends in a line feed, the lookbehind
    finds no indentation. *)
Lemma lookbehind_indent (t : jsstring) lb :
  t = [] \/ ends_in_line_feed t ->
  exec LIST_LOOKBEHIND_R t = Some lb ->
  group 1 lb = [].
Proof.
  intros Ht. unfold exec.
  destruct (search_from LIST_LOOKBEHIND_R 0 None t) as [[mt p']|] eqn:E; [|discriminate].
  cbn [option_map fst]. intro H. inversion H; subst mt. clear H.
  apply search_from_at in E. destruct E as [pre [pv [s [Es M]]]].
  unfold match_at in M.
  change (pattern LIST_LOOKBEHIND_R)
    with (RSeq (RAlt RBol (RChar line_feed_class))
               (RSeq (RGroup 1 (RRep true 0 None (RChar space_class))) REol)) in M.
  change (ignoreCase LIST_LOOKBEHIND_R) with false in M.
  change (multiline LIST_LOOKBEHIND_R) with false in M.
  destruct (m _ _ _ _ _ _) as [[q c]|] eqn:E; [|discriminate].
  inversion M; subst lb. clear M.
  unfold group, capture. cbn [captures nth index].
  rewrite m_seq in E.
  pose proof (matcher_sound false false (RAlt RBol (RChar line_feed_class))) as [Hr _].
  destruct (Hr _ _ _ _ E) as [p1 [c1 [E1 R1]]].
  rewrite m_seq, m_group in E1.
  apply spaces_through in E1. destruct E1 as [p2 [c2 [E2 [u [Eu [Iu Fu]]]]]].
  rewrite m_eol in E2. destruct (rest p2) eqn:Er; [|discriminate].
  inversion E2; subst q c. clear E2.
  rewrite app_nil_r in Eu.
  destruct (reach_between R1) as [w [Ew _]]. cbn [rest] in Ew.
  assert (Hu : u = []).
  { destruct Ht as [->|[t0 ->]].
    - destruct pre; [|discriminate]. cbn in Es. subst s.
      destruct w; [|discriminate]. cbn in Ew. congruence.
    - rewrite Ew, Eu, app_assoc in Es.
      destruct (suffix_last_line_feed _ _ _ Es) as [Z|[u' Z]]; [exact Z|].
      exfalso. eapply spaces_no_line_feed; eauto. }
  rewrite Hu in Eu, Iu. subst p2. rewrite Eu, Iu. cbn [List.length].
  rewrite Nat.add_0_r, Nat.sub_diag.
  cbn [firstn].
  destruct c2 as [|x [|y c2]]; reflexivity.
Qed.

(** ** The newline and paragraph rules always have a match *)

Lemma present_orelse {A} (x : option A) y :
  present (orelse x y) = present x || present (y tt).
Proof. destruct x; reflexivity. Qed.

Lemma m_alt ic ml a b p c k :
  m ic ml (RAlt a b) p c k = orelse (m ic ml a p c k) (fun _ => m ic ml b p c k).
Proof. reflexivity. Qed.

Lemma m_char ic ml cs i pv a tl c k :
  m ic ml (RChar cs) {| idx := i; prev := pv; rest := a :: tl |} c k
  = if cs_mem ic cs a then k {| idx := S i; prev := Some a; rest := tl |} c else None.
Proof. reflexivity. Qed.

Lemma m_rep ic ml g mn mx a p c k :
  m ic ml (RRep g mn mx a) p c k
  = repeat_matcher (fun p0 c0 k0 => m ic ml a p0 (clear_caps (groups_in a) c0) k0)
      g k (mn + List.length (rest p) + 1) mn mx p c.
Proof. reflexivity. Qed.

Lemma m_look_not ic ml a p c k :
  m ic ml (RLook false a) p c k
  = match m ic ml a p c (fun p' c' => Some (p', c')) with
    | Some _ => None
    | None => k p c
    end.
Proof. cbn [m]. destruct (m ic ml a p c _) as [[? ?]|]; reflexivity. Qed.

Lemma m_bol_start ic ml i s c k :
  m ic ml RBol {| idx := i; prev := None; rest := s |} c k
  = k {| idx := i; prev := None; rest := s |} c.
Proof. reflexivity. Qed.

Definition not_line_feed_class : charset := {| negated := true; items := [CRange 10 10] |}.

Lemma not_line_feed_class_mem a : cs_mem false not_line_feed_class a = negb (is_line_feed a).
Proof.
  unfold cs_mem, items_mem, not_line_feed_class, is_line_feed.
  cbn [negated items existsb item_mem andb].
  now rewrite in_range_single, !orb_false_r.
Qed.

(** The pieces of the paragraph pattern. *)
Definition LINE_END : re :=
  RSeq (RChar line_feed_class) (RRep true 0 None (RChar space_class)).
Definition BLANK_LINES : re := RSeq (RRep true 1 None LINE_END) (RChar line_feed_class).
Definition BLANK_AHEAD : re :=
  RSeq (RRep true 0 None (RChar space_class)) (RChar line_feed_class).
Definition PARAGRAPH_ITEM : re :=
  RAlt (RChar not_line_feed_class)
       (RSeq (RChar line_feed_class) (RLook false BLANK_AHEAD)).

(** A line feed, spaces, and a line feed. *)
Definition blank_start (s : jsstring) : Prop :=
  exists t y, s = LF :: t ++ LF :: y /\ Forall (fun a => a = 32%N) t.

Definition final : K := fun p c => Some (p, c).

Lemma newline_matches (s : jsstring) :
  present (exec defaultRules.NEWLINE_R (LF :: s)) = true.
Proof.
  unfold exec. cbn [search_from].
  assert (M : present (match_at defaultRules.NEWLINE_R
                         {| idx := 0; prev := None; rest := LF :: s |}) = true).
  { unfold match_at.
    change (pattern defaultRules.NEWLINE_R)
      with (RSeq RBol (RSeq (RRep true 0 None LINE_END) (RChar line_feed_class))).
    change (ignoreCase defaultRules.NEWLINE_R) with false.
    change (multiline defaultRules.NEWLINE_R) with false.
    rewrite m_seq, m_bol_start, m_seq, m_rep. cbn [rest List.length Nat.add].
    rewrite repeat_matcher_unbounded. cbv zeta. cbn [Nat.eqb negb].
    match goal with
    | |- present (match orelse ?x ?y with _ => _ end) = true =>
        assert (P : present (orelse x y) = true)
          by (rewrite present_orelse, m_char, line_feed_class_mem;
              apply orb_true_r);
        destruct (orelse x y) as [[? ?]|]; [reflexivity|discriminate]
    end. }
  destruct (match_at defaultRules.NEWLINE_R _) as [[mt p']|]; [reflexivity|discriminate].
Qed.

(** Spaces up to a line feed, under a continuation that succeeds at the
    line feed. *)
Lemma spaces_to_line_feed ml (k : K) y t :
  Forall (fun a => a = 32%N) t ->
  (forall i pv c, present (k {| idx := i; prev := pv; rest := LF :: y |} c) = true) ->
  forall i pv c fuel,
    List.length t < fuel ->
    present (repeat_matcher
               (fun p0 c0 k0 => m false ml (RChar space_class) p0
                                  (clear_caps (groups_in (RChar space_class)) c0) k0)
               true k fuel 0 None {| idx := i; prev := pv; rest := t ++ LF :: y |} c)
    = true.
Proof.
  intros Ft Hk. induction Ft as [|a t Ha Ft IH]; intros i pv c fuel Hf;
    (destruct fuel as [|fuel]; [cbn in Hf; lia|]);
    rewrite repeat_matcher_unbounded; cbv zeta; cbn [Nat.eqb negb];
    rewrite present_orelse.
  - cbn [app]. rewrite Hk. apply orb_true_r.
  - subst a. cbn [app groups_in clear_caps fold_left]. rewrite m_char, space_class_mem.
    cbn [N.eqb Pos.eqb idx andb]. rewrite succ_eqb_false.
    rewrite IH; [reflexivity|cbn in Hf; lia].
Qed.

(** The blank lines at the end of a paragraph match where a blank line
    starts. *)
Lemma blank_lines_match i pv s c :
  blank_start s ->
  present (m false false BLANK_LINES {| idx := i; prev := pv; rest := s |} c final) = true.
Proof.
  intros [t [y [-> Ft]]]. unfold BLANK_LINES.
  rewrite m_seq, m_rep. cbn [rest List.length Nat.add].
  rewrite repeat_matcher_unbounded. cbv zeta. cbn [Nat.eqb negb andb Nat.pred].
  unfold LINE_END at 1. cbn [groups_in clear_caps fold_left app].
  rewrite m_seq, m_char, line_feed_class_mem. cbn [is_line_feed LF N.eqb Pos.eqb].
  rewrite m_rep. cbn [rest].
  apply spaces_to_line_feed; [exact Ft| |rewrite length_app; cbn; lia].
  intros i' pv' c'.
  replace (List.length (t ++ LF :: y) + 1) with (S (List.length (t ++ LF :: y))) by lia.
  rewrite repeat_matcher_unbounded. cbv zeta. cbn [Nat.eqb negb].
  rewrite present_orelse, m_char, line_feed_class_mem. apply orb_true_r.
Qed.

Lemma blank_ahead_sound p c res :
  m false false BLANK_AHEAD p c final = Some res ->
  exists t y, rest p = t ++ LF :: y /\ Forall (fun a => a = 32%N) t.
Proof.
  unfold BLANK_AHEAD. rewrite m_seq. intro E.
  apply spaces_through in E. destruct E as [p2 [c2 [E2 [t [Et [_ Ft]]]]]].
  destruct p2 as [i2 pv2 [|a tl]]; [cbn in E2; discriminate|].
  unfold final in E2. rewrite m_char, line_feed_class_mem in E2. unfold is_line_feed in E2.
  destruct (N.eqb_spec a LF) as [->|]; [|discriminate].
  exists t, tl. cbn [rest] in Et. auto.
Qed.

(** One round of the paragraph's first group. *)
Definition paragraph_round : pos -> caps -> K -> option (pos * caps) :=
  fun p0 c0 k0 =>
    m false false PARAGRAPH_ITEM p0 (clear_caps (groups_in PARAGRAPH_ITEM) c0) k0.

Lemma paragraph_round_eq i pv a s c k :
  paragraph_round {| idx := i; prev := pv; rest := a :: s |} c k
  = if is_line_feed a
    then match m false false BLANK_AHEAD {| idx := S i; prev := Some a; rest := s |} c final with
         | Some _ => None
         | None => k {| idx := S i; prev := Some a; rest := s |} c
         end
    else k {| idx := S i; prev := Some a; rest := s |} c.
Proof.
  unfold paragraph_round.
  change (clear_caps (groups_in PARAGRAPH_ITEM) c) with c.
  unfold PARAGRAPH_ITEM.
  rewrite m_alt, m_char, not_line_feed_class_mem, m_seq, m_char, line_feed_class_mem.
  destruct (is_line_feed a); cbn [negb orelse].
  - rewrite m_look_not. reflexivity.
  - destruct (k _ c); reflexivity.
Qed.

(** The rounds over the body of a paragraph, up to a blank line. *)
Lemma paragraph_rounds (k : K) x :
  (forall i pv s c, blank_start s ->
     present (k {| idx := i; prev := pv; rest := s |} c) = true) ->
  forall b, blank_start b ->
  forall i pv c fuel,
    List.length x < fuel ->
    present (repeat_matcher paragraph_round true k fuel 0 None
               {| idx := i; prev := pv; rest := x ++ b |} c)
    = true.
Proof.
  intros Hk b Hb. induction x as [|a x IH]; intros i pv c fuel Hf;
    (destruct fuel as [|fuel]; [cbn in Hf; lia|]);
    rewrite repeat_matcher_unbounded; cbv zeta; cbn [Nat.eqb negb andb Nat.pred];
    rewrite present_orelse.
  - cbn [app]. rewrite (Hk _ _ _ _ Hb). apply orb_true_r.
  - cbn [app]. rewrite paragraph_round_eq. cbn [idx]. rewrite succ_eqb_false.
    assert (Hx : List.length x < fuel) by (cbn in Hf; lia).
    destruct (is_line_feed a) eqn:Ea.
    + destruct (m false false BLANK_AHEAD _ c final) as [res|] eqn:L.
      * cbn [present orb]. apply Hk.
        apply blank_ahead_sound in L. destruct L as [t [y [Et Ft]]].
        cbn [rest] in Et. apply N.eqb_eq in Ea. subst a.
        exists t, y. rewrite Et. auto.
      * rewrite (IH _ _ _ _ Hx). reflexivity.
    + rewrite (IH _ _ _ _ Hx). reflexivity.
Qed.

Lemma paragraph_matches (a : N) (pre : jsstring) :
  a <> LF ->
  present (exec defaultRules.PARAGRAPH_R (a :: pre ++ [LF; LF])) = true.
Proof.
  intro Ha. unfold exec. cbn [search_from].
  assert (M : present (match_at defaultRules.PARAGRAPH_R
                         {| idx := 0; prev := None; rest := a :: pre ++ [LF; LF] |}) = true).
  { unfold match_at.
    change (pattern defaultRules.PARAGRAPH_R)
      with (RSeq RBol (RSeq (RGroup 1 (RRep true 1 None PARAGRAPH_ITEM)) BLANK_LINES)).
    change (ignoreCase defaultRules.PARAGRAPH_R) with false.
    change (multiline defaultRules.PARAGRAPH_R) with false.
    rewrite m_seq, m_bol_start, m_seq, m_group, m_rep. cbn [rest List.length Nat.add].
    fold paragraph_round.
    match goal with
    | |- present (match ?x with _ => _ end) = true =>
        assert (Q : present x = true);
        [|destruct x as [[? ?]|]; [reflexivity|discriminate]]
    end.
    replace (S (List.length (pre ++ [LF; LF])) + 1)
      with (S (S (List.length (pre ++ [LF; LF])))) by lia.
    rewrite repeat_matcher_unbounded. cbv zeta. cbn [Nat.eqb negb andb Nat.pred].
    rewrite paragraph_round_eq.
    replace (is_line_feed a) with false by (symmetry; apply N.eqb_neq; exact Ha).
    apply (@paragraph_rounds _ pre); [| |rewrite length_app; cbn; lia].
    - intros i pv s c Hs. apply blank_lines_match. exact Hs.
    - exists [], []. split; [reflexivity|constructor]. }
  destruct (match_at defaultRules.PARAGRAPH_R _) as [[mt p']|]; [reflexivity|discriminate].
Qed.

(** ** The scope of the state through a parse *)

(** [state.inline], as the match functions read it. *)
Definition scope_of (st : State) : bool := truthy (sget "inline" st).

(** A computation that, if it returns, returns in the scope it began in. *)
Definition scoped {A} (x : M A) : Prop :=
  forall st a st', x st = Ok (a, st') -> scope_of st' = scope_of st.

Definition parser_scoped (p : Parser) : Prop := forall source, scoped (p source).

Lemma scope_of_sset_inline v st : scope_of (sset "inline" v st) = truthy v.
Proof. unfold scope_of, sget, sset. cbn [fields]. now rewrite get_set_same. Qed.

Lemma scope_of_sset_other p v st :
  str_eqb (str "inline") (str p) = false ->
  scope_of (sset p v st) = scope_of st.
Proof.
  intro H. unfold scope_of, sget, sset. cbn [fields].
  rewrite get_set_other; [reflexivity|].
  intro E. apply str_eqb_eq in E. congruence.
Qed.

Lemma scope_of_heap st h f :
  get (str "inline") f = get (str "inline") (fields st) ->
  scope_of {| fields := f; heap := h |} = scope_of st.
Proof. intro H. unfold scope_of, sget. cbn [fields]. now rewrite H. Qed.

Lemma scoped_ret {A} (a : A) : scoped (ret a).
Proof. intros st a' st' H. inversion H; subst. reflexivity. Qed.

Lemma scoped_throw {A} e : scoped (@throw A e).
Proof. intros st a st' H. discriminate. Qed.

Lemma scoped_bind {A B} (x : M A) (f : A -> M B) :
  scoped x -> (forall a, scoped (f a)) -> scoped (bind x f).
Proof.
  intros Hx Hf st b st'. unfold bind.
  destruct (x st) as [[a st1]|] eqn:E; [|discriminate].
  intro H. rewrite (Hf _ _ _ _ H). eapply Hx; eauto.
Qed.

Lemma scoped_read p : scoped (read p).
Proof. intros st a st' H. inversion H; subst. reflexivity. Qed.

Lemma scoped_read_state : scoped read_state.
Proof. intros st a st' H. inversion H; subst. reflexivity. Qed.

Lemma scoped_write p v :
  str_eqb (str "inline") (str p) = false -> scoped (write p v).
Proof. intros Hp st a st' H. inversion H; subst. now apply scope_of_sset_other. Qed.

Lemma scoped_mapM {A B} (f : A -> M B) xs :
  (forall x, scoped (f x)) -> scoped (mapM f xs).
Proof.
  intro Hf. induction xs as [|x xs IH]; cbn [mapM]; [apply scoped_ret|].
  apply scoped_bind; [apply Hf|]. intro y.
  apply scoped_bind; [apply IH|]. intro ys. apply scoped_ret.
Qed.

Ltac scoped_step :=
  match goal with
  | |- scoped (ret _) => apply scoped_ret
  | |- scoped (throw _) => apply scoped_throw
  | |- scoped (read _) => apply scoped_read
  | |- scoped read_state => apply scoped_read_state
  | |- scoped (write _ _) => apply scoped_write; reflexivity
  | |- scoped (bind _ _) => apply scoped_bind; [|intro]
  | |- scoped (mapM _ _) => apply scoped_mapM; intro
  | H : parser_scoped ?p |- scoped (?p _) => apply H
  | |- scoped (match ?x with _ => _ end) => destruct x
  | |- scoped (if ?x then _ else _) => destruct x
  end.

Lemma truthy_inlineOrFalse st : truthy (inlineOrFalse st) = scope_of st.
Proof.
  unfold inlineOrFalse, scope_of. destruct (truthy (sget "inline" st)) eqn:E; auto.
Qed.

(** [parseInline] and [parseBlock] put back the scope they found,
    whatever the parser does to it. *)
Lemma parseInline_scoped nested content : scoped (parseInline nested content).
Proof.
  intros st a st'. unfold parseInline, bind, read_state, write, ret.
  destruct (nested content _) as [[r st1]|]; [|discriminate].
  intro H. inversion H; subst. now rewrite scope_of_sset_inline, truthy_inlineOrFalse.
Qed.

Lemma parseBlock_scoped nested content : scoped (parseBlock nested content).
Proof.
  intros st a st'. unfold parseBlock, bind, read_state, write, ret.
  destruct (nested _ _) as [[r st1]|]; [|discriminate].
  intro H. inversion H; subst. now rewrite scope_of_sset_inline, truthy_inlineOrFalse.
Qed.

Lemma parseCaptureInline_scoped cap nested : scoped (parseCaptureInline cap nested).
Proof.
  unfold parseCaptureInline.
  apply scoped_bind; [apply parseInline_scoped|]. intro. apply scoped_ret.
Qed.

Lemma parseRef_scoped cap refNode : scoped (parseRef cap refNode).
Proof.
  intros st a st'. unfold parseRef.
  destruct (orEmptyObject (sget "_refs" st)); try discriminate.
  destruct (if truthy (Dict.lookup _ _) then _ else _); try discriminate.
  intro H. inversion H; subst. apply scope_of_heap.
  apply get_set_other. intro E. apply str_eqb_eq in E. discriminate.
Qed.

Lemma parseDef_scoped cap nested : scoped (parseDef cap nested).
Proof.
  intros st a st'. unfold parseDef.
  destruct (if truthy (sget "_refs" st) && _ then _ else _) as [h|]; [|discriminate].
  destruct (orEmptyObject (sget "_defs" st)); try discriminate.
  intro H. inversion H; subst. apply scope_of_heap.
  apply get_set_other. intro E. apply str_eqb_eq in E. discriminate.
Qed.

(** The items of a list: each one puts back [state.inline] as it was. *)
Lemma parseItems_scoped nested n items :
  forall i lastItemWasAParagraph,
    scoped (defaultRules.parseItems nested n i lastItemWasAParagraph items).
Proof.
  induction items as [|item items IH]; intros i lastp;
    cbn [defaultRules.parseItems]; [apply scoped_ret|].
  destruct (spaceRegex _); [|apply scoped_throw].
  intros st a st'. unfold bind at 1 2 3 4 5 6 7. unfold read, write.
  destruct (nested _ _) as [[res st1]|]; [|discriminate].
  unfold bind.
  destruct (defaultRules.parseItems _ _ _ _ _ _) as [[more st2]|] eqn:E; [|discriminate].
  intro H. inversion H; subst.
  rewrite (IH _ _ _ _ _ E), scope_of_sset_other by reflexivity.
  rewrite scope_of_sset_inline. reflexivity.
Qed.

(** A table leaves the block scope behind, in which alone it matches. *)
Lemma parseTable_scope trim_ cap nested st v st' :
  TABLES.parseTableWith trim_ cap nested st = Ok (v, st') -> scope_of st' = false.
Proof.
  unfold TABLES.parseTableWith. unfold bind at 1 2 3. unfold write at 1.
  destruct (TABLES.parseTableRow _ _ _ _) as [[header st1]|]; [|discriminate].
  destruct (TABLES.parseTableCells _ _ _ _) as [[cells st2]|]; [|discriminate].
  unfold bind, write, ret. intro H. inversion H; subst.
  apply scope_of_sset_inline.
Qed.

Lemma block_rule_scope order R q p h source st cap :
  match_of (defaultRules.rule order (blockRegex R) q p h) source st = Some cap ->
  scope_of st = false.
Proof.
  unfold match_of, defaultRules.rule, blockRegex, scope_of. cbn [rmatch].
  destruct (truthy (sget "inline" st)); [discriminate|reflexivity].
Qed.

(** The parse of a default rule that matched returns in the scope it
    began in, when the parser it is handed does. *)
Lemma default_rules_scoped name r :
  In (name, r) (named defaultRules.all) ->
  forall source st cap nested v st',
    parser_scoped nested ->
    match_of r source st = Some cap ->
    parse r cap nested st = Ok (v, st') ->
    scope_of st' = scope_of st.
Proof.
  intros Hin source st cap nested v st' Hn Hm. cbn [named defaultRules.all] in Hin.
  repeat (destruct Hin as [Hin|Hin];
          [apply pair_inv in Hin; destruct Hin as [_ Hin]; subst r;
           first
             [ (* the tables *)
               intro H; apply parseTable_scope in H;
               apply block_rule_scope in Hm; congruence
             | revert st v st' Hm; 
               match goal with
               | |- forall st v st', _ -> ?x st = Ok (v, st') -> _ =>
                   intros st v st' _; revert st v st'; change (scoped x)
               end;
               cbn [parse defaultRules.rule defaultRules.heading
                      defaultRules.lheading defaultRules.hr defaultRules.codeBlock
                      defaultRules.fence defaultRules.blockQuote defaultRules.list
                      defaultRules.def defaultRules.newline
                      defaultRules.paragraph defaultRules.escape
                      defaultRules.tableSeparator defaultRules.autolink
                      defaultRules.mailto defaultRules.url defaultRules.link
                      defaultRules.image defaultRules.reflink defaultRules.refimage
                      defaultRules.em defaultRules.strong defaultRules.u
                      defaultRules.del defaultRules.inlineCode defaultRules.br
                      defaultRules.text];
               unfold ignoreCapture;
               repeat first [ apply parseInline_scoped
                            | apply parseCaptureInline_scoped
                            | apply parseItems_scoped
                            | apply parseRef_scoped
                            | apply parseDef_scoped
                            | scoped_step ] ]
          |]).
  destruct Hin.
Qed.

(** ** What the dispatcher chooses *)

Section Chosen.

Variable rules : Rules.

(** The best match so far is a match of its rule. *)
Definition is_match (source : jsstring) (state : State) (best : Best) : Prop :=
  forall t r cap, bestMatch best = Some (t, r, cap) ->
  match_of r source state = Some cap.

Lemma tryRule_is_match source state t r best :
  is_match source state best -> is_match source state (tryRule source state t r best).
Proof.
  intros Hb. rewrite tryRule_eq.
  destruct (match_of r source state) as [cap|] eqn:E; [|exact Hb].
  destruct (beats _ _); [|exact Hb].
  intros t' r' cap' H. cbn [bestMatch] in H.
  apply some_inv in H. apply pair_inv in H. destruct H as [H ->].
  apply pair_inv in H. destruct H as [_ <-]. exact E.
Qed.

Lemma ruleLoop_is_match source state later :
  forall t r best,
    is_match source state best ->
    is_match source state (ruleLoop rules source state t r later best).
Proof.
  induction later as [|next later IH]; intros t r best Hb; cbn [ruleLoop].
  - now apply tryRule_is_match.
  - destruct (lookup next (named rules)) as [nextRule|];
      [|now apply tryRule_is_match].
    destruct (_ || _); [|now apply tryRule_is_match].
    apply IH. now apply tryRule_is_match.
Qed.

(** The rule a round chooses matched, with the capture of the round, at
    the start of the source. *)
Lemma pickRule_is_match source state t r cap :
  pickRule rules source state = Ok (t, r, cap) ->
  match_of r source state = Some cap /\ index cap = 0.
Proof.
  unfold pickRule. destruct (ruleList rules) as [|first later]; [discriminate|].
  destruct (lookup first (named rules)) as [currRule|]; [|discriminate].
  destruct (bestMatch _) as [[[t' r'] cap']|] eqn:B; [|discriminate].
  destruct (Nat.eqb (index cap') 0) eqn:I; [|discriminate]. cbn [negb].
  intro H. apply ok_triple_inv in H. destruct H as [_ [<- <-]].
  split; [|now apply Nat.eqb_eq].
  eapply ruleLoop_is_match; [|exact B].
  intros ? ? ? H0. discriminate.
Qed.

End Chosen.

Lemma appended_scoped ruleType parsed : scoped (appended ruleType parsed).
Proof.
  destruct parsed; cbn [appended]; try apply scoped_throw; try apply scoped_ret.
  - destruct (is_nullish _); apply scoped_ret.
  - intros st x st'. destruct (nth_error (heap st) a) as [[]|]; try discriminate.
    destruct (is_nullish _); intro H; inversion H; subst; reflexivity.
Qed.

(** One round of the loop over the default rules: the scope stays, and
    the capture is remembered. *)
Lemma parseStep_state nested source st cap nodes source' st' :
  parser_scoped nested ->
  parseStep defaultRules.all nested source st = Ok (cap, nodes, source', st') ->
  scope_of st' = scope_of st
  /\ prevCaptureStr st' = group 0 cap.
Proof.
  intros Hn. unfold parseStep.
  destruct (pickRule defaultRules.all source st) as [[[t r] c]|] eqn:P; [|discriminate].
  destruct (pickRule_from_table _ _ _ P) as [name Hin].
  destruct (pickRule_is_match _ _ _ P) as [Hm _].
  unfold bind.
  destruct (parse r c nested st) as [[parsed st1]|] eqn:E; [|discriminate].
  destruct (appended t parsed st1) as [[ns st2]|] eqn:A; [|discriminate].
  unfold write, ret. intro H. inversion H; subst. split.
  - rewrite scope_of_sset_other by reflexivity.
    rewrite (appended_scoped _ _ _ A).
    eapply default_rules_scoped; eauto.
  - unfold prevCaptureStr, sget, sset. cbn [fields]. now rewrite get_set_same.
Qed.

Lemma parseLoop_scoped fuel :
  forall source result, scoped (parseLoop defaultRules.all fuel source result).
Proof.
  induction fuel as [|fuel IH]; intros source result; cbn [parseLoop];
    destruct source as [|a source]; try apply scoped_ret; try apply scoped_throw.
  apply scoped_bind.
  - intros st [[cap nodes] source'] st' H.
    eapply parseStep_state; [|exact H]. intro src. apply IH.
  - intros [[cap nodes] source']. apply IH.
Qed.

(** The patterns of the block rules end well: a match ends in a line
    feed or at the end of the source. *)
Definition block_patterns : list RegExp :=
  [ defaultRules.HEADING_R; TABLES.NPTABLE_REGEX; defaultRules.LHEADING_R;
    defaultRules.HR_R; defaultRules.CODEBLOCK_R; defaultRules.FENCE_R;
    defaultRules.BLOCKQUOTE_R; LIST_R; defaultRules.DEF_R; TABLES.TABLE_REGEX;
    defaultRules.NEWLINE_R; defaultRules.PARAGRAPH_R ].

Lemma block_patterns_end_well :
  forallb (fun R => fst (well (multiline R) (pattern R))) block_patterns = true.
Proof. vm_compute. reflexivity. Qed.

(** A capture of a block rule: of its pattern on the source, for the
    list rule after the indentation that the capture before ended with. *)
Definition block_capture (source : jsstring) (state : State) (cap : Match) : Prop :=
  exists R pre,
    exec R (pre ++ source) = Some cap
    /\ fst (well (multiline R) (pattern R)) = true
    /\ (pre = []
        \/ exists lookbehind,
             exec LIST_LOOKBEHIND_R (prevCaptureStr state) = Some lookbehind
             /\ pre = group 1 lookbehind).

Lemma block_rule_match order R q p h source st cap :
  match_of (defaultRules.rule order (blockRegex R) q p h) source st = Some cap ->
  exec R source = Some cap.
Proof.
  unfold match_of, defaultRules.rule, blockRegex. cbn [rmatch].
  destruct (truthy (sget "inline" st)); [discriminate|auto].
Qed.

Lemma list_rule_match source st cap :
  match_of defaultRules.list source st = Some cap ->
  exists lookbehind,
    exec LIST_LOOKBEHIND_R (prevCaptureStr st) = Some lookbehind
    /\ exec LIST_R (group 1 lookbehind ++ source) = Some cap.
Proof.
  unfold match_of, defaultRules.list, defaultRules.rule. cbn [rmatch].
  destruct (exec LIST_LOOKBEHIND_R (prevCaptureStr st)) as [lb|]; [|discriminate].
  destruct (_ || _); [|discriminate]. intro H. exists lb. auto.
Qed.

(** The round stopped at the rule of [M]. *)
Ltac chosen_block H M :=
  cbn [bestMatch] in H;
  match type of H with
  | (if ?b then _ else _) = _ => destruct b; [discriminate|]
  end;
  apply ok_triple_inv in H; destruct H as [? [? ?]]; subst;
  first
    [ apply block_rule_match in M;
      eexists _, []; split; [exact M|];
      split; [vm_compute; reflexivity|left; reflexivity]
    | apply list_rule_match in M;
      let lb := fresh "lb" in
      let M1 := fresh "M1" in
      let M2 := fresh "M2" in
      destruct M as [lb [M1 M2]];
      exists LIST_R, (group 1 lb); split; [exact M2|];
      split; [vm_compute; reflexivity|right; exists lb; split; [exact M1|reflexivity]] ].

Ltac block_step H :=
  match type of H with
  | context [ruleLoop ?rules ?source ?state ?t ?r (?next :: ?later) no_best] =>
      let M := fresh "M" in
      let L := fresh "L" in
      next_rule rules next L;
      destruct (match_of r source state) eqn:M;
      [ rewrite (@loop_stop rules source state t r next later _ no_best _ L M eq_refl eq_refl) in H;
        chosen_block H M
      | rewrite (@loop_skip rules source state t r next later _ no_best L M eq_refl) in H; clear L ]
  end.

(** Where the newline rule or the paragraph rule matches, the round
    chooses a block rule. *)
Lemma block_choice source state t r cap :
  match_of defaultRules.newline source state <> None
  \/ match_of defaultRules.paragraph source state <> None ->
  pickRule defaultRules.all source state = Ok (t, r, cap) ->
  block_capture source state cap.
Proof.
  intros Hc H.
  rewrite pickRule_default, default_rule_list in H. cbn [List.map List.tl] in H.
  do 12 block_step H.
  exfalso. destruct Hc as [Hc|Hc]; apply Hc; reflexivity.
Qed.

(** ** The preprocessor keeps the two line feeds at the end *)

Definition carriage_return_class : charset :=
  {| negated := false; items := [CRange 13 13] |}.

Lemma carriage_return_class_mem a : cs_mem false carriage_return_class a = N.eqb a CR.
Proof.
  unfold cs_mem, items_mem, carriage_return_class.
  cbn [negated items existsb item_mem andb].
  now rewrite in_range_single, !orb_false_r.
Qed.

Lemma match_at_line_end i pv s :
  match_at CR_NEWLINE_R {| idx := i; prev := pv; rest := s |}
  = match s with
    | [] => None
    | a :: tl =>
        if N.eqb a CR then
          match tl with
          | [] => Some ({| index := i; captures := [Some [a]] |},
                        {| idx := S i; prev := Some a; rest := [] |})
          | b :: tl' =>
              if N.eqb b LF
              then Some ({| index := i; captures := [Some [a; b]] |},
                         {| idx := S (S i); prev := Some b; rest := tl' |})
              else Some ({| index := i; captures := [Some [a]] |},
                         {| idx := S i; prev := Some a; rest := tl |})
          end
        else None
    end.
Proof.
  unfold match_at.
  change (pattern CR_NEWLINE_R)
    with (RSeq (RChar carriage_return_class) (RRep true 0 (Some 1) (RChar line_feed_class))).
  change (ignoreCase CR_NEWLINE_R) with false.
  change (multiline CR_NEWLINE_R) with false.
  change (ngroups CR_NEWLINE_R) with 0.
  rewrite m_seq. destruct s as [|a tl]; [reflexivity|].
  rewrite m_char, carriage_return_class_mem.
  destruct (N.eqb a CR); [|reflexivity].
  rewrite m_rep. cbn [rest idx].
  destruct tl as [|b tl'].
  - cbn -[Nat.sub firstn]. replace (S i - i) with 1 by lia. reflexivity.
  - cbn [List.length Nat.add repeat_matcher option_map Nat.pred Nat.eqb negb andb
           groups_in clear_caps fold_left].
    rewrite m_char, line_feed_class_mem. unfold is_line_feed.
    destruct (N.eqb b LF).
    + cbn [idx]. rewrite succ_eqb_false, Nat.add_1_r.
      cbn -[Nat.sub firstn]. replace (S (S i) - i) with 2 by lia. reflexivity.
    + cbn -[Nat.sub firstn]. replace (S i - i) with 1 by lia. reflexivity.
Qed.

(** [source.replace(CR_NEWLINE_R, '\n')], line end by line end. *)
Fixpoint line_ends (s : jsstring) : jsstring :=
  match s with
  | [] => []
  | a :: tl =>
      if N.eqb a CR then
        LF :: match tl with
              | [] => []
              | b :: tl' => if N.eqb b LF then line_ends tl' else line_ends tl
              end
      else a :: line_ends tl
  end.

Lemma replace_line_ends_from n :
  forall s pre pv fuel,
    List.length s <= n ->
    List.length s < fuel ->
    splice (pre ++ s) (List.length pre)
      (matches_from fuel CR_NEWLINE_R
         {| idx := List.length pre; prev := pv; rest := s |}) (const_str [LF])
    = line_ends s.
Proof.
  induction n as [|n IH]; intros s pre pv fuel Hn Hfuel;
    (destruct fuel as [|fuel]; [lia|]).
  - destruct s; [|cbn in Hn; lia].
    cbn [matches_from search_from idx prev rest]. rewrite match_at_line_end.
    cbn [splice line_ends]. apply skipn_middle.
  - destruct s as [|a tl].
    + cbn [matches_from search_from idx prev rest]. rewrite match_at_line_end.
      cbn [splice line_ends]. apply skipn_middle.
    + cbn [List.length] in Hn, Hfuel.
      cbn [matches_from search_from idx prev rest]. rewrite match_at_line_end.
      cbn [line_ends].
      destruct (N.eqb a CR) eqn:Ea.
      * destruct tl as [|b tl'].
        -- cbn [idx index rest splice]. rewrite succ_eqb_false.
           cbn [splice index]. rewrite Nat.sub_diag. cbn [firstn app const_str].
           f_equal.
           replace (pre ++ [a]) with ((pre ++ [a]) ++ []) by apply app_nil_r.
           replace (S (List.length pre)) with (List.length (pre ++ [a]))
             by (rewrite length_app; cbn; lia).
           destruct fuel; cbn [matches_from splice]; [apply skipn_middle|].
           cbn [search_from idx prev rest]. rewrite match_at_line_end.
           cbn [splice]. apply skipn_middle.
        -- destruct (N.eqb b LF) eqn:Eb.
           ++ cbn [idx index rest].
              replace (Nat.eqb (S (S (List.length pre))) (List.length pre)) with false
                by (symmetry; apply Nat.eqb_neq; lia).
              cbn [splice index idx]. rewrite Nat.sub_diag. cbn [firstn app const_str].
              f_equal.
              replace (pre ++ a :: b :: tl') with ((pre ++ [a; b]) ++ tl')
                by (rewrite <- app_assoc; reflexivity).
              replace (S (S (List.length pre))) with (List.length (pre ++ [a; b]))
                by (rewrite length_app; cbn; lia).
              apply IH; cbn [List.length] in *; lia.
           ++ cbn [idx index rest]. rewrite succ_eqb_false.
              cbn [splice index idx]. rewrite Nat.sub_diag. cbn [firstn app const_str].
              f_equal.
              replace (pre ++ a :: b :: tl') with ((pre ++ [a]) ++ b :: tl')
                by (rewrite <- app_assoc; reflexivity).
              replace (S (List.length pre)) with (List.length (pre ++ [a]))
                by (rewrite length_app; cbn; lia).
              apply IH; cbn [List.length] in *; lia.
      * assert (Hpre : pre ++ a :: tl = (pre ++ [a]) ++ tl)
          by (rewrite <- app_assoc; reflexivity).
        assert (Hlen : List.length (pre ++ [a]) = S (List.length pre))
          by (rewrite length_app; cbn; lia).
        specialize (IH tl (pre ++ [a]) (Some a) (S fuel) ltac:(lia) ltac:(lia)).
        rewrite Hlen in IH. cbn [matches_from idx prev rest] in IH.
        rewrite <- Hpre in IH. rewrite <- IH.
        destruct (search_from CR_NEWLINE_R (S (List.length pre)) (Some a) tl)
          as [[mt p']|] eqn:S1.
        -- apply splice_skip; [apply nth_error_middle|].
           intros mt0 p0 H0. cbn [hd_error] in H0. inversion H0; subst.
           now apply search_from_index in S1.
        -- apply splice_skip; [apply nth_error_middle|]. intros ? ? H0. discriminate.
Qed.

Lemma replace_line_ends s : replace CR_NEWLINE_R (const_str [LF]) s = line_ends s.
Proof.
  unfold replace, all_matches. change (global CR_NEWLINE_R) with true. cbv iota.
  apply (@replace_line_ends_from (List.length s) s [] None); lia.
Qed.

(** A source that ends in two line feeds. *)
Definition ends_in_blank_line (s : jsstring) : Prop := exists x, s = x ++ [LF; LF].

Lemma line_ends_blank_line n :
  forall s, List.length s <= n -> ends_in_blank_line (line_ends (s ++ [LF; LF])).
Proof.
  induction n as [|n IH]; intros s Hn.
  - destruct s; [|cbn in Hn; lia]. exists []. reflexivity.
  - destruct s as [|a tl]; [exists []; reflexivity|].
    cbn [List.length] in Hn. cbn [app line_ends].
    destruct (N.eqb a CR).
    + destruct tl as [|b tl'].
      * exists []. reflexivity.
      * cbn [app]. destruct (N.eqb b LF).
        -- destruct (IH tl' ltac:(cbn [List.length] in Hn; lia)) as [x Hx].
           exists (LF :: x). now rewrite Hx.
        -- destruct (IH (b :: tl') ltac:(lia)) as [x Hx].
           exists (LF :: x). cbn [app] in Hx. now rewrite Hx.
    + destruct (IH tl ltac:(lia)) as [x Hx]. exists (a :: x). now rewrite Hx.
Qed.

Lemma replace_each_blank_line hit g s :
  hit LF = false ->
  ends_in_blank_line s -> ends_in_blank_line (replace_each hit g s).
Proof.
  intros Hh [x ->]. exists (replace_each hit g x).
  unfold replace_each. rewrite flat_map_app. cbn [flat_map]. now rewrite Hh.
Qed.

Lemma preprocess_blank_line s : ends_in_blank_line (preprocess (s ++ [LF; LF])).
Proof.
  unfold preprocess. rewrite replace_line_ends.
  change TAB_R with (class_regexp {| negated := false; items := [CRange 9 9] |} true false).
  change FORMFEED_R with (class_regexp {| negated := false; items := [CRange 12 12] |} true false).
  rewrite (@replace_class _ false (const_str (str "    ")) (fun _ => str "    ")) by reflexivity.
  rewrite (@replace_class _ false (const_str []) (fun _ => [])) by reflexivity.
  apply replace_each_blank_line; [reflexivity|].
  apply replace_each_blank_line; [reflexivity|].
  apply (@line_ends_blank_line (List.length s)). lia.
Qed.

(** ** The rounds of the top-level loop in block scope *)

(** What is left of a source that ended in two line feeds. *)
Definition tail_shape (s : jsstring) : Prop :=
  s = [] \/ s = [LF] \/ ends_in_blank_line s.

(** The capture before ended a line, or there was none. *)
Definition prev_ok (st : State) : Prop :=
  prevCaptureStr st = [] \/ ends_in_line_feed (prevCaptureStr st).

Lemma tail_shape_suffix (t s : jsstring) : tail_shape (t ++ s) -> tail_shape s.
Proof.
  intro H.
  destruct s as [|a s] using rev_ind; [now left|]. clear IHs.
  destruct s as [|b s] using rev_ind.
  - right; left. cbn [app] in *.
    destruct H as [H|[H|[x H]]].
    + apply app_eq_nil in H. destruct H; discriminate.
    + change [LF] with ([] ++ [LF]) in H. apply app_inj_tail in H.
      destruct H as [_ ->]. reflexivity.
    + change (x ++ [LF; LF]) with (x ++ [LF] ++ [LF]) in H.
      rewrite app_assoc in H. apply app_inj_tail in H.
      destruct H as [_ ->]. reflexivity.
  - clear IHs. right; right. exists s.
    destruct H as [H|[H|[x H]]].
    + apply app_eq_nil in H. destruct H as [_ H].
      apply app_eq_nil in H. destruct H; discriminate.
    + rewrite !app_assoc in H. change [LF] with ([] ++ [LF]) in H.
      apply app_inj_tail in H. destruct H as [H _].
      apply app_eq_nil in H. destruct H; discriminate.
    + change (x ++ [LF; LF]) with (x ++ [LF] ++ [LF]) in H.
      rewrite !app_assoc in H. apply app_inj_tail in H. destruct H as [H ->].
      apply app_inj_tail in H. destruct H as [_ ->].
      rewrite <- app_assoc. reflexivity.
Qed.

Lemma present_some {A} (x : option A) : present x = true -> x <> None.
Proof. destruct x; [discriminate|]. intro H. discriminate H. Qed.

Lemma match_of_newline source st :
  scope_of st = false ->
  match_of defaultRules.newline source st = exec defaultRules.NEWLINE_R source.
Proof.
  intro Hs. unfold match_of, defaultRules.newline, defaultRules.rule, blockRegex.
  cbn [rmatch]. unfold scope_of in Hs. now rewrite Hs.
Qed.

Lemma match_of_paragraph source st :
  scope_of st = false ->
  match_of defaultRules.paragraph source st = exec defaultRules.PARAGRAPH_R source.
Proof.
  intro Hs. unfold match_of, defaultRules.paragraph, defaultRules.rule, blockRegex.
  cbn [rmatch]. unfold scope_of in Hs. now rewrite Hs.
Qed.

(** In block scope, on what is left of a source that ended in two line
    feeds, the newline rule or the paragraph rule matches. *)
Lemma tail_shape_match source st :
  scope_of st = false -> source <> [] -> tail_shape source ->
  match_of defaultRules.newline source st <> None
  \/ match_of defaultRules.paragraph source st <> None.
Proof.
  intros Hs Hn Ht. destruct source as [|a s]; [contradiction|].
  destruct (N.eqb_spec a LF) as [->|Ha].
  - left. rewrite match_of_newline by exact Hs.
    apply present_some, newline_matches.
  - right. rewrite match_of_paragraph by exact Hs.
    apply present_some.
    destruct Ht as [Ht|[Ht|[x Ht]]]; [discriminate|congruence|].
    destruct x as [|a' x]; cbn [app] in Ht; [congruence|].
    injection Ht as <- ->.
    now apply paragraph_matches.
Qed.

Lemma parseStep_pick rules nested source st cap nodes source' st' :
  parseStep rules nested source st = Ok (cap, nodes, source', st') ->
  exists t r, pickRule rules source st = Ok (t, r, cap).
Proof.
  unfold parseStep.
  destruct (pickRule rules source st) as [[[t r] c]|]; [|discriminate].
  unfold bind.
  destruct (parse r c nested st) as [[parsed st1]|]; [|discriminate].
  destruct (appended t parsed st1) as [[ns st2]|]; [|discriminate].
  cbn. intro H. inversion H; subst. eauto.
Qed.

(** One round of the top-level loop: its capture is the start of the
    source, and the round leaves the rest, in block scope still. *)
Lemma top_round nested source st cap nodes source' st' :
  parser_scoped nested ->
  scope_of st = false -> prev_ok st -> tail_shape source -> source <> [] ->
  parseStep defaultRules.all nested source st = Ok (cap, nodes, source', st') ->
  source = group 0 cap ++ source'
  /\ scope_of st' = false
  /\ (source' = [] \/ prev_ok st')
  /\ tail_shape source'.
Proof.
  intros Hn Hs Hp Ht Hne H.
  destruct (@parseStep_pick _ _ _ _ _ _ _ _ H) as [t [r P]].
  destruct (@pickRule_is_match _ _ _ _ _ _ P) as [_ I].
  pose proof (@block_choice source st t r cap (@tail_shape_match source st Hs Hne Ht) P)
    as [R [pre [E [W Hpre]]]].
  assert (pre = []) as ->.
  { destruct Hpre as [->|[lb [L ->]]]; [reflexivity|].
    eapply lookbehind_indent; [|exact L]. exact Hp. }
  cbn [app] in E.
  destruct (@exec_text R source cap E I) as [s' [Es G]]. specialize (G W).
  assert (source' = s') as ->.
  { rewrite (@parseStep_source _ _ _ _ _ _ _ _ H). unfold substring_from, full_length.
    rewrite Es. apply skipn_middle. }
  destruct (@parseStep_state _ _ _ _ _ _ _ Hn H) as [Hs' Hc].
  split; [exact Es|]. split; [congruence|]. split.
  - destruct G as [G|G]; [right|left; exact G].
    unfold prev_ok. rewrite Hc. right. exact G.
  - rewrite Es in Ht. eapply tail_shape_suffix; eauto.
Qed.

(** The full matches of the rounds, one after the other. *)
Definition full_matches (rs : list (jsstring * Match)) : jsstring :=
  List.concat (List.map (fun r => group 0 (snd r)) rs).

Lemma consumed_full_matches rs : consumed rs = List.length (full_matches rs).
Proof.
  induction rs as [|[src cap] rs IH]; [reflexivity|].
  unfold consumed, full_matches in *.
  cbn [List.map list_sum List.concat snd]. rewrite length_app, <- IH. reflexivity.
Qed.

Lemma top_rounds fuel :
  forall source result st nodes st',
    scope_of st = false -> source = [] \/ prev_ok st -> tail_shape source ->
    parseLoop defaultRules.all fuel source result st = Ok (nodes, st') ->
    full_matches (rounds defaultRules.all fuel source st) = source.
Proof.
  induction fuel as [|fuel IH]; intros source result st nodes st' Hs Hp Ht;
    cbn [parseLoop rounds]; destruct source as [|a source]; try discriminate;
    try (intros _; reflexivity).
  unfold bind at 1.
  destruct (parseStep _ _ _ _) as [[[[cap ns] source'] st1]|] eqn:E; [|discriminate].
  intro H.
  assert (Hp' : prev_ok st) by (destruct Hp as [Hp|Hp]; [discriminate|exact Hp]).
  assert (Hn : parser_scoped (fun src => parseLoop defaultRules.all fuel src []))
    by (intro src; apply parseLoop_scoped).
  destruct (@top_round _ _ _ _ _ _ _ Hn Hs Hp' Ht ltac:(discriminate) E)
    as [Es [Hs1 [Hp1 Ht1]]].
  unfold full_matches. cbn [List.map List.concat snd]. fold (full_matches (rounds defaultRules.all fuel source' st1)).
  rewrite (@IH _ _ _ _ _ Hs1 Hp1 Ht1 H). symmetry. exact Es.
Qed.

Lemma defaultBlockParse_eq fuel source state :
  defaultBlockParse fuel source state
  = let st := sset "inline" (VBool false) (orEmptyState state) in
    parseLoop defaultRules.all fuel (preprocess (suffixed source st)) []
      (sset "prevCapture" VNull st).
Proof. reflexivity. Qed.

Lemma suffixed_block source state :
  truthy (sget "disableAutoBlockNewlines" (orEmptyState state)) = false ->
  suffixed source (sset "inline" (VBool false) (orEmptyState state))
  = source ++ [LF; LF].
Proof.
  intro Hd. unfold suffixed.
  fold (scope_of (sset "inline" (VBool false) (orEmptyState state))).
  rewrite scope_of_sset_inline. cbn [truthy negb andb].
  unfold sget, sset in *. cbn [fields].
  rewrite get_set_other, Hd; [reflexivity|].
  intro E. apply str_eqb_eq in E. discriminate.
Qed.

(** C2, as the code has it.  For every source parsed by the default
    block entry point with [disableAutoBlockNewlines] falsy, when the
    parse returns, the rounds of its loop start from the preprocessed
    text of the source with two line feeds appended (the preprocessor
    runs after the line feeds are appended), each round starts where the
    capture of the round before ended, the last leaves nothing, and the
    full matches of the captures, one after the other, are that text: the
    loop consumes exactly its length. *)
Theorem block_parse_consumes_input (fuel : nat) (source : jsstring)
    (state : option State) (nodes : list value) (state' : State) :
  truthy (sget "disableAutoBlockNewlines" (orEmptyState state)) = false ->
  defaultBlockParse fuel source state = Ok (nodes, state') ->
  chained (preprocess (source ++ [LF; LF])) (blockRounds fuel source state)
  /\ full_matches (blockRounds fuel source state) = preprocess (source ++ [LF; LF])
  /\ consumed (blockRounds fuel source state)
     = List.length (preprocess (source ++ [LF; LF])).
Proof.
  intros Hd H. rewrite defaultBlockParse_eq in H. cbv zeta in H.
  unfold blockRounds. cbv zeta.
  rewrite (suffixed_block source state Hd) in *.
  assert (F : full_matches
                (rounds defaultRules.all fuel (preprocess (source ++ [LF; LF]))
                   (sset "prevCapture" VNull
                      (sset "inline" (VBool false) (orEmptyState state))))
              = preprocess (source ++ [LF; LF])).
  { eapply top_rounds; [| | |exact H].
    - rewrite scope_of_sset_other by reflexivity. apply scope_of_sset_inline.
    - right. left. unfold prevCaptureStr, sget, sset. cbn [fields].
      now rewrite get_set_same.
    - right. right. apply preprocess_blank_line. }
  split; [eapply rounds_chained; exact H|].
  split; [exact F|]. now rewrite consumed_full_matches, F.
Qed.

(** A list with carriage returns at its line ends, the last of which the
    preprocessor joins with the first of the two line feeds appended. *)
Definition carriage_return_list_source : jsstring :=
  str "- a" ++ [CR; LF] ++ str "- b" ++ [CR; LF; CR; LF] ++ str "c" ++ [CR].

Lemma block_parse_consumes_input_witness :
  chained (preprocess (carriage_return_list_source ++ [LF; LF]))
    (blockRounds 8 carriage_return_list_source (Some client_state))
  /\ full_matches (blockRounds 8 carriage_return_list_source (Some client_state))
     = preprocess (carriage_return_list_source ++ [LF; LF])
  /\ consumed (blockRounds 8 carriage_return_list_source (Some client_state))
     = List.length (preprocess (carriage_return_list_source ++ [LF; LF])).
Proof.
  apply (@block_parse_consumes_input 8 carriage_return_list_source (Some client_state)
           (parsed_nodes 8 carriage_return_list_source client_state)
           (parsed_with 8 carriage_return_list_source client_state)).
  - vm_compute. reflexivity.
  - vm_compute. reflexivity.
Defined.

(** The rounds of that parse: a list, then a paragraph. *)
Example carriage_return_list_rounds :
  List.map (fun r => group 0 (snd r))
    (blockRounds 8 carriage_return_list_source (Some client_state))
  = [ str "- a" ++ [LF] ++ str "- b" ++ [LF; LF]; str "c" ++ [LF; LF] ]
  /\ preprocess carriage_return_list_source ++ [LF; LF]
     = str "- a" ++ [LF] ++ str "- b" ++ [LF; LF] ++ str "c" ++ [LF; LF; LF].
Proof. split; vm_compute; reflexivity. Qed.

(** ** More fuel gives the same parse *)

(** Whatever the first computation returns, the second returns too. *)
Definition refines {A} (x y : M A) : Prop :=
  forall st a st', x st = Ok (a, st') -> y st = Ok (a, st').

Definition parser_refines (p q : Parser) : Prop :=
  forall source, refines (p source) (q source).

Lemma refines_refl {A} (x : M A) : refines x x.
Proof. intros st a st' H. exact H. Qed.

Lemma refines_bind {A B} (x y : M A) (f g : A -> M B) :
  refines x y -> (forall a, refines (f a) (g a)) -> refines (bind x f) (bind y g).
Proof.
  intros Hx Hf st b st'. unfold bind.
  destruct (x st) as [[a st1]|] eqn:E; [|discriminate].
  rewrite (Hx _ _ _ E). apply Hf.
Qed.

Lemma refines_mapM {A B} (f g : A -> M B) xs :
  (forall x, refines (f x) (g x)) -> refines (mapM f xs) (mapM g xs).
Proof.
  intro Hf. induction xs as [|x xs IH]; cbn [mapM]; [apply refines_refl|].
  apply refines_bind; [apply Hf|]. intro y.
  apply refines_bind; [apply IH|]. intro ys. apply refines_refl.
Qed.

Ltac refines_step :=
  match goal with
  | |- refines ?x ?x => apply refines_refl
  | H : parser_refines ?p ?q |- refines (?p _) (?q _) => apply H
  | |- refines (bind _ _) (bind _ _) => apply refines_bind; [|intro]
  | |- refines (mapM _ _) (mapM _ _) => apply refines_mapM; intro
  | |- refines (match ?x with _ => _ end) (match ?x with _ => _ end) => destruct x
  | |- refines (if ?x then _ else _) (if ?x then _ else _) => destruct x
  end.

Definition rule_monotone (r : Rule) : Prop :=
  forall cap p q, parser_refines p q -> refines (parse r cap p) (parse r cap q).

Lemma parseInline_monotone p q content :
  parser_refines p q -> refines (parseInline p content) (parseInline q content).
Proof. intro H. unfold parseInline. repeat refines_step. Qed.

Lemma parseCaptureInline_monotone cap p q :
  parser_refines p q -> refines (parseCaptureInline cap p) (parseCaptureInline cap q).
Proof.
  intro H. unfold parseCaptureInline.
  apply refines_bind; [now apply parseInline_monotone|]. intro. apply refines_refl.
Qed.

Lemma parseTableRow_monotone source p q trim_ :
  parser_refines p q ->
  refines (TABLES.parseTableRow source p trim_) (TABLES.parseTableRow source q trim_).
Proof. intro H. unfold TABLES.parseTableRow. repeat refines_step. Qed.

Lemma parseTable_monotone trim_ cap p q :
  parser_refines p q ->
  refines (TABLES.parseTableWith trim_ cap p) (TABLES.parseTableWith trim_ cap q).
Proof.
  intro H. unfold TABLES.parseTableWith, TABLES.parseTableCells.
  repeat first [ apply parseTableRow_monotone; assumption | refines_step ].
Qed.

Lemma parseItems_monotone p q n items :
  parser_refines p q ->
  forall i lastItemWasAParagraph,
    refines (defaultRules.parseItems p n i lastItemWasAParagraph items)
            (defaultRules.parseItems q n i lastItemWasAParagraph items).
Proof.
  intro H. induction items as [|item items IH]; intros i lastp;
    cbn [defaultRules.parseItems]; [apply refines_refl|].
  destruct (spaceRegex _); [|apply refines_refl].
  repeat first [ apply IH | refines_step ].
Qed.

Lemma parseDef_monotone cap p q : refines (parseDef cap p) (parseDef cap q).
Proof. exact (refines_refl (parseDef cap p)). Qed.

(** The parse of every default rule returns what it returned, when the
    parser it is handed does. *)
Lemma default_rules_monotone name r :
  In (name, r) (named defaultRules.all) -> rule_monotone r.
Proof.
  intros Hin cap p q Hn. cbn [named defaultRules.all] in Hin.
  repeat (destruct Hin as [Hin|Hin];
          [apply pair_inv in Hin; destruct Hin as [_ Hin]; subst r;
           cbn [parse defaultRules.rule defaultRules.heading defaultRules.nptable
                  defaultRules.lheading defaultRules.hr defaultRules.codeBlock
                  defaultRules.fence defaultRules.blockQuote defaultRules.list
                  defaultRules.def defaultRules.table defaultRules.newline
                  defaultRules.paragraph defaultRules.escape
                  defaultRules.tableSeparator defaultRules.autolink
                  defaultRules.mailto defaultRules.url defaultRules.link
                  defaultRules.image defaultRules.reflink defaultRules.refimage
                  defaultRules.em defaultRules.strong defaultRules.u
                  defaultRules.del defaultRules.inlineCode defaultRules.br
                  defaultRules.text];
           unfold TABLES.parseNpTable, TABLES.parseTable, ignoreCapture;
           repeat first [ apply parseInline_monotone; assumption
                        | apply parseCaptureInline_monotone; assumption
                        | apply parseTable_monotone; assumption
                        | apply parseItems_monotone; assumption
                        | apply parseDef_monotone
                        | refines_step ]
          |]).
  destruct Hin.
Qed.

Lemma parseStep_monotone p q source :
  parser_refines p q ->
  refines (parseStep defaultRules.all p source) (parseStep defaultRules.all q source).
Proof.
  intros Hn st x st'. unfold parseStep.
  destruct (pickRule defaultRules.all source st) as [[[t r] cap]|] eqn:P; [|discriminate].
  destruct (pickRule_from_table _ _ _ P) as [name Hin].
  pose proof (@default_rules_monotone name r Hin cap p q Hn st) as Hr.
  unfold bind at 1. 
  destruct (parse r cap p st) as [[parsed st1]|] eqn:E; [|discriminate].
  intro H. unfold bind at 1. rewrite (Hr _ _ eq_refl). exact H.
Qed.

Lemma parseLoop_monotone fuel :
  forall k source result,
    refines (parseLoop defaultRules.all fuel source result)
            (parseLoop defaultRules.all (fuel + k) source result).
Proof.
  induction fuel as [|fuel IH]; intros k source result;
    destruct source as [|a source].
  - destruct k; apply refines_refl.
  - intros st x st' H. discriminate.
  - destruct k; apply refines_refl.
  - cbn [Nat.add parseLoop]. apply refines_bind.
    + apply parseStep_monotone. intro src. apply IH.
    + intros [[cap nodes] source']. apply IH.
Qed.

(** A parse by a default entry point that returns, returns the same with
    any more fuel. *)
Lemma defaultRawParse_fuel fuel k source state nodes state' :
  defaultRawParse fuel source state = Ok (nodes, state') ->
  defaultRawParse (fuel + k) source state = Ok (nodes, state').
Proof.
  unfold defaultRawParse, parserFor, outerParse, nestedParse.
  apply parseLoop_monotone.
Qed.

Lemma defaultBlockParse_fuel fuel k source state nodes state' :
  defaultBlockParse fuel source state = Ok (nodes, state') ->
  defaultBlockParse (fuel + k) source state = Ok (nodes, state').
Proof. unfold defaultBlockParse. apply defaultRawParse_fuel. Qed.

(** And its rounds are the same. *)
Lemma rounds_fuel fuel :
  forall k source result st nodes st',
    parseLoop defaultRules.all fuel source result st = Ok (nodes, st') ->
    rounds defaultRules.all (fuel + k) source st = rounds defaultRules.all fuel source st.
Proof.
  induction fuel as [|fuel IH]; intros k source result st nodes st';
    destruct source as [|a source].
  - intros _. destruct k; reflexivity.
  - discriminate.
  - intros _. reflexivity.
  - cbn [Nat.add parseLoop rounds]. unfold bind at 1.
    destruct (parseStep _ _ _ st) as [[[[cap ns] source'] st1]|] eqn:E; [|discriminate].
    intro H.
    assert (E' : parseStep defaultRules.all
                   (fun src => parseLoop defaultRules.all (fuel + k) src [])
                   (a :: source) st = Ok (cap, ns, source', st1)).
    { revert E. apply parseStep_monotone. intro src. apply parseLoop_monotone. }
    rewrite E'. f_equal. eapply IH; eauto.
Qed.

Lemma blockRounds_fuel fuel k source state nodes state' :
  defaultBlockParse fuel source state = Ok (nodes, state') ->
  blockRounds (fuel + k) source state = blockRounds fuel source state.
Proof.
  rewrite defaultBlockParse_eq. cbv zeta. unfold blockRounds. cbv zeta.
  apply rounds_fuel.
Qed.

(** ** The rounds of a quantifier never run out

    The matcher bounds the rounds of a quantifier by
    [mn + length (rest p) + 1].  A matcher calls its continuation only at
    positions further on in the subject, so no bound above that one
    changes a result. *)

(** Two continuations that agree from [p] on. *)
Definition agree_from (p : pos) (k1 k2 : K) : Prop :=
  forall p' c', reach p p' -> k1 p' c' = k2 p' c'.

Definition local (f : pos -> caps -> K -> option (pos * caps)) : Prop :=
  forall p c k1 k2, agree_from p k1 k2 -> f p c k1 = f p c k2.

Lemma agree_from_reach p p' k1 k2 : reach p p' -> agree_from p k1 k2 -> agree_from p' k1 k2.
Proof. intros R H q c' Rq. apply H. eapply reach_trans; eauto. Qed.

Lemma repeat_local body g :
  local body ->
  forall fuel mn mx, local (fun p c k => repeat_matcher body g k fuel mn mx p c).
Proof.
  intros Hb. induction fuel as [|fuel IH]; intros mn mx p c k1 k2 H; [reflexivity|].
  cbn [repeat_matcher].
  assert (E : body p c (fun p' c' =>
                if Nat.eqb mn 0 && Nat.eqb (idx p') (idx p) then None
                else repeat_matcher body g k1 fuel (Nat.pred mn) (option_map Nat.pred mx) p' c')
              = body p c (fun p' c' =>
                if Nat.eqb mn 0 && Nat.eqb (idx p') (idx p) then None
                else repeat_matcher body g k2 fuel (Nat.pred mn) (option_map Nat.pred mx) p' c')).
  { apply Hb. intros p' c' R. destruct (_ && _); [reflexivity|].
    apply (IH (Nat.pred mn) (option_map Nat.pred mx) p' c' k1 k2).
    eapply agree_from_reach; eauto. }
  rewrite E, (H p c (reach_here p)). reflexivity.
Qed.

Lemma m_local ic ml r : local (m ic ml r).
Proof.
  induction r as [|cs|a IHa b IHb|a IHa b IHb|g mn mx a IHa|i a IHa|i|positive a IHa| | |positive];
    intros p c k1 k2 H; cbn [m];
    try (rewrite (H p c (reach_here p)); reflexivity).
  - destruct (rest p) as [|x tl] eqn:E; [reflexivity|].
    destruct (cs_mem ic cs x); [|reflexivity]. apply H, reach_advance.
  - apply IHa. intros p' c' R. apply IHb. eapply agree_from_reach; eauto.
  - rewrite (IHa p c k1 k2 H), (IHb p c k1 k2 H). reflexivity.
  - apply (@repeat_local (fun p0 c0 k0 => m ic ml a p0 (clear_caps (groups_in a) c0) k0) g).
    + intros p0 c0 k3 k4 H0. apply IHa. exact H0.
    + exact H.
  - apply IHa. intros p' c' R. apply H. exact R.
  - destruct (get_cap i c) as [s|]; [|apply H, reach_here].
    destruct (prefix_eqb ic s (rest p)); [|reflexivity]. apply H, reach_advance.
  - destruct (m ic ml a p c _) as [[q c']|]; destruct positive;
      try reflexivity; apply H, reach_here.
Qed.

Lemma reach_length p p' :
  reach p p' ->
  List.length (rest p') <= List.length (rest p)
  /\ (idx p' <> idx p -> List.length (rest p') < List.length (rest p)).
Proof.
  intro R. destruct (reach_between R) as [t [E [I _]]].
  rewrite E, length_app. split; [lia|]. intro D. destruct t; cbn in *; lia.
Qed.

(** Any two bounds above [mn + length (rest p)] give the same result. *)
Lemma repeat_fuel body g k :
  local body ->
  forall fuel1 fuel2 mn mx p c,
    mn + List.length (rest p) < fuel1 ->
    mn + List.length (rest p) < fuel2 ->
    repeat_matcher body g k fuel1 mn mx p c = repeat_matcher body g k fuel2 mn mx p c.
Proof.
  intros Hb. induction fuel1 as [|fuel1 IH]; intros fuel2 mn mx p c H1 H2; [lia|].
  destruct fuel2 as [|fuel2]; [lia|]. cbn [repeat_matcher].
  assert (E : body p c (fun p' c' =>
                if Nat.eqb mn 0 && Nat.eqb (idx p') (idx p) then None
                else repeat_matcher body g k fuel1 (Nat.pred mn) (option_map Nat.pred mx) p' c')
              = body p c (fun p' c' =>
                if Nat.eqb mn 0 && Nat.eqb (idx p') (idx p) then None
                else repeat_matcher body g k fuel2 (Nat.pred mn) (option_map Nat.pred mx) p' c')).
  { apply Hb. intros p' c' R. destruct (reach_length R) as [L1 L2].
    destruct (Nat.eqb mn 0) eqn:Em; cbn [andb].
    - apply Nat.eqb_eq in Em. subst mn.
      destruct (Nat.eqb (idx p') (idx p)) eqn:Ei; [reflexivity|].
      apply Nat.eqb_neq in Ei. specialize (L2 Ei).
      apply IH; cbn [Nat.pred]; lia.
    - apply Nat.eqb_neq in Em. apply IH; lia. }
  rewrite E. reflexivity.
Qed.

Lemma m_rep_fuel ic ml g mn mx a p c k extra :
  repeat_matcher (fun p0 c0 k0 => m ic ml a p0 (clear_caps (groups_in a) c0) k0)
    g k (mn + List.length (rest p) + 1 + extra) mn mx p c
  = m ic ml (RRep g mn mx a) p c k.
Proof.
  cbn [m]. apply repeat_fuel; [|lia|lia].
  intros p0 c0 k1 k2 H. apply m_local. exact H.
Qed.

(** ** The dispatcher always finds a rule among the default rules *)

(** The class [[\s\S]]. *)
Definition any_class : charset :=
  Eval vm_compute in
    match pattern defaultRules.TEXT_R with
    | RSeq _ (RSeq (RRep _ _ _ (RChar cs)) _) => cs
    | _ => {| negated := false; items := [] |}
    end.

Lemma any_class_mem a : cs_mem false any_class a = true.
Proof.
  unfold cs_mem, items_mem, any_class.
  cbn [negated items existsb item_mem andb in_ranges fst snd].
  repeat match goal with
         | |- context [in_range ?lo ?hi a] =>
             destruct (in_range lo hi a); cbn [orb negb]; try reflexivity
         end.
Qed.

(** What the text rule looks ahead for. *)
Definition TEXT_END : re :=
  Eval vm_compute in
    match pattern defaultRules.TEXT_R with
    | RSeq _ (RSeq _ (RLook _ a)) => a
    | _ => REmpty
    end.

Lemma text_end_at_end i pv c :
  m false false (RLook true TEXT_END) {| idx := i; prev := pv; rest := [] |} c final
  = Some ({| idx := i; prev := pv; rest := [] |}, c).
Proof. reflexivity. Qed.

Lemma text_rounds s :
  forall i pv c fuel,
    List.length s < fuel ->
    present (repeat_matcher (class_round false false any_class) false
               (fun p' c' => m false false (RLook true TEXT_END) p' c' final)
               fuel 0 None {| idx := i; prev := pv; rest := s |} c) = true.
Proof.
  induction s as [|a s IH]; intros i pv c fuel Hf;
    (destruct fuel as [|fuel]; [cbn in Hf; lia|]);
    rewrite repeat_matcher_unbounded; cbv zeta; cbn [Nat.eqb negb andb Nat.pred];
    rewrite present_orelse.
  - rewrite text_end_at_end. reflexivity.
  - rewrite class_round_cons, any_class_mem. cbn [idx]. rewrite succ_eqb_false.
    rewrite IH by (cbn in Hf; lia). apply orb_true_r.
Qed.

(** The text rule's pattern matches every source that is not empty, at
    its start. *)
Lemma text_matches a s :
  exists cap, exec defaultRules.TEXT_R (a :: s) = Some cap /\ index cap = 0.
Proof.
  unfold exec. cbn [search_from].
  assert (M : present (match_at defaultRules.TEXT_R
                         {| idx := 0; prev := None; rest := a :: s |}) = true).
  { unfold match_at.
    change (pattern defaultRules.TEXT_R)
      with (RSeq RBol (RSeq (RRep false 1 None (RChar any_class)) (RLook true TEXT_END))).
    change (ignoreCase defaultRules.TEXT_R) with false.
    change (multiline defaultRules.TEXT_R) with false.
    rewrite m_seq, m_bol_start, m_seq, m_rep_class. cbn [rest List.length Nat.add].
    match goal with
    | |- present (match ?x with _ => _ end) = true =>
        assert (Q : present x = true);
        [|destruct x as [[? ?]|]; [reflexivity|discriminate]]
    end.
    rewrite Nat.add_1_r.
    rewrite repeat_matcher_unbounded. cbv zeta. cbn [Nat.eqb negb andb Nat.pred].
    rewrite class_round_cons, any_class_mem.
    apply text_rounds. lia. }
  destruct (match_at defaultRules.TEXT_R _) as [[mt p']|] eqn:E; [|discriminate].
  exists mt. split; [reflexivity|].
  unfold match_at in E. destruct (m _ _ _ _ _ _) as [[q c']|]; [|discriminate].
  inversion E. reflexivity.
Qed.

(** A pattern that can only match where the subject begins. *)
Fixpoint anchored (r : re) : bool :=
  match r with
  | RBol => true
  | RSeq a _ => anchored a
  | RAlt a b => anchored a && anchored b
  | RGroup _ a => anchored a
  | _ => false
  end.

Lemma anchored_fails ic r :
  anchored r = true ->
  forall p c k, prev p <> None -> m ic false r p c k = None.
Proof.
  induction r as [|cs|a IHa b IHb|a IHa b IHb|g mn mx a IHa|i a IHa|i|positive a IHa| | |positive];
    cbn [anchored]; try discriminate; intros A p c k Hp; cbn [m].
  - apply IHa; assumption.
  - apply andb_prop in A. destruct A as [A1 A2].
    rewrite (IHa A1 p c k Hp), (IHb A2 p c k Hp). reflexivity.
  - apply IHa; assumption.
  - unfold at_bol. destruct (prev p); [reflexivity|contradiction].
Qed.

Lemma anchored_search R s :
  anchored (pattern R) = true -> multiline R = false ->
  forall i a, search_from R i (Some a) s = None.
Proof.
  intros A Ml. induction s as [|b s IH]; intros i a; cbn [search_from];
    unfold match_at; rewrite Ml, (anchored_fails _ _ A) by (cbn; discriminate).
  - reflexivity.
  - apply IH.
Qed.

(** [exec] of an anchored pattern: a match starts at index 0. *)
Lemma anchored_exec R s cap :
  anchored (pattern R) = true -> multiline R = false ->
  exec R s = Some cap -> index cap = 0.
Proof.
  intros A Ml. unfold exec. destruct s as [|a s]; cbn [search_from].
  - destruct (match_at R _) as [[mt p']|] eqn:E; [|discriminate].
    cbn. intro H. inversion H; subst. unfold match_at in E.
    destruct (m _ _ _ _ _ _) as [[q c']|]; [|discriminate]. inversion E. reflexivity.
  - destruct (match_at R _) as [[mt p']|] eqn:E.
    + cbn. intro H. inversion H; subst. unfold match_at in E.
      destruct (m _ _ _ _ _ _) as [[q c']|]; [|discriminate]. inversion E. reflexivity.
    + rewrite (anchored_search _ _ A Ml). discriminate.
Qed.

Lemma inline_rule_index order R q p h source st cap :
  anchored (pattern R) = true -> multiline R = false ->
  match_of (defaultRules.rule order (inlineRegex R) q p h) source st = Some cap ->
  index cap = 0.
Proof.
  intros A Ml. unfold match_of, defaultRules.rule, inlineRegex. cbn [rmatch].
  destruct (truthy _); [|discriminate]. now apply anchored_exec.
Qed.

Lemma block_rule_index order R q p h source st cap :
  anchored (pattern R) = true -> multiline R = false ->
  match_of (defaultRules.rule order (blockRegex R) q p h) source st = Some cap ->
  index cap = 0.
Proof.
  intros A Ml. unfold match_of, defaultRules.rule, blockRegex. cbn [rmatch].
  destruct (truthy _); [discriminate|]. now apply anchored_exec.
Qed.

Lemma any_scope_rule_index order R q p h source st cap :
  anchored (pattern R) = true -> multiline R = false ->
  match_of (defaultRules.rule order (anyScopeRegex R) q p h) source st = Some cap ->
  index cap = 0.
Proof.
  intros A Ml. unfold match_of, defaultRules.rule, anyScopeRegex. cbn [rmatch].
  now apply anchored_exec.
Qed.

Lemma list_rule_index source st cap :
  match_of defaultRules.list source st = Some cap -> index cap = 0.
Proof.
  intro H. apply list_rule_match in H. destruct H as [lb [_ H]].
  revert H. apply anchored_exec; reflexivity.
Qed.

Lemma table_separator_rule_index source st cap :
  match_of defaultRules.tableSeparator source st = Some cap -> index cap = 0.
Proof.
  unfold match_of, defaultRules.tableSeparator, defaultRules.rule. cbn [rmatch].
  destruct (negb _); [discriminate|]. apply anchored_exec; reflexivity.
Qed.

(** Every match function of the default rules gives a capture that
    starts at index 0. *)
Lemma default_rules_anchored name r :
  In (name, r) (named defaultRules.all) ->
  forall source st cap, match_of r source st = Some cap -> index cap = 0.
Proof.
  intros Hin source st cap. cbn [named defaultRules.all] in Hin.
  repeat (destruct Hin as [Hin|Hin];
          [apply pair_inv in Hin; destruct Hin as [_ Hin]; subst r;
           first [ apply list_rule_index
                 | apply table_separator_rule_index
                 | apply block_rule_index; reflexivity
                 | apply inline_rule_index; reflexivity
                 | apply any_scope_rule_index; reflexivity ]
          |]).
  destruct Hin.
Qed.

Section Finds.

Variable rules : Rules.

(** The rule the do-while loop ends with, if nothing stops it before. *)
Fixpoint final_rule (r : Rule) (later : list jsstring) : option Rule :=
  match later with
  | [] => Some r
  | next :: later' =>
      match lookup next (named rules) with
      | Some nextRule => final_rule nextRule later'
      | None => None
      end
  end.

(** As long as there is no match, the quality is still [NaN]. *)
Definition no_quality_yet (best : Best) : Prop :=
  bestMatch best = None -> bestQuality best = None.

Lemma tryRule_no_quality_yet source st t r best :
  no_quality_yet best -> no_quality_yet (tryRule source st t r best).
Proof.
  intro H. rewrite tryRule_eq. destruct (match_of r source st); [|exact H].
  destruct (beats _ _); [|exact H]. intro H0. discriminate.
Qed.

Lemma tryRule_keeps_match source st t r best :
  bestMatch best <> None -> bestMatch (tryRule source st t r best) <> None.
Proof.
  intro H. rewrite tryRule_eq. destruct (match_of r source st); [|exact H].
  destruct (beats _ _); [discriminate|exact H].
Qed.

Lemma tryRule_finds source st t r best :
  no_quality_yet best -> match_of r source st <> None ->
  bestMatch (tryRule source st t r best) <> None.
Proof.
  intros H M. rewrite tryRule_eq. destruct (match_of r source st) as [cap|]; [|contradiction].
  destruct (bestMatch best) eqn:B.
  - destruct (beats _ _); [discriminate|]. rewrite B. discriminate.
  - rewrite (H B). cbn [beats]. discriminate.
Qed.

(** The loop ends with a match when the last rule matches. *)
Lemma ruleLoop_finds source st later :
  forall t r best rf,
    no_quality_yet best ->
    final_rule r later = Some rf ->
    match_of rf source st <> None ->
    bestMatch (ruleLoop rules source st t r later best) <> None.
Proof.
  induction later as [|next later IH]; intros t r best rf Hb F M;
    cbn [ruleLoop final_rule] in *.
  - apply some_inv in F. subst rf. now apply tryRule_finds.
  - destruct (lookup next (named rules)) as [nextRule|]; [|discriminate].
    destruct (bestMatch (tryRule source st t r best)) eqn:B; cbn [orb].
    + destruct (_ && _).
      * eapply IH; eauto. now apply tryRule_no_quality_yet.
      * rewrite B. discriminate.
    + eapply IH; eauto. now apply tryRule_no_quality_yet.
Qed.

End Finds.

Lemma default_final_rule :
  final_rule defaultRules.all defaultRules.heading (List.tl (ruleList defaultRules.all))
  = Some defaultRules.text.
Proof. rewrite default_rule_list. reflexivity. Qed.

(** The match of the text rule comes last in the default rules, and it
    matches every source that is not empty (the error message of the
    dispatcher asks for just that: the rule with the highest order should
    always match).  So for a source that is not empty the dispatcher
    chooses a rule of the default rules, in every state: a round throws
    neither for want of a matching rule nor for a capture that does not
    start at index 0. *)
Theorem default_rules_always_choose (source : jsstring) (st : State) :
  source <> [] ->
  exists t r cap,
    pickRule defaultRules.all source st = Ok (t, r, cap)
    /\ match_of r source st = Some cap
    /\ index cap = 0.
Proof.
  intro Hne. destruct source as [|a s]; [contradiction|].
  pose proof (@ruleLoop_finds defaultRules.all (a :: s) st
                (List.tl (ruleList defaultRules.all)) (str "heading")
                defaultRules.heading no_best defaultRules.text) as F.
  assert (B : bestMatch (ruleLoop defaultRules.all (a :: s) st (str "heading")
                           defaultRules.heading (List.tl (ruleList defaultRules.all))
                           no_best) <> None).
  { apply F.
    - intros _. reflexivity.
    - apply default_final_rule.
    - destruct (text_matches a s) as [cap [E _]].
      unfold match_of, defaultRules.text, defaultRules.rule, anyScopeRegex. cbn [rmatch].
      rewrite E. discriminate. }
  destruct (pickRule defaultRules.all (a :: s) st) as [[[t r] cap]|e] eqn:P.
  - exists t, r, cap. split; [reflexivity|]. eapply pickRule_is_match; eauto.
  - exfalso. rewrite pickRule_default in P.
    destruct (bestMatch _) as [[[t r] cap]|] eqn:E; [|contradiction].
    assert (Hm : match_of r (a :: s) st = Some cap).
    { eapply ruleLoop_is_match; [|exact E]. intros ? ? ? H0. discriminate. }
    assert (Hin : exists name, In (name, r) (named defaultRules.all)).
    { eapply ruleLoop_from_table; [| |exact E].
      - exists (str "heading"). left. reflexivity.
      - intros ? ? ? H0. discriminate. }
    destruct Hin as [name Hin].
    rewrite (@default_rules_anchored name r Hin _ _ _ Hm) in P. discriminate.
Qed.

Lemma default_rules_always_choose_witness :
  exists t r cap,
    pickRule defaultRules.all (str "*") empty_state = Ok (t, r, cap)
    /\ match_of r (str "*") empty_state = Some cap
    /\ index cap = 0.
Proof. apply default_rules_always_choose. discriminate. Defined.

(** ** The preprocessor, code unit by code unit *)

(** What [preprocess] does with one code unit once the line ends are
    line feeds: a form feed goes, a tab becomes four spaces. *)
Definition expand_unit (a : N) : jsstring :=
  if N.eqb a FF then [] else if N.eqb a TAB then str "    " else [a].

Lemma flat_map_flat_map {A B C} (f : B -> list C) (g : A -> list B) l :
  flat_map f (flat_map g l) = flat_map (fun a => flat_map f (g a)) l.
Proof.
  induction l as [|a l IH]; [reflexivity|].
  cbn [flat_map]. now rewrite flat_map_app, IH.
Qed.

Lemma single_class_mem x a :
  cs_mem false {| negated := false; items := [CRange x x] |} a = N.eqb a x.
Proof.
  unfold cs_mem, items_mem. cbn [negated items existsb item_mem andb].
  now rewrite in_range_single, !orb_false_r.
Qed.

Lemma preprocess_units s : preprocess s = flat_map expand_unit (line_ends s).
Proof.
  unfold preprocess. rewrite replace_line_ends.
  change TAB_R with (class_regexp {| negated := false; items := [CRange 9 9] |} true false).
  change FORMFEED_R with (class_regexp {| negated := false; items := [CRange 12 12] |} true false).
  rewrite (@replace_class _ false (const_str (str "    ")) (fun _ => str "    ")) by reflexivity.
  rewrite (@replace_class _ false (const_str []) (fun _ => [])) by reflexivity.
  unfold replace_each. rewrite flat_map_flat_map. apply flat_map_ext. intro a.
  rewrite !single_class_mem. unfold expand_unit.
  change FF with 12%N. change TAB with 9%N.
  destruct (N.eqb_spec a 12) as [->|H12]; [reflexivity|].
  cbn [flat_map]. rewrite single_class_mem, app_nil_r. reflexivity.
Qed.

(** A code unit that the preprocessor leaves alone. *)
Definition plain_unit (a : N) : bool :=
  negb (N.eqb a CR) && negb (N.eqb a FF) && negb (N.eqb a TAB).

Lemma line_ends_no_carriage_return n :
  forall s, List.length s <= n -> forallb (fun a => negb (N.eqb a CR)) (line_ends s) = true.
Proof.
  induction n as [|n IH]; intros s Hn.
  - destruct s; [reflexivity|cbn in Hn; lia].
  - destruct s as [|a tl]; [reflexivity|]. cbn [List.length] in Hn. cbn [line_ends].
    destruct (N.eqb a CR) eqn:Ea.
    + destruct tl as [|b tl']; [reflexivity|].
      cbn [forallb]. change (negb (N.eqb LF CR)) with true. cbn [andb].
      destruct (N.eqb b LF); apply IH; cbn [List.length] in *; lia.
    + cbn [forallb]. rewrite Ea. cbn [negb andb]. apply IH. lia.
Qed.

Lemma line_ends_plain s :
  forallb (fun a => negb (N.eqb a CR)) s = true -> line_ends s = s.
Proof.
  induction s as [|a s IH]; [reflexivity|]. cbn [forallb line_ends].
  intro H. apply andb_prop in H. destruct H as [Ha Hs].
  destruct (N.eqb a CR); [discriminate|]. now rewrite IH.
Qed.

Lemma forallb_flat_map {A B} (f : B -> bool) (g : A -> list B) l :
  (forall a, forallb f (g a) = true) -> forallb f (flat_map g l) = true.
Proof.
  intro H. induction l as [|a l IH]; [reflexivity|].
  cbn [flat_map]. now rewrite forallb_app, H, IH.
Qed.

Lemma flat_map_plain (s : jsstring) :
  forallb plain_unit s = true -> flat_map expand_unit s = s.
Proof.
  induction s as [|a s IH]; [reflexivity|]. cbn [forallb flat_map].
  intro H. apply andb_prop in H. destruct H as [Ha Hs]. rewrite (IH Hs).
  unfold plain_unit in Ha. unfold expand_unit.
  destruct (N.eqb a FF); [rewrite andb_false_r in Ha; discriminate|].
  destruct (N.eqb a TAB); [rewrite andb_false_r in Ha; discriminate|]. reflexivity.
Qed.

Lemma forallb_weaken {A} (f g : A -> bool) l :
  (forall a, f a = true -> g a = true) -> forallb f l = true -> forallb g l = true.
Proof.
  intro H. induction l as [|a l IH]; [reflexivity|]. cbn [forallb].
  intro E. apply andb_prop in E. destruct E as [Ea El]. now rewrite (H _ Ea), IH.
Qed.

Lemma preprocess_plain_units s : forallb plain_unit (preprocess s) = true.
Proof.
  rewrite preprocess_units.
  pose proof (@line_ends_no_carriage_return (List.length s) s (le_n _)) as H.
  induction (line_ends s) as [|a l IH]; [reflexivity|].
  cbn [forallb flat_map] in *. apply andb_prop in H. destruct H as [Ha Hl].
  rewrite forallb_app, (IH Hl), andb_true_r.
  unfold expand_unit, plain_unit.
  destruct (N.eqb a FF) eqn:Ef; [reflexivity|].
  destruct (N.eqb a TAB) eqn:Et; [reflexivity|].
  cbn [forallb]. now rewrite Ha, Ef, Et.
Qed.

(** The text that [preprocess] gives holds no carriage return, no form
    feed and no tab, whatever the source. *)
Theorem preprocess_leaves_no_control (s : jsstring) :
  forallb (fun a => negb (N.eqb a CR) && negb (N.eqb a FF) && negb (N.eqb a TAB))
    (preprocess s) = true.
Proof. exact (preprocess_plain_units s). Qed.

(** [preprocess] leaves a text without carriage returns, form feeds and
    tabs as it is, so preprocessing twice is preprocessing once. *)
Theorem preprocess_idempotent (s : jsstring) :
  (forallb plain_unit s = true -> preprocess s = s)
  /\ preprocess (preprocess s) = preprocess s.
Proof.
  assert (P : forall x, forallb plain_unit x = true -> preprocess x = x).
  { intros x H. rewrite preprocess_units, line_ends_plain.
    - now apply flat_map_plain.
    - revert H. apply forallb_weaken. intros a Ha. unfold plain_unit in Ha.
      destruct (N.eqb a CR); [discriminate|reflexivity]. }
  split; [apply P|]. apply P, preprocess_plain_units.
Qed.

(** [preprocess] as a pass over the code units: a carriage return with
    the line feed after it, if there is one, becomes one line feed, a form
    feed is dropped, a tab becomes four spaces, and every other code unit
    stays. *)
Theorem preprocess_by_code_unit (s : jsstring) :
  preprocess s = flat_map expand_unit (line_ends s).
Proof. exact (preprocess_units s). Qed.

(** ** What sanitizeText gives *)

Lemma entity_of_escaped a :
  is_escaped_char a = true ->
  entity [a] = str "&lt;" \/ entity [a] = str "&gt;" \/ entity [a] = str "&amp;"
  \/ entity [a] = str "&quot;" \/ entity [a] = str "&#x27;".
Proof.
  unfold is_escaped_char. intro H.
  destruct (N.eqb a 60) eqn:E1; [apply N.eqb_eq in E1; subst a; left; reflexivity|].
  destruct (N.eqb a 62) eqn:E2; [apply N.eqb_eq in E2; subst a; right; left; reflexivity|].
  destruct (N.eqb a 38) eqn:E3;
    [apply N.eqb_eq in E3; subst a; right; right; left; reflexivity|].
  destruct (N.eqb a 34) eqn:E4;
    [apply N.eqb_eq in E4; subst a; right; right; right; left; reflexivity|].
  destruct (N.eqb a 39) eqn:E5;
    [apply N.eqb_eq in E5; subst a; right; right; right; right; reflexivity|].
  discriminate.
Qed.

(** A code unit that can open or close a tag or an attribute value. *)
Definition is_markup_char (c : N) : bool :=
  N.eqb c 60 || N.eqb c 62 || N.eqb c 34 || N.eqb c 39.

Lemma sanitizeText_no_markup (s : jsstring) :
  forallb (fun c => negb (is_markup_char c)) (sanitizeText (VStr s)) = true.
Proof.
  rewrite sanitizeText_each. unfold replace_each. apply forallb_flat_map. intro a.
  destruct (is_escaped_char a) eqn:E.
  - destruct (entity_of_escaped a E) as [H|[H|[H|[H|H]]]]; rewrite H; reflexivity.
  - cbn [forallb]. rewrite andb_true_r. unfold is_escaped_char in E. unfold is_markup_char.
    destruct (N.eqb a 60); [discriminate|].
    destruct (N.eqb a 62); [discriminate|].
    destruct (N.eqb a 38); cbn [orb] in *; [discriminate|].
    destruct (N.eqb a 34); [discriminate|].
    destruct (N.eqb a 39); [discriminate|]. reflexivity.
Qed.

(** The text that [sanitizeText] gives holds no angle bracket and no
    quote, single or double, whatever the string: every one of them has
    become an entity. *)
Theorem sanitizeText_leaves_no_markup (s : jsstring) :
  forallb (fun c => negb (is_markup_char c)) (sanitizeText (VStr s)) = true.
Proof. exact (sanitizeText_no_markup s). Qed.

(** [sanitizeText] works code unit by code unit: the sanitized text of
    two strings one after the other is their sanitized texts one after
    the other, and a string with none of the five characters that
    [SANITIZE_TEXT_R] matches comes back as it is. *)
Theorem sanitizeText_by_code_unit (a b : jsstring) :
  sanitizeText (VStr (a ++ b)) = sanitizeText (VStr a) ++ sanitizeText (VStr b)
  /\ (forallb (fun c => negb (is_escaped_char c)) a = true -> sanitizeText (VStr a) = a).
Proof.
  rewrite !sanitizeText_each. unfold replace_each. split; [apply flat_map_app|].
  induction a as [|x a IH]; [reflexivity|]. cbn [forallb flat_map].
  intro H. apply andb_prop in H. destruct H as [Hx Ha].
  destruct (is_escaped_char x); [discriminate|]. now rewrite (IH Ha).
Qed.

(** ** unescapeUrl *)

Definition BACKSLASH : N := 92%N.

(** A code unit that a backslash escapes: not a digit, not a letter of
    [A-Za-z], not white space. *)
Definition is_escapable (c : N) : bool :=
  negb (in_range 48 57 c
        || (in_range 65 90 c || (in_range 97 122 c || is_space c))).

Definition escapable_class : charset :=
  Eval vm_compute in
    match pattern UNESCAPE_URL_R with
    | RSeq _ (RGroup _ (RChar cs)) => cs
    | _ => {| negated := false; items := [] |}
    end.

Lemma escapable_class_mem c : cs_mem false escapable_class c = is_escapable c.
Proof.
  unfold cs_mem, items_mem, escapable_class, is_escapable, is_space, in_ranges, space_ranges.
  cbn [negated items existsb item_mem andb fst snd].
  rewrite !orb_false_r. reflexivity.
Qed.

Lemma match_at_escape i pv s :
  match_at UNESCAPE_URL_R {| idx := i; prev := pv; rest := s |}
  = match s with
    | a :: c :: tl =>
        if N.eqb a BACKSLASH && is_escapable c
        then Some ({| index := i; captures := [Some [a; c]; Some [c]] |},
                   {| idx := S (S i); prev := Some c; rest := tl |})
        else None
    | _ => None
    end.
Proof.
  unfold match_at.
  change (pattern UNESCAPE_URL_R)
    with (RSeq (RChar {| negated := false; items := [CRange 92 92] |})
               (RGroup 1 (RChar escapable_class))).
  change (ignoreCase UNESCAPE_URL_R) with false.
  change (multiline UNESCAPE_URL_R) with false.
  change (ngroups UNESCAPE_URL_R) with 1.
  rewrite m_seq. destruct s as [|a tl]; [reflexivity|].
  rewrite m_char, single_class_mem. change 92%N with BACKSLASH.
  destruct (N.eqb a BACKSLASH); [|destruct tl; reflexivity].
  rewrite m_group. destruct tl as [|c tl]; [reflexivity|].
  rewrite m_char, escapable_class_mem. cbn [andb].
  destruct (is_escapable c); [|reflexivity].
  cbn -[Nat.sub firstn]. replace (S (S i) - i) with 2 by lia.
  replace (S (S i) - S i) with 1 by lia. reflexivity.
Qed.

(** [rawUrlString.replace(UNESCAPE_URL_R, '$1')], left to right. *)
Fixpoint unescape (s : jsstring) : jsstring :=
  match s with
  | [] => []
  | a :: tl =>
      match tl with
      | c :: tl' =>
          if N.eqb a BACKSLASH && is_escapable c then c :: unescape tl'
          else a :: unescape tl
      | [] => [a]
      end
  end.

Lemma unescape_from n :
  forall s pre pv fuel,
    List.length s <= n ->
    List.length s < fuel ->
    splice (pre ++ s) (List.length pre)
      (matches_from fuel UNESCAPE_URL_R
         {| idx := List.length pre; prev := pv; rest := s |}) (group 1)
    = unescape s.
Proof.
  induction n as [|n IH]; intros s pre pv fuel Hn Hfuel;
    (destruct fuel as [|fuel]; [lia|]).
  - destruct s; [|cbn in Hn; lia].
    cbn [matches_from search_from idx prev rest]. rewrite match_at_escape.
    cbn [splice unescape]. apply skipn_middle.
  - destruct s as [|a tl].
    + cbn [matches_from search_from idx prev rest]. rewrite match_at_escape.
      cbn [splice unescape]. apply skipn_middle.
    + cbn [List.length] in Hn, Hfuel.
      cbn [matches_from search_from idx prev rest]. rewrite match_at_escape.
      assert (Skip : forall tl0, tl0 = tl ->
                splice (pre ++ a :: tl) (List.length pre)
                  match search_from UNESCAPE_URL_R (S (List.length pre)) (Some a) tl0 with
                  | Some (mt, p') =>
                      (mt, p')
                      :: match (if Nat.eqb (idx p') (index mt)
                                then match rest p' with
                                     | [] => None
                                     | _ :: _ => Some (advance 1 p')
                                     end
                                else Some p') with
                         | Some q => matches_from fuel UNESCAPE_URL_R q
                         | None => []
                         end
                  | None => []
                  end (group 1)
                = a :: unescape tl).
      { intros tl0 ->.
        assert (Hpre : pre ++ a :: tl = (pre ++ [a]) ++ tl)
          by (rewrite <- app_assoc; reflexivity).
        assert (Hlen : List.length (pre ++ [a]) = S (List.length pre))
          by (rewrite length_app; cbn; lia).
        specialize (IH tl (pre ++ [a]) (Some a) (S fuel) ltac:(lia) ltac:(lia)).
        rewrite Hlen in IH. cbn [matches_from idx prev rest] in IH.
        rewrite <- Hpre in IH. rewrite <- IH.
        destruct (search_from UNESCAPE_URL_R (S (List.length pre)) (Some a) tl)
          as [[mt p']|] eqn:S1.
        - apply splice_skip; [apply nth_error_middle|].
          intros mt0 p0 H0. cbn [hd_error] in H0. inversion H0; subst.
          now apply search_from_index in S1.
        - apply splice_skip; [apply nth_error_middle|]. intros ? ? H0. discriminate. }
      destruct tl as [|c tl'].
      * rewrite (Skip [] eq_refl). reflexivity.
      * cbn [unescape].
        destruct (N.eqb a BACKSLASH && is_escapable c) eqn:E.
        -- cbn [idx index rest].
           replace (Nat.eqb (S (S (List.length pre))) (List.length pre)) with false
             by (symmetry; apply Nat.eqb_neq; lia).
           cbn [splice index idx]. rewrite Nat.sub_diag. cbn [firstn app].
           unfold group at 1, capture. cbn [captures nth app]. f_equal.
           replace (pre ++ a :: c :: tl') with ((pre ++ [a; c]) ++ tl')
             by (rewrite <- app_assoc; reflexivity).
           replace (S (S (List.length pre))) with (List.length (pre ++ [a; c]))
             by (rewrite length_app; cbn; lia).
           apply IH; cbn [List.length] in *; lia.
        -- apply (Skip (c :: tl') eq_refl).
Qed.

Lemma unescapeUrl_unescape s : unescapeUrl s = unescape s.
Proof.
  unfold unescapeUrl, replace, all_matches. change (global UNESCAPE_URL_R) with true.
  cbv iota. apply (@unescape_from (List.length s) s [] None); lia.
Qed.

(** A backslash before every code unit that a backslash escapes. *)
Definition escape (s : jsstring) : jsstring :=
  flat_map (fun c => if is_escapable c then [BACKSLASH; c] else [c]) s.

(** [unescapeUrl] takes the backslash from before every punctuation
    mark or other code unit that is no digit, letter or white space,
    left to right, and so undoes [escape]: a target written with a
    backslash before each such code unit comes back as it was meant. *)
Theorem unescapeUrl_undoes_escape (s : jsstring) :
  unescapeUrl (escape s) = s.
Proof.
  rewrite unescapeUrl_unescape. induction s as [|c s IH]; [reflexivity|].
  unfold escape in *. cbn [flat_map].
  destruct (is_escapable c) eqn:E.
  - cbn [app unescape]. rewrite N.eqb_refl, E. cbn [andb]. now rewrite IH.
  - cbn [app unescape].
    assert (N.eqb c BACKSLASH = false) as ->.
    { destruct (N.eqb_spec c BACKSLASH) as [->|]; [|reflexivity]. discriminate E. }
    cbn [andb]. rewrite IH.
    destruct (flat_map _ s) eqn:F; [|reflexivity].
    rewrite <- IH. reflexivity.
Qed.

(** [unescapeUrl] leaves a string without a backslash as it is, and
    never gives a longer string than it got. *)
Theorem unescapeUrl_without_backslash (s : jsstring) :
  (forallb (fun c => negb (N.eqb c BACKSLASH)) s = true -> unescapeUrl s = s)
  /\ List.length (unescapeUrl s) <= List.length s.
Proof.
  rewrite unescapeUrl_unescape. split.
  - induction s as [|a s IH]; [reflexivity|]. cbn [forallb].
    intro H. apply andb_prop in H. destruct H as [Ha Hs]. cbn [unescape].
    destruct (N.eqb a BACKSLASH); [discriminate|]. cbn [andb].
    destruct s; [reflexivity|]. now rewrite (IH Hs).
  - assert (G : forall n x, List.length x <= n -> List.length (unescape x) <= List.length x).
    { induction n as [|n IH]; intros x Hx.
      - destruct x; [cbn; lia|cbn in Hx; lia].
      - destruct x as [|a [|c tl]]; [cbn; lia|cbn; lia|].
        cbn [List.length] in Hx.
        change (unescape (a :: c :: tl))
          with (if N.eqb a BACKSLASH && is_escapable c then c :: unescape tl
                else a :: unescape (c :: tl)).
        pose proof (IH tl ltac:(lia)) as I1.
        pose proof (IH (c :: tl) ltac:(cbn [List.length]; lia)) as I2.
        cbn [List.length] in I2.
        destruct (_ && _); cbn [List.length]; lia. }
    apply (G (List.length s)). lia.
Qed.

(** ** The order in which parserFor tries the rules *)

From Stdlib Require Import Permutation Sorted Lqa.

Section RuleOrder.

Variable rules : Rules.

(** The names of the rules that have a [match]. *)
Definition matching_names : list jsstring :=
  List.map fst
    (List.filter (fun kr => match rmatch (snd kr) with
                            | Some _ => true
                            | None => false
                            end) (named rules)).

Definition order_of (name : jsstring) : Q :=
  match lookup name (named rules) with
  | Some r => order r
  | None => 0
  end.

(** 0 for a rule with a [quality], 1 for one without. *)
Definition secondary_of (name : jsstring) : Z :=
  match lookup name (named rules) with
  | Some r => if has_quality r then 0%Z else 1%Z
  | None => 1%Z
  end.

(** [a] is tried no later than [b]: its order is lower, or the orders
    are equal and [b] has no quality function unless [a] has one. *)
Definition tried_before (a b : jsstring) : Prop :=
  (order_of a < order_of b)%Q
  \/ ((order_of a == order_of b)%Q /\ (secondary_of a <= secondary_of b)%Z).

Lemma tried_before_trans a b c :
  tried_before a b -> tried_before b c -> tried_before a c.
Proof.
  unfold tried_before. intros [H1|[H1 S1]] [H2|[H2 S2]].
  - left. lra.
  - left. lra.
  - left. lra.
  - right. split; [lra|lia].
Qed.

Lemma lookup_of_name name :
  In name (List.map fst (named rules)) -> lookup name (named rules) <> None.
Proof.
  induction (named rules) as [|[k r] rs IH]; cbn [List.map In lookup fst]; [tauto|].
  intros [->|H]; [rewrite str_eqb_refl; discriminate|].
  destruct (str_eqb name k); [discriminate|auto].
Qed.

Lemma matching_names_resolve name :
  In name matching_names -> lookup name (named rules) <> None.
Proof.
  intro H. apply lookup_of_name. unfold matching_names in H.
  apply in_map_iff in H. destruct H as [[k r] [E H]]. cbn in E. subst k.
  apply filter_In in H. destruct H as [H _].
  apply in_map_iff. exists (name, r). auto.
Qed.

Lemma compare_not_after y x :
  lookup y (named rules) <> None -> lookup x (named rules) <> None ->
  Qle_bool (compareRules rules y x) 0 = true -> tried_before y x.
Proof.
  unfold compareRules, tried_before, order_of, secondary_of.
  destruct (lookup y (named rules)) as [ry|]; [|contradiction].
  destruct (lookup x (named rules)) as [rx|]; [|contradiction].
  intros _ _. cbv zeta.
  destruct (Qeq_bool (order ry) (order rx)) eqn:E; cbn [negb].
  - apply Qeq_bool_iff in E. intro H. right. split; [exact E|].
    destruct (has_quality ry), (has_quality rx); cbn [negb Z.eqb] in H |- *; try lia.
    (* without and with a quality: the comparison is positive *)
    discriminate H.
  - intro H. apply Qle_bool_iff in H. left.
    assert (~ (order ry == order rx)%Q).
    { intro Q0. apply Qeq_bool_iff in Q0. congruence. }
    lra.
Qed.

Lemma compare_after y x :
  lookup y (named rules) <> None -> lookup x (named rules) <> None ->
  Qle_bool (compareRules rules y x) 0 = false -> tried_before x y.
Proof.
  unfold compareRules, tried_before, order_of, secondary_of.
  destruct (lookup y (named rules)) as [ry|]; [|contradiction].
  destruct (lookup x (named rules)) as [rx|]; [|contradiction].
  intros _ _. cbv zeta.
  destruct (Qeq_bool (order ry) (order rx)) eqn:E; cbn [negb].
  - apply Qeq_bool_iff in E. intro H. right. split; [symmetry; exact E|].
    destruct (has_quality ry), (has_quality rx); cbn [negb Z.eqb] in H |- *; try lia.
    discriminate H.
  - intro H. left.
    destruct (Qlt_le_dec (order rx) (order ry)) as [L|L]; [exact L|].
    assert (Qle_bool (order ry - order rx) 0 = true) by (apply Qle_bool_iff; lra).
    congruence.
Qed.

Lemma insert_sorted_perm cmp x l : Permutation (insert_sorted cmp x l) (x :: l).
Proof.
  induction l as [|y l IH]; cbn [insert_sorted]; [reflexivity|].
  destruct (Qle_bool (cmp y x) 0); [|reflexivity].
  rewrite IH. apply perm_swap.
Qed.

Lemma sort_by_perm cmp l : Permutation (sort_by cmp l) l.
Proof.
  unfold sort_by.
  assert (G : forall acc, Permutation (fold_left (fun acc x => insert_sorted cmp x acc) l acc)
                            (acc ++ l)).
  { induction l as [|x l IH]; intro acc; cbn [fold_left].
    - now rewrite app_nil_r.
    - rewrite IH, insert_sorted_perm. apply Permutation_middle. }
  apply (G []).
Qed.

Lemma insert_sorted_sorted x l :
  lookup x (named rules) <> None ->
  Forall (fun y => lookup y (named rules) <> None) l ->
  StronglySorted tried_before l ->
  StronglySorted tried_before (insert_sorted (compareRules rules) x l).
Proof.
  intros Hx Hl Hs. induction l as [|y l IH]; cbn [insert_sorted].
  - constructor; constructor.
  - inversion Hl as [|? ? Hy Hl']; subst. inversion Hs as [|? ? Hs' Hall]; subst.
    destruct (Qle_bool (compareRules rules y x) 0) eqn:E.
    + constructor; [now apply IH|].
      apply (Permutation_Forall (Permutation_sym (insert_sorted_perm _ x l))).
      constructor; [now apply compare_not_after|exact Hall].
    + pose proof (@compare_after y x Hy Hx E) as Hxy.
      constructor; [exact Hs|]. constructor; [exact Hxy|].
      revert Hall. apply Forall_impl. intros z Hz.
      eapply tried_before_trans; eauto.
Qed.

Lemma sort_by_sorted l :
  Forall (fun y => lookup y (named rules) <> None) l ->
  StronglySorted tried_before (sort_by (compareRules rules) l).
Proof.
  unfold sort_by.
  assert (G : forall acc,
             Forall (fun y => lookup y (named rules) <> None) acc ->
             StronglySorted tried_before acc ->
             Forall (fun y => lookup y (named rules) <> None) l ->
             StronglySorted tried_before
               (fold_left (fun acc x => insert_sorted (compareRules rules) x acc) l acc)).
  { induction l as [|x l IH]; intros acc Ha Hs Hl; cbn [fold_left]; [exact Hs|].
    inversion Hl as [|? ? Hx Hl']; subst. apply IH.
    - apply (Permutation_Forall (Permutation_sym (insert_sorted_perm _ x acc))).
      constructor; assumption.
    - now apply insert_sorted_sorted.
    - exact Hl'. }
  apply G; constructor.
Qed.

(** The list of rules that [parserFor] goes through holds the names of
    the rules that have a [match], each as often as the table has it, in
    an order in which a rule of lower [order] comes before one of higher
    [order], and among rules of one [order] those with a [quality]
    function come before those without: what the do-while loop of the
    dispatcher relies on. *)
Theorem ruleList_sorted :
  Permutation (ruleList rules) matching_names
  /\ StronglySorted tried_before (ruleList rules).
Proof.
  split; [apply sort_by_perm|].
  apply sort_by_sorted. apply Forall_forall. apply matching_names_resolve.
Qed.

End RuleOrder.

(** ** populateInitialState *)

Lemma has_false_get k o : has k o = false -> get k o = VUndef.
Proof.
  induction o as [|[k' v] o IH]; cbn [has get]; [reflexivity|].
  destruct (str_eqb k k'); [discriminate|exact IH].
Qed.





(** ** The scope a parse returns in *)

(** The rules switch [state.inline] on and off while they parse
    (headings and paragraphs parse their content inline, list items and
    tables set it as they need), and each puts it back: when a parse by
    the default rules returns, [state.inline] is truthy or falsy as it
    was in the state the parse began with. *)
Theorem default_parse_keeps_scope (fuel : nat) (source : jsstring)
    (state : option State) (nodes : list value) (state' : State) :
  defaultRawParse fuel source state = Ok (nodes, state') ->
  truthy (sget "inline" state') = truthy (sget "inline" (orEmptyState state)).
Proof.
  unfold defaultRawParse, parserFor, outerParse, nestedParse.
  change (populateInitialState state None) with (orEmptyState state).
  intro H. apply parseLoop_scoped in H. unfold scope_of in H. rewrite H.
  fold (scope_of (sset "prevCapture" VNull (orEmptyState state))).
  now rewrite scope_of_sset_other.
Qed.

Lemma default_parse_keeps_scope_witness :
  truthy (sget "inline" (parsed_with 8 list_and_reference_source client_state))
  = truthy (sget "inline"
              (orEmptyState (Some (sset "inline" (VBool false) client_state)))).
Proof.
  apply (@default_parse_keeps_scope 8 list_and_reference_source
           (Some (sset "inline" (VBool false) client_state))
           (parsed_nodes 8 list_and_reference_source client_state)).
  vm_compute. reflexivity.
Defined.

(** ** The list rule matches at the start of a line only *)

Lemma search_from_where R s :
  forall i pv mt p',
    search_from R i pv s = Some (mt, p') ->
    exists pre pv' s',
      s = pre ++ s'
      /\ match_at R {| idx := i + List.length pre; prev := pv'; rest := s' |} = Some (mt, p')
      /\ (pv' = None -> pre = []).
Proof.
  induction s as [|a s IH]; intros i pv mt p'; cbn [search_from].
  - destruct (match_at R _) as [x|] eqn:E; [|discriminate].
    intro H. inversion H; subst. exists [], pv, []. cbn. rewrite Nat.add_0_r. auto.
  - destruct (match_at R _) as [x|] eqn:E.
    + intro H. inversion H; subst. exists [], pv, (a :: s). cbn.
      rewrite Nat.add_0_r. auto.
    + intro H.
      assert (G : forall s0 i0 a0 mt0 p0,
                 search_from R i0 (Some a0) s0 = Some (mt0, p0) ->
                 exists pre pv' s',
                   s0 = pre ++ s'
                   /\ match_at R {| idx := i0 + List.length pre; prev := pv'; rest := s' |}
                      = Some (mt0, p0)
                   /\ pv' <> None).
      { clear. induction s0 as [|b s0 IH0]; intros i0 a0 mt0 p0; cbn [search_from].
        - destruct (match_at R _) as [x|] eqn:E; [|discriminate].
          intro H. inversion H; subst. exists [], (Some a0), []. cbn.
          rewrite Nat.add_0_r. repeat split; auto. discriminate.
        - destruct (match_at R _) as [x|] eqn:E.
          + intro H. inversion H; subst. exists [], (Some a0), (b :: s0). cbn.
            rewrite Nat.add_0_r. repeat split; auto. discriminate.
          + intro H. apply IH0 in H. destruct H as [pre [pv' [s' [Es [M N]]]]].
            exists (b :: pre), pv', s'. subst s0. split; [reflexivity|].
            cbn [List.length]. rewrite <- plus_n_Sm. auto. }
      apply G in H. destruct H as [pre [pv' [s' [Es [M N]]]]].
      exists (a :: pre), pv', s'. subst s. split; [reflexivity|].
      cbn [List.length]. rewrite <- plus_n_Sm. split; [exact M|].
      intro Z. contradiction.
Qed.

(** Where [LIST_LOOKBEHIND_R] matches: the text is spaces only, or ends
    in a line feed and spaces only. *)
Lemma lookbehind_line_start (t : jsstring) lb :
  exec LIST_LOOKBEHIND_R t = Some lb ->
  exists u, Forall (fun a => a = 32%N) u
            /\ (t = u \/ exists x, t = x ++ LF :: u).
Proof.
  unfold exec.
  destruct (search_from LIST_LOOKBEHIND_R 0 None t) as [[mt p']|] eqn:E; [|discriminate].
  intros _. apply search_from_where in E. destruct E as [pre [pv [s [Es [M Hpv]]]]].
  unfold match_at in M.
  change (pattern LIST_LOOKBEHIND_R)
    with (RSeq (RAlt RBol (RChar line_feed_class))
               (RSeq (RGroup 1 (RRep true 0 None (RChar space_class))) REol)) in M.
  change (ignoreCase LIST_LOOKBEHIND_R) with false in M.
  change (multiline LIST_LOOKBEHIND_R) with false in M.
  destruct (m _ _ _ _ _ _) as [[q c]|] eqn:E; [|discriminate]. clear M.
  rewrite m_seq, m_alt in E. apply orelse_some in E.
  assert (Tail : forall p1 c1,
             m false false (RSeq (RGroup 1 (RRep true 0 None (RChar space_class))) REol)
               p1 c1 final = Some (q, c) ->
             Forall (fun a => a = 32%N) (rest p1)).
  { intros p1 c1 E1. rewrite m_seq, m_group in E1.
    apply spaces_through in E1. destruct E1 as [p2 [c2 [E2 [u [Eu [_ Fu]]]]]].
    rewrite m_eol in E2. destruct (rest p2); [|discriminate].
    rewrite app_nil_r in Eu. now rewrite Eu. }
  destruct E as [E|E].
  - cbn [m] in E. unfold at_bol in E. cbn [prev andb] in E.
    destruct pv as [a|]; [discriminate|].
    rewrite (Hpv eq_refl) in Es. cbn [app] in Es.
    apply Tail in E. cbn [rest] in E. exists s. split; [exact E|]. left. exact Es.
  - destruct s as [|a tl]; [discriminate|].
    rewrite m_char, line_feed_class_mem in E. unfold is_line_feed in E.
    destruct (N.eqb_spec a LF) as [->|]; [|discriminate].
    apply Tail in E. cbn [rest] in E. exists tl. split; [exact E|].
    right. exists pre. exact Es.
Qed.

(** The capture of a list.  The list rule breaks into a list only at
    the start of a line and in a list or block scope: when it matches,
    [state._list] is truthy or [state.inline] falsy, and the text of the
    capture before is spaces only, or ends in a line feed followed by
    spaces only (so it does not match after a text such as the first two
    words of [hi * there]). *)
Theorem list_rule_needs_line_start (source : jsstring) (st : State) (cap : Match) :
  match_of defaultRules.list source st = Some cap ->
  truthy (sget "_list" st) || negb (truthy (sget "inline" st)) = true
  /\ exists u, Forall (fun a => a = 32%N) u
               /\ (prevCaptureStr st = u \/ exists x, prevCaptureStr st = x ++ LF :: u).
Proof.
  unfold match_of, defaultRules.list, defaultRules.rule. cbn [rmatch].
  destruct (exec LIST_LOOKBEHIND_R (prevCaptureStr st)) as [lb|] eqn:L; [|discriminate].
  destruct (_ || _); [|discriminate]. intros _. split; [reflexivity|].
  eapply lookbehind_line_start; eauto.
Qed.

(** A state in block scope after the capture of a heading line, and the
    capture of the list rule on a list of one item in that state. *)
Definition after_heading_state : State :=
  sset "prevCapture"
    (VCapture {| index := 0; captures := [ Some (str "# T" ++ [LF; LF]) ] |})
    (sset "inline" (VBool false) empty_state).

Definition one_item_capture : Match :=
  Eval vm_compute in
    match match_of defaultRules.list (str "- a" ++ [LF; LF]) after_heading_state with
    | Some cap => cap
    | None => {| index := 1; captures := [] |}
    end.

Lemma list_rule_needs_line_start_witness :
  truthy (sget "_list" after_heading_state)
  || negb (truthy (sget "inline" after_heading_state)) = true
  /\ exists u, Forall (fun a => a = 32%N) u
               /\ (prevCaptureStr after_heading_state = u
                   \/ exists x, prevCaptureStr after_heading_state = x ++ LF :: u).
Proof.
  apply (@list_rule_needs_line_start (str "- a" ++ [LF; LF]) after_heading_state
           one_item_capture).
  vm_compute. reflexivity.
Defined.

(** After the text [hi ] the list rule does not match [* there]. *)
Example no_list_in_mid_line :
  match_of defaultRules.list (str "* there")
    (sset "prevCapture" (VCapture {| index := 0; captures := [ Some (str "hi ") ] |})
       (sset "inline" (VBool false) empty_state))
  = None.
Proof. vm_compute. reflexivity. Qed.

(** ** Reference links and their definitions *)

Lemma has_set_same k v o : has k (set k v o) = true.
Proof.
  induction o as [|[k' v'] o IH]; cbn [set has].
  - now rewrite str_eqb_refl.
  - destruct (str_eqb k k') eqn:E; cbn [has]; [now rewrite str_eqb_refl|].
    now rewrite E, IH.
Qed.

(** [o[k] = v; o[k]] for an object or array [v], whatever the key (for
    the key [__proto__] the assignment sets the prototype, and the lookup
    reads it). *)
Lemma Dict_lookup_assign k v o :
  (exists d, v = VObj d) \/ (exists l, v = VArr l) ->
  Dict.lookup k (Dict.assign k v o) = v.
Proof.
  intro Hv. unfold Dict.lookup, Dict.assign.
  destruct (str_eqb k (str "__proto__")).
  - unfold Dict.prototype.
    destruct Hv as [[d ->]|[l ->]]; now rewrite has_set_same, get_set_same.
  - now rewrite has_set_same, get_set_same.
Qed.

(** The key that a reference link or image looks its definition up by. *)
Definition ref_key (capture : Match) : jsstring :=
  canonicalRef (if truthy (of_option (Regex.capture 2 capture))
                then group 2 capture else group 1 capture).

Lemma nth_error_end {A} (h : list A) x : nth_error (h ++ [x]) (List.length h) = Some x.
Proof. induction h; cbn; auto. Qed.

Lemma str_neq_by_eqb (a b : jsstring) : str_eqb a b = false -> a <> b.
Proof. intros E ->. now rewrite str_eqb_refl in E. Qed.

(** A definition that comes first.  When the parse of a definition is
    followed by the parse of a reference link or image with the same
    key (the text in the brackets, with runs of white space as one space
    and in lower case), and both parses return, the node of the
    reference gets the target and the title of the definition.  The
    parse of a reference does not return for a key that a plain object
    inherits, such as [constructor]: see [inherited_key_throws]. *)
Theorem definition_before_reference (capd capr : Match) (nested : Parser)
    (refNode : obj) (st st1 st2 : State) (v r : value) :
  parseDef capd nested st = Ok (v, st1) ->
  parseRef capr refNode st1 = Ok (r, st2) ->
  ref_key capr = canonicalRef (group 1 capd) ->
  exists a node,
    r = VRef a
    /\ nth_error (heap st2) a = Some (VObj node)
    /\ get (str "target") node = of_option (Regex.capture 2 capd)
    /\ get (str "title") node = of_option (Regex.capture 3 capd).
Proof.
  intros Hd Hr Hk. unfold parseDef in Hd.
  destruct (if truthy (sget "_refs" st) && _ then _ else _) as [h|]; [|discriminate].
  destruct (orEmptyObject (sget "_defs" st)) as [| | | | | |defsObj| | |]; try discriminate.
  inversion Hd; subst v st1. clear Hd.
  match type of Hr with
  | parseRef _ _ ?s = _ =>
      assert (D : sget "_defs" s
                  = VObj (Dict.assign (canonicalRef (group 1 capd))
                            (VObj [ field "target" (of_option (Regex.capture 2 capd));
                                    field "title" (of_option (Regex.capture 3 capd)) ])
                            defsObj))
        by (unfold sget; cbn [fields]; apply get_set_same)
  end.
  unfold parseRef in Hr. cbv zeta in Hr. fold (ref_key capr) in Hr.
  rewrite Hk, D in Hr. cbn [truthy andb Dict.index] in Hr.
  rewrite Dict_lookup_assign in Hr by (left; eauto).
  cbn [truthy prop heap] in Hr.
  destruct (orEmptyObject _) as [| | | | | |refsObj| | |]; try discriminate.
  destruct (if truthy (Dict.lookup _ refsObj) then _ else _); try discriminate.
  inversion Hr; subst r st2. clear Hr. cbn [heap].
  eexists. eexists. split; [reflexivity|]. split; [apply nth_error_end|].
  split.
  - rewrite get_set_other by (apply str_neq_by_eqb; reflexivity).
    rewrite get_set_same. reflexivity.
  - rewrite get_set_same. reflexivity.
Qed.

Lemma patchRef_length t ti a h : List.length (patchRef t ti a h) = List.length h.
Proof.
  unfold patchRef. destruct (nth_error h a) as [[]|] eqn:E; try reflexivity.
  assert (a < List.length h) by (apply nth_error_Some; congruence).
  rewrite length_app. cbn [List.length]. rewrite length_firstn, length_skipn. lia.
Qed.

Lemma patchRef_same t ti a h o :
  nth_error h a = Some (VObj o) ->
  nth_error (patchRef t ti a h) a
  = Some (VObj (set (str "title") ti (set (str "target") t o))).
Proof.
  intro E. unfold patchRef. rewrite E.
  assert (L : a < List.length h) by (apply nth_error_Some; congruence).
  rewrite nth_error_app2 by (rewrite length_firstn; lia).
  rewrite length_firstn. replace (a - Nat.min a (List.length h)) with 0 by lia.
  reflexivity.
Qed.

Lemma patchRef_object t ti b h a o :
  nth_error h a = Some (VObj o) ->
  exists o', nth_error (patchRef t ti b h) a = Some (VObj o').
Proof.
  intro E. destruct (Nat.eq_dec b a) as [->|N].
  - rewrite (patchRef_same _ _ _ _ E). eauto.
  - unfold patchRef. destruct (nth_error h b) as [[]|] eqn:Eb; eauto.
    assert (L : b < List.length h) by (apply nth_error_Some; congruence).
    destruct (Nat.lt_ge_cases a b) as [Lt|Ge].
    + rewrite nth_error_app1 by (rewrite length_firstn; lia).
      rewrite nth_error_firstn. 
      destruct (Nat.ltb_spec a b); [eauto|lia].
    + rewrite nth_error_app2 by (rewrite length_firstn; lia).
      rewrite length_firstn. replace (a - Nat.min b (List.length h)) with (S (a - S b)) by lia.
      cbn [nth_error]. rewrite nth_error_skipn.
      replace (S b + (a - S b)) with a by lia. eauto.
Qed.

Lemma patch_all_object t ti nodes :
  forall h a o,
    nth_error h a = Some (VObj o) ->
    exists o',
      nth_error (fold_left (fun h node => match node with
                                          | VRef b => patchRef t ti b h
                                          | _ => h
                                          end) nodes h) a = Some (VObj o').
Proof.
  induction nodes as [|node nodes IH]; intros h a o E; cbn [fold_left]; [eauto|].
  destruct node; try (eapply IH; eauto; fail).
  destruct (patchRef_object t ti a0 h a E) as [o' E']. eapply IH; eauto.
Qed.

(** A reference that comes first.  When the parse of a reference link
    or image is followed by the parse of a definition with the same key,
    the definition writes its target and its title into the node that the
    reference returned. *)
Theorem reference_before_definition (capd capr : Match) (nested : Parser)
    (refNode : obj) (st st1 st2 : State) (v r : value) :
  parseRef capr refNode st = Ok (r, st1) ->
  parseDef capd nested st1 = Ok (v, st2) ->
  ref_key capr = canonicalRef (group 1 capd) ->
  exists a node,
    r = VRef a
    /\ nth_error (heap st2) a = Some (VObj node)
    /\ get (str "target") node = of_option (Regex.capture 2 capd)
    /\ get (str "title") node = of_option (Regex.capture 3 capd).
Proof.
  intros Hr Hd Hk. unfold parseRef in Hr. fold (ref_key capr) in Hr.
  destruct (orEmptyObject (sget "_refs" st)) as [| | | | | |refsObj| | |]; try discriminate.
  destruct (if truthy (Dict.lookup _ refsObj) then _ else _) as [| | | | |nodes| | | |];
    try discriminate.
  inversion Hr; subst r st1. clear Hr.
  match type of Hd with
  | parseDef _ _ ?s = _ =>
      assert (D : sget "_refs" s
                  = VObj (Dict.assign (ref_key capr)
                            (VArr (nodes ++ [VRef (List.length (heap st))])) refsObj))
        by (unfold sget; cbn [fields]; apply get_set_same)
  end.
  unfold parseDef in Hd. cbv zeta in Hd. rewrite <- Hk, D in Hd.
  cbn [truthy andb Dict.index] in Hd.
  rewrite Dict_lookup_assign in Hd by (right; eauto).
  cbn [truthy heap] in Hd.
  destruct (orEmptyObject _) as [| | | | | |defsObj| | |]; try discriminate.
  inversion Hd; subst v st2. clear Hd. cbn [heap].
  rewrite fold_left_app. cbn [fold_left].
  match goal with
  | |- context [patchRef ?t ?ti ?a (fold_left ?f nodes ?h)] =>
      destruct (@patch_all_object t ti nodes h a _ (nth_error_end _ _)) as [o' E]
  end.
  eexists. eexists. split; [reflexivity|].
  split; [apply (patchRef_same _ _ _ _ E)|].
  split.
  - rewrite get_set_other by (apply str_neq_by_eqb; reflexivity).
    rewrite get_set_same. reflexivity.
  - rewrite get_set_same. reflexivity.
Qed.

(** The captures of the definition [[Y  z]: http://e.com (T)] and of the
    reference link [[x][y Z]], and what their parses give, in both
    orders. *)
Definition definition_capture : Match :=
  Eval vm_compute in
    match exec defaultRules.DEF_R (str "[Y  z]: http://e.com (T)" ++ [LF]) with
    | Some cap => cap
    | None => {| index := 1; captures := [] |}
    end.

Definition reference_capture : Match :=
  Eval vm_compute in
    match exec defaultRules.REFLINK_R (str "[x][y Z]") with
    | Some cap => cap
    | None => {| index := 1; captures := [] |}
    end.

Definition no_parser : Parser := fun _ => ret [].

Definition run {A} (x : M A) (fallback : A) (st : State) : A * State :=
  match x st with
  | Ok r => r
  | Throw _ => (fallback, st)
  end.

Definition link_node : obj := [ field "type" (VStr (str "link")) ].

Definition after_definition : value * State :=
  run (parseDef definition_capture no_parser) VUndef empty_state.
Definition reference_after_definition : value * State :=
  run (parseRef reference_capture link_node) VUndef (snd after_definition).

Definition after_reference : value * State :=
  run (parseRef reference_capture link_node) VUndef empty_state.
Definition definition_after_reference : value * State :=
  run (parseDef definition_capture no_parser) VUndef (snd after_reference).

Lemma definition_before_reference_witness :
  exists a node,
    fst reference_after_definition = VRef a
    /\ nth_error (heap (snd reference_after_definition)) a = Some (VObj node)
    /\ get (str "target") node = of_option (Regex.capture 2 definition_capture)
    /\ get (str "title") node = of_option (Regex.capture 3 definition_capture).
Proof.
  apply (@definition_before_reference definition_capture reference_capture no_parser
           link_node empty_state (snd after_definition)
           (snd reference_after_definition) (fst after_definition)
           (fst reference_after_definition)).
  - vm_compute. reflexivity.
  - vm_compute. reflexivity.
  - vm_compute. reflexivity.
Defined.

Lemma reference_before_definition_witness :
  exists a node,
    fst after_reference = VRef a
    /\ nth_error (heap (snd definition_after_reference)) a = Some (VObj node)
    /\ get (str "target") node = of_option (Regex.capture 2 definition_capture)
    /\ get (str "title") node = of_option (Regex.capture 3 definition_capture).
Proof.
  apply (@reference_before_definition definition_capture reference_capture no_parser
           link_node empty_state (snd after_reference)
           (snd definition_after_reference) (fst definition_after_reference)
           (fst after_reference)).
  - vm_compute. reflexivity.
  - vm_compute. reflexivity.
  - vm_compute. reflexivity.
Defined.

(** Both orders end with the target and the title in the node. *)
Example reference_resolved :
  nth_error (heap (snd reference_after_definition)) 0
  = Some (VObj [ field "type" (VStr (str "link"));
                 field "target" (VStr (str "http://e.com"));
                 field "title" (VStr (str "T")) ])
  /\ nth_error (heap (snd definition_after_reference)) 0
     = nth_error (heap (snd reference_after_definition)) 0.
Proof. split; vm_compute; reflexivity. Qed.

(** For a key that every plain object inherits, [state._refs[ref]] is
    not an array and has no [push]: [parseRef] throws. *)
Definition inherited_reference_capture : Match :=
  Eval vm_compute in
    match exec defaultRules.REFLINK_R (str "[x][Constructor]") with
    | Some cap => cap
    | None => {| index := 1; captures := [] |}
    end.

Example inherited_key_throws :
  ref_key inherited_reference_capture = str "constructor"
  /\ parseRef inherited_reference_capture link_node empty_state = Throw TypeError
  /\ parseRef inherited_reference_capture link_node (snd after_definition)
     = Throw TypeError.
Proof. repeat split; vm_compute; reflexivity. Qed.


(** ** The html of an array of nodes *)

Definition is_string (v : value) : bool :=
  match v with
  | VStr _ => true
  | _ => false
  end.

(** Every text node of the array has a string for its content. *)
Definition text_is_string (arr : list value) : bool :=
  forallb (fun node => negb (is_text node) || is_string (prop "content" node)) arr.

Lemma rbind_ok {A} (x : result A) : rbind x (fun a => Ok a) = x.
Proof. destruct x; reflexivity. Qed.

Section ArrayHtml.

Variable output : Output.
Variable state : State.

(** The renderer gives a text node the sanitized text of its content,
    as the [html] of the text rule does. *)
Hypothesis output_text :
  forall node, is_text node = true ->
  output node state = Ok (sanitizeText (prop "content" node)).

Definition pending_text (pending : option value) : jsstring :=
  match pending with
  | Some content => sanitizeText content
  | None => []
  end.

Lemma flushText_text pending :
  flushText pending output state = Ok (pending_text pending).
Proof.
  destruct pending as [content|]; [|reflexivity]. cbn [flushText pending_text].
  rewrite output_text by reflexivity. reflexivity.
Qed.

Lemma sanitizeText_app (a b : jsstring) :
  sanitizeText (VStr (a ++ b)) = sanitizeText (VStr a) ++ sanitizeText (VStr b).
Proof. rewrite !sanitizeText_each. apply flat_map_app. Qed.

(** The text gathered so far is a string. *)
Definition pending_string (pending : option value) : Prop :=
  match pending with
  | Some content => is_string content = true
  | None => True
  end.

Lemma arrayHtmlLoop_joins arr :
  text_is_string arr = true ->
  forall pending i,
    pending_string pending ->
    arrayHtmlLoop arr pending output state
    = rbind (mapJoin (fun _ node => output node state) i arr)
        (fun r => Ok (pending_text pending ++ r)).
Proof.
  induction arr as [|node arr IH]; intros Hs pending i Hp;
    cbn [arrayHtmlLoop mapJoin rbind].
  - rewrite flushText_text, app_nil_r. reflexivity.
  - cbn [text_is_string forallb] in Hs. apply andb_prop in Hs. destruct Hs as [Hn Hs].
    destruct (is_text node) eqn:T.
    + cbn [negb orb] in Hn.
      destruct (prop "content" node) as [| | | |s| | | | |] eqn:C; try discriminate Hn.
      rewrite (output_text _ T), C. cbn [rbind].
      destruct pending as [content|].
      * cbn [pending_string] in Hp. destruct content as [| | | |p| | | | |]; try discriminate Hp.
        rewrite (IH Hs _ (S i)) by reflexivity.
        destruct (mapJoin _ (S i) arr) as [r|e]; [|reflexivity].
        cbn [rbind pending_text].
        change (js_add (VStr p) (VStr s)) with (VStr (p ++ s)).
        now rewrite sanitizeText_app, app_assoc.
      * rewrite (IH Hs _ (S i)) by reflexivity.
        destruct (mapJoin _ (S i) arr) as [r|e]; reflexivity.
    + rewrite flushText_text. cbn [rbind].
      destruct (output node state) as [here|e]; [|reflexivity]. cbn [rbind].
      rewrite (IH Hs None (S i)) by exact I.
      destruct (mapJoin _ (S i) arr) as [r|e]; reflexivity.
Qed.

Lemma arrayHtml_joins arr :
  text_is_string arr = true ->
  arrayHtml arr output state = mapJoin (fun _ node => output node state) 0 arr.
Proof.
  intro Hs. unfold arrayHtml. rewrite (@arrayHtmlLoop_joins arr Hs None 0 I).
  cbn [pending_text app]. apply rbind_ok.
Qed.

End ArrayHtml.

Lemma text_type node : is_text node = true -> prop "type" node = VStr (str "text").
Proof.
  unfold is_text. destruct (prop "type" node); try discriminate.
  intro H. apply str_eqb_eq in H. now subst.
Qed.

(** The default renderer on a text node. *)
Lemma default_output_text joiner fuel node st :
  is_text node = true ->
  nestedOutput defaultRules.all joiner (S fuel) node st
  = Ok (sanitizeText (prop "content" node)).
Proof.
  intro T. pose proof (text_type node T) as E.
  destruct node; try discriminate E. cbn [nestedOutput]. rewrite E. reflexivity.
Qed.

(** A renderer that has run out of fuel. *)
Lemma arrayHtml_fails arr (output : Output) st e :
  (forall node, output node st = Throw e) ->
  arrayHtml arr output st = mapJoin (fun _ node => output node st) 0 arr.
Proof.
  intro H. unfold arrayHtml.
  assert (G : forall arr pending i,
             arrayHtmlLoop arr pending output st
             = match arr, pending with
               | [], None => Ok []
               | _, _ => Throw e
               end
             /\ mapJoin (fun _ node => output node st) i arr
                = match arr with [] => Ok [] | _ => Throw e end).
  { clear arr. induction arr as [|node arr IH]; intros pending i;
      cbn [arrayHtmlLoop mapJoin].
    - split; [|reflexivity]. destruct pending; cbn [flushText]; [apply H|reflexivity].
    - rewrite H. cbn [rbind]. split; [|reflexivity].
      destruct (is_text node).
      + destruct (IH (Some (match pending with
                            | Some content => js_add content (prop "content" node)
                            | None => prop "content" node
                            end)) i) as [E _].
        rewrite E. destruct arr; reflexivity.
      + destruct pending; cbn [flushText]; [now rewrite H|]. cbn [rbind]. reflexivity. }
  destruct (G arr None 0) as [E1 E2]. rewrite E1, E2. destruct arr; reflexivity.
Qed.

Lemma default_array_html fuel arr st :
  text_is_string arr = true ->
  nestedOutput defaultRules.all arrayHtml (S fuel) (VArr arr) st
  = mapJoin (fun _ node => nestedOutput defaultRules.all arrayHtml fuel node st) 0 arr.
Proof.
  intro Hs. cbn [nestedOutput]. destruct fuel as [|fuel].
  - apply (@arrayHtml_fails arr _ st OutOfFuel). reflexivity.
  - apply arrayHtml_joins; [|exact Hs]. intros node T. now apply default_output_text.
Qed.

(** The default html of an array of nodes.  The [Array] rule joins
    adjacent text nodes into one before it renders them, and that does
    not show: when the contents of the text nodes are strings, the html
    of the array is the html of its nodes, each rendered by itself, one
    after the other. *)
Theorem array_html_is_concatenation (fuel : nat) (arr : list value) (st : State) :
  text_is_string arr = true ->
  nestedOutput defaultRules.all arrayHtml (S fuel) (VArr arr) st
  = mapJoin (fun _ node => nestedOutput defaultRules.all arrayHtml fuel node st) 0 arr.
Proof. apply default_array_html. Qed.

(** Two text nodes, a line break and a text node. *)
Definition text_of (s : string) : value :=
  VObj [ field "type" (VStr (str "text")); field "content" (VStr (str s)) ].

Definition texts_and_break : list value :=
  [ text_of "a<"; text_of "b"; VObj [ field "type" (VStr (str "br")) ]; text_of "&c" ].

Lemma array_html_is_concatenation_witness :
  nestedOutput defaultRules.all arrayHtml 3 (VArr texts_and_break) empty_state
  = mapJoin (fun _ node => nestedOutput defaultRules.all arrayHtml 2 node empty_state)
      0 texts_and_break.
Proof.
  apply (@array_html_is_concatenation 2 texts_and_break empty_state). reflexivity.
Defined.

Example texts_and_break_html :
  nestedOutput defaultRules.all arrayHtml 3 (VArr texts_and_break) empty_state
  = Ok (str "a&lt;b<br>&amp;c").
Proof. vm_compute. reflexivity. Qed.

(** ** The deprecated htmlFor and ruleOutput *)

(** [ruleOutput(rules, 'html')]: the [html] of the rule of the node's
    type. *)
Definition ruleOutput (rules : Rules) : NodeOutput :=
  fun ast outputFunc state =>
    match prop "type" ast with
    | VStr type =>
        match lookup type (named rules) with
        | Some r =>
            match html r with
            | Some f => f ast outputFunc state
            | None => Throw TypeError
            end
        | None => Throw TypeError
        end
    | _ => Throw TypeError
    end.

(** [htmlFor(outputFunc)]: an array is mapped over and joined, a node
    goes to [outputFunc].  [fuel] bounds the depth of the recursion. *)
Fixpoint htmlFor (outputFunc : NodeOutput) (fuel : nat) (ast : value)
    (state : State) {struct fuel} : result jsstring :=
  match fuel with
  | O => Throw OutOfFuel
  | S fuel' =>
      match ast with
      | VArr arr => mapJoin (fun _ node => htmlFor outputFunc fuel' node state) 0 arr
      | _ => outputFunc ast (htmlFor outputFunc fuel') state
      end
  end.

(** [htmlFor(outputFunc)(ast, state)], with [state || {}]. *)
Definition htmlForOutput (outputFunc : NodeOutput) (fuel : nat) (ast : value)
    (state : option State) : result jsstring :=
  htmlFor outputFunc fuel ast (orEmptyState state).

(** Every array in the tree, at any depth, has strings for the contents
    of its text nodes. *)
Fixpoint texts_are_strings (v : value) : bool :=
  match v with
  | VArr l =>
      text_is_string l
      && (fix all (l : list value) : bool :=
            match l with
            | [] => true
            | x :: l' => texts_are_strings x && all l'
            end) l
  | VObj o =>
      (fix all (o : list (jsstring * value)) : bool :=
         match o with
         | [] => true
         | kv :: o' => texts_are_strings (snd kv) && all o'
         end) o
  | _ => true
  end.

Lemma texts_are_strings_get k o :
  texts_are_strings (VObj o) = true -> texts_are_strings (get k o) = true.
Proof.
  induction o as [|[k' v] o IH]; cbn [get]; [reflexivity|].
  intro H. cbn [texts_are_strings snd] in H. apply andb_prop in H. destruct H as [Hv Ho].
  destruct (str_eqb k k'); [exact Hv|]. apply IH. exact Ho.
Qed.

Lemma texts_are_strings_prop p node :
  texts_are_strings node = true -> texts_are_strings (prop p node) = true.
Proof.
  destruct node; try reflexivity. cbn [prop]. apply texts_are_strings_get.
Qed.

Lemma texts_are_strings_in l x :
  texts_are_strings (VArr l) = true -> In x l -> texts_are_strings x = true.
Proof.
  cbn [texts_are_strings]. intro H. apply andb_prop in H. destruct H as [_ H].
  induction l as [|y l IH]; [intros []|]. intros [->|Hin].
  - apply andb_prop in H. tauto.
  - apply andb_prop in H. destruct H as [_ H]. auto.
Qed.

Lemma texts_are_strings_elements v l x :
  texts_are_strings v = true -> elements v = Ok l -> In x l ->
  texts_are_strings x = true.
Proof.
  destruct v; try discriminate. cbn [elements]. intros H E. inversion E; subst.
  now apply texts_are_strings_in.
Qed.

Lemma mapJoin_ext f g xs :
  (forall i x, In x xs -> f i x = g i x) ->
  forall i, mapJoin f i xs = mapJoin g i xs.
Proof.
  induction xs as [|x xs IH]; intros H i; cbn [mapJoin]; [reflexivity|].
  rewrite (H i x) by (left; reflexivity).
  rewrite (IH (fun j y Hy => H j y (or_intror Hy)) (S i)). reflexivity.
Qed.

Section SameOutput.

Variables out1 out2 : Output.
Variable st : State.

(** The two renderers agree on such trees. *)
Hypothesis agree :
  forall v, texts_are_strings v = true -> out1 v st = out2 v st.

Lemma tagAroundContent_same tag node :
  texts_are_strings node = true ->
  tagAroundContent tag node out1 st = tagAroundContent tag node out2 st.
Proof.
  intro W. unfold tagAroundContent.
  now rewrite (agree _ (@texts_are_strings_prop "content" node W)).
Qed.

Lemma mapJoin_same (wrap : nat -> jsstring -> result jsstring) l :
  (forall x, In x l -> texts_are_strings x = true) ->
  forall i,
    mapJoin (fun i x => rbind (out1 x st) (wrap i)) i l
    = mapJoin (fun i x => rbind (out2 x st) (wrap i)) i l.
Proof.
  intros W. apply mapJoin_ext. intros i x Hx. now rewrite (agree _ (W x Hx)).
Qed.

Lemma list_html_same f node :
  html defaultRules.list = Some f ->
  texts_are_strings node = true ->
  f node out1 st = f node out2 st.
Proof.
  intros Hf W. apply some_inv in Hf. subst f. cbv beta.
  pose proof (@texts_are_strings_prop "items" node W) as Wi.
  destruct (elements (prop "items" node)) as [items|e] eqn:E; [|reflexivity].
  cbn [rbind].
  rewrite (@mapJoin_same (fun _ inner => Ok (htmlTag (str "li") inner [] true)) items
             (fun x Hx => @texts_are_strings_elements _ items x Wi E Hx) 0).
  reflexivity.
Qed.

Lemma table_html_same f node :
  html defaultRules.table = Some f ->
  texts_are_strings node = true ->
  f node out1 st = f node out2 st.
Proof.
  intros Hf W. apply some_inv in Hf. subst f. cbv beta.
  pose proof (@texts_are_strings_prop "header" node W) as Wh.
  pose proof (@texts_are_strings_prop "cells" node W) as Wc.
  destruct (elements (prop "header" node)) as [header|e] eqn:Eh; [|reflexivity].
  cbn [rbind].
  rewrite (@mapJoin_same
             (fun i inner =>
                Ok (htmlTag (str "th") inner
                      [ field "style" (defaultRules.getStyle node i);
                        field "scope" (VStr (str "col")) ] true)) header
             (fun x Hx => @texts_are_strings_elements _ header x Wh Eh Hx) 0).
  destruct (mapJoin _ 0 header) as [headers|e]; [|reflexivity]. cbn [rbind].
  destruct (elements (prop "cells" node)) as [cells|e] eqn:Ec; [|reflexivity].
  cbn [rbind].
  match goal with
  | |- rbind (mapJoin ?f1 0 cells) _ = rbind (mapJoin ?f2 0 cells) _ =>
      rewrite (@mapJoin_ext f1 f2 cells); [reflexivity|]
  end.
  intros i row Hrow. cbv beta.
  pose proof (@texts_are_strings_elements _ cells row Wc Ec Hrow) as Wr.
  destruct (elements row) as [cols|e] eqn:Er; [|reflexivity]. cbn [rbind].
  rewrite (@mapJoin_same
             (fun c inner =>
                Ok (htmlTag (str "td") inner
                      [ field "style" (defaultRules.getStyle node c) ] true)) cols
             (fun x Hx => @texts_are_strings_elements _ cols x Wr Er Hx) 0).
  reflexivity.
Qed.

(** The [html] of every default rule gives the same with both. *)
Lemma default_html_same name r f node :
  In (name, r) (named defaultRules.all) ->
  html r = Some f ->
  texts_are_strings node = true ->
  f node out1 st = f node out2 st.
Proof.
  intros Hin Hf W. cbn [named defaultRules.all] in Hin.
  repeat (destruct Hin as [Hin|Hin];
          [apply pair_inv in Hin; destruct Hin as [_ Hin]; subst r;
           first
             [ exact (@list_html_same f node Hf W)
             | exact (@table_html_same f node Hf W)
             | cbn [html defaultRules.rule defaultRules.heading defaultRules.nptable
                      defaultRules.lheading defaultRules.hr defaultRules.codeBlock
                      defaultRules.fence defaultRules.blockQuote
                      defaultRules.def defaultRules.newline
                      defaultRules.paragraph defaultRules.escape
                      defaultRules.tableSeparator defaultRules.autolink
                      defaultRules.mailto defaultRules.url defaultRules.link
                      defaultRules.image defaultRules.reflink defaultRules.refimage
                      defaultRules.em defaultRules.strong defaultRules.u
                      defaultRules.del defaultRules.inlineCode defaultRules.br
                      defaultRules.text] in Hf;
               first [ discriminate Hf
                     | apply some_inv in Hf; subst f;
                       first [ reflexivity
                             | now apply tagAroundContent_same
                             | now rewrite (agree _ (@texts_are_strings_prop "content" node W))
                             ] ] ]
          |]).
  destruct Hin.
Qed.

End SameOutput.

Lemma htmlFor_same fuel :
  forall ast st,
    texts_are_strings ast = true ->
    htmlFor (ruleOutput defaultRules.all) fuel ast st
    = nestedOutput defaultRules.all arrayHtml fuel ast st.
Proof.
  induction fuel as [|fuel IH]; intros ast st W; [reflexivity|].
  assert (Node : (forall arr, ast <> VArr arr) ->
                 ruleOutput defaultRules.all ast
                   (htmlFor (ruleOutput defaultRules.all) fuel) st
                 = match prop "type" ast with
                   | VStr type =>
                       match lookup type (named defaultRules.all) with
                       | Some r =>
                           match html r with
                           | Some f => f ast (nestedOutput defaultRules.all arrayHtml fuel) st
                           | None => Throw TypeError
                           end
                       | None => Throw TypeError
                       end
                   | _ => Throw TypeError
                   end).
  { intros _. unfold ruleOutput. destruct (prop "type" ast); try reflexivity.
    destruct (lookup s (named defaultRules.all)) as [r|] eqn:L; [|reflexivity].
    destruct (html r) as [f|] eqn:Hf; [|reflexivity].
    destruct (lookup_In _ _ L) as [name Hin].
    apply (@default_html_same _ _ st (fun v Wv => IH v st Wv) name r f ast Hin Hf W). }
  destruct ast as [| | | | |arr| | | |];
    try (cbn [htmlFor nestedOutput]; apply Node; intros ? ?; discriminate).
  rewrite default_array_html
    by (cbn [texts_are_strings] in W; apply andb_prop in W; tauto).
  cbn [htmlFor]. apply mapJoin_ext. intros i x Hx. apply IH.
  eapply texts_are_strings_in; eauto.
Qed.

(** The deprecated way to build the html renderer and the current one
    give the same html: for a syntax tree whose text nodes have strings
    for their contents, [htmlFor(ruleOutput(defaultRules, 'html'))] and
    [outputFor(defaultRules, 'html')] return the same string, or throw
    alike. *)
Theorem htmlFor_agrees_with_outputFor (fuel : nat) (ast : value)
    (state : option State) :
  texts_are_strings ast = true ->
  htmlForOutput (ruleOutput defaultRules.all) fuel ast state
  = defaultHtmlOutput fuel ast state.
Proof.
  intro W. unfold htmlForOutput, defaultHtmlOutput, outputFor, outerOutput.
  cbn [arrayRuleOutput Array defaultRules.all].
  change (populateInitialState state None) with (orEmptyState state).
  now apply htmlFor_same.
Qed.

(** The syntax tree of the source with a list, a reference link and its
    definition. *)
Definition list_and_reference_tree : value :=
  VArr (resolve (parsed_with 8 list_and_reference_source client_state)
          (parsed_nodes 8 list_and_reference_source client_state)).

Lemma htmlFor_agrees_with_outputFor_witness :
  htmlForOutput (ruleOutput defaultRules.all) 8 list_and_reference_tree None
  = defaultHtmlOutput 8 list_and_reference_tree None.
Proof.
  apply (@htmlFor_agrees_with_outputFor 8 list_and_reference_tree None).
  vm_compute. reflexivity.
Defined.

Example list_and_reference_html :
  defaultHtmlOutput 8 list_and_reference_tree None
  = Ok (str "<ul><li><a href=" ++ [DQUOTE] ++ str "http://e.com" ++ [DQUOTE]
        ++ str ">x</a></li></ul>").
Proof. vm_compute. reflexivity. Qed.

(** ** The cells of a table row *)

Lemma push_last_length node cells :
  List.length (TABLES.push_last node cells) = List.length cells.
Proof.
  unfold TABLES.push_last. destruct (rev cells) as [|last before] eqn:E.
  - apply (f_equal (@List.length _)) in E. rewrite length_rev in E. cbn in E. now rewrite E.
  - rewrite length_rev. cbn [List.length].
    apply (f_equal (@List.length _)) in E. rewrite length_rev in E. cbn in E. now rewrite E.
Qed.

(** The separators of a row that start a new cell: all of them, or,
    when the separators at the ends are trimmed, all but one that is the
    first or the last node of the row. *)
Fixpoint splitting (h : list value) (trimEndSeparators : bool) (len i : nat)
    (row : list value) : nat :=
  match row with
  | [] => 0
  | node :: row' =>
      (if TABLES.type_is h "tableSeparator" node
          && (negb trimEndSeparators
              || (negb (Nat.eqb i 0) && negb (Nat.eqb i (len - 1))))
       then 1 else 0)
      + splitting h trimEndSeparators len (S i) row'
  end.

Lemma splitRow_length h trim len row :
  forall i cells,
    List.length (TABLES.splitRow h trim len i row cells)
    = List.length cells + splitting h trim len i row.
Proof.
  induction row as [|node row IH]; intros i cells; cbn [TABLES.splitRow splitting]; [lia|].
  rewrite IH. destruct (TABLES.type_is h "tableSeparator" node); cbn [andb].
  - destruct (negb trim || _); [rewrite length_app; cbn; lia|lia].
  - rewrite push_last_length. lia.
Qed.

Definition no_separator (h : list value) (cell : list value) : Prop :=
  Forall (fun node => TABLES.type_is h "tableSeparator" node = false) cell.

Lemma type_is_trimCellEnd h name node :
  str_eqb (str "content") (str "type") = false ->
  TABLES.type_is h name (TABLES.trimCellEnd node) = TABLES.type_is h name node.
Proof.
  intros _. destruct node; try reflexivity.
  unfold TABLES.type_is, TABLES.type_of, TABLES.trimCellEnd. cbn [prop].
  rewrite get_set_other; [reflexivity|]. intro E. discriminate E.
Qed.

Lemma push_last_no_separator h node cells :
  TABLES.type_is h "tableSeparator" node = false ->
  Forall (no_separator h) cells ->
  Forall (no_separator h) (TABLES.push_last node cells).
Proof.
  intros Hn Hc. unfold TABLES.push_last.
  destruct (rev cells) as [|last before] eqn:E; [constructor|].
  assert (Hr : Forall (no_separator h) (rev cells)) by (apply Forall_rev; exact Hc).
  rewrite E in Hr. inversion Hr as [|? ? Hl Hb]; subst.
  apply Forall_rev. constructor; [|exact Hb].
  apply Forall_app. split; [exact Hl|]. constructor; [exact Hn|constructor].
Qed.

Lemma splitRow_no_separator h trim len row :
  forall i cells,
    Forall (no_separator h) cells ->
    Forall (no_separator h) (TABLES.splitRow h trim len i row cells).
Proof.
  induction row as [|node row IH]; intros i cells Hc; cbn [TABLES.splitRow]; [exact Hc|].
  apply IH. destruct (TABLES.type_is h "tableSeparator" node) eqn:T.
  - destruct (negb trim || _); [|exact Hc].
    apply Forall_app. split; [exact Hc|]. repeat constructor.
  - apply push_last_no_separator; [|exact Hc].
    destruct (_ && _); [|exact T].
    rewrite type_is_trimCellEnd by reflexivity. exact T.
Qed.

Lemma push_last_count node (cells : list (list value)) :
  cells <> [] ->
  List.length (List.concat (TABLES.push_last node cells))
  = S (List.length (List.concat cells)).
Proof.
  intro Hc. unfold TABLES.push_last.
  destruct (rev cells) as [|last before] eqn:E.
  - apply (f_equal (@rev _)) in E. rewrite rev_involutive in E. contradiction.
  - apply (f_equal (@rev _)) in E. rewrite rev_involutive in E. subst cells.
    cbn [rev]. rewrite !concat_app. cbn [List.concat]. rewrite !length_app.
    cbn [List.length]. lia.
Qed.

Lemma splitRow_count h trim len row :
  forall i cells,
    cells <> [] ->
    List.length (List.concat (TABLES.splitRow h trim len i row cells))
    = List.length (List.concat cells)
      + List.length (List.filter (fun node => negb (TABLES.type_is h "tableSeparator" node)) row).
Proof.
  induction row as [|node row IH]; intros i cells Hc;
    cbn [TABLES.splitRow List.filter]; [cbn [List.length]; lia|].
  destruct (TABLES.type_is h "tableSeparator" node); cbn [negb].
  - destruct (negb trim || _).
    + rewrite IH by (destruct cells; discriminate).
      replace (List.concat (cells ++ [ [] ])) with (List.concat cells)
        by (rewrite concat_app; cbn [List.concat app]; now rewrite !app_nil_r).
      reflexivity.
    + now apply IH.
  - rewrite IH.
    + rewrite push_last_count by exact Hc. cbn [List.length]. lia.
    + intro E. apply (f_equal (@List.length _)) in E.
      rewrite push_last_length in E. destruct cells; [contradiction|discriminate].
Qed.

(** The loop of [parseTableRow] over the nodes of a row.  It starts a
    cell at every separator (but, when the separators at the ends are
    trimmed, not at one that is the first or the last node), so the row
    has one cell more than such separators; no separator is put into a
    cell; and every other node of the row is in a cell. *)
Theorem table_row_cells (h : list value) (trimEndSeparators : bool) (row : list value) :
  let cells := TABLES.splitRow h trimEndSeparators (List.length row) 0 row [ [] ] in
  List.length cells = 1 + splitting h trimEndSeparators (List.length row) 0 row
  /\ Forall (Forall (fun node => TABLES.type_is h "tableSeparator" node = false)) cells
  /\ List.length (List.concat cells)
     = List.length
         (List.filter (fun node => negb (TABLES.type_is h "tableSeparator" node)) row).
Proof.
  cbv zeta. split; [apply splitRow_length|]. split.
  - apply splitRow_no_separator. repeat constructor.
  - rewrite splitRow_count by discriminate. reflexivity.
Qed.

(** ** The attributes of an html tag *)

(** The loop of [htmlTag] over the attributes. *)
Definition attributeString (attributes : obj) : jsstring :=
  fold_left (fun acc kv =>
               if truthy (snd kv)
               then acc ++ str " " ++ sanitizeText (VStr (fst kv)) ++ str "="
                        ++ [DQUOTE] ++ sanitizeText (snd kv) ++ [DQUOTE]
               else acc)
            attributes [].

(** One attribute in the tag. *)
Definition attribute_text (kv : jsstring * value) : jsstring :=
  str " " ++ sanitizeText (VStr (fst kv)) ++ str "="
  ++ [DQUOTE] ++ sanitizeText (snd kv) ++ [DQUOTE].

Lemma attributeString_from (attributes : obj) :
  forall acc,
    fold_left (fun acc kv =>
                 if truthy (snd kv)
                 then acc ++ str " " ++ sanitizeText (VStr (fst kv)) ++ str "="
                          ++ [DQUOTE] ++ sanitizeText (snd kv) ++ [DQUOTE]
                 else acc)
              attributes acc
    = acc ++ List.concat
               (List.map attribute_text
                  (List.filter (fun kv => truthy (snd kv)) attributes)).
Proof.
  induction attributes as [|kv attributes IH]; intro acc;
    cbn [fold_left List.filter List.map List.concat]; [now rewrite app_nil_r|].
  rewrite IH. destruct (truthy (snd kv)); [|reflexivity].
  cbn [List.map List.concat]. unfold attribute_text. now rewrite <- !app_assoc.
Qed.

Lemma sanitizeText_value (v : value) : sanitizeText v = sanitizeText (VStr (to_String v)).
Proof. reflexivity. Qed.

Lemma no_markup_count (s : jsstring) :
  forallb (fun c => negb (is_markup_char c)) s = true ->
  count_occ N.eq_dec s DQUOTE = 0.
Proof.
  induction s as [|a s IH]; [reflexivity|]. cbn [forallb count_occ].
  intro H. apply andb_prop in H. destruct H as [Ha Hs].
  destruct (N.eq_dec a DQUOTE) as [->|]; [discriminate Ha|]. auto.
Qed.

Lemma attribute_text_quotes kv :
  count_occ N.eq_dec (attribute_text kv) DQUOTE = 2
  /\ forallb (fun c => negb (N.eqb c 60 || N.eqb c 62 || N.eqb c 39)) (attribute_text kv)
     = true.
Proof.
  unfold attribute_text.
  pose proof (sanitizeText_no_markup (fst kv)) as Hk.
  pose proof (sanitizeText_no_markup (to_String (snd kv))) as Hv.
  rewrite <- sanitizeText_value in Hv. split.
  - rewrite !count_occ_app, (no_markup_count _ Hk), (no_markup_count _ Hv). reflexivity.
  - assert (W : forall s, forallb (fun c => negb (is_markup_char c)) s = true ->
                forallb (fun c => negb (N.eqb c 60 || N.eqb c 62 || N.eqb c 39)) s = true).
    { intro s. apply forallb_weaken. intro a. unfold is_markup_char.
      destruct (N.eqb a 60); [discriminate|]. destruct (N.eqb a 62); [discriminate|].
      destruct (N.eqb a 34); cbn [orb]; destruct (N.eqb a 39); auto. }
    rewrite !forallb_app, (W _ Hk), (W _ Hv). reflexivity.
Qed.

(** [htmlTag] leaves out the attributes whose value is falsy, and a
    value cannot leave its quotes: in the text of the attributes, between
    the name of the tag and its closing bracket, there are two double
    quotes for each attribute that is written and no angle bracket or
    single quote, whatever the names and the values. *)
Theorem htmlTag_attributes (tagName content : jsstring) (attributes : obj) :
  htmlTag tagName content attributes false
  = str "<" ++ tagName ++ attributeString attributes ++ str ">"
  /\ htmlTag tagName content attributes true
     = htmlTag tagName content attributes false ++ content ++ str "</" ++ tagName ++ str ">"
  /\ attributeString attributes
     = attributeString (List.filter (fun kv => truthy (snd kv)) attributes)
  /\ count_occ N.eq_dec (attributeString attributes) DQUOTE
     = 2 * List.length (List.filter (fun kv => truthy (snd kv)) attributes)
  /\ forallb (fun c => negb (N.eqb c 60 || N.eqb c 62 || N.eqb c 39))
       (attributeString attributes) = true.
Proof.
  split; [reflexivity|]. split; [reflexivity|].
  unfold attributeString. rewrite !attributeString_from. cbn [app].
  split; [|split].
  - f_equal. f_equal. induction attributes as [|kv l IH]; [reflexivity|].
    cbn [List.filter]. destruct (truthy (snd kv)) eqn:E; [|exact IH].
    cbn [List.filter]. rewrite E. now rewrite IH at 1.
  - induction (List.filter _ attributes) as [|kv l IH]; [reflexivity|].
    cbn [List.map List.concat List.length]. rewrite count_occ_app, IH.
    destruct (attribute_text_quotes kv) as [Q _]. rewrite Q. lia.
  - induction (List.filter _ attributes) as [|kv l IH]; [reflexivity|].
    cbn [List.map List.concat]. rewrite forallb_app, IH.
    destruct (attribute_text_quotes kv) as [_ Q]. now rewrite Q.
Qed.

(** ** What the inline parse consumes *)

(** A computation that, if it returns, returns with [state._list] as it
    found it. *)
Definition listed {A} (x : M A) : Prop :=
  forall st a st', x st = Ok (a, st') -> sget "_list" st' = sget "_list" st.

Definition parser_listed (p : Parser) : Prop := forall source, listed (p source).

Lemma sget_sset_same p v st : sget p (sset p v st) = v.
Proof. unfold sget, sset. cbn [fields]. apply get_set_same. Qed.

Lemma sget_sset_other p q v st :
  str_eqb (str p) (str q) = false -> sget p (sset q v st) = sget p st.
Proof.
  intro H. unfold sget, sset. cbn [fields]. apply get_set_other.
  now apply str_neq_by_eqb.
Qed.

Lemma sget_record_other p q v st h :
  str_eqb (str p) (str q) = false ->
  sget p {| fields := set (str q) v (fields st); heap := h |} = sget p st.
Proof.
  intro H. unfold sget. cbn [fields]. apply get_set_other. now apply str_neq_by_eqb.
Qed.

Lemma listed_ret {A} (a : A) : listed (ret a).
Proof. intros st a' st' H. inversion H; subst. reflexivity. Qed.

Lemma listed_throw {A} e : listed (@throw A e).
Proof. intros st a st' H. discriminate. Qed.

Lemma listed_bind {A B} (x : M A) (f : A -> M B) :
  listed x -> (forall a, listed (f a)) -> listed (bind x f).
Proof.
  intros Hx Hf st b st'. unfold bind.
  destruct (x st) as [[a st1]|] eqn:E; [|discriminate].
  intro H. rewrite (Hf _ _ _ _ H). eapply Hx; eauto.
Qed.

Lemma listed_read p : listed (read p).
Proof. intros st a st' H. inversion H; subst. reflexivity. Qed.

Lemma listed_read_state : listed read_state.
Proof. intros st a st' H. inversion H; subst. reflexivity. Qed.

Lemma listed_write p v :
  str_eqb (str "_list") (str p) = false -> listed (write p v).
Proof. intros Hp st a st' H. inversion H; subst. now apply sget_sset_other. Qed.

Lemma listed_mapM {A B} (f : A -> M B) xs :
  (forall x, listed (f x)) -> listed (mapM f xs).
Proof.
  intro Hf. induction xs as [|x xs IH]; cbn [mapM]; [apply listed_ret|].
  apply listed_bind; [apply Hf|]. intro y.
  apply listed_bind; [apply IH|]. intro ys. apply listed_ret.
Qed.

Ltac listed_step :=
  match goal with
  | |- listed (ret _) => apply listed_ret
  | |- listed (throw _) => apply listed_throw
  | |- listed (read _) => apply listed_read
  | |- listed read_state => apply listed_read_state
  | |- listed (write _ _) => apply listed_write; reflexivity
  | |- listed (bind _ _) => apply listed_bind; [|intro]
  | |- listed (mapM _ _) => apply listed_mapM; intro
  | H : parser_listed ?p |- listed (?p _) => apply H
  | |- listed (match ?x with _ => _ end) => destruct x
  | |- listed (if ?x then _ else _) => destruct x
  end.

Lemma parseInline_listed nested content :
  parser_listed nested -> listed (parseInline nested content).
Proof. intro H. unfold parseInline. repeat listed_step. Qed.

Lemma parseCaptureInline_listed cap nested :
  parser_listed nested -> listed (parseCaptureInline cap nested).
Proof.
  intro H. unfold parseCaptureInline.
  apply listed_bind; [now apply parseInline_listed|]. intro. apply listed_ret.
Qed.

Lemma parseTableRow_listed source nested trim_ :
  parser_listed nested -> listed (TABLES.parseTableRow source nested trim_).
Proof. intro H. unfold TABLES.parseTableRow. repeat listed_step. Qed.

Lemma parseTable_listed trim_ cap nested :
  parser_listed nested -> listed (TABLES.parseTableWith trim_ cap nested).
Proof.
  intro H. unfold TABLES.parseTableWith, TABLES.parseTableCells.
  repeat first [ apply parseTableRow_listed; assumption | listed_step ].
Qed.

Lemma parseRef_listed cap refNode : listed (parseRef cap refNode).
Proof.
  intros st a st'. unfold parseRef.
  destruct (orEmptyObject (sget "_refs" st)); try discriminate.
  destruct (if truthy (Dict.lookup _ _) then _ else _); try discriminate.
  intro H. inversion H; subst. now apply sget_record_other.
Qed.

Lemma parseDef_listed cap nested : listed (parseDef cap nested).
Proof.
  intros st a st'. unfold parseDef.
  destruct (if truthy (sget "_refs" st) && _ then _ else _) as [h|]; [|discriminate].
  destruct (orEmptyObject (sget "_defs" st)); try discriminate.
  intro H. inversion H; subst. now apply sget_record_other.
Qed.

(** The items of a list: each one puts back [state._list] as it was. *)
Lemma parseItems_listed nested n items :
  forall i lastItemWasAParagraph,
    listed (defaultRules.parseItems nested n i lastItemWasAParagraph items).
Proof.
  induction items as [|item items IH]; intros i lastp;
    cbn [defaultRules.parseItems]; [apply listed_ret|].
  destruct (spaceRegex _); [|apply listed_throw].
  intros st a st'. unfold bind at 1 2 3 4 5 6 7. unfold read, write.
  destruct (nested _ _) as [[res st1]|]; [|discriminate].
  unfold bind.
  destruct (defaultRules.parseItems _ _ _ _ _ _) as [[more st2]|] eqn:E; [|discriminate].
  intro H. inversion H; subst.
  rewrite (IH _ _ _ _ _ E). apply sget_sset_same.
Qed.

Lemma default_rules_listed name r :
  In (name, r) (named defaultRules.all) ->
  forall cap nested, parser_listed nested -> listed (parse r cap nested).
Proof.
  intros Hin cap nested Hn. cbn [named defaultRules.all] in Hin.
  repeat (destruct Hin as [Hin|Hin];
          [apply pair_inv in Hin; destruct Hin as [_ Hin]; subst r;
           cbn [parse defaultRules.rule defaultRules.heading defaultRules.nptable
                  defaultRules.lheading defaultRules.hr defaultRules.codeBlock
                  defaultRules.fence defaultRules.blockQuote defaultRules.list
                  defaultRules.def defaultRules.table defaultRules.newline
                  defaultRules.paragraph defaultRules.escape
                  defaultRules.tableSeparator defaultRules.autolink
                  defaultRules.mailto defaultRules.url defaultRules.link
                  defaultRules.image defaultRules.reflink defaultRules.refimage
                  defaultRules.em defaultRules.strong defaultRules.u
                  defaultRules.del defaultRules.inlineCode defaultRules.br
                  defaultRules.text];
           unfold TABLES.parseNpTable, TABLES.parseTable, ignoreCapture;
           repeat first [ apply parseInline_listed; assumption
                        | apply parseCaptureInline_listed; assumption
                        | apply parseTable_listed; assumption
                        | apply parseItems_listed
                        | apply parseRef_listed
                        | apply parseDef_listed
                        | listed_step ]
          |]).
  destruct Hin.
Qed.

Lemma appended_listed ruleType parsed : listed (appended ruleType parsed).
Proof.
  destruct parsed; cbn [appended]; try apply listed_throw; try apply listed_ret.
  - destruct (is_nullish _); apply listed_ret.
  - intros st x st'. destruct (nth_error (heap st) a) as [[]|]; try discriminate.
    destruct (is_nullish _); intro H; inversion H; subst; reflexivity.
Qed.

Lemma parseStep_listed nested source :
  parser_listed nested -> listed (parseStep defaultRules.all nested source).
Proof.
  intros Hn st x st'. unfold parseStep.
  destruct (pickRule defaultRules.all source st) as [[[t r] cap]|] eqn:P; [|discriminate].
  destruct (pickRule_from_table _ _ _ P) as [name Hin].
  assert (K : listed (parsed <- parse r cap nested ;;
                      nodes <- appended t parsed ;;
                      write "prevCapture" (VCapture cap) ;;;
                      ret (cap, nodes, substring_from (List.length (group 0 cap)) source))).
  { apply listed_bind; [eapply default_rules_listed; eauto|]. intro parsed.
    apply listed_bind; [apply appended_listed|]. intro nodes.
    repeat listed_step. }
  apply K.
Qed.

Lemma parseLoop_listed fuel :
  forall source result, listed (parseLoop defaultRules.all fuel source result).
Proof.
  induction fuel as [|fuel IH]; intros source result; cbn [parseLoop];
    destruct source as [|a source]; try apply listed_ret; try apply listed_throw.
  apply listed_bind.
  - apply parseStep_listed. intro src. apply IH.
  - intros [[cap nodes] source']. apply IH.
Qed.

(** The capture of a default rule other than the list rule is a capture
    of a pattern on the source. *)
Definition regex_capture (source : jsstring) (cap : Match) : Prop :=
  exists R, exec R source = Some cap.

Lemma inline_rule_capture order R q p h source st cap :
  match_of (defaultRules.rule order (inlineRegex R) q p h) source st = Some cap ->
  regex_capture source cap.
Proof.
  unfold match_of, defaultRules.rule, inlineRegex. cbn [rmatch].
  destruct (truthy _); [|discriminate]. intro H. now exists R.
Qed.

Lemma block_rule_capture order R q p h source st cap :
  match_of (defaultRules.rule order (blockRegex R) q p h) source st = Some cap ->
  regex_capture source cap.
Proof. intro H. apply block_rule_match in H. now exists R. Qed.

Lemma any_scope_rule_capture order R q p h source st cap :
  match_of (defaultRules.rule order (anyScopeRegex R) q p h) source st = Some cap ->
  regex_capture source cap.
Proof.
  unfold match_of, defaultRules.rule, anyScopeRegex. cbn [rmatch]. intro H. now exists R.
Qed.

Lemma table_separator_capture source st cap :
  match_of defaultRules.tableSeparator source st = Some cap -> regex_capture source cap.
Proof.
  unfold match_of, defaultRules.tableSeparator, defaultRules.rule. cbn [rmatch].
  destruct (negb _); [discriminate|]. intro H. now exists defaultRules.TABLE_SEPARATOR_R.
Qed.

Lemma list_rule_scope source st cap :
  match_of defaultRules.list source st = Some cap ->
  truthy (sget "_list" st) || negb (truthy (sget "inline" st)) = true.
Proof.
  unfold match_of, defaultRules.list, defaultRules.rule. cbn [rmatch].
  destruct (exec LIST_LOOKBEHIND_R (prevCaptureStr st)); [|discriminate].
  destruct (_ || _); [reflexivity|discriminate].
Qed.

Lemma default_rules_capture name r :
  In (name, r) (named defaultRules.all) ->
  forall source st cap,
    match_of r source st = Some cap ->
    regex_capture source cap
    \/ truthy (sget "_list" st) || negb (truthy (sget "inline" st)) = true.
Proof.
  intros Hin source st cap. cbn [named defaultRules.all] in Hin.
  repeat (destruct Hin as [Hin|Hin];
          [apply pair_inv in Hin; destruct Hin as [_ Hin]; subst r; intro H;
           first [ right; eapply list_rule_scope; exact H
                 | left; eapply table_separator_capture; exact H
                 | left; eapply block_rule_capture; exact H
                 | left; eapply inline_rule_capture; exact H
                 | left; eapply any_scope_rule_capture; exact H ]
          |]).
  destruct Hin.
Qed.

(** One round of the top-level loop in inline scope, outside a list. *)
Lemma inline_round nested source st cap nodes source' st' :
  parser_scoped nested -> parser_listed nested ->
  scope_of st = true -> truthy (sget "_list" st) = false ->
  parseStep defaultRules.all nested source st = Ok (cap, nodes, source', st') ->
  source = group 0 cap ++ source'
  /\ scope_of st' = true
  /\ truthy (sget "_list" st') = false.
Proof.
  intros Hn Hl Hs Hf H.
  destruct (@parseStep_pick _ _ _ _ _ _ _ _ H) as [t [r P]].
  destruct (@pickRule_is_match _ _ _ _ _ _ P) as [M I].
  destruct (pickRule_from_table _ _ _ P) as [name Hin].
  destruct (@default_rules_capture name r Hin _ _ _ M) as [[R E]|B].
  - destruct (@exec_text R source cap E I) as [s' [Es _]].
    assert (source' = s') as ->.
    { rewrite (@parseStep_source _ _ _ _ _ _ _ _ H). unfold substring_from, full_length.
      rewrite Es. apply skipn_middle. }
    destruct (@parseStep_state _ _ _ _ _ _ _ Hn H) as [Hs' _].
    split; [exact Es|]. split; [congruence|].
    rewrite (@parseStep_listed nested source Hl _ _ _ H). exact Hf.
  - unfold scope_of in Hs. rewrite Hs, Hf in B. discriminate B.
Qed.

Lemma inline_rounds fuel :
  forall source result st nodes st',
    scope_of st = true -> truthy (sget "_list" st) = false ->
    parseLoop defaultRules.all fuel source result st = Ok (nodes, st') ->
    full_matches (rounds defaultRules.all fuel source st) = source.
Proof.
  induction fuel as [|fuel IH]; intros source result st nodes st' Hs Hf;
    cbn [parseLoop rounds]; destruct source as [|a source]; try discriminate;
    try (intros _; reflexivity).
  unfold bind at 1.
  destruct (parseStep _ _ _ _) as [[[[cap ns] source'] st1]|] eqn:E; [|discriminate].
  intro H.
  assert (Hn : parser_scoped (fun src => parseLoop defaultRules.all fuel src []))
    by (intro src; apply parseLoop_scoped).
  assert (Hl : parser_listed (fun src => parseLoop defaultRules.all fuel src []))
    by (intro src; apply parseLoop_listed).
  destruct (@inline_round _ _ _ _ _ _ _ Hn Hl Hs Hf E) as [Es [Hs1 Hf1]].
  unfold full_matches. cbn [List.map List.concat snd].
  fold (full_matches (rounds defaultRules.all fuel source' st1)).
  rewrite (@IH _ _ _ _ _ Hs1 Hf1 H). symmetry. exact Es.
Qed.

(** The rounds of the top-level loop of [defaultInlineParse]. *)
Definition inlineRounds (fuel : nat) (source : jsstring) (state : option State)
    : list (jsstring * Match) :=
  let state := sset "inline" (VBool true) (orEmptyState state) in
  rounds defaultRules.all fuel (preprocess (suffixed source state))
    (sset "prevCapture" VNull state).

(** The inline entry point appends nothing to the source, and its loop
    consumes the preprocessed source and no more: for a state whose
    [_list] is not set, when the parse returns, the rounds start from
    [preprocess(source)], each from where the capture before ended, the
    last leaves nothing, and the full matches of the captures, one after
    the other, are [preprocess(source)]. *)
Theorem inline_parse_consumes_input (fuel : nat) (source : jsstring)
    (state : option State) (nodes : list value) (state' : State) :
  truthy (sget "_list" (orEmptyState state)) = false ->
  defaultInlineParse fuel source state = Ok (nodes, state') ->
  chained (preprocess source) (inlineRounds fuel source state)
  /\ full_matches (inlineRounds fuel source state) = preprocess source
  /\ consumed (inlineRounds fuel source state) = List.length (preprocess source).
Proof.
  intros Hl H.
  assert (S0 : suffixed source (sset "inline" (VBool true) (orEmptyState state)) = source).
  { unfold suffixed.
    fold (scope_of (sset "inline" (VBool true) (orEmptyState state))).
    now rewrite scope_of_sset_inline. }
  assert (E : defaultInlineParse fuel source state
              = parseLoop defaultRules.all fuel
                  (preprocess (suffixed source
                                 (sset "inline" (VBool true) (orEmptyState state)))) []
                  (sset "prevCapture" VNull
                     (sset "inline" (VBool true) (orEmptyState state))))
    by reflexivity.
  rewrite E, S0 in H. unfold inlineRounds. cbv zeta. rewrite S0.
  assert (F : full_matches
                (rounds defaultRules.all fuel (preprocess source)
                   (sset "prevCapture" VNull
                      (sset "inline" (VBool true) (orEmptyState state))))
              = preprocess source).
  { eapply inline_rounds; [| |exact H].
    - rewrite scope_of_sset_other by reflexivity. apply scope_of_sset_inline.
    - rewrite !sget_sset_other by reflexivity. exact Hl. }
  split; [eapply rounds_chained; exact H|].
  split; [exact F|]. now rewrite consumed_full_matches, F.
Qed.

Definition emphasis_and_link_source : jsstring :=
  str "a **b** [c](http://e.com) *d*" ++ [CR; LF] ++ str "e".

Definition inline_parsed : list value * State :=
  match defaultInlineParse 8 emphasis_and_link_source None with
  | Ok r => r
  | Throw _ => ([], empty_state)
  end.

Lemma inline_parse_consumes_input_witness :
  chained (preprocess emphasis_and_link_source)
    (inlineRounds 8 emphasis_and_link_source None)
  /\ full_matches (inlineRounds 8 emphasis_and_link_source None)
     = preprocess emphasis_and_link_source
  /\ consumed (inlineRounds 8 emphasis_and_link_source None)
     = List.length (preprocess emphasis_and_link_source).
Proof.
  apply (@inline_parse_consumes_input 8 emphasis_and_link_source None
           (fst inline_parsed) (snd inline_parsed)).
  - reflexivity.
  - vm_compute. reflexivity.
Defined.

(** ** The nodes of the default rules have an output function *)

(** The default rule of the name [t] has an [html] function. *)
Definition has_output (t : jsstring) : bool :=
  match lookup t (named defaultRules.all) with
  | Some r => present (html r)
  | None => false
  end.

(** The [type] of a node object names a default rule that has an [html]
    function. *)
Definition output_type (o : obj) : bool :=
  match get (str "type") o with
  | VStr t => has_output t
  | _ => false
  end.

(** As [output_type], or without a [type] yet in a node of the rule
    [name], which has an [html] function: the dispatcher assigns the
    name. *)
Definition open_type (name : jsstring) (o : obj) : bool :=
  output_type o || (is_nullish (get (str "type") o) && has_output name).

(** A node, an object or a reference to one in the store, of a type with
    an output function. *)
Definition output_node (h : list value) (node : value) : Prop :=
  match node with
  | VObj o => output_type o = true
  | VRef a => exists o, nth_error h a = Some (VObj o) /\ output_type o = true
  | _ => False
  end.

Definition open_node (name : jsstring) (h : list value) (node : value) : Prop :=
  match node with
  | VObj o => open_type name o = true
  | VRef a => exists o, nth_error h a = Some (VObj o) /\ open_type name o = true
  | _ => False
  end.

(** The objects of the store [h] with an output type are objects with an
    output type in [h']. *)
Definition heap_kept (h h' : list value) : Prop :=
  forall a o, nth_error h a = Some (VObj o) -> output_type o = true ->
  exists o', nth_error h' a = Some (VObj o') /\ output_type o' = true.

Lemma heap_kept_refl h : heap_kept h h.
Proof. intros a o E T. eauto. Qed.

Lemma heap_kept_trans h1 h2 h3 : heap_kept h1 h2 -> heap_kept h2 h3 -> heap_kept h1 h3.
Proof.
  intros H1 H2 a o E T. destruct (H1 _ _ E T) as [o' [E' T']]. eauto.
Qed.

Lemma output_node_kept h h' node :
  heap_kept h h' -> output_node h node -> output_node h' node.
Proof.
  intros K. destruct node; cbn [output_node]; auto.
  intros [o [E T]]. eauto.
Qed.

Lemma replaced_kept a o o' h :
  nth_error h a = Some (VObj o) ->
  (output_type o = true -> output_type o' = true) ->
  heap_kept h (replaced a (VObj o') h).
Proof.
  intros E T b ob Eb Tb.
  assert (L : a < List.length h) by (apply nth_error_Some; congruence).
  destruct (Nat.eq_dec b a) as [->|N].
  - rewrite replaced_same by exact L. rewrite E in Eb. apply some_inv in Eb.
    exists o'. split; [reflexivity|]. apply T. congruence.
  - rewrite replaced_other by assumption. eauto.
Qed.

Lemma output_type_set k v o :
  str_eqb (str "type") k = false -> output_type (set k v o) = output_type o.
Proof.
  intro H. unfold output_type. rewrite get_set_other; [reflexivity|].
  intro E. rewrite E, str_eqb_refl in H. discriminate.
Qed.

Lemma patchRef_kept t ti a h : heap_kept h (patchRef t ti a h).
Proof.
  unfold patchRef. destruct (nth_error h a) as [v|] eqn:E; [|apply heap_kept_refl].
  destruct v as [| | | | | |o| | |]; try apply heap_kept_refl.
  apply (@replaced_kept a o _ h E).
  now rewrite !output_type_set by reflexivity.
Qed.

Lemma patch_all_kept t ti nodes :
  forall h,
    heap_kept h (fold_left (fun h node => match node with
                                          | VRef b => patchRef t ti b h
                                          | _ => h
                                          end) nodes h).
Proof.
  induction nodes as [|node nodes IH]; intro h; cbn [fold_left]; [apply heap_kept_refl|].
  destruct node; try apply IH.
  eapply heap_kept_trans; [apply patchRef_kept|apply IH].
Qed.

(** A computation that keeps the typed objects of the store. *)
Definition keeps_heap {A} (x : M A) : Prop :=
  forall st a st', x st = Ok (a, st') -> heap_kept (heap st) (heap st').

Definition parser_keeps_heap (p : Parser) : Prop := forall source, keeps_heap (p source).

Lemma keeps_heap_ret {A} (a : A) : keeps_heap (ret a).
Proof. intros st a' st' H. inversion H; subst. apply heap_kept_refl. Qed.

Lemma keeps_heap_throw {A} e : keeps_heap (@throw A e).
Proof. intros st a st' H. discriminate. Qed.

Lemma keeps_heap_bind {A B} (x : M A) (f : A -> M B) :
  keeps_heap x -> (forall a, keeps_heap (f a)) -> keeps_heap (bind x f).
Proof.
  intros Hx Hf st b st'. unfold bind.
  destruct (x st) as [[a st1]|] eqn:E; [|discriminate].
  intro H. eapply heap_kept_trans; [eapply Hx; eauto|eapply Hf; eauto].
Qed.

Lemma keeps_heap_read p : keeps_heap (read p).
Proof. intros st a st' H. inversion H; subst. apply heap_kept_refl. Qed.

Lemma keeps_heap_read_state : keeps_heap read_state.
Proof. intros st a st' H. inversion H; subst. apply heap_kept_refl. Qed.

Lemma keeps_heap_write p v : keeps_heap (write p v).
Proof. intros st a st' H. inversion H; subst. apply heap_kept_refl. Qed.

Lemma keeps_heap_mapM {A B} (f : A -> M B) xs :
  (forall x, keeps_heap (f x)) -> keeps_heap (mapM f xs).
Proof.
  intro Hf. induction xs as [|x xs IH]; cbn [mapM]; [apply keeps_heap_ret|].
  apply keeps_heap_bind; [apply Hf|]. intro y.
  apply keeps_heap_bind; [apply IH|]. intro ys. apply keeps_heap_ret.
Qed.

Ltac keeps_heap_step :=
  match goal with
  | |- keeps_heap (ret _) => apply keeps_heap_ret
  | |- keeps_heap (throw _) => apply keeps_heap_throw
  | |- keeps_heap (read _) => apply keeps_heap_read
  | |- keeps_heap read_state => apply keeps_heap_read_state
  | |- keeps_heap (write _ _) => apply keeps_heap_write
  | |- keeps_heap (bind _ _) => apply keeps_heap_bind; [|intro]
  | |- keeps_heap (mapM _ _) => apply keeps_heap_mapM; intro
  | H : parser_keeps_heap ?p |- keeps_heap (?p _) => apply H
  | |- keeps_heap (match ?x with _ => _ end) => destruct x
  | |- keeps_heap (if ?x then _ else _) => destruct x
  end.

Lemma parseInline_keeps_heap nested content :
  parser_keeps_heap nested -> keeps_heap (parseInline nested content).
Proof. intro H. unfold parseInline. repeat keeps_heap_step. Qed.

Lemma parseCaptureInline_keeps_heap cap nested :
  parser_keeps_heap nested -> keeps_heap (parseCaptureInline cap nested).
Proof.
  intro H. unfold parseCaptureInline.
  apply keeps_heap_bind; [now apply parseInline_keeps_heap|]. intro. apply keeps_heap_ret.
Qed.

Lemma parseTableRow_keeps_heap source nested trim_ :
  parser_keeps_heap nested -> keeps_heap (TABLES.parseTableRow source nested trim_).
Proof. intro H. unfold TABLES.parseTableRow. repeat keeps_heap_step. Qed.

Lemma parseTable_keeps_heap trim_ cap nested :
  parser_keeps_heap nested -> keeps_heap (TABLES.parseTableWith trim_ cap nested).
Proof.
  intro H. unfold TABLES.parseTableWith, TABLES.parseTableCells.
  repeat first [ apply parseTableRow_keeps_heap; assumption | keeps_heap_step ].
Qed.

Lemma app_kept h v : heap_kept h (h ++ [v]).
Proof.
  intros a o E T. exists o. split; [|exact T].
  rewrite nth_error_app1; [exact E|]. apply nth_error_Some. congruence.
Qed.

Lemma parseRef_keeps_heap cap refNode : keeps_heap (parseRef cap refNode).
Proof.
  intros st a st'. unfold parseRef.
  destruct (orEmptyObject (sget "_refs" st)); try discriminate.
  destruct (if truthy (Dict.lookup _ _) then _ else _); try discriminate.
  intro H. inversion H; subst. cbn [heap]. apply app_kept.
Qed.

Lemma parseDef_keeps_heap cap nested : keeps_heap (parseDef cap nested).
Proof.
  intros st a st'. unfold parseDef.
  destruct (truthy (sget "_refs" st) && _).
  - destruct (Dict.index _ _) as [| | | | |nodes| | | |]; try discriminate.
    destruct (orEmptyObject (sget "_defs" st)); try discriminate.
    intro H. inversion H; subst. cbn [heap]. apply patch_all_kept.
  - destruct (orEmptyObject (sget "_defs" st)); try discriminate.
    intro H. inversion H; subst. cbn [heap]. apply heap_kept_refl.
Qed.

Lemma parseItems_keeps_heap nested n items :
  parser_keeps_heap nested ->
  forall i lastItemWasAParagraph,
    keeps_heap (defaultRules.parseItems nested n i lastItemWasAParagraph items).
Proof.
  intro Hn. induction items as [|item items IH]; intros i lastp;
    cbn [defaultRules.parseItems]; [apply keeps_heap_ret|].
  destruct (spaceRegex _); [|apply keeps_heap_throw].
  repeat first [ apply IH | keeps_heap_step ].
Qed.

Ltac default_rule_parse :=
  cbn [parse defaultRules.rule defaultRules.heading defaultRules.nptable
         defaultRules.lheading defaultRules.hr defaultRules.codeBlock
         defaultRules.fence defaultRules.blockQuote defaultRules.list
         defaultRules.def defaultRules.table defaultRules.newline
         defaultRules.paragraph defaultRules.escape
         defaultRules.tableSeparator defaultRules.autolink
         defaultRules.mailto defaultRules.url defaultRules.link
         defaultRules.image defaultRules.reflink defaultRules.refimage
         defaultRules.em defaultRules.strong defaultRules.u
         defaultRules.del defaultRules.inlineCode defaultRules.br
         defaultRules.text];
  unfold TABLES.parseNpTable, TABLES.parseTable, ignoreCapture.

Lemma default_rules_keep_heap name r :
  In (name, r) (named defaultRules.all) ->
  forall cap nested, parser_keeps_heap nested -> keeps_heap (parse r cap nested).
Proof.
  intros Hin cap nested Hn. cbn [named defaultRules.all] in Hin.
  repeat (destruct Hin as [Hin|Hin];
          [apply pair_inv in Hin; destruct Hin as [_ Hin]; subst r;
           default_rule_parse;
           repeat first [ apply parseInline_keeps_heap; assumption
                        | apply parseCaptureInline_keeps_heap; assumption
                        | apply parseTable_keeps_heap; assumption
                        | apply parseItems_keeps_heap; assumption
                        | apply parseRef_keeps_heap
                        | apply parseDef_keeps_heap
                        | keeps_heap_step ]
          |]).
  destruct Hin.
Qed.

Lemma appended_keeps_heap ruleType parsed : keeps_heap (appended ruleType parsed).
Proof.
  destruct parsed; cbn [appended]; try apply keeps_heap_throw; try apply keeps_heap_ret.
  - destruct (is_nullish _); apply keeps_heap_ret.
  - intros st x st'. destruct (nth_error (heap st) a) as [v|] eqn:E; [|discriminate].
    destruct v as [| | | | | |o| | |]; try discriminate.
    destruct (is_nullish _) eqn:N; intro H; inversion H; subst;
      [|apply heap_kept_refl].
    cbn [heap]. apply (@replaced_kept a o _ (heap st) E).
    unfold output_type. destruct (get (str "type") o); discriminate.
Qed.

Lemma parseStep_keeps_heap nested source :
  parser_keeps_heap nested -> keeps_heap (parseStep defaultRules.all nested source).
Proof.
  intros Hn st x st'. unfold parseStep.
  destruct (pickRule defaultRules.all source st) as [[[t r] cap]|] eqn:P; [|discriminate].
  destruct (pickRule_from_table _ _ _ P) as [name Hin].
  assert (K : keeps_heap (parsed <- parse r cap nested ;;
                          nodes <- appended t parsed ;;
                          write "prevCapture" (VCapture cap) ;;;
                          ret (cap, nodes, substring_from (List.length (group 0 cap)) source))).
  { apply keeps_heap_bind; [eapply default_rules_keep_heap; eauto|]. intro parsed.
    apply keeps_heap_bind; [apply appended_keeps_heap|]. intro nodes.
    repeat keeps_heap_step. }
  apply K.
Qed.

Lemma parseLoop_keeps_heap fuel :
  forall source result, keeps_heap (parseLoop defaultRules.all fuel source result).
Proof.
  induction fuel as [|fuel IH]; intros source result; cbn [parseLoop];
    destruct source as [|a source]; try apply keeps_heap_ret; try apply keeps_heap_throw.
  apply keeps_heap_bind.
  - apply parseStep_keeps_heap. intro src. apply IH.
  - intros [[cap nodes] source']. apply IH.
Qed.

(** A parse of the rule [name] that, if it returns, gives a node of an
    output type, or one without a type where the rule has an output
    function. *)
Definition gives_node (name : jsstring) (x : M value) : Prop :=
  forall st v st', x st = Ok (v, st') -> open_node name (heap st') v.

Lemma gives_node_ret name o : open_type name o = true -> gives_node name (ret (VObj o)).
Proof. intros T st v st' H. inversion H; subst. exact T. Qed.

Lemma gives_node_throw name e : gives_node name (throw e).
Proof. intros st v st' H. discriminate. Qed.

Lemma gives_node_bind {A} name (x : M A) (f : A -> M value) :
  (forall a, gives_node name (f a)) -> gives_node name (bind x f).
Proof.
  intros Hf st v st'. unfold bind.
  destruct (x st) as [[a st1]|]; [|discriminate]. apply Hf.
Qed.

Lemma open_type_set name k v o :
  str_eqb (str "type") k = false -> open_type name (set k v o) = open_type name o.
Proof.
  intro H. unfold open_type. rewrite output_type_set by exact H.
  rewrite get_set_other; [reflexivity|].
  intro E. rewrite E, str_eqb_refl in H. discriminate.
Qed.

Lemma parseRef_gives_node name cap refNode :
  open_type name refNode = true -> gives_node name (parseRef cap refNode).
Proof.
  intros T st v st'. unfold parseRef.
  destruct (orEmptyObject (sget "_refs" st)); try discriminate.
  destruct (if truthy (Dict.lookup _ _) then _ else _); try discriminate.
  intro H. inversion H; subst. cbn [heap open_node].
  eexists. split; [apply nth_error_end|].
  destruct (_ && _); [|exact T]. now rewrite !open_type_set by reflexivity.
Qed.

Lemma parseDef_gives_node cap nested : gives_node (str "def") (parseDef cap nested).
Proof.
  intros st v st'. unfold parseDef.
  destruct (if truthy (sget "_refs" st) && _ then _ else _) as [h|]; [|discriminate].
  destruct (orEmptyObject (sget "_defs" st)); try discriminate.
  intro H. inversion H; subst. reflexivity.
Qed.

Ltac gives_node_step :=
  match goal with
  | |- gives_node _ (ret (VObj _)) => apply gives_node_ret; reflexivity
  | |- gives_node _ (throw _) => apply gives_node_throw
  | |- gives_node _ (bind _ _) => apply gives_node_bind; intro
  | |- gives_node _ (parseRef _ _) => apply parseRef_gives_node; reflexivity
  | |- gives_node _ (parseDef _ _) => apply parseDef_gives_node
  | |- gives_node _ (match ?x with _ => _ end) => destruct x
  | |- gives_node _ (if ?x then _ else _) => destruct x
  end.

(** The parse of each default rule gives one node, an object or a
    reference to one.  The node has the type of a default rule that has
    an output function, or it has no type and the rule itself has an
    output function. *)
Lemma default_rules_give_nodes name r :
  In (name, r) (named defaultRules.all) ->
  forall cap nested, gives_node name (parse r cap nested).
Proof.
  intros Hin cap nested. cbn [named defaultRules.all] in Hin.
  repeat (destruct Hin as [Hin|Hin];
          [apply pair_inv in Hin; destruct Hin as [Hname Hin]; subst name r;
           default_rule_parse;
           unfold parseCaptureInline, TABLES.parseTableWith;
           repeat gives_node_step
          |]).
  destruct Hin.
Qed.

(** The rule a round chooses is the rule of its name in the table. *)
Lemma ruleLoop_lookup rules source st later :
  forall t r best t' r' cap,
    lookup t (named rules) = Some r ->
    (forall t0 r0 c0, bestMatch best = Some (t0, r0, c0) ->
                      lookup t0 (named rules) = Some r0) ->
    bestMatch (ruleLoop rules source st t r later best) = Some (t', r', cap) ->
    lookup t' (named rules) = Some r'.
Proof.
  assert (T : forall t r best,
             lookup t (named rules) = Some r ->
             (forall t0 r0 c0, bestMatch best = Some (t0, r0, c0) ->
                               lookup t0 (named rules) = Some r0) ->
             forall t0 r0 c0,
               bestMatch (tryRule source st t r best) = Some (t0, r0, c0) ->
               lookup t0 (named rules) = Some r0).
  { intros t r best Ht Hb t0 r0 c0. rewrite tryRule_eq.
    destruct (match_of r source st) as [c|]; [|apply Hb].
    destruct (beats _ _); [|apply Hb]. cbn [bestMatch]. intro H.
    apply some_inv in H. apply pair_inv in H. destruct H as [H _].
    apply pair_inv in H. destruct H as [<- <-]. exact Ht. }
  induction later as [|next later IH]; intros t r best t' r' cap Ht Hb;
    cbn [ruleLoop].
  - apply T; assumption.
  - destruct (lookup next (named rules)) as [nextRule|] eqn:L; [|apply T; assumption].
    destruct (_ || _); [|apply T; assumption].
    apply IH; [exact L|]. apply T; assumption.
Qed.

Lemma pickRule_lookup rules source st t r cap :
  pickRule rules source st = Ok (t, r, cap) -> lookup t (named rules) = Some r.
Proof.
  unfold pickRule. destruct (ruleList rules) as [|first later]; [discriminate|].
  destruct (lookup first (named rules)) as [currRule|] eqn:L; [|discriminate].
  destruct (bestMatch _) as [[[t' r'] cap']|] eqn:B; [|discriminate].
  destruct (negb _); [discriminate|]. intro H.
  apply ok_triple_inv in H. destruct H as [<- [<- <-]].
  eapply ruleLoop_lookup; [exact L| |exact B].
  intros ? ? ? H0. discriminate.
Qed.

Lemma lookup_in_table name (rs : list (jsstring * Rule)) r :
  lookup name rs = Some r -> In (name, r) rs.
Proof.
  induction rs as [|[k r'] rs IH]; cbn [lookup]; [discriminate|].
  destruct (str_eqb name k) eqn:E.
  - intro H. apply some_inv in H. subst r'. apply str_eqb_eq in E. subst k. now left.
  - intro H. right. auto.
Qed.

Lemma appended_output ruleType parsed st nodes st' :
  open_node ruleType (heap st) parsed ->
  appended ruleType parsed st = Ok (nodes, st') ->
  Forall (output_node (heap st')) nodes.
Proof.
  intros Hp. destruct parsed as [| | | | | |o| |a|]; cbn [open_node] in Hp;
    try contradiction; cbn [appended].
  - unfold open_type in Hp.
    destruct (is_nullish (get (str "type") o)) eqn:N; intro H; inversion H; subst;
      constructor; try constructor; cbn [output_node].
    + unfold output_type in *. rewrite get_set_same.
      destruct (get (str "type") o); try discriminate; exact Hp.
    + now rewrite andb_false_l, orb_false_r in Hp.
  - destruct Hp as [o [E Hp]]. rewrite E. unfold open_type in Hp.
    assert (L : a < List.length (heap st)) by (apply nth_error_Some; congruence).
    destruct (is_nullish (get (str "type") o)) eqn:N; intro H; inversion H; subst;
      constructor; try constructor; cbn [output_node heap].
    + eexists. split; [apply (@replaced_same a _ (heap st) L)|].
      unfold output_type in *. rewrite get_set_same.
      destruct (get (str "type") o); try discriminate; exact Hp.
    + exists o. split; [exact E|]. now rewrite andb_false_l, orb_false_r in Hp.
Qed.

Lemma parseStep_output nested source st cap nodes source' st' :
  parseStep defaultRules.all nested source st = Ok (cap, nodes, source', st') ->
  Forall (output_node (heap st')) nodes.
Proof.
  unfold parseStep.
  destruct (pickRule defaultRules.all source st) as [[[t r] c]|] eqn:P; [|discriminate].
  pose proof (@lookup_in_table _ _ _ (@pickRule_lookup _ _ _ _ _ _ P)) as Hin.
  unfold bind.
  destruct (parse r c nested st) as [[parsed st1]|] eqn:E; [|discriminate].
  apply (@default_rules_give_nodes _ _ Hin) in E.
  destruct (appended t parsed st1) as [[ns st2]|] eqn:A; [|discriminate].
  apply (@appended_output _ _ _ _ _ E) in A.
  cbn. intro H. inversion H; subst. exact A.
Qed.

Lemma parseLoop_output fuel :
  forall source result st nodes st',
    Forall (output_node (heap st)) result ->
    parseLoop defaultRules.all fuel source result st = Ok (nodes, st') ->
    Forall (output_node (heap st')) nodes.
Proof.
  induction fuel as [|fuel IH]; intros source result st nodes st' Hr;
    cbn [parseLoop]; destruct source as [|a source].
  - intro H. inversion H; subst. exact Hr.
  - discriminate.
  - intro H. inversion H; subst. exact Hr.
  - unfold bind at 1.
    destruct (parseStep _ _ _ _) as [[[[cap ns] source'] st1]|] eqn:E; [|discriminate].
    apply IH. apply Forall_app. split.
    + assert (K : heap_kept (heap st) (heap st1)).
      { eapply (@parseStep_keeps_heap (fun src => parseLoop defaultRules.all fuel src [])).
        - intro src. apply parseLoop_keeps_heap.
        - exact E. }
      eapply Forall_impl; [|exact Hr]. intro node. now apply output_node_kept.
    + eapply parseStep_output; eauto.
Qed.

(** Every node of a parse with the default rules has a type with an
    output function.  Whatever the state the parse starts from, each node
    it returns is an object, or a reference to an object in the store of
    the state it ends in, whose [type] is the name of a default rule that
    has an [html] function.  The rules without one ([nptable],
    [lheading], [fence], [escape], [autolink], [mailto], [url], [reflink]
    and [refimage]) give their nodes the type of a rule that has; the
    nodes of the others have the type the rule's parse gave them or,
    without one, the rule's own name. *)
Theorem default_nodes_have_output (fuel : nat) (source : jsstring)
    (state : option State) (nodes : list value) (state' : State) :
  defaultRawParse fuel source state = Ok (nodes, state') ->
  Forall (output_node (heap state')) nodes.
Proof.
  unfold defaultRawParse, parserFor, outerParse, nestedParse.
  apply parseLoop_output. constructor.
Qed.

(** A reference link before an autolink and a table without outer
    pipes. *)
Definition mixed_source : jsstring :=
  str "[a][b] <http://c.d>" ++ [LF; LF] ++ str "e|f" ++ [LF] ++ str "-|-" ++ [LF]
  ++ str "g|h" ++ [LF].

Definition mixed_result : list value * State :=
  match defaultRawParse 12 mixed_source None with
  | Ok x => x
  | Throw _ => ([], empty_state)
  end.

Lemma default_nodes_have_output_witness :
  Forall (output_node (heap (snd mixed_result))) (fst mixed_result).
Proof.
  apply (@default_nodes_have_output 12 mixed_source None).
  vm_compute. reflexivity.
Defined.

Definition node_type (h : list value) (node : value) : value :=
  match node with
  | VObj o => get (str "type") o
  | VRef a => match nth_error h a with
              | Some (VObj o) => get (str "type") o
              | _ => VUndef
              end
  | _ => VUndef
  end.

Example mixed_types :
  List.map (node_type (heap (snd mixed_result))) (fst mixed_result)
  = [ VStr (str "paragraph"); VStr (str "table") ].
Proof. vm_compute. reflexivity. Qed.

(** ** When the dispatcher finds no rule, and which rule it finds *)

Section Dispatch.

Variable rules : Rules.

Lemma ruleList_resolves name :
  In name (ruleList rules) -> lookup name (named rules) <> None.
Proof.
  intro H. apply matching_names_resolve.
  apply (Permutation_in _ (sort_by_perm (compareRules rules) _) H).
Qed.

(** No rule of the list matches. *)
Definition none_matches (source : jsstring) (st : State) (names : list jsstring) : Prop :=
  forall n r, In n names -> lookup n (named rules) = Some r -> match_of r source st = None.

Lemma tryRule_none source st t r best :
  bestMatch (tryRule source st t r best) = None ->
  no_quality_yet best ->
  match_of r source st = None /\ bestMatch best = None.
Proof.
  rewrite tryRule_eq. intros H Hb.
  destruct (match_of r source st) as [c|]; [|auto].
  destruct (bestMatch best) eqn:B.
  - destruct (beats _ _); cbn [bestMatch] in H; congruence.
  - rewrite (Hb B) in H. cbn [beats bestMatch] in H. discriminate.
Qed.

Lemma tryRule_skip source st t r best :
  match_of r source st = None -> tryRule source st t r best = best.
Proof. intro M. now rewrite tryRule_eq, M. Qed.

Lemma ruleLoop_none source st later :
  forall t r best,
    no_quality_yet best ->
    Forall (fun n => lookup n (named rules) <> None) later ->
    bestMatch (ruleLoop rules source st t r later best) = None ->
    match_of r source st = None
    /\ bestMatch best = None
    /\ forall n r', In n later -> lookup n (named rules) = Some r' ->
                    match_of r' source st = None.
Proof.
  induction later as [|next later IH]; intros t r best Hb Hl H; cbn [ruleLoop] in H.
  - destruct (@tryRule_none _ _ _ _ _ H Hb) as [M B]. repeat split; auto.
    intros n r' [].
  - inversion Hl as [|? ? Hn Hl']; subst.
    destruct (lookup next (named rules)) as [nextRule|] eqn:L; [|contradiction].
    destruct (bestMatch (tryRule source st t r best)) eqn:B; cbn [orb] in H.
    + destruct (_ && _).
      * apply IH in H; [|now apply tryRule_no_quality_yet|exact Hl'].
        destruct H as [_ [H _]]. congruence.
      * congruence.
    + apply IH in H; [|now apply tryRule_no_quality_yet|exact Hl'].
      destruct H as [Mn [_ Ml]].
      destruct (@tryRule_none _ _ _ _ _ B Hb) as [M Bb].
      repeat split; auto. intros n r' [<-|Hin] Ln.
      * rewrite L in Ln. apply some_inv in Ln. now subst r'.
      * eauto.
Qed.

Lemma ruleLoop_all_none source st later :
  forall t r,
    match_of r source st = None ->
    (forall n r', In n later -> lookup n (named rules) = Some r' ->
                  match_of r' source st = None) ->
    bestMatch (ruleLoop rules source st t r later no_best) = None.
Proof.
  induction later as [|next later IH]; intros t r M Ml; cbn [ruleLoop];
    rewrite (@tryRule_skip _ _ _ _ _ M); [reflexivity|].
  destruct (lookup next (named rules)) as [nextRule|] eqn:L; [|reflexivity].
  cbn [bestMatch no_best orb]. apply IH.
  - apply (Ml next nextRule); [now left|exact L].
  - intros n r' Hin. apply Ml. now right.
Qed.

(** The table has no rule of the name [undefined], the name under
    which the loop looks for a rule past the end of its list. *)
Definition no_rule_named_undefined : Prop :=
  lookup (str "undefined") (named rules) = None.

(** In a table with a rule that has a match function and without a rule
    of the name [undefined], the dispatcher throws for want of a
    matching rule exactly when no rule of its list matches the source in
    the state; the error names the last rule of the list and the
    source. *)
Theorem no_matching_rule_error (source : jsstring) (st : State) :
  ruleList rules <> [] ->
  no_rule_named_undefined ->
  (pickRule rules source st = Throw (NoMatchingRule (last_of (ruleList rules)) source)
   <-> none_matches source st (ruleList rules)).
Proof.
  intros Hne _. unfold pickRule, none_matches.
  pose proof ruleList_resolves as Hr.
  destruct (ruleList rules) as [|first later] eqn:E; [contradiction|].
  destruct (lookup first (named rules)) as [currRule|] eqn:L;
    [|exfalso; apply (Hr first); [now left|exact L]].
  fold no_best. split.
  - intro H.
    destruct (bestMatch (ruleLoop rules source st first currRule later no_best))
      as [[[t r] cap]|] eqn:B.
    + destruct (negb _); discriminate H.
    + apply ruleLoop_none in B.
      * destruct B as [M [_ Ml]]. intros n r [<-|Hin] Ln.
        -- rewrite L in Ln. apply some_inv in Ln. now subst r.
        -- eauto.
      * intros _. reflexivity.
      * apply Forall_forall. intros n Hn. apply Hr. now right.
  - intro H. rewrite ruleLoop_all_none; [reflexivity| |].
    + apply (H first currRule); [now left|exact L].
    + intros n r' Hin. apply H. now right.
Qed.

(** No rule of the table has a [quality] function. *)
Definition no_qualities : Prop :=
  forall n r, In (n, r) (named rules) -> quality r = None.

Lemma ruleLoop_first source st later :
  no_qualities ->
  forall t r t' r' cap,
    lookup t (named rules) = Some r ->
    Forall (fun n => lookup n (named rules) <> None) later ->
    bestMatch (ruleLoop rules source st t r later no_best) = Some (t', r', cap) ->
    exists before after,
      t :: later = before ++ t' :: after
      /\ lookup t' (named rules) = Some r'
      /\ match_of r' source st = Some cap
      /\ none_matches source st before.
Proof.
  intro Hq. induction later as [|next later IH]; intros t r t' r' cap Lt Hl H;
    cbn [ruleLoop] in H; rewrite tryRule_eq in H.
  - destruct (match_of r source st) as [c|] eqn:M; [|discriminate].
    cbn [beats bestQuality no_best bestMatch] in H.
    apply some_inv in H. apply pair_inv in H. destruct H as [H <-].
    apply pair_inv in H. destruct H as [<- <-].
    exists [], []. repeat split; auto. intros n r0 [].
  - inversion Hl as [|? ? Hn Hl']; subst.
    destruct (lookup next (named rules)) as [nextRule|] eqn:L; [|contradiction].
    destruct (match_of r source st) as [c|] eqn:M.
    + cbn [beats bestQuality no_best bestMatch orb] in H.
      assert (Q : has_quality nextRule = false).
      { unfold has_quality. now rewrite (Hq _ _ (@lookup_in_table _ _ _ L)). }
      rewrite Q, andb_false_r in H. cbn [bestMatch] in H.
      apply some_inv in H. apply pair_inv in H. destruct H as [H <-].
      apply pair_inv in H. destruct H as [<- <-].
      exists [], (next :: later). repeat split; auto. intros n r0 [].
    + cbn [bestMatch no_best orb] in H.
      destruct (IH _ _ _ _ _ L Hl' H) as [before [after [E [L' [M' N]]]]].
      exists (t :: before), after. rewrite E. repeat split; auto.
      intros n r0 [<-|Hin] Ln.
      * rewrite Lt in Ln. apply some_inv in Ln. now subst r0.
      * eauto.
Qed.

(** The first match wins.  For a table of rules without [quality]
    functions, the rule that the dispatcher chooses is the first rule of
    its list that matches: it matches with the capture of the round, and
    no rule before it in the list matches. *)
Theorem first_match_wins (source : jsstring) (st : State) (t : jsstring)
    (r : Rule) (cap : Match) :
  no_qualities ->
  pickRule rules source st = Ok (t, r, cap) ->
  exists before after,
    ruleList rules = before ++ t :: after
    /\ lookup t (named rules) = Some r
    /\ match_of r source st = Some cap
    /\ none_matches source st before.
Proof.
  intros Hq. unfold pickRule.
  pose proof ruleList_resolves as Hr.
  destruct (ruleList rules) as [|first later] eqn:E; [discriminate|].
  destruct (lookup first (named rules)) as [currRule|] eqn:L; [|discriminate].
  fold no_best.
  destruct (bestMatch (ruleLoop rules source st first currRule later no_best))
    as [[[t' r'] cap']|] eqn:B; [|discriminate].
  destruct (negb _); [discriminate|]. intro H.
  apply ok_triple_inv in H. destruct H as [<- [<- <-]].
  eapply ruleLoop_first; eauto.
  apply Forall_forall. intros n Hn. apply Hr. now right.
Qed.

End Dispatch.

(** Two rules without a quality: [word] takes letters, [item] any one
    code unit. *)
Definition WORD_R : RegExp := Eval vm_compute in re_ "^[a-z]+".

Definition word_and_item_rules : Rules :=
  {| Array := None;
     named := [ (str "item",
                 {| order := 1; rmatch := Some (anyScopeRegex ANY_CHAR_R);
                    quality := None; parse := fun _ _ => ret (VObj []);
                    html := None |});
                (str "word",
                 {| order := 0; rmatch := Some (anyScopeRegex WORD_R);
                    quality := None; parse := fun _ _ => ret (VObj []);
                    html := None |}) ] |}.

Definition item_choice : jsstring * Rule * Match :=
  match pickRule word_and_item_rules (str "?ab") empty_state with
  | Ok x => x
  | Throw _ => ([], {| order := 0; rmatch := None; quality := None;
                       parse := fun _ _ => ret VUndef; html := None |},
                {| index := 0; captures := [] |})
  end.

Lemma first_match_wins_witness :
  exists before after,
    ruleList word_and_item_rules = before ++ fst (fst item_choice) :: after
    /\ lookup (fst (fst item_choice)) (named word_and_item_rules)
       = Some (snd (fst item_choice))
    /\ match_of (snd (fst item_choice)) (str "?ab") empty_state = Some (snd item_choice)
    /\ none_matches word_and_item_rules (str "?ab") empty_state before.
Proof.
  apply (@first_match_wins word_and_item_rules (str "?ab") empty_state
           (fst (fst item_choice)) (snd (fst item_choice)) (snd item_choice)).
  - intros n r [H|[H|[]]]; inversion H; reflexivity.
  - reflexivity.
Defined.

(** A table of the rule [word] alone, and a source that it does not
    match. *)
Definition word_rules : Rules :=
  {| Array := None;
     named := [ (str "word",
                 {| order := 0; rmatch := Some (anyScopeRegex WORD_R);
                    quality := None; parse := fun _ _ => ret (VObj []);
                    html := None |}) ] |}.

Lemma no_matching_rule_error_witness :
  pickRule word_rules (str "?a") empty_state
  = Throw (NoMatchingRule (last_of (ruleList word_rules)) (str "?a"))
  /\ none_matches word_rules (str "?a") empty_state (ruleList word_rules).
Proof.
  assert (N : none_matches word_rules (str "?a") empty_state (ruleList word_rules)).
  { intros n r [<-|[]] L. vm_compute in L. inversion L; subst r.
    vm_compute. reflexivity. }
  split; [|exact N].
  apply (@no_matching_rule_error word_rules (str "?a") empty_state);
    [discriminate|reflexivity|exact N].
Defined.

(** The error of that round names [word] and the source; on a source
    that [word] matches the round throws nothing. *)
Example word_rule_error :
  pickRule word_rules (str "?a") empty_state
  = Throw (NoMatchingRule (Some (str "word")) (str "?a"))
  /\ exists r cap, pickRule word_rules (str "a?") empty_state
                   = Ok (str "word", r, cap)
                   /\ group 0 cap = str "a".
Proof.
  split; [vm_compute; reflexivity|].
  eexists. eexists. split; vm_compute; reflexivity.
Qed.

Example word_rule_is_tried_first :
  ruleList word_and_item_rules = [ str "word"; str "item" ]
  /\ fst (fst item_choice) = str "item".
Proof. split; reflexivity. Qed.

(** ** Top-level blocks are whole lines *)

Lemma tail_shape_line source :
  tail_shape source -> source <> [] -> ends_in_line_feed source.
Proof.
  intros [H|[H|[x H]]] Hne; [contradiction| |].
  - exists []. exact H.
  - exists (x ++ [LF]). rewrite <- app_assoc. exact H.
Qed.

Lemma top_round_line nested source st cap nodes source' st' :
  parser_scoped nested ->
  scope_of st = false -> prev_ok st -> tail_shape source -> source <> [] ->
  parseStep defaultRules.all nested source st = Ok (cap, nodes, source', st') ->
  ends_in_line_feed (group 0 cap).
Proof.
  intros Hn Hs Hp Ht Hne H.
  destruct (@parseStep_pick _ _ _ _ _ _ _ _ H) as [t [r P]].
  destruct (@pickRule_is_match _ _ _ _ _ _ P) as [_ I].
  pose proof (@block_choice source st t r cap (@tail_shape_match source st Hs Hne Ht) P)
    as [R [pre [E [W Hpre]]]].
  assert (pre = []) as ->.
  { destruct Hpre as [->|[lb [L ->]]]; [reflexivity|].
    eapply lookbehind_indent; [|exact L]. exact Hp. }
  cbn [app] in E.
  destruct (@exec_text R source cap E I) as [s' [Es G]].
  destruct (G W) as [G0| ->]; [exact G0|].
  rewrite app_nil_r in Es. rewrite <- Es. now apply tail_shape_line.
Qed.

Lemma top_rounds_lines fuel :
  forall source result st nodes st',
    scope_of st = false -> source = [] \/ prev_ok st -> tail_shape source ->
    parseLoop defaultRules.all fuel source result st = Ok (nodes, st') ->
    Forall (fun r => ends_in_line_feed (group 0 (snd r)))
      (rounds defaultRules.all fuel source st).
Proof.
  induction fuel as [|fuel IH]; intros source result st nodes st' Hs Hp Ht;
    cbn [parseLoop rounds]; destruct source as [|a source]; try discriminate;
    try (intros _; constructor).
  unfold bind at 1.
  destruct (parseStep _ _ _ _) as [[[[cap ns] source'] st1]|] eqn:E; [|discriminate].
  intro H.
  assert (Hp' : prev_ok st) by (destruct Hp as [Hp|Hp]; [discriminate|exact Hp]).
  assert (Hn : parser_scoped (fun src => parseLoop defaultRules.all fuel src []))
    by (intro src; apply parseLoop_scoped).
  destruct (@top_round _ _ _ _ _ _ _ Hn Hs Hp' Ht ltac:(discriminate) E)
    as [Es [Hs1 [Hp1 Ht1]]].
  constructor.
  - cbn [snd]. exact (@top_round_line _ _ _ _ _ _ _ Hn Hs Hp' Ht ltac:(discriminate) E).
  - exact (@IH _ _ _ _ _ Hs1 Hp1 Ht1 H).
Qed.

(** Top-level blocks are whole lines.  In a parse by the default block
    entry point with [disableAutoBlockNewlines] falsy, the full match of
    every round of the top-level loop ends in a line feed: with the
    rounds following one another without a gap, every top-level node
    covers whole lines of the preprocessed text, and the next round
    starts at the start of a line. *)
Theorem top_level_blocks_are_whole_lines (fuel : nat) (source : jsstring)
    (state : option State) (nodes : list value) (state' : State) :
  truthy (sget "disableAutoBlockNewlines" (orEmptyState state)) = false ->
  defaultBlockParse fuel source state = Ok (nodes, state') ->
  Forall (fun r => ends_in_line_feed (group 0 (snd r)))
    (blockRounds fuel source state).
Proof.
  intros Hd H. rewrite defaultBlockParse_eq in H. cbv zeta in H.
  unfold blockRounds. cbv zeta.
  rewrite (suffixed_block source state Hd) in *.
  eapply top_rounds_lines; [| | |exact H].
  - rewrite scope_of_sset_other by reflexivity. apply scope_of_sset_inline.
  - right. left. unfold prevCaptureStr, sget, sset. cbn [fields].
    now rewrite get_set_same.
  - right. right. apply preprocess_blank_line.
Qed.

(** A heading, a list and a paragraph that ends the source without a
    line feed. *)
Definition three_blocks_source : jsstring :=
  str "# a" ++ [LF; LF] ++ str "- b" ++ [LF] ++ str "- c" ++ [LF; LF] ++ str "d".

Lemma top_level_blocks_are_whole_lines_witness :
  Forall (fun r => ends_in_line_feed (group 0 (snd r)))
    (blockRounds 8 three_blocks_source (Some empty_state)).
Proof.
  apply (@top_level_blocks_are_whole_lines 8 three_blocks_source (Some empty_state)
           (parsed_nodes 8 three_blocks_source empty_state)
           (parsed_with 8 three_blocks_source empty_state)).
  - vm_compute. reflexivity.
  - vm_compute. reflexivity.
Defined.

Example three_blocks_rounds :
  List.map (fun r => group 0 (snd r)) (blockRounds 8 three_blocks_source (Some empty_state))
  = [ str "# a" ++ [LF; LF];
      str "- b" ++ [LF] ++ str "- c" ++ [LF; LF];
      str "d" ++ [LF; LF] ].
Proof. vm_compute. reflexivity. Qed.

(** ** The level of a heading *)

(** A matcher that succeeds has called its continuation with success,
    with captures in relation [R] to those it began with. *)
Definition through_caps (R : caps -> caps -> Prop)
    (f : pos -> caps -> K -> option (pos * caps)) : Prop :=
  forall p c k res, f p c k = Some res -> exists p' c', k p' c' = Some res /\ R c c'.

(** The captures [c'] have capture [i] as [c] has it, and are as many. *)
Definition same_cap (i : nat) (c c' : caps) : Prop :=
  get_cap i c' = get_cap i c /\ List.length c' = List.length c.

Lemma same_cap_refl i c : same_cap i c c.
Proof. split; reflexivity. Qed.

Lemma same_cap_trans i c1 c2 c3 : same_cap i c1 c2 -> same_cap i c2 c3 -> same_cap i c1 c3.
Proof. intros [A1 L1] [A2 L2]. split; congruence. Qed.

Lemma set_cap_length j v : forall c, List.length (set_cap j v c) = List.length c.
Proof.
  induction j as [|j IH]; intros [|x c]; cbn [set_cap List.length]; auto.
Qed.

Lemma get_set_cap_other i j v : forall c, i <> j -> get_cap i (set_cap j v c) = get_cap i c.
Proof.
  unfold get_cap. revert i. induction j as [|j IH]; intros i [|x c] N;
    cbn [set_cap]; try reflexivity.
  - destruct i; [contradiction|reflexivity].
  - destruct i; [reflexivity|]. cbn [nth]. apply IH. auto.
Qed.

Lemma get_set_cap_same i v : forall c, i < List.length c -> get_cap i (set_cap i v c) = v.
Proof.
  unfold get_cap. induction i as [|i IH]; intros [|x c] L; cbn [List.length] in L;
    try lia; cbn [set_cap nth]; [reflexivity|]. apply IH. lia.
Qed.

Lemma set_cap_same_cap i j v c : i <> j -> same_cap i c (set_cap j v c).
Proof. intro N. split; [now apply get_set_cap_other|apply set_cap_length]. Qed.

Lemma clear_caps_same_cap i gs : forall c, ~ In i gs -> same_cap i c (clear_caps gs c).
Proof.
  unfold clear_caps. induction gs as [|g gs IH]; intros c N; cbn [fold_left];
    [apply same_cap_refl|].
  eapply same_cap_trans; [apply (@set_cap_same_cap i g None c)|apply IH].
  - intro E. apply N. now left.
  - intro H. apply N. now right.
Qed.

Lemma repeat_matcher_caps (R : caps -> caps -> Prop) body greedy :
  (forall c, R c c) -> (forall c1 c2 c3, R c1 c2 -> R c2 c3 -> R c1 c3) ->
  through_caps R body ->
  forall fuel mn mx k p c res,
    repeat_matcher body greedy k fuel mn mx p c = Some res ->
    exists p' c', k p' c' = Some res /\ R c c'.
Proof.
  intros Hrefl Htrans Hb. induction fuel as [|fuel IH]; intros mn mx k p c res;
    cbn [repeat_matcher]; [discriminate|].
  assert (Round : body p c (fun p' c' =>
                     if Nat.eqb mn 0 && Nat.eqb (idx p') (idx p) then None
                     else repeat_matcher body greedy k fuel
                            (Nat.pred mn) (option_map Nat.pred mx) p' c') = Some res ->
                  exists p' c', k p' c' = Some res /\ R c c').
  { intro H. apply Hb in H. destruct H as [p1 [c1 [H R1]]].
    destruct (_ && _); [discriminate|].
    apply IH in H. destruct H as [p2 [c2 [H R2]]]. eauto. }
  assert (Here : k p c = Some res -> exists p' c', k p' c' = Some res /\ R c c')
    by (intro H; eauto).
  destruct mx as [[|mx]|]; [exact Here| |];
    (destruct (negb (Nat.eqb mn 0)); [exact Round|];
     destruct greedy; intro H; apply orelse_some in H; destruct H; auto).
Qed.

(** A pattern leaves alone the captures of the groups that are not in
    it. *)
Lemma m_keeps_cap ic ml i r :
  ~ In i (groups_in r) -> through_caps (same_cap i) (m ic ml r).
Proof.
  induction r as [|cs|a IHa b IHb|a IHa b IHb|g mn mx a IHa|j a IHa|j|pos a IHa| | |pos];
    intros N p c k res; cbn [m groups_in] in *.
  - intro H. exists p, c. split; [exact H|apply same_cap_refl].
  - destruct (rest p); [discriminate|]. destruct (cs_mem _ _ _); [|discriminate].
    intro H. eexists _, c. split; [exact H|apply same_cap_refl].
  - intro H. apply IHa in H; [|intro X; apply N, in_or_app; now left].
    destruct H as [p1 [c1 [H R1]]].
    apply IHb in H; [|intro X; apply N, in_or_app; now right].
    destruct H as [p2 [c2 [H R2]]]. exists p2, c2. split; [exact H|].
    eapply same_cap_trans; eauto.
  - intro H. apply orelse_some in H. destruct H as [H|H].
    + apply IHa in H; [exact H|intro X; apply N, in_or_app; now left].
    + apply IHb in H; [exact H|intro X; apply N, in_or_app; now right].
  - apply (@repeat_matcher_caps (same_cap i)); [apply same_cap_refl|apply same_cap_trans|].
    intros p0 c0 k0 res0 H. apply (IHa N) in H. destruct H as [p1 [c1 [H R1]]].
    exists p1, c1. split; [exact H|].
    eapply same_cap_trans; [apply clear_caps_same_cap; exact N|exact R1].
  - intro H. apply IHa in H; [|intro X; apply N; now right].
    destruct H as [p1 [c1 [H R1]]]. eexists p1, _. split; [exact H|].
    eapply same_cap_trans; [exact R1|apply set_cap_same_cap].
    intro E. apply N. now left.
  - destruct (get_cap j c).
    + destruct (prefix_eqb _ _ _); [|discriminate].
      intro H. eexists _, c. split; [exact H|apply same_cap_refl].
    + intro H. exists p, c. split; [exact H|apply same_cap_refl].
  - destruct (m ic ml a p c (fun p' c' => Some (p', c'))) as [[q c1]|] eqn:E.
    + destruct pos; [|discriminate]. intro H. exists p, c1. split; [exact H|].
      apply (IHa N) in E. destruct E as [p2 [c2 [E R2]]].
      apply some_inv in E. apply pair_inv in E. destruct E as [_ <-]. exact R2.
    + destruct pos; [discriminate|]. intro H. exists p, c. split; [exact H|apply same_cap_refl].
  - destruct (at_bol _ _); [|discriminate].
    intro H. exists p, c. split; [exact H|apply same_cap_refl].
  - destruct (at_eol _ _); [|discriminate].
    intro H. exists p, c. split; [exact H|apply same_cap_refl].
  - destruct (Bool.eqb _ _); [|discriminate].
    intro H. exists p, c. split; [exact H|apply same_cap_refl].
Qed.

Lemma advance_succ n i pv a tl :
  advance (S n) {| idx := i; prev := pv; rest := a :: tl |}
  = advance n {| idx := S i; prev := Some a; rest := tl |}.
Proof. reflexivity. Qed.

(** Rounds of one code unit of a class, [mn] to [mx] of them: the
    continuation is called after that many code units, with the
    captures as they were. *)
Lemma repeat_class_count ic ml cs greedy k :
  forall fuel mn mx p c res,
    mn <= mx ->
    repeat_matcher (fun p0 c0 k0 => m ic ml (RChar cs) p0 (clear_caps [] c0) k0)
      greedy k fuel mn (Some mx) p c = Some res ->
    exists n,
      mn <= n <= mx /\ n <= List.length (rest p)
      /\ idx (advance n p) = idx p + n
      /\ k (advance n p) c = Some res.
Proof.
  induction fuel as [|fuel IH]; intros mn mx p c res Hm; cbn [repeat_matcher];
    [discriminate|].
  assert (Here : mn = 0 -> k p c = Some res ->
                 exists n, mn <= n <= mx /\ n <= List.length (rest p)
                           /\ idx (advance n p) = idx p + n
                           /\ k (advance n p) c = Some res).
  { intros -> H. exists 0. repeat split; try lia.
    - destruct p as [i pv [|a tl]]; cbn; lia.
    - destruct p as [i pv [|a tl]]; exact H. }
  destruct mx as [|mx].
  - apply Here. lia.
  - assert (Round :
      m ic ml (RChar cs) p (clear_caps [] c)
        (fun p' c' =>
           if Nat.eqb mn 0 && Nat.eqb (idx p') (idx p) then None
           else repeat_matcher
                  (fun p0 c0 k0 => m ic ml (RChar cs) p0 (clear_caps [] c0) k0)
                  greedy k fuel (Nat.pred mn) (option_map Nat.pred (Some (S mx))) p' c')
      = Some res ->
      exists n, mn <= n <= S mx /\ n <= List.length (rest p)
                /\ idx (advance n p) = idx p + n
                /\ k (advance n p) c = Some res).
    { cbn [m clear_caps fold_left option_map Nat.pred].
      destruct p as [i pv [|a tl]]; cbn [rest]; [discriminate|].
      destruct (cs_mem ic cs a); [|discriminate].
      cbn [advance rest idx].
      replace (Nat.eqb (S i) i) with false by (symmetry; apply Nat.eqb_neq; lia).
      rewrite andb_false_r. intro H.
      apply IH in H; [|lia]. destruct H as [n [Hn [Hl [Hi Hk]]]].
      exists (S n). cbn [rest idx List.length] in *. rewrite advance_succ.
      repeat split; try lia. exact Hk. }
    destruct (Nat.eqb mn 0) eqn:E0; cbn [negb].
    + apply Nat.eqb_eq in E0.
      destruct greedy; intro H; apply orelse_some in H; destruct H as [H|H]; auto.
    + exact Round.
Qed.

Definition hash_class : charset := {| negated := false; items := [CRange 35 35] |}.

(** What follows the marks in the heading pattern: the text of the
    heading, closing marks, spaces and the blank line. *)
Definition HEADING_TAIL : re :=
  RSeq (RGroup 2 (RRep false 1 None (RChar not_line_feed_class)))
    (RSeq (RRep true 0 None (RChar hash_class))
       (RSeq (RRep true 0 None (RChar space_class))
          (RSeq (RRep true 1 None
                   (RSeq (RChar line_feed_class) (RRep true 0 None (RChar space_class))))
             (RChar line_feed_class)))).

Lemma heading_pattern :
  pattern defaultRules.HEADING_R
  = RSeq RBol
      (RSeq (RRep true 0 None (RChar space_class))
         (RSeq (RGroup 1 (RRep true 1 (Some 6) (RChar hash_class))) HEADING_TAIL)).
Proof. reflexivity. Qed.

(** The first group of a capture of the heading pattern: one to six
    code units. *)
Lemma heading_marks source cap :
  exec defaultRules.HEADING_R source = Some cap ->
  1 <= List.length (group 1 cap) <= 6.
Proof.
  unfold exec. destruct (search_from _ 0 None source) as [[mt q]|] eqn:E; [|discriminate].
  cbn [option_map fst]. intro H. apply some_inv in H. subst mt.
  apply search_from_where in E. destruct E as [pre [pv [s [_ [E _]]]]].
  unfold match_at in E.
  destruct (m _ _ _ _ _ _) as [[p' c']|] eqn:M; [|discriminate].
  apply some_inv in E. apply pair_inv in E. destruct E as [<- _].
  unfold group, capture. cbn [captures idx].
  rewrite heading_pattern in M.
  change (ngroups defaultRules.HEADING_R) with 2 in M.
  rewrite m_seq in M.
  apply (@m_keeps_cap _ _ 1 RBol) in M; [|intros []].
  destruct M as [p0 [c0 [M [_ L0]]]]. rewrite m_seq in M.
  apply (@m_keeps_cap _ _ 1 (RRep true 0 None (RChar space_class))) in M; [|intros []].
  destruct M as [p1 [c1 [M [_ L1]]]]. rewrite m_seq, m_group, m_rep in M.
  apply repeat_class_count in M; [|lia].
  destruct M as [n [Hn [Hl [Hi M]]]].
  apply (@m_keeps_cap _ _ 1 HEADING_TAIL) in M;
    [|cbn; intros [X|[]]; discriminate].
  destruct M as [p2 [c2 [M [G2 L2]]]].
  apply some_inv in M. apply pair_inv in M. destruct M as [_ <-].
  rewrite get_set_cap_same in G2
    by (rewrite L1, L0; cbn [List.length repeat]; lia).
  unfold get_cap in G2. clear L2.
  destruct c2 as [|x0 [|y0 c3]]; cbn [nth List.tl] in *; try discriminate.
  rewrite G2, Hi, length_firstn.
  replace (idx p1 + n - idx p1) with n by lia. lia.
Qed.

(** The level of a heading is between 1 and 6.  For every capture of the
    heading rule, the node that its parse gives has, as [level], the
    number of marks of the capture, a number from 1 to 6: the heading is
    rendered with one of the tags [h1] to [h6]. *)
Theorem heading_level_range (source : jsstring) (st : State) (cap : Match)
    (nested : Parser) (node : value) (st' : State) :
  match_of defaultRules.heading source st = Some cap ->
  parse defaultRules.heading cap nested st = Ok (node, st') ->
  exists level,
    prop "level" node = VNum level /\ (1 <= level <= 6)%Z.
Proof.
  intros Hm Hp. apply block_rule_match, heading_marks in Hm.
  unfold defaultRules.heading, defaultRules.rule in Hp. cbn [parse] in Hp.
  unfold bind in Hp.
  destruct (parseInline nested _ st) as [[content st1]|]; [|discriminate].
  cbn in Hp. inversion Hp; subst.
  exists (Z.of_nat (List.length (group 1 cap))). split; [reflexivity|lia].
Qed.

(** A heading of two marks. *)
Definition heading_source : jsstring := str "## a #" ++ [LF; LF] ++ str "b".

Definition heading_capture : Match :=
  match match_of defaultRules.heading heading_source empty_state with
  | Some cap => cap
  | None => {| index := 0; captures := [] |}
  end.

Definition heading_parsed : value * State :=
  match parse defaultRules.heading heading_capture
          (fun src => parseLoop defaultRules.all 4 src []) empty_state with
  | Ok x => x
  | Throw _ => (VUndef, empty_state)
  end.

Lemma heading_level_range_witness :
  exists level,
    prop "level" (fst heading_parsed) = VNum level /\ (1 <= level <= 6)%Z.
Proof.
  apply (@heading_level_range heading_source empty_state heading_capture
           (fun src => parseLoop defaultRules.all 4 src []) (fst heading_parsed)
           (snd heading_parsed)).
  - vm_compute. reflexivity.
  - vm_compute. reflexivity.
Defined.

Example heading_of_two_marks :
  prop "level" (fst heading_parsed) = VNum 2
  /\ group 0 heading_capture = str "## a #" ++ [LF; LF].
Proof. split; vm_compute; reflexivity. Qed.
